(** * Hyperion runtime: ring buffer, slab allocator, ghost arena, record append

    A shallow embedding of the pieces of the runtime that the
    specification makes promises about, and of the code around them:

    - [RingBuffer]: [include/core/LockFreeRingBuffer.hpp]
    - [Slab]:       [include/memory/SlabAllocator.hpp]
    - [HNSW]:       [core/index/HNSWIndex.hpp]
    - [Ghost]:      [src/mm/MemoryManager.cpp], [include/mm/MemoryManager.hpp]
    - [Tokenizer]:  [src/core/Tokenizer.cpp]
    - [Pipeline]:   [src/core/ProcessingUnit.cpp] ([ProcessDocument],
                    [Ingest], [AnalysisWorker])

    Machine integers are [Z] with the wrap-around written out
    ([wrap64]); memory is byte addressed and little endian. *)

From Stdlib Require Import ZArith Lia Bool.
From Stdlib Require Import Floats.SpecFloat.
From stdpp Require Import base list gmap strings.

Local Open Scope Z_scope.

(** ** Machine words *)

Definition wrap64 (x : Z) : Z := x mod 2 ^ 64.

(** ** The SPSC ring buffer ([LockFreeRingBuffer<T, Capacity>]) *)

Module RingBuffer.

Section Buffer.
Context {T : Type}.
(** The template parameter; the [static_assert] wants a power of two. *)
Variable Capacity : Z.

Record LockFreeRingBuffer : Type := mkRB {
  m_head : Z;
  m_tail : Z;
  m_buffer : list T
}.

(** The constructor sets both indices to 0; the [Capacity] slots hold
    whatever default construction of [T] leaves there. *)
Definition create (slots : list T) : LockFreeRingBuffer :=
  {| m_head := 0; m_tail := 0; m_buffer := slots |}.

(** [bool push(const T& item)] *)
Definition push (item : T) (q : LockFreeRingBuffer) : bool * LockFreeRingBuffer :=
  let current_tail := m_tail q in
  let next_tail := Z.land (wrap64 (current_tail + 1)) (Capacity - 1) in
  let current_head := m_head q in
  if next_tail =? current_head then (false, q)
  else (true, {| m_head := m_head q;
                 m_tail := next_tail;
                 m_buffer := <[Z.to_nat current_tail := item]> (m_buffer q) |}).

(** [std::optional<T> pop()]. Reading a slot is a list lookup; the index
    is below [Capacity] in every reachable state ([reachable_bounds]). *)
Definition pop (q : LockFreeRingBuffer) : option T * LockFreeRingBuffer :=
  let current_head := m_head q in
  let current_tail := m_tail q in
  if current_head =? current_tail then (None, q)
  else
    let item := m_buffer q !! Z.to_nat current_head in
    let next_head := Z.land (wrap64 (current_head + 1)) (Capacity - 1) in
    (item, {| m_head := next_head; m_tail := m_tail q; m_buffer := m_buffer q |}).

(** [const T* peek() const] *)
Definition peek (q : LockFreeRingBuffer) : option T :=
  if m_head q =? m_tail q then None else m_buffer q !! Z.to_nat (m_head q).

(** States a producer and a consumer can drive the buffer into. *)
Inductive reachable : LockFreeRingBuffer -> Prop :=
| reach_create slots :
    Z.of_nat (length slots) = Capacity -> reachable (create slots)
| reach_push q v : reachable q -> reachable (snd (push v q))
| reach_pop q : reachable q -> reachable (snd (pop q)).

(** A script of calls and what each call returned. *)
Inductive call : Type := Push (v : T) | Pop.
Inductive answer : Type := Pushed (ok : bool) | Popped (r : option T).

Fixpoint run (cs : list call) (q : LockFreeRingBuffer) : list answer :=
  match cs with
  | [] => []
  | Push v :: cs' => let '(ok, q') := push v q in Pushed ok :: run cs' q'
  | Pop :: cs' => let '(r, q') := pop q in Popped r :: run cs' q'
  end.
End Buffer.

Arguments LockFreeRingBuffer : clear implicits.

(** Both indices stay below [Capacity], and the array keeps its length. *)
Definition in_bounds {T : Type} (Capacity : Z) (q : LockFreeRingBuffer T) : Prop :=
  0 <= m_head q < Capacity /\ 0 <= m_tail q < Capacity /\
  Z.of_nat (length (m_buffer q)) = Capacity.

(** The capacity-4 scenario of the specification: the calls, the answers
    the specification lists, and the answers the buffer gives. *)
Definition scenario : list (call (T:=Z)) :=
  [ Push 1; Push 2; Push 3; Pop; Push 4; Push 5; Push 6; Pop; Pop; Pop;
    Push 7; Push 8; Push 9; Pop; Pop; Pop; Pop; Pop; Pop ].

Definition scenario_as_specified : list (answer (T:=Z)) :=
  [ Pushed true; Pushed true; Pushed true; Popped (Some 1);
    Pushed true; Pushed true; Pushed false;
    Popped (Some 2); Popped (Some 3); Popped (Some 4);
    Pushed true; Pushed true; Pushed true;
    Popped (Some 5); Popped (Some 6); Popped (Some 7); Popped (Some 8);
    Popped (Some 9); Popped None ].

Definition scenario_as_run : list (answer (T:=Z)) :=
  [ Pushed true; Pushed true; Pushed true; Popped (Some 1);
    Pushed true; Pushed false; Pushed false;
    Popped (Some 2); Popped (Some 3); Popped (Some 4);
    Pushed true; Pushed true; Pushed true;
    Popped (Some 7); Popped (Some 8); Popped (Some 9); Popped None;
    Popped None; Popped None ].

(** *** What the buffer holds *)

Section Contents.
Context {T : Type}.
Variable Capacity : Z.

(** The number of values waiting between [head] and [tail]. *)
Definition count (q : LockFreeRingBuffer T) : Z :=
  (m_tail q - m_head q) mod Capacity.

(** The [n] slots from index [h] on, in the order [pop] reads them. *)
Fixpoint slots_from (buffer : list T) (h : Z) (n : nat) : list (option T) :=
  match n with
  | O => []
  | S n' => buffer !! Z.to_nat h :: slots_from buffer ((h + 1) mod Capacity) n'
  end.

(** The values waiting, oldest first. *)
Definition contents (q : LockFreeRingBuffer T) : list (option T) :=
  slots_from (m_buffer q) (m_head q) (Z.to_nat (count q)).
End Contents.

End RingBuffer.

(** ** Byte-addressed memory

    A memory maps an address to a byte (taken modulo 256). A 64-bit access
    touches the eight bytes from its address on, least significant first. *)

Definition memory : Type := Z -> Z.

Definition byte_at (m : memory) (a : Z) : Z := m a mod 256.

Fixpoint read_le (m : memory) (a : Z) (n : nat) : Z :=
  match n with
  | O => 0
  | S n' => byte_at m a + 256 * read_le m (a + 1) n'
  end.

Definition write_le (m : memory) (a : Z) (n : nat) (v : Z) : memory :=
  fun x =>
    if (a <=? x) && (x <? a + Z.of_nat n)
    then (v / 256 ^ (x - a)) mod 256
    else m x.

Definition read64 (m : memory) (a : Z) : Z := read_le m a 8.
Definition write64 (m : memory) (a v : Z) : memory := write_le m a 8 v.

(** ** The slab allocator ([SlabAllocator]) *)

Module Slab.

(** How a call ends. Besides returning, the source can leave the backing
    region, read a member that was never assigned, or not return. *)
Inductive outcome (A : Type) : Type :=
| Done (a : A)
| OutOfBounds
| Indeterminate
| Diverges.
Arguments Done {A} a.
Arguments OutOfBounds {A}.
Arguments Indeterminate {A}.
Arguments Diverges {A}.

Definition bind {A B : Type} (c : outcome A) (k : A -> outcome B) : outcome B :=
  match c with
  | Done a => k a
  | OutOfBounds => OutOfBounds
  | Indeterminate => Indeterminate
  | Diverges => Diverges
  end.

Notation "x <- c ;; k" := (bind c (fun x => k))
  (at level 100, c at next level, right associativity).

Definition ALIGNMENT : Z := 64.
Definition MIN_BLOCK_SIZE : Z := 128.
Definition sizeof_BlockHeader : Z := 64.   (* alignas(64) *)
Definition sizeof_BlockFooter : Z := 8.
Definition FREE_MASK : Z := 1.
Definition SIZE_MASK : Z := 2 ^ 64 - 2.    (* ~FREE_MASK *)
Definition ALIGN_MASK : Z := 2 ^ 64 - 64.  (* ~(ALIGNMENT - 1), ~63 *)

Record SlabAllocator : Type := mkSlab {
  m_base : Z;                        (* char*: address of the region *)
  m_total_size : Z;
  m_base_offset : Z;
  m_free_list_head_offset : Z;
  m_first_block_offset : option Z;   (* [None] until [Init] assigns it *)
  m_lock : bool;                     (* the spinlock's flag *)
  mem : memory
}.

Definition set_mem (st : SlabAllocator) (m : memory) : SlabAllocator :=
  mkSlab (m_base st) (m_total_size st) (m_base_offset st)
         (m_free_list_head_offset st) (m_first_block_offset st) (m_lock st) m.

Definition set_head (st : SlabAllocator) (h : Z) : SlabAllocator :=
  mkSlab (m_base st) (m_total_size st) (m_base_offset st)
         h (m_first_block_offset st) (m_lock st) (mem st).

Definition set_first (st : SlabAllocator) (f : Z) : SlabAllocator :=
  mkSlab (m_base st) (m_total_size st) (m_base_offset st)
         (m_free_list_head_offset st) (Some f) (m_lock st) (mem st).

Definition set_lock (st : SlabAllocator) (b : bool) : SlabAllocator :=
  mkSlab (m_base st) (m_total_size st) (m_base_offset st)
         (m_free_list_head_offset st) (m_first_block_offset st) b (mem st).

(** [Spinlock::lock] spins while the flag is set; nothing else runs in this
    model, so a held lock is never released. *)
Definition lock (st : SlabAllocator) : outcome SlabAllocator :=
  if m_lock st then Diverges else Done (set_lock st true).

Definition unlock (st : SlabAllocator) : SlabAllocator := set_lock st false.

(** 64-bit accesses through a pointer, confined to the backing region. *)
Definition in_region (st : SlabAllocator) (p : Z) : bool :=
  (m_base st <=? p) && (p + 8 <=? m_base st + m_total_size st).

Definition load (st : SlabAllocator) (p : Z) : outcome Z :=
  if in_region st p then Done (read64 (mem st) p) else OutOfBounds.

Definition store (st : SlabAllocator) (p v : Z) : outcome SlabAllocator :=
  if in_region st p then Done (set_mem st (write64 (mem st) p v)) else OutOfBounds.

(** [BlockHeader] members, on the header at address [h]. *)
Definition GetSize (st : SlabAllocator) (h : Z) : outcome Z :=
  w <- load st h ;; Done (Z.land w SIZE_MASK).

Definition IsFree (st : SlabAllocator) (h : Z) : outcome bool :=
  w <- load st h ;; Done (negb (Z.land w FREE_MASK =? 0)).

Definition tag (size : Z) (free : bool) : Z :=
  Z.lor (Z.land size SIZE_MASK) (if free then FREE_MASK else 0).

Definition Set_ (st : SlabAllocator) (h size : Z) (free : bool) : outcome SlabAllocator :=
  store st h (tag size free).

Definition SetFree (st : SlabAllocator) (h : Z) (free : bool) : outcome SlabAllocator :=
  w <- load st h ;;
  store st h (if free then Z.lor w FREE_MASK else Z.land w SIZE_MASK).

Definition SetSize (st : SlabAllocator) (h size : Z) : outcome SlabAllocator :=
  free <- IsFree st h ;;
  store st h (tag size free).

(** [FreeNode] fields of the node at address [p]. *)
Definition next_field (p : Z) : Z := p.
Definition prev_field (p : Z) : Z := wrap64 (p + 8).

(** Private helpers of [SlabAllocator]. *)
Definition GetPtr (st : SlabAllocator) (offset : Z) : Z :=
  wrap64 (m_base st + wrap64 (offset - m_base_offset st)).

Definition GetPayload (header : Z) : Z := wrap64 (header + sizeof_BlockHeader).

Definition GetFooter (st : SlabAllocator) (header : Z) : outcome Z :=
  sz <- GetSize st header ;;
  Done (wrap64 (wrap64 (header + sz) - sizeof_BlockFooter)).

Definition UpdateFooter (st : SlabAllocator) (header : Z) : outcome SlabAllocator :=
  footer <- GetFooter st header ;;
  w <- load st header ;;
  store st footer w.

Definition InsertHead (st : SlabAllocator) (offset : Z) : outcome SlabAllocator :=
  let header := GetPtr st offset in
  let node := GetPayload header in
  st1 <- store st (next_field node) (m_free_list_head_offset st) ;;
  st2 <- store st1 (prev_field node) 0 ;;
  st3 <- (if m_free_list_head_offset st2 =? 0 then Done st2
          else
            let old_head := GetPtr st2 (m_free_list_head_offset st2) in
            store st2 (prev_field (GetPayload old_head)) offset) ;;
  Done (set_head st3 offset).

Definition RemoveFromFreeList (st : SlabAllocator) (offset : Z) : outcome SlabAllocator :=
  let header := GetPtr st offset in
  let node := GetPayload header in
  pv <- load st (prev_field node) ;;
  st1 <- (if pv =? 0
          then nx <- load st (next_field node) ;; Done (set_head st nx)
          else
            let prev := GetPtr st pv in
            nx <- load st (next_field node) ;;
            store st (next_field (GetPayload prev)) nx) ;;
  nx <- load st1 (next_field node) ;;
  if nx =? 0 then Done st1
  else
    let next := GetPtr st1 nx in
    pv' <- load st1 (prev_field node) ;;
    store st1 (prev_field (GetPayload next)) pv'.

(** The constructor followed by [Init]: the region becomes one free block. *)
Definition Init (st : SlabAllocator) : outcome SlabAllocator :=
  st <- lock st ;;
  let base := m_base st in
  let aligned_base := Z.land (wrap64 (wrap64 (base + ALIGNMENT) - 1)) ALIGN_MASK in
  let adjustment := wrap64 (aligned_base - base) in
  let effective_start := wrap64 (m_base_offset st + adjustment) in
  let effective_size := wrap64 (m_total_size st - adjustment) in
  if effective_size <? sizeof_BlockHeader + sizeof_BlockFooter
  then Done (unlock st)
  else
    let st := set_first st effective_start in
    let header := GetPtr st effective_start in
    st <- Set_ st header effective_size true ;;
    st <- UpdateFooter st header ;;
    let node := GetPayload header in
    st <- store st (next_field node) 0 ;;
    st <- store st (prev_field node) 0 ;;
    Done (unlock (set_head st effective_start)).

Definition construct (base_addr total_size start_offset : Z) (contents : memory)
  : outcome SlabAllocator :=
  Init (mkSlab base_addr total_size start_offset 0 None false contents).

(** The size a request is rounded to ([required_total_size]). *)
Definition required_total_size (size : Z) : Z :=
  let footer_size := sizeof_BlockFooter in
  let payload_size := Z.land (wrap64 (size + 63)) ALIGN_MASK in
  let required := wrap64 (wrap64 (sizeof_BlockHeader + payload_size) + footer_size) in
  Z.land (wrap64 (wrap64 (required + ALIGNMENT) - 1)) ALIGN_MASK.

(** The body of the block found by the scan: split it, or use it whole. *)
Definition take_block (st : SlabAllocator) (curr_offset required : Z)
  : outcome (Z * SlabAllocator) :=
  let header := GetPtr st curr_offset in
  let free_node := GetPayload header in
  sz <- GetSize st header ;;
  let remaining_size := wrap64 (sz - required) in
  if sizeof_BlockHeader + 64 + sizeof_BlockFooter <=? remaining_size
  then
    st <- Set_ st header required false ;;
    st <- UpdateFooter st header ;;
    let new_block_offset := wrap64 (curr_offset + required) in
    let new_header := GetPtr st new_block_offset in
    st <- Set_ st new_header remaining_size true ;;
    st <- UpdateFooter st new_header ;;
    let new_node := GetPayload new_header in
    pv <- load st (prev_field free_node) ;;
    st <- store st (prev_field new_node) pv ;;
    nx <- load st (next_field free_node) ;;
    st <- store st (next_field new_node) nx ;;
    pv' <- load st (prev_field new_node) ;;
    st <- (if pv' =? 0 then Done (set_head st new_block_offset)
           else
             let prev := GetPtr st pv' in
             store st (next_field (GetPayload prev)) new_block_offset) ;;
    nx' <- load st (next_field new_node) ;;
    st <- (if nx' =? 0 then Done st
           else
             let next := GetPtr st nx' in
             store st (prev_field (GetPayload next)) new_block_offset) ;;
    Done (wrap64 (curr_offset + sizeof_BlockHeader), st)
  else
    (* [header->SetUsed(false)]: [BlockHeader] has no such member; the
       marking is done by [SetFree(false)] below. *)
    pv <- load st (prev_field free_node) ;;
    st <- (if pv =? 0
           then nx <- load st (next_field free_node) ;; Done (set_head st nx)
           else
             let prev := GetPtr st pv in
             nx <- load st (next_field free_node) ;;
             store st (next_field (GetPayload prev)) nx) ;;
    nx <- load st (next_field free_node) ;;
    st <- (if nx =? 0 then Done st
           else
             let next := GetPtr st nx in
             pv' <- load st (prev_field free_node) ;;
             store st (prev_field (GetPayload next)) pv') ;;
    st <- SetFree st header false ;;
    st <- UpdateFooter st header ;;
    Done (wrap64 (curr_offset + sizeof_BlockHeader), st).

(** The first-fit [while (curr_offset != 0)] loop; [fuel] bounds the number
    of nodes visited. *)
Fixpoint first_fit (fuel : nat) (st : SlabAllocator) (curr_offset required : Z)
  : outcome (Z * SlabAllocator) :=
  if curr_offset =? 0 then Done (0, st)
  else
    match fuel with
    | O => Diverges
    | S fuel' =>
        let header := GetPtr st curr_offset in
        let free_node := GetPayload header in
        sz <- GetSize st header ;;
        if required <=? sz then take_block st curr_offset required
        else
          nx <- load st (next_field free_node) ;;
          first_fit fuel' st nx required
    end.

(** [uint64_t Allocate(size_t size)] *)
Definition Allocate (fuel : nat) (size : Z) (st : SlabAllocator)
  : outcome (Z * SlabAllocator) :=
  if size =? 0 then Done (0, st)
  else
    let required := required_total_size size in
    st <- lock st ;;
    r <- first_fit fuel st (m_free_list_head_offset st) required ;;
    Done (fst r, unlock (snd r)).

(** The COALESCE RIGHT step of [Free]: when the block after [header] is in
    bounds and free, it leaves the free list and [header] grows over it. *)
Definition coalesce_right (st : SlabAllocator) (block_offset header : Z)
  : outcome SlabAllocator :=
  sz <- GetSize st header ;;
  let next_block_offset := wrap64 (block_offset + sz) in
  if next_block_offset <? wrap64 (m_total_size st + m_base_offset st)
  then
    let next_hdr := GetPtr st next_block_offset in
    if next_hdr =? 0 then Done st
    else
      nf <- IsFree st next_hdr ;;
      if nf then
        st <- RemoveFromFreeList st next_block_offset ;;
        s1 <- GetSize st header ;;
        s2 <- GetSize st next_hdr ;;
        st <- SetSize st header (wrap64 (s1 + s2)) ;;
        UpdateFooter st header
      else Done st
  else Done st.

(** The COALESCE LEFT step and what follows it: when the footer before
    [header] says free, the previous block grows over this one and [Free]
    returns; otherwise the block goes to the head of the free list. *)
Definition coalesce_left (st : SlabAllocator) (block_offset header : Z)
  : outcome SlabAllocator :=
  first <- match m_first_block_offset st with
           | Some f => Done f
           | None => Indeterminate
           end ;;
  if first <? block_offset
  then
    let prev_footer := wrap64 (header - sizeof_BlockFooter) in
    w <- load st prev_footer ;;
    let prev_size := Z.land w SIZE_MASK in
    let prev_free := negb (Z.land w FREE_MASK =? 0) in
    if prev_free
    then
      let prev_offset := wrap64 (block_offset - prev_size) in
      let prev_hdr := GetPtr st prev_offset in
      s1 <- GetSize st prev_hdr ;;
      s2 <- GetSize st header ;;
      st <- SetSize st prev_hdr (wrap64 (s1 + s2)) ;;
      UpdateFooter st prev_hdr
    else InsertHead st block_offset
  else InsertHead st block_offset.

(** [Free] between taking and dropping the lock. *)
Definition Free_locked (payload_offset : Z) (st : SlabAllocator) : outcome SlabAllocator :=
  let block_offset := wrap64 (payload_offset - sizeof_BlockHeader) in
  let header := GetPtr st block_offset in
  fr <- IsFree st header ;;
  if fr then Done st
  else
    st <- SetFree st header true ;;
    st <- UpdateFooter st header ;;
    st <- coalesce_right st block_offset header ;;
    coalesce_left st block_offset header.

(** [void Free(uint64_t payload_offset, size_t size_hint = 0)] *)
Definition Free (payload_offset : Z) (st : SlabAllocator) : outcome SlabAllocator :=
  if payload_offset =? 0 then Done st
  else
    st <- lock st ;;
    st <- Free_locked payload_offset st ;;
    Done (unlock st).

(** *** The heap as a sequence of blocks

    Blocks are read off the headers, from [m_first_block_offset] on, for
    as long as a header fits before the end of the region:
    [(offset, size, free)]. *)
Definition block : Type := Z * Z * bool.

Fixpoint walk (fuel : nat) (st : SlabAllocator) (offset : Z) : outcome (list block) :=
  if wrap64 (m_total_size st + m_base_offset st) <? offset + 8 then Done []
  else
    match fuel with
    | O => Diverges
    | S fuel' =>
        let header := GetPtr st offset in
        sz <- GetSize st header ;;
        fr <- IsFree st header ;;
        rest <- walk fuel' st (offset + sz) ;;
        Done ((offset, sz, fr) :: rest)
    end.

Definition heap_blocks (fuel : nat) (st : SlabAllocator) : outcome (list block) :=
  match m_first_block_offset st with
  | Some f => walk fuel st f
  | None => Done []
  end.

Fixpoint no_adjacent_free (bs : list block) : bool :=
  match bs with
  | (_, _, f1) :: ((_, _, f2) :: _) as rest => negb (f1 && f2) && no_adjacent_free rest
  | _ => true
  end.

(** The reuse scenario of the specification: three requests of 100
    bytes, the middle one freed, a fourth request of 100 bytes. It answers
    the four offsets and the head of the free list right after the [Free]. *)
Definition reuse_scenario (fuel : nat) (base_addr total_size start_offset : Z)
    (contents : memory) : outcome (Z * Z * Z * Z * Z) :=
  st <- construct base_addr total_size start_offset contents ;;
  r1 <- Allocate fuel 100 st ;;
  r2 <- Allocate fuel 100 (snd r1) ;;
  r3 <- Allocate fuel 100 (snd r2) ;;
  st <- Free (fst r2) (snd r3) ;;
  let head_after_free := m_free_list_head_offset st in
  r4 <- Allocate fuel 100 st ;;
  Done (fst r1, fst r2, fst r3, fst r4, head_after_free).

(** A 320-byte slab right after construction, on zeroed storage. *)
Definition fresh_320 : SlabAllocator :=
  match construct 65536 320 64 (fun _ => 0) with
  | Done st => st
  | _ => mkSlab 65536 320 64 0 None false (fun _ => 0)
  end.

(** A request whose rounding wraps around, a second request, and the first
    block freed again: the two offsets and the blocks of the heap at the end. *)
Definition wrapped_request_scenario (fuel : nat) (contents : memory)
  : outcome (Z * Z * list block) :=
  st <- construct 65536 320 64 contents ;;
  r1 <- Allocate fuel (2 ^ 64 - 64) st ;;
  r2 <- Allocate fuel 100 (snd r1) ;;
  st <- Free (fst r1) (snd r2) ;;
  bs <- heap_blocks 2 st ;;
  Done (fst r1, fst r2, bs).

(** *** The heap invariant *)

(** The address of offset [o], and 64-bit accesses by offset. *)
Definition addr (st : SlabAllocator) (o : Z) : Z :=
  m_base st + (o - m_base_offset st).

Definition rd (st : SlabAllocator) (o : Z) : Z := read64 (mem st) (addr st o).

Definition wr (st : SlabAllocator) (o v : Z) : SlabAllocator :=
  set_mem st (write64 (mem st) (addr st o) v).

(** The region lies in the address space, and its window of offsets does
    not wrap. *)
Definition params_ok (st : SlabAllocator) : Prop :=
  0 <= m_base st /\ m_base st + m_total_size st <= 2 ^ 64 /\
  0 <= m_base_offset st /\ m_base_offset st + m_total_size st < 2 ^ 64 /\
  0 <= m_total_size st.

Definition same_params (st st' : SlabAllocator) : Prop :=
  m_base st' = m_base st /\ m_total_size st' = m_total_size st /\
  m_base_offset st' = m_base_offset st /\
  m_first_block_offset st' = m_first_block_offset st.

(** The word a header or footer holds for a block of even size [s]. *)
Definition word (s : Z) (f : bool) : Z := s + Z.b2z f.

Definition b_off (b : block) : Z := fst (fst b).
Definition b_size (b : block) : Z := snd (fst b).
Definition b_free (b : block) : bool := snd b.

(** [bs] tiles the offsets from [o] to [e] with blocks of even size, none
    smaller than [MIN_BLOCK_SIZE]. *)
Fixpoint chain (o : Z) (bs : list block) (e : Z) : Prop :=
  match bs with
  | [] => o = e
  | b :: bs' =>
      b_off b = o /\ MIN_BLOCK_SIZE <= b_size b /\ b_size b mod 2 = 0 /\
      chain (o + b_size b) bs' e
  end.

(** Header and footer of a block agree with its size and state. *)
Definition tagged (st : SlabAllocator) (b : block) : Prop :=
  rd st (b_off b) = word (b_size b) (b_free b) /\
  rd st (b_off b + b_size b - 8) = word (b_size b) (b_free b).

(** The nodes of [l] are linked in this order, after [p] and before [n]. *)
Fixpoint dll (st : SlabAllocator) (p : Z) (l : list Z) (n : Z) : Prop :=
  match l with
  | [] => True
  | x :: l' =>
      rd st (x + 64) = hd n l' /\ rd st (x + 72) = p /\ dll st x l' n
  end.

Definition hd_free (bs : list block) : bool :=
  match bs with b :: _ => b_free b | [] => false end.

Definition last_free (bs : list block) : bool :=
  match last bs with Some b => b_free b | None => false end.

(** Total size of a run of blocks. *)
Definition span (bs : list block) : Z :=
  fold_right (fun b acc => b_size b + acc) 0 bs.

(** The offsets of the free blocks, and the payload offsets of the blocks
    in use, in address order. *)
Fixpoint free_offsets (bs : list block) : list Z :=
  match bs with
  | [] => []
  | b :: bs' => if b_free b then b_off b :: free_offsets bs' else free_offsets bs'
  end.

Fixpoint used_payloads (bs : list block) : list Z :=
  match bs with
  | [] => []
  | b :: bs' => if b_free b then used_payloads bs' else (b_off b + 64) :: used_payloads bs'
  end.

(** The heap [st] is the run of blocks [bs] from [first] on, and its free
    list links the free ones in the order [fl]. *)
Record Rep (st : SlabAllocator) (first : Z) (bs : list block) (fl : list Z) : Prop := mkRep {
  rep_params : params_ok st;
  rep_first : m_first_block_offset st = Some first;
  rep_first_pos : 0 < first;
  rep_first_lo : m_base_offset st <= first;
  rep_chain : chain first bs (first + span bs);
  rep_end : first + span bs <= m_base_offset st + m_total_size st < first + span bs + 8;
  rep_tagged : Forall (tagged st) bs;
  rep_head : m_free_list_head_offset st = hd 0 fl;
  rep_dll : dll st 0 fl 0;
  rep_perm : Permutation fl (free_offsets bs);
  rep_coalesced : no_adjacent_free bs = true
}.

(** The geometry alone. *)
Definition Geo (st : SlabAllocator) (first : Z) (bs : list block) : Prop :=
  params_ok st /\ 0 < first /\ m_base_offset st <= first /\
  chain first bs (first + span bs) /\
  first + span bs <= m_base_offset st + m_total_size st.

(** The same in the middle of [Free]: the block at [o] is already marked
    free, is not on the list yet, and may have free neighbours. *)
Record RepX (st : SlabAllocator) (first : Z) (bs1 : list block) (o S : Z)
    (bs2 : list block) (fl : list Z) : Prop := mkRepX {
  repx_params : params_ok st;
  repx_first : m_first_block_offset st = Some first;
  repx_first_pos : 0 < first;
  repx_first_lo : m_base_offset st <= first;
  repx_chain : chain first (bs1 ++ (o, S, true) :: bs2)
                     (first + span (bs1 ++ (o, S, true) :: bs2));
  repx_end : first + span (bs1 ++ (o, S, true) :: bs2)
               <= m_base_offset st + m_total_size st
               < first + span (bs1 ++ (o, S, true) :: bs2) + 8;
  repx_tagged : Forall (tagged st) (bs1 ++ (o, S, true) :: bs2);
  repx_head : m_free_list_head_offset st = hd 0 fl;
  repx_dll : dll st 0 fl 0;
  repx_perm : Permutation fl (free_offsets (bs1 ++ bs2));
  repx_coalesced : no_adjacent_free (bs1 ++ (o, S, false) :: bs2) = true
}.

(** The payload offsets handed out and not yet freed are those of the
    blocks in use. *)
Definition live (bs : list block) (L : list Z) : Prop :=
  forall p, In p L <-> In p (used_payloads bs).

(** A heap from which no request is ever served. *)
Definition Dead (st : SlabAllocator) : Prop :=
  m_lock st = false /\
  (forall fuel n r, 0 < n <= 2 ^ 64 - 192 -> Allocate fuel n st = Done r -> r = (0, st)) /\
  exists bs, (forall fuel, (length bs < fuel)%nat -> heap_blocks fuel st = Done bs) /\
             no_adjacent_free bs = true /\ used_payloads bs = [].

(** The states reached from the constructor by calls that keep to the
    contract: requests of at most [2^64 - 192] bytes, which [Allocate]
    rounds without wrapping, and [Free] of the null offset,
    of an offset handed out and not freed since, or of a block whose header
    carries the free bit. [L] lists the offsets handed out and not freed. *)
Inductive reachable : SlabAllocator -> list Z -> Prop :=
| reach_construct base_addr total_size start_offset contents st :
    0 <= base_addr -> 0 <= total_size -> base_addr + total_size <= 2 ^ 64 ->
    0 <= start_offset -> start_offset + total_size < 2 ^ 64 ->
    construct base_addr total_size start_offset contents = Done st ->
    reachable st []
| reach_allocate st L fuel n p st' :
    reachable st L -> 0 <= n <= 2 ^ 64 - 192 ->
    Allocate fuel n st = Done (p, st') ->
    reachable st' (if p =? 0 then L else p :: L)
| reach_free st L p st' :
    reachable st L -> In p L ->
    Free p st = Done st' ->
    reachable st' (remove Z.eq_dec p L)
| reach_free_null st L st' :
    reachable st L -> Free 0 st = Done st' -> reachable st' L
| reach_free_again st L p st' :
    reachable st L ->
    IsFree st (GetPtr st (wrap64 (p - sizeof_BlockHeader))) = Done true ->
    Free p st = Done st' ->
    reachable st' L.

(** The list surgery of the source, as state transformers. *)
Definition unlink_prev (st : SlabAllocator) (pv nx : Z) : SlabAllocator :=
  if pv =? 0 then set_head st nx else wr st (pv + 64) nx.

Definition unlink_next (st : SlabAllocator) (pv nx : Z) : SlabAllocator :=
  if nx =? 0 then st else wr st (nx + 72) pv.

Definition relink_prev (st : SlabAllocator) (pv x : Z) : SlabAllocator :=
  if pv =? 0 then set_head st x else wr st (pv + 64) x.

Definition relink_next (st : SlabAllocator) (nx x : Z) : SlabAllocator :=
  if nx =? 0 then st else wr st (nx + 72) x.

(** Where the nodes of a free list may sit: inside the region, at
    non-null offsets, without overlap. *)
Definition nodes_ok (st : SlabAllocator) (l : list Z) : Prop :=
  (forall x, In x l ->
     0 < x /\ m_base_offset st <= x /\
     x + 80 <= m_base_offset st + m_total_size st) /\
  (forall x y, In x l -> In y l -> x = y \/ x + 80 <= y \/ y + 80 <= x).

(** [w] is a word outside the nodes of [l]. *)
Definition off_nodes (l : list Z) (w : Z) : Prop :=
  forall y, In y l -> w + 8 <= y + 64 \/ y + 80 <= w.

(** The heap after [Allocate] has taken the block at [x]. *)
Definition taken (bs1 : list block) (x s : Z) (bs2 : list block) (l0 l : list Z)
    (req : Z) : list block * list Z :=
  if Z_le_gt_dec (req + 136) s
  then (bs1 ++ (x, req, false) :: (x + req, s - req, true) :: bs2, l0 ++ (x + req) :: l)
  else (bs1 ++ (x, s, false) :: bs2, l0 ++ l).


(** The adjustment [Init] makes to reach a 64-byte boundary. *)
Definition adjustment (base : Z) : Z :=
  wrap64 (Z.land (wrap64 (wrap64 (base + ALIGNMENT) - 1)) ALIGN_MASK - base).


(** The allocator right after a construction that found room for a block
    of [E] bytes at offset [es]. *)
Definition init_state (st : SlabAllocator) (es E : Z) : SlabAllocator :=
  unlock (set_head
    (wr (wr (wr (wr (set_first (set_lock st true) es) es (word E true))
                (es + E - 8) (word E true))
            (es + 64) 0)
        (es + 72) 0) es).


(** The invariant of the reachable states. *)
Definition Inv (st : SlabAllocator) (L : list Z) : Prop :=
  (Dead st /\ L = []) \/
  (exists first bs fl, Rep st first bs fl /\ m_lock st = false /\ live bs L).

(** The byte at offset [a]. *)
Definition bt (st : SlabAllocator) (a : Z) : Z := byte_at (mem st) (addr st a).

(** [a] lies in no free block of [bs]. *)
Definition outside_free (bs : list block) (a : Z) : Prop :=
  forall b, In b bs -> b_free b = true -> a < b_off b \/ b_off b + b_size b <= a.

(** What [Free] makes of the block at [o] and its neighbours: the size
    of the block, the blocks after it and the free list once the right
    neighbour is merged, and then the whole heap once the left one is. *)
Definition right_merged (s : Z) (bs2 : list block) (fl : list Z)
  : Z * list block * list Z :=
  match bs2 with
  | (o2, s2, true) :: bs2' => (s + s2, bs2', remove Z.eq_dec o2 fl)
  | _ => (s, bs2, fl)
  end.

Definition left_merged (bs1 : list block) (o S : Z) (bs2 : list block) (fl : list Z)
  : list block * list Z :=
  match last bs1 with
  | Some (o0, s0, true) => (removelast bs1 ++ (o0, s0 + S, true) :: bs2, fl)
  | _ => (bs1 ++ (o, S, true) :: bs2, o :: fl)
  end.

Definition freed (bs1 : list block) (o s : Z) (bs2 : list block) (fl : list Z)
  : list block * list Z :=
  let '(s', bs2', fl') := right_merged s bs2 fl in
  left_merged bs1 o s' bs2' fl'.

(** The nodes whose blocks are smaller than [req]. *)
Definition too_small (bs : list block) (req : Z) (y : Z) : Prop :=
  forall s, In (y, s, true) bs -> s < req.

(** Where [Init] puts the first block, and how many bytes of the region
    the blocks cover: what is left after the adjustment, less one byte
    when that is odd (the free bit takes the lowest bit of the size). *)
Definition first_offset (st : SlabAllocator) : Z :=
  m_base_offset st + adjustment (m_base st).

Definition usable_size (st : SlabAllocator) : Z :=
  let r := m_total_size st - adjustment (m_base st) in r - r mod 2.

(** A region whose first block is not at the null offset and is large
    enough to be a block. *)
Definition usable (st : SlabAllocator) : Prop :=
  0 < first_offset st /\ 128 <= usable_size st.

(** Block offsets are multiples of 64 away from the first block. *)
Definition on_grid (first : Z) (b : block) : Prop := (b_off b - first) mod 64 = 0.

(** The heap of a usable region: [bs] are its blocks, [fl] its free list,
    [L] the payload offsets handed out and not freed. *)
Record Heap (st : SlabAllocator) (L : list Z) (bs : list block) (fl : list Z) : Prop := mkHeap {
  heap_rep : Rep st (first_offset st) bs fl;
  heap_lock : m_lock st = false;
  heap_live : live bs L;
  heap_nodup : NoDup L;
  heap_span : span bs = usable_size st;
  heap_grid : Forall (on_grid (first_offset st)) bs
}.

Definition Inv' (st : SlabAllocator) (L : list Z) : Prop :=
  (Dead st /\ L = [] /\ ~ usable st) \/
  (usable st /\ exists bs fl, Heap st L bs fl).


(** The value a call returns, [d] when it does not return. *)
Definition result {A : Type} (c : outcome A) (d : A) : A :=
  match c with Done a => a | _ => d end.

Definition finished {A : Type} (c : outcome A) : bool :=
  match c with Done _ => true | _ => false end.

(** A 1024-byte slab on zeroed storage: fresh, after one request of 100
    bytes, and after a second one. *)
Definition fresh_1024 : SlabAllocator :=
  result (construct 65536 1024 64 (fun _ => 0))
         (mkSlab 65536 1024 64 0 None false (fun _ => 0)).

Definition served_1024 : SlabAllocator :=
  snd (result (Allocate 1 100 fresh_1024) (0, fresh_1024)).

Definition served_twice_1024 : SlabAllocator :=
  snd (result (Allocate 1 100 served_1024) (0, served_1024)).

(** A 321-byte slab, whose heap stops one byte short of the region, after
    one request of 100 bytes. *)
Definition fresh_321 : SlabAllocator :=
  result (construct 65536 321 64 (fun _ => 0))
         (mkSlab 65536 321 64 0 None false (fun _ => 0)).

Definition served_321 : SlabAllocator :=
  snd (result (Allocate 1 100 fresh_321) (0, fresh_321)).

(** The second slab after the first of its two blocks is freed. *)
Definition released_1024 : SlabAllocator :=
  result (Free 128 served_twice_1024) served_twice_1024.

(** The free list as the first-fit loop walks it: the offset and the
    size of each node's block, from [curr_offset] on. *)
Fixpoint free_nodes (fuel : nat) (st : SlabAllocator) (curr_offset : Z)
  : outcome (list (Z * Z)) :=
  if curr_offset =? 0 then Done []
  else
    match fuel with
    | O => Diverges
    | S fuel' =>
        let header := GetPtr st curr_offset in
        let free_node := GetPayload header in
        sz <- GetSize st header ;;
        nx <- load st (next_field free_node) ;;
        rest <- free_nodes fuel' st nx ;;
        Done ((curr_offset, sz) :: rest)
    end.

Definition free_list (fuel : nat) (st : SlabAllocator) : outcome (list (Z * Z)) :=
  free_nodes fuel st (m_free_list_head_offset st).

(** The answer of a first-fit scan over [nodes] for [required] bytes. *)
Definition first_fit_answer (required : Z) (nodes : list (Z * Z)) : Z :=
  match find (fun x => required <=? snd x) nodes with
  | Some x => fst x + sizeof_BlockHeader
  | None => 0
  end.

End Slab.

(** ** The graph index ([HNSWIndex], [core/index/HNSWIndex.hpp]) *)

Module HNSW.
Import Slab.

(** [struct HNSWNode]: [uint32_t id], [uint64_t vector_offset],
    [uint32_t neighbor_count], [uint64_t neighbors[16]], as the LP64 ABI
    lays it out. *)
Definition sizeof_HNSWNode : Z := 152.
Definition id_field (node : Z) : Z := node.
Definition vector_offset_field (node : Z) : Z := wrap64 (node + 8).
Definition neighbor_count_field (node : Z) : Z := wrap64 (node + 16).
Definition neighbor_field (node i : Z) : Z := wrap64 (node + wrap64 (24 + 8 * i)).

(** 32-bit accesses through a pointer, confined to the backing region. *)
Definition in_region32 (st : SlabAllocator) (p : Z) : bool :=
  (m_base st <=? p) && (p + 4 <=? m_base st + m_total_size st).

Definition load32 (st : SlabAllocator) (p : Z) : outcome Z :=
  if in_region32 st p then Done (read_le (mem st) p 4) else OutOfBounds.

Definition store32 (st : SlabAllocator) (p v : Z) : outcome SlabAllocator :=
  if in_region32 st p then Done (set_mem st (write_le (mem st) p 4 v)) else OutOfBounds.

Record HNSWIndex : Type := mkIndex {
  m_allocator : SlabAllocator;
  m_entry_point_offset : Z
}.

(** [from->neighbors[from->neighbor_count++] = to], when there is room. *)
Definition link (st : SlabAllocator) (from to : Z) : outcome SlabAllocator :=
  c <- load32 st (neighbor_count_field from) ;;
  if c <? 16
  then
    st <- store32 st (neighbor_count_field from) (c + 1) ;;
    store st (neighbor_field from c) to
  else Done st.

(** [void Insert(uint32_t id, uint64_t vector_offset, const std::vector<float>&)] *)
Definition Insert (fuel : nat) (id vector_offset : Z) (ix : HNSWIndex)
  : outcome HNSWIndex :=
  r <- Allocate fuel sizeof_HNSWNode (m_allocator ix) ;;
  let node_offset := fst r in
  let st := snd r in
  if node_offset =? 0 then Done (mkIndex st (m_entry_point_offset ix))
  else
    let node := GetPtr st node_offset in
    st <- store32 st (id_field node) id ;;
    st <- store st (vector_offset_field node) vector_offset ;;
    st <- store32 st (neighbor_count_field node) 0 ;;
    if negb (m_entry_point_offset ix =? 0)
    then
      let entry := GetPtr st (m_entry_point_offset ix) in
      st <- link st entry node_offset ;;
      st <- link st node (m_entry_point_offset ix) ;;
      Done (mkIndex st (m_entry_point_offset ix))
    else Done (mkIndex st node_offset).

(** The fields of the node at [node_offset], as [Insert] wrote them. *)
Definition node_fields (st : SlabAllocator) (node_offset : Z) : outcome (Z * Z * Z) :=
  let node := GetPtr st node_offset in
  id <- load32 st (id_field node) ;;
  vo <- load st (vector_offset_field node) ;;
  c <- load32 st (neighbor_count_field node) ;;
  Done (id, vo, c).

(** The neighbour [i] of the node at [node_offset]. *)
Definition neighbor (st : SlabAllocator) (node_offset i : Z) : outcome Z :=
  load st (neighbor_field (GetPtr st node_offset) i).

(** 32-bit accesses by offset. *)
Definition rd32 (st : SlabAllocator) (o : Z) : Z := read_le (mem st) (addr st o) 4.

Definition wr32 (st : SlabAllocator) (o v : Z) : SlabAllocator :=
  set_mem st (write_le (mem st) (addr st o) 4 v).

(** The node at offset [p] holds these fields. *)
Definition node_is (st : SlabAllocator) (p id vo c : Z) : Prop :=
  rd32 st p = id /\ rd st (p + 8) = vo /\ rd32 st (p + 16) = c.

(** The indexes built by [Insert] calls over an allocator in a reachable
    state, with the payload offsets its allocator has handed out. *)
Inductive built : HNSWIndex -> list Z -> Prop :=
| built_empty st L : reachable st L -> built (mkIndex st 0) L
| built_insert ix L fuel id vector_offset p st1 ix' :
    built ix L -> 0 <= id < 2 ^ 32 -> 0 <= vector_offset < 2 ^ 64 ->
    Allocate fuel sizeof_HNSWNode (m_allocator ix) = Done (p, st1) ->
    Insert fuel id vector_offset ix = Done ix' ->
    built ix' (if p =? 0 then L else p :: L).

(** What holds of every index that was built. *)
Definition indexed (ix : HNSWIndex) (L : list Z) : Prop :=
  (Dead (m_allocator ix) /\ L = [] /\ ~ usable (m_allocator ix) /\
   m_entry_point_offset ix = 0) \/
  (usable (m_allocator ix) /\ exists bs fl,
     Heap (m_allocator ix) L bs fl /\
     (m_entry_point_offset ix = 0 \/
      exists se, In (m_entry_point_offset ix - 64, se, false) bs /\ 320 <= se)).

(** An index over the 1024-byte slab after one [Insert]. *)
Definition index_one : HNSWIndex :=
  result (Insert 1 7 4096 (mkIndex fresh_1024 0)) (mkIndex fresh_1024 0).

End HNSW.

(** ** The ghost arena ([MemoryManager]) *)

Module Ghost.

Inductive RuntimeError : Type :=
| NoError
| InitializationFailed
| PortAllocationFailed
| ThreadSpawnFailed
| MemoryReservationFailed
| InvalidAccess
| OperatingSystemError.

(** [std::expected<T, RuntimeError>] *)
Inductive expected (T : Type) : Type :=
| Value (t : T)
| Unexpected (e : RuntimeError).
Arguments Value {T} t.
Arguments Unexpected {T} e.

Definition GHOST_SPACE_SIZE : Z := 1099511627776.
Definition GHOST_MAGIC : Z := 0xC06DFEEDDEADBEEF.
Definition sizeof_MemoryHeader : Z := 24.
Definition MAP_FAILED : Z := 2 ^ 64 - 1.

(** Offsets of the [MemoryHeader] fields. *)
Definition magic_at (header : Z) : Z := header.
Definition vector_count_at (header : Z) : Z := wrap64 (header + 8).
Definition head_offset_at (header : Z) : Z := wrap64 (header + 16).

(** What the operating system answers to the calls the arena makes. *)
Record Platform : Type := mkPlatform {
  page_size : Z;                 (* sysconf(_SC_PAGESIZE) *)
  mmap_returns : Z;              (* the address, or MAP_FAILED *)
  sigaction_SIGBUS : Z;
  sigaction_SIGSEGV : Z;
  mprotect_returns : Z -> Z      (* by page address *)
}.

Record MemoryManager : Type := mkMM {
  m_base_addr : Z;               (* 0 is nullptr *)
  m_running : bool;
  m_fault_count : Z;
  m_resident_pages : Z;
  accessible : gset Z;           (* pages made PROT_READ | PROT_WRITE *)
  ram : memory                   (* contents of the reservation *)
}.

(** A run either goes on or ends in the default signal action. *)
Inductive run (A : Type) : Type :=
| Ok (a : A)
| Crash.
Arguments Ok {A} a.
Arguments Crash {A}.

Definition andThen {A B : Type} (c : run A) (k : A -> run B) : run B :=
  match c with Ok a => k a | Crash => Crash end.

Notation "x <~ c ;; k" := (andThen c (fun x => k))
  (at level 100, c at next level, right associativity).

Definition page_of (os : Platform) (addr : Z) : Z :=
  Z.land addr (wrap64 (Z.lnot (wrap64 (page_size os - 1)))).

(** [bool handle_fault(void* fault_addr)] *)
Definition handle_fault (os : Platform) (st : MemoryManager) (fault_addr : Z)
  : bool * MemoryManager :=
  let page_addr := page_of os fault_addr in
  if mprotect_returns os page_addr =? 0
  then (true, mkMM (m_base_addr st) (m_running st)
                   (wrap64 (m_fault_count st + 1))
                   (wrap64 (m_resident_pages st + 1))
                   ({[ page_addr ]} ∪ accessible st) (ram st))
  else (false, st).

(** [ghost_signal_handler] for a SIGSEGV or SIGBUS at [fault_addr]: the
    state to resume with, or nothing once the default action is restored. *)
Definition ghost_signal_handler (os : Platform) (st : MemoryManager) (fault_addr : Z)
  : option MemoryManager :=
  let base_val := m_base_addr st in
  let end_val := wrap64 (base_val + GHOST_SPACE_SIZE) in
  if negb (base_val =? 0) && (base_val <=? fault_addr) && (fault_addr <? end_val)
  then
    let '(ok, st') := handle_fault os st fault_addr in
    if ok then Some st' else None
  else None.

(** A memory access at [addr]: it goes through when the page is accessible,
    and otherwise faults into the handler and is re-executed. *)
Definition touch (os : Platform) (st : MemoryManager) (addr : Z) : run MemoryManager :=
  if decide (page_of os addr ∈ accessible st) then Ok st
  else
    match ghost_signal_handler os st addr with
    | Some st' => if decide (page_of os addr ∈ accessible st') then Ok st' else Crash
    | None => Crash
    end.

Definition load (os : Platform) (st : MemoryManager) (addr : Z) : run (Z * MemoryManager) :=
  st' <~ touch os st addr ;; Ok (read64 (ram st') addr, st').

Definition store (os : Platform) (st : MemoryManager) (addr v : Z) : run MemoryManager :=
  st' <~ touch os st addr ;;
  Ok (mkMM (m_base_addr st') (m_running st') (m_fault_count st')
           (m_resident_pages st') (accessible st') (write64 (ram st') addr v)).

(** [std::expected<void*, RuntimeError> get_ghost_ptr(size_t offset)] *)
Definition get_ghost_ptr (st : MemoryManager) (offset : Z) : expected Z :=
  if GHOST_SPACE_SIZE <=? offset then Unexpected InvalidAccess
  else if m_base_addr st =? 0 then Unexpected InitializationFailed
  else Value (wrap64 (m_base_addr st + offset)).

(** [void initialize_header()] *)
Definition initialize_header (os : Platform) (st : MemoryManager) : run MemoryManager :=
  match get_ghost_ptr st 0 with
  | Unexpected _ => Ok st
  | Value header =>
      r <~ load os st (magic_at header) ;;
      let '(magic, st) := r in
      if magic =? GHOST_MAGIC then Ok st
      else
        st <~ store os st (magic_at header) GHOST_MAGIC ;;
        st <~ store os st (vector_count_at header) 0 ;;
        store os st (head_offset_at header) sizeof_MemoryHeader
  end.

(** [reserve_address_space]: a fresh anonymous PROT_NONE mapping, which
    reads as zero once a page is made accessible. *)
Definition reserve_address_space (os : Platform) (st : MemoryManager)
  : expected MemoryManager :=
  let st := mkMM (mmap_returns os) (m_running st) (m_fault_count st)
                 (m_resident_pages st) ∅ (fun _ => 0) in
  if m_base_addr st =? MAP_FAILED
  then Unexpected MemoryReservationFailed
  else Value st.

Definition install_signal_handlers (os : Platform) : expected unit :=
  if sigaction_SIGBUS os =? -1 then Unexpected InitializationFailed
  else if sigaction_SIGSEGV os =? -1 then Unexpected InitializationFailed
  else Value tt.

(** [std::expected<void, RuntimeError> initialize()] *)
Definition initialize (os : Platform) (st : MemoryManager)
  : run (expected unit * MemoryManager) :=
  if m_running st then Ok (Value tt, st)
  else
    match reserve_address_space os st with
    | Unexpected e =>
        Ok (Unexpected e,
            mkMM (mmap_returns os) (m_running st) (m_fault_count st)
                 (m_resident_pages st) ∅ (fun _ => 0))
    | Value st =>
        match install_signal_handlers os with
        | Unexpected e => Ok (Unexpected e, st)
        | Value _ =>
            let st := mkMM (m_base_addr st) true (m_fault_count st)
                           (m_resident_pages st) (accessible st) (ram st) in
            st <~ initialize_header os st ;;
            Ok (Value tt, st)
        end
    end.

(** The state of the singleton before [initialize]. *)
Definition fresh : MemoryManager := mkMM 0 false 0 0 ∅ (fun _ => 0).

(** A platform with 4 KiB pages on which every call succeeds, and the
    arena as [reserve_address_space] leaves it there. *)
Definition linux_4k : Platform :=
  mkPlatform 4096 0x7f0000000000 0 0 (fun _ => 0).

Definition reserved_4k : MemoryManager :=
  mkMM 0x7f0000000000 true 0 0 ∅ (fun _ => 0).

(** The three header fields as the arena holds them. *)
Definition header_fields (st : MemoryManager) : Z * Z * Z :=
  let header := m_base_addr st in
  (read64 (ram st) (magic_at header),
   read64 (ram st) (vector_count_at header),
   read64 (ram st) (head_offset_at header)).

(** 32-bit accesses ([volatile int]); an aligned one lies in one page. *)
Definition read32 (m : memory) (a : Z) : Z := read_le m a 4.
Definition write32 (m : memory) (a v : Z) : memory := write_le m a 4 v.

Definition load32 (os : Platform) (st : MemoryManager) (addr : Z)
  : run (Z * MemoryManager) :=
  st' <~ touch os st addr ;; Ok (read32 (ram st') addr, st').

Definition store32 (os : Platform) (st : MemoryManager) (addr v : Z) : run MemoryManager :=
  st' <~ touch os st addr ;;
  Ok (mkMM (m_base_addr st') (m_running st') (m_fault_count st')
           (m_resident_pages st') (accessible st') (write32 (ram st') addr v)).

(** [void run_self_test()]: writes 9999 half a terabyte into the arena and
    reads it back. The answer is [false] where the source calls
    [exit(1)]. *)
Definition self_test_offset : Z := 512 * 1024 * 1024 * 1024.

Definition run_self_test (os : Platform) (st : MemoryManager) : run (bool * MemoryManager) :=
  match get_ghost_ptr st self_test_offset with
  | Unexpected _ => Ok (false, st)
  | Value magic_ptr =>
      st <~ store32 os st magic_ptr 9999 ;;
      r <~ load32 os st magic_ptr ;;
      let '(v, st) := r in
      Ok (v =? 9999, st)
  end.

(** The arena after [initialize] on the 4 KiB platform. *)
Definition booted_4k : MemoryManager :=
  match initialize linux_4k fresh with
  | Ok (_, st) => st
  | Crash => fresh
  end.

End Ghost.

(** ** The tokenizer ([Tokenizer]) *)

Module Tokenizer.

(** [TermID] is [uint32_t]. *)
Definition wrap32 (x : Z) : Z := x mod 2 ^ 32.

Record Tokenizer : Type := mkTok {
  m_stopwords : gset string;
  m_vocab : gmap string Z;
  m_inverse_vocab : list string;
  m_next_term_id : Z
}.

Definition stops : list string :=
  [ "the"; "of"; "and"; "a"; "to"; "in"; "is"; "you"; "that"; "it";
    "he"; "was"; "for"; "on"; "are"; "as"; "with"; "his"; "they"; "i" ]%string.

(** [Tokenizer::Tokenizer()] *)
Definition create : Tokenizer := mkTok (list_to_set stops) ∅ [] 1.

(** [bool IsStopWord(std::string_view token) const] *)
Definition IsStopWord (token : string) (t : Tokenizer) : bool :=
  bool_decide (token ∈ m_stopwords t).

(** [size_t VocabularySize() const] *)
Definition VocabularySize (t : Tokenizer) : Z := Z.of_nat (size (m_vocab t)).

(** [TermID GetTermID(std::string_view token)]; [None] when the store
    into [m_inverse_vocab] is out of the vector's range. *)
Definition GetTermID (token : string) (t : Tokenizer) : option (Z * Tokenizer) :=
  match m_vocab t !! token with
  | Some id => Some (id, t)
  | None =>
      let id := m_next_term_id t in
      let inverse_vocab :=
        if Z.of_nat (length (m_inverse_vocab t)) <=? id
        then resize (Z.to_nat (wrap32 (id + 100))) ""%string (m_inverse_vocab t)
        else m_inverse_vocab t in
      if id <? Z.of_nat (length inverse_vocab)
      then Some (id, mkTok (m_stopwords t) (<[token := id]> (m_vocab t))
                           (<[Z.to_nat id := token]> inverse_vocab)
                           (wrap32 (id + 1)))
      else None
  end.

(** [std::string GetTermString(TermID id) const] *)
Definition GetTermString (id : Z) (t : Tokenizer) : string :=
  if id <? Z.of_nat (length (m_inverse_vocab t))
  then default ""%string (m_inverse_vocab t !! Z.to_nat id)
  else "UNKNOWN"%string.

(** [counts[id]++] on an [int] count; [None] when the increment
    overflows. *)
Definition count_up (counts : gmap Z Z) (id : Z) : option (gmap Z Z) :=
  let c := default 0 (counts !! id) in
  if c <? 2 ^ 31 - 1 then Some (<[id := c + 1]> counts) else None.

(** The end of a token: it is counted unless it is a stop word. *)
Definition count_token (current_token : string) (s : Tokenizer * gmap Z Z)
  : option (Tokenizer * gmap Z Z) :=
  if IsStopWord current_token (fst s) then Some s
  else
    match GetTermID current_token (fst s) with
    | None => None
    | Some (id, t) =>
        match count_up (snd s) id with
        | None => None
        | Some counts => Some (t, counts)
        end
    end.

Section Locale.
(** [std::isalnum] and [std::tolower] on an [unsigned char] answer by the
    C locale in force. *)
Variable isalnum : Ascii.ascii -> bool.
Variable tolower : Ascii.ascii -> Ascii.ascii.

(** The loop of [Tokenize] over the characters left, and the last token. *)
Fixpoint scan (text : string) (current_token : string) (s : Tokenizer * gmap Z Z)
  : option (Tokenizer * gmap Z Z) :=
  match text with
  | EmptyString =>
      if negb (String.eqb current_token "") then count_token current_token s
      else Some s
  | String c rest =>
      if isalnum c
      then scan rest (current_token +:+ String (tolower c) "") s
      else if negb (String.eqb current_token "")
      then
        match count_token current_token s with
        | None => None
        | Some s' => scan rest "" s'
        end
      else scan rest current_token s
  end.

(** [std::unordered_map<TermID, int> Tokenize(std::string_view text)] *)
Definition Tokenize (text : string) (t : Tokenizer) : option (gmap Z Z * Tokenizer) :=
  match scan text "" (t, ∅) with
  | None => None
  | Some (t', counts) => Some (counts, t')
  end.
End Locale.



(** The states a tokenizer gets into by [GetTermID] calls, its own or
    those of [Tokenize]. *)
Inductive reachable : Tokenizer -> Prop :=
| reach_create : reachable create
| reach_GetTermID t token id t' :
    reachable t -> GetTermID token t = Some (id, t') -> reachable t'.

(** What the two tables of a tokenizer have to do with each other: ids
    are handed out from 1 on without gaps, a token's id leads back to
    the token, and a slot that is not empty holds the token of its
    index. *)
Record consistent (t : Tokenizer) : Prop := mkConsistent {
  c_next : 1 <= m_next_term_id t < 2 ^ 32;
  c_length : Z.of_nat (length (m_inverse_vocab t)) < 2 ^ 32;
  c_size : Z.of_nat (size (m_vocab t)) = m_next_term_id t - 1;
  c_vocab : forall s id, m_vocab t !! s = Some id ->
              1 <= id < m_next_term_id t /\ m_inverse_vocab t !! Z.to_nat id = Some s;
  c_inverse : forall i s, m_inverse_vocab t !! i = Some s -> s <> ""%string ->
              m_vocab t !! s = Some (Z.of_nat i);
  c_dense : forall id, 1 <= id < m_next_term_id t -> exists s, m_vocab t !! s = Some id
}.

(** What [Tokenize] keeps true of the tokenizer and the counts so far. *)
Definition counted (S : gset string) (s : Tokenizer * gmap Z Z) : Prop :=
  reachable (fst s) /\ m_stopwords (fst s) = S /\
  (forall w, w ∈ S -> m_vocab (fst s) !! w = None) /\
  (forall id c, snd s !! id = Some c ->
     1 <= c /\ exists w, m_vocab (fst s) !! w = Some id /\ w ∉ S).

(** The C locale on ASCII. *)
Definition isalnum_C (c : Ascii.ascii) : bool :=
  let n := Ascii.nat_of_ascii c in
  ((48 <=? n) && (n <=? 57) || (65 <=? n) && (n <=? 90) || (97 <=? n) && (n <=? 122))%nat.

Definition tolower_C (c : Ascii.ascii) : Ascii.ascii :=
  let n := Ascii.nat_of_ascii c in
  if ((65 <=? n) && (n <=? 90))%nat then Ascii.ascii_of_nat (n + 32) else c.

(** A tokenizer that has seen one token. *)
Definition seen_ghost : Tokenizer :=
  match GetTermID "ghost" create with
  | Some (_, t) => t
  | None => create
  end.

End Tokenizer.

(** ** The record append of the document pipeline ([ProcessDocument]) *)

Module Pipeline.

(** IEEE 754 binary32 ([float]) through the reference operations of
    [SpecFloat]; every operation rounds to nearest, ties to even. *)
Definition prec : Z := 24.
Definition emax : Z := 128.

Definition fadd : spec_float -> spec_float -> spec_float := SFadd prec emax.
Definition fsub : spec_float -> spec_float -> spec_float := SFsub prec emax.
Definition fmul : spec_float -> spec_float -> spec_float := SFmul prec emax.
Definition fdiv : spec_float -> spec_float -> spec_float := SFdiv prec emax.

(** [static_cast<float>(n)] for an integer [n] *)
Definition of_int (n : Z) : spec_float := binary_normalize prec emax n 0 false.

Definition f0 : spec_float := S754_zero false.
Definition f1 : spec_float := of_int 1.
Definition f255 : spec_float := of_int 255.
(** The [double] literal [1e-6]; a [float] compared with it is widened
    exactly, and [SFltb] compares the exact values. *)
Definition d1e_6 : spec_float := S754_finite false 4722366482869645 (-72).

(** [std::round]: to the nearest integer, halfway cases away from zero. *)
Definition fround (x : spec_float) : spec_float :=
  match x with
  | S754_finite s m e =>
      if 0 <=? e then x
      else
        let d := 2 ^ (- e) in
        let q := Z.pos m / d in
        let r := Z.pos m mod d in
        let n := if d <=? 2 * r then q + 1 else q in
        binary_normalize prec emax (cond_Zopp s n) 0 s
  | _ => x
  end.

(** [static_cast<int>(x)]: truncation; undefined ([None]) when the
    truncated value is not an [int], as for NaN and the infinities. *)
Definition to_int (x : spec_float) : option Z :=
  match x with
  | S754_zero _ => Some 0
  | S754_finite s m e =>
      let t := if 0 <=? e then Z.pos m * 2 ^ e else Z.pos m / 2 ^ (- e) in
      let v := cond_Zopp s t in
      if (- 2 ^ 31 <=? v) && (v <=? 2 ^ 31 - 1) then Some v else None
  | _ => None
  end.

Definition VECTOR_DIM : Z := 256.

(** Step 2, the hashing trick, over the term counts in iteration order. *)
Definition vectorize (term_counts : list (Z * Z)) : list spec_float :=
  fold_left
    (fun dense_vec tc =>
       let bucket := fst tc mod VECTOR_DIM in
       alter (fun x => fadd x (of_int (snd tc))) (Z.to_nat bucket) dense_vec)
    term_counts (replicate (Z.to_nat VECTOR_DIM) f0).

(** Step A, the minimum and maximum lane. *)
Definition min_max (dense_vec : list spec_float) : spec_float * spec_float :=
  let d0 := default f0 (dense_vec !! 0%nat) in
  fold_left
    (fun mm v =>
       let min_val := if SFltb v (fst mm) then v else fst mm in
       let max_val := if SFltb (snd mm) v then v else snd mm in
       (min_val, max_val))
    dense_vec (d0, d0).

(** Step B, [scale] with its flatline guard. *)
Definition scale_of (min_val max_val : spec_float) : spec_float :=
  if SFltb (SFabs (fsub max_val min_val)) d1e_6 then f1
  else fdiv (fsub max_val min_val) f255.

(** Step C, one quantized lane; [None] where the source's arithmetic is
    undefined (the conversion to [int], or the [int] subtraction). *)
Definition quantize_lane (v min_val max_val : spec_float) : option Z :=
  let norm := fdiv (fsub v min_val) (fsub max_val min_val) in
  let scaled := fmul norm f255 in
  match to_int (fround scaled) with
  | None => None
  | Some r =>
      let result := r - 128 in
      if result <? - 2 ^ 31 then None
      else
        let result := if result <? -128 then -128 else result in
        let result := if 127 <? result then 127 else result in
        Some result
  end.

(** What the claim's formula reads, over the same [float] operations. *)
Definition clamp (lo hi x : Z) : Z := Z.max lo (Z.min hi x).

(** Memory effects, in program order. *)
Inductive memory_order : Type := NonAtomic | Relaxed | Acquire | Release | AcqRel | SeqCst.

Inductive event : Type :=
| Load64 (addr : Z) (mo : memory_order)
| StoreF32 (addr : Z) (v : spec_float)
| StoreI8 (addr : Z) (v : Z)
| Store64 (addr : Z) (v : Z) (mo : memory_order)
| FetchAdd64 (addr : Z) (delta : Z) (mo : memory_order).

(** The four bytes of a [float] (IEEE 754 binary32), for the canonical
    forms the operations above produce. The bits of a NaN are the
    target's. *)
Definition float_bits (nan_bits : Z) (x : spec_float) : Z :=
  match x with
  | S754_zero s => if s then 2 ^ 31 else 0
  | S754_infinity s => (if s then 2 ^ 31 else 0) + 0x7F800000
  | S754_nan => nan_bits
  | S754_finite s m e =>
      (if s then 2 ^ 31 else 0) +
      (if Z.pos m <? 2 ^ 23 then Z.pos m
       else (e + 150) * 2 ^ 23 + (Z.pos m - 2 ^ 23))
  end.

(** How a run ends: with a return, in undefined behaviour, or in the
    default action of a signal that [ghost_signal_handler] did not take. *)
Inductive ending : Type := Returned | Undefined | Killed.

(** The arena and the memory effects so far. *)
Record world : Type := mkWorld {
  arena : Ghost.MemoryManager;
  effects : list event
}.

Inductive step (A : Type) : Type :=
| Go (a : A) (w : world)
| Stop (e : ending) (w : world).
Arguments Go {A} a w.
Arguments Stop {A} e w.

Definition next {A B : Type} (c : world -> step A) (k : A -> world -> step B)
  : world -> step B :=
  fun w => match c w with Go a w' => k a w' | Stop e w' => Stop e w' end.

Notation "x <== c ;; k" := (next c (fun x => k))
  (at level 100, c at next level, right associativity).

Definition set_ram (st : Ghost.MemoryManager) (m : memory) : Ghost.MemoryManager :=
  Ghost.mkMM (Ghost.m_base_addr st) (Ghost.m_running st) (Ghost.m_fault_count st)
             (Ghost.m_resident_pages st) (Ghost.accessible st) m.

Section Target.
Variable os : Ghost.Platform.
(** The bits of the NaN the target's arithmetic produces. *)
Variable nan_bits : Z.

(** An access to the [n] bytes at [addr], at most eight and so no more
    than a page: the pages of its first and of its last byte have to be
    accessible; a page that is not faults into the handler, which
    commits it or gives the signal its default action. *)
Definition access (addr n : Z) : world -> step unit :=
  fun w =>
    match Ghost.andThen (Ghost.touch os (arena w) addr)
            (fun st => Ghost.touch os st (wrap64 (addr + (n - 1)))) with
    | Ghost.Ok st => Go tt (mkWorld st (effects w))
    | Ghost.Crash => Stop Killed w
    end.

(** The [n] bytes of [v] put at [addr], recorded as [e]. *)
Definition poke (addr : Z) (n : nat) (v : Z) (e : event) : world -> step unit :=
  fun w =>
    Go tt (mkWorld (set_ram (arena w) (write_le (Ghost.ram (arena w)) addr n v))
                   (effects w ++ [e])).

Definition load_u64 (addr : Z) (mo : memory_order) : world -> step Z :=
  u <== access addr 8 ;;
  fun w => Go (read64 (Ghost.ram (arena w)) addr)
              (mkWorld (arena w) (effects w ++ [Load64 addr mo])).

Definition store_u64 (addr v : Z) (mo : memory_order) : world -> step unit :=
  u <== access addr 8 ;; poke addr 8 v (Store64 addr v mo).

(** [std::memcpy(dest, &x, sizeof(float))] *)
Definition store_f32 (addr : Z) (x : spec_float) : world -> step unit :=
  u <== access addr 4 ;; poke addr 4 (float_bits nan_bits x) (StoreF32 addr x).

(** [q_dest[i] = static_cast<int8_t>(result)] *)
Definition store_i8 (addr q : Z) : world -> step unit :=
  u <== access addr 1 ;; poke addr 1 (q mod 256) (StoreI8 addr q).

(** [std::atomic_ref<uint64_t>(x).fetch_add(delta, mo)] *)
Definition fetch_add_u64 (addr delta : Z) (mo : memory_order) : world -> step Z :=
  u <== access addr 8 ;;
  fun w =>
    let old := read64 (Ghost.ram (arena w)) addr in
    Go old (mkWorld (set_ram (arena w)
                       (write64 (Ghost.ram (arena w)) addr (wrap64 (old + delta))))
                    (effects w ++ [FetchAdd64 addr delta mo])).

(** The lane loop, [n] iterations from index [i] on. *)
Fixpoint quantize_loop (n : nat) (i : Z) (dense_vec : list spec_float)
    (q_dest : Z) (min_val max_val : spec_float) : world -> step unit :=
  match n with
  | O => Go tt
  | S n' =>
      let v := if i <? Z.of_nat (length dense_vec)
               then default f0 (dense_vec !! Z.to_nat i) else f0 in
      match quantize_lane v min_val max_val with
      | None => Stop Undefined
      | Some q =>
          u <== store_i8 (wrap64 (q_dest + i)) q ;;
          quantize_loop n' (i + 1) dense_vec q_dest min_val max_val
      end
  end.

(** [void ProcessDocument(const std::string& content)], from the tokenizer's
    answer on, run on the arena: how the run ends, and the arena and the
    memory effects at that point. *)
Definition ProcessDocument (term_counts : list (Z * Z)) (st : Ghost.MemoryManager)
  : ending * world :=
  match term_counts with
  | [] => (Returned, mkWorld st [])
  | _ =>
      let dense_vec := vectorize term_counts in
      let base := Ghost.m_base_addr st in
      if base =? 0 then (Returned, mkWorld st [])
      else
        let header := base in
        let entry_size := 4 + 4 + VECTOR_DIM in
        let '(min_val, max_val) := min_max dense_vec in
        let scale := scale_of min_val max_val in
        let bias := min_val in
        let run :=
          current_offset <== load_u64 (Ghost.head_offset_at header) NonAtomic ;;
          let dest := wrap64 (base + current_offset) in
          u <== store_f32 dest scale ;;
          let dest := wrap64 (dest + 4) in
          u <== store_f32 dest bias ;;
          let dest := wrap64 (dest + 4) in
          let q_dest := dest in
          u <== quantize_loop (Z.to_nat VECTOR_DIM) 0 dense_vec q_dest min_val max_val ;;
          head_offset <== load_u64 (Ghost.head_offset_at header) NonAtomic ;;
          u <== store_u64 (Ghost.head_offset_at header)
                          (wrap64 (head_offset + entry_size)) NonAtomic ;;
          u <== fetch_add_u64 (Ghost.vector_count_at header) 1 Release ;;
          Go tt in
        match run (mkWorld st []) with
        | Go _ w => (Returned, w)
        | Stop e w => (e, w)
        end
  end.
End Target.

(** The effects of one record append at [B + h], with the memory order of
    the store to [head_offset] left open: the record (scale, bias, lanes),
    then the new head offset, then the counter. *)
Definition record_append (head_order : memory_order) (B h : Z)
    (scale bias : spec_float) (lanes : list Z) : list event :=
  [ Load64 (B + 16) NonAtomic;
    StoreF32 (B + h) scale;
    StoreF32 (B + h + 4) bias ]
  ++ imap (fun i q => StoreI8 (B + h + 8 + Z.of_nat i) q) lanes
  ++ [ Load64 (B + 16) NonAtomic;
       Store64 (B + 16) (h + 264) head_order;
       FetchAdd64 (B + 8) 1 Release ].

Definition appends_record (head_order : memory_order) (B h : Z) (tr : list event) : Prop :=
  exists scale bias lanes,
    length lanes = 256%nat /\
    Forall (fun q => -128 <= q <= 127) lanes /\
    tr = record_append head_order B h scale bias lanes.

(** The record as the memory holds it at address [a]. *)
Definition record_at (nan_bits : Z) (m : memory) (a : Z)
    (scale bias : spec_float) (lanes : list Z) : Prop :=
  read_le m a 4 = float_bits nan_bits scale mod 2 ^ 32 /\
  read_le m (a + 4) 4 = float_bits nan_bits bias mod 2 ^ 32 /\
  forall i q, lanes !! i = Some q -> byte_at m (a + 8 + Z.of_nat i) = q mod 256.

(** Every lane of the vector has a defined quantization. *)
Definition lanes_defined (dense_vec : list spec_float) : bool :=
  forallb (fun v =>
             match quantize_lane v (fst (min_max dense_vec)) (snd (min_max dense_vec)) with
             | Some _ => true
             | None => false
             end) dense_vec.

(** Two documents: a single term, and 256 distinct terms once each (the
    ids a fresh tokenizer hands out), which fill every bucket alike. *)
Definition one_term_document : list (Z * Z) := [(1, 1)].

Definition flat_document : list (Z * Z) :=
  map (fun i => (Z.of_nat i + 1, 1)) (seq 0 256).

(** The quiet NaN of AArch64. *)
Definition nan_bits_aarch64 : Z := 0x7FC00000.

(** *** The input queue ([Ingest], [AnalysisWorker])

    The part of [ProcessingUnit] that the producer and the worker share.
    The calls into the monitor only draw and are left out. *)
Record ProcessingUnit : Type := mkPU {
  m_processing_cooldown : Z;
  m_input_queue : RingBuffer.LockFreeRingBuffer string
}.

(** [Core::LockFreeRingBuffer<std::string, 64> m_input_queue] *)
Definition QUEUE_CAPACITY : Z := 64.

(** [void Ingest(std::string_view text)]; the answer of [push] is dropped. *)
Definition Ingest (text : string) (u : ProcessingUnit) : ProcessingUnit :=
  if String.eqb text "" then u
  else
    mkPU 20 (snd (RingBuffer.push QUEUE_CAPACITY text (m_input_queue u))).

(** One round of the [while (m_running)] loop of [AnalysisWorker]: the
    document it hands to [ProcessDocument], or nothing before it sleeps. *)
Definition AnalysisWorker_poll (u : ProcessingUnit) : option string * ProcessingUnit :=
  let '(content_opt, q) := RingBuffer.pop QUEUE_CAPACITY (m_input_queue u) in
  (content_opt, mkPU (m_processing_cooldown u) q).

End Pipeline.

(** * Properties *)

(** ** Machine words and memory *)

Lemma wrap64_small x : 0 <= x < 2 ^ 64 -> wrap64 x = x.
Proof. intros. unfold wrap64. apply Z.mod_small. lia. Qed.

Lemma wrap64_range x : 0 <= wrap64 x < 2 ^ 64.
Proof. unfold wrap64. apply Z.mod_pos_bound. lia. Qed.

(** [x & (2^k - 1)] is [x mod 2^k]: the index wrap of the ring buffer. *)
Lemma land_pow2_mask x k : 0 <= k -> Z.land x (2 ^ k - 1) = x mod 2 ^ k.
Proof.
  intros Hk. rewrite <- Z.land_ones by lia. f_equal.
  rewrite Z.ones_equiv. lia.
Qed.

Lemma byte_at_range m a : 0 <= byte_at m a < 256.
Proof. unfold byte_at. apply Z.mod_pos_bound. lia. Qed.

Lemma read_le_range m n : forall a, 0 <= read_le m a n < 256 ^ Z.of_nat n.
Proof.
  induction n as [|n IH]; intros a.
  - simpl. lia.
  - rewrite Nat2Z.inj_succ, Z.pow_succ_r by lia. simpl.
    pose proof (byte_at_range m a). specialize (IH (a + 1)). lia.
Qed.

(** Reading back inside a write gives the matching digits of the value. *)
Lemma read_le_write_le_inside m a N v n :
  forall j, 0 <= j -> j + Z.of_nat n <= Z.of_nat N ->
  read_le (write_le m a N v) (a + j) n = (v / 256 ^ j) mod 256 ^ Z.of_nat n.
Proof.
  induction n as [|n IH]; intros j Hj Hn.
  - simpl. now rewrite Z.mod_1_r.
  - rewrite Nat2Z.inj_succ in *. rewrite Z.pow_succ_r by lia.
    cbn [read_le].
    replace (a + j + 1) with (a + (j + 1)) by lia.
    rewrite IH by lia.
    rewrite Z.rem_mul_r by (try apply Z.pow_pos_nonneg; lia).
    f_equal.
    + unfold byte_at, write_le.
      replace ((a <=? a + j) && (a + j <? a + Z.of_nat N)) with true
        by (symmetry; apply andb_true_iff; split; [apply Z.leb_le|apply Z.ltb_lt]; lia).
      replace (a + j - a) with j by lia.
      apply Z.mod_mod. lia.
    + f_equal. f_equal.
      rewrite Z.pow_add_r, Z.pow_1_r by lia.
      rewrite Z.div_div by (try apply Z.pow_pos_nonneg; lia). reflexivity.
Qed.

Lemma read_le_write_le_outside m a N v n :
  forall b, b + Z.of_nat n <= a \/ a + Z.of_nat N <= b ->
  read_le (write_le m a N v) b n = read_le m b n.
Proof.
  induction n as [|n IH]; intros b Hb; [reflexivity|].
  rewrite Nat2Z.inj_succ in Hb. cbn [read_le].
  rewrite IH by lia. f_equal.
  unfold byte_at, write_le.
  destruct (a <=? b) eqn:E1; destruct (b <? a + Z.of_nat N) eqn:E2; simpl; try reflexivity.
  apply Z.leb_le in E1. apply Z.ltb_lt in E2. lia.
Qed.

(** A read depends only on the bytes it covers. *)
Lemma read_le_ext m m' n : forall a,
  (forall i, 0 <= i < Z.of_nat n -> byte_at m' (a + i) = byte_at m (a + i)) ->
  read_le m' a n = read_le m a n.
Proof.
  induction n as [|n IH]; intros a H; [reflexivity|]. cbn [read_le].
  rewrite <- (Z.add_0_r a) at 1 3. rewrite (H 0) by lia. rewrite Z.add_0_r.
  rewrite (IH (a + 1)); [reflexivity|].
  intros i Hi. replace (a + 1 + i) with (a + (1 + i)) by lia. apply H. lia.
Qed.

Lemma read64_range m a : 0 <= read64 m a < 2 ^ 64.
Proof. apply (read_le_range m 8 a). Qed.

Lemma read64_write64_same m a v : read64 (write64 m a v) a = wrap64 v.
Proof.
  unfold read64, write64, wrap64.
  replace a with (a + 0) at 2 by lia.
  rewrite read_le_write_le_inside by (simpl; lia).
  now rewrite Z.pow_0_r, Z.div_1_r.
Qed.

Lemma read64_write64_other m a v b :
  b + 8 <= a \/ a + 8 <= b -> read64 (write64 m a v) b = read64 m b.
Proof. intros H. apply read_le_write_le_outside. simpl. lia. Qed.

(** ** The ring buffer *)

Module RingBufferSpec.
Import RingBuffer.

Section Facts.
Context {T : Type}.
Variable Capacity : Z.
Variable k : Z.
Hypothesis k_range : 0 <= k < 64.
Hypothesis Capacity_pow2 : Capacity = 2 ^ k.

Lemma Capacity_pos : 0 < Capacity.
Proof using k_range Capacity_pow2. subst Capacity. apply Z.pow_pos_nonneg; lia. Qed.

Lemma Capacity_lt_word : Capacity < 2 ^ 64.
Proof using k_range Capacity_pow2. subst Capacity. apply Z.pow_lt_mono_r; lia. Qed.

(** The masked successor is the successor modulo [Capacity]. *)
Lemma next_index i :
  0 <= i < Capacity ->
  Z.land (wrap64 (i + 1)) (Capacity - 1) = (i + 1) mod Capacity.
Proof using k_range Capacity_pow2.
  intros Hi. pose proof Capacity_lt_word.
  rewrite wrap64_small by lia.
  subst Capacity. apply land_pow2_mask. lia.
Qed.

Lemma reachable_bounds (q : LockFreeRingBuffer T) :
  reachable Capacity q -> in_bounds Capacity q.
Proof using k_range Capacity_pow2.
  pose proof Capacity_pos as Hpos.
  induction 1 as [slots Hlen | q v Hq IH | q Hq IH].
  - unfold in_bounds, create; simpl. lia.
  - destruct IH as (Hh & Ht & Hl). unfold in_bounds, push.
    destruct (_ =? _); simpl; [done|].
    rewrite next_index by done. rewrite length_insert.
    pose proof (Z.mod_pos_bound (m_tail q + 1) Capacity Hpos). done.
  - destruct IH as (Hh & Ht & Hl). unfold in_bounds, pop.
    destruct (_ =? _); simpl; [done|].
    rewrite next_index by done.
    pose proof (Z.mod_pos_bound (m_head q + 1) Capacity Hpos). done.
Qed.

(** C2. In every state reachable by [push] and [pop] calls, [push v]
    answers [false] exactly when [(tail + 1) mod Capacity = head], and
    then leaves the buffer as it was; in every other state it stores [v]
    in the slot at [tail], advances [tail] to [(tail + 1) mod Capacity]
    and answers [true]. *)
Theorem push_full_iff (q : LockFreeRingBuffer T) (v : T) :
  reachable Capacity q ->
  (fst (push Capacity v q) = false <-> (m_tail q + 1) mod Capacity = m_head q) /\
  ((m_tail q + 1) mod Capacity = m_head q -> push Capacity v q = (false, q)) /\
  ((m_tail q + 1) mod Capacity <> m_head q ->
     push Capacity v q =
       (true, {| m_head := m_head q;
                 m_tail := (m_tail q + 1) mod Capacity;
                 m_buffer := <[Z.to_nat (m_tail q) := v]> (m_buffer q) |}) /\
     m_buffer (snd (push Capacity v q)) !! Z.to_nat (m_tail q) = Some v).
Proof using k_range Capacity_pow2.
  intros Hq. destruct (reachable_bounds q Hq) as (Hh & Ht & Hl).
  unfold push. rewrite next_index by done.
  destruct (Z.eqb_spec ((m_tail q + 1) mod Capacity) (m_head q)) as [E|E]; simpl.
  - split; [tauto|]. split; [done|]. intros; contradiction.
  - split; [split; [discriminate|contradiction]|].
    split; [intros; contradiction|]. intros _. split; [done|].
    apply list_lookup_insert_eq. lia.
Qed.
End Facts.

Lemma push_full_iff_witness :
  (fst (push 4 7 (create [0; 0; 0; 0])) = false <->
     (m_tail (create [0; 0; 0; 0]) + 1) mod 4 = m_head (create [0; 0; 0; 0])) /\
  ((m_tail (create [0; 0; 0; 0]) + 1) mod 4 = m_head (create [0; 0; 0; 0]) ->
     push 4 7 (create [0; 0; 0; 0]) = (false, create [0; 0; 0; 0])) /\
  ((m_tail (create [0; 0; 0; 0]) + 1) mod 4 <> m_head (create [0; 0; 0; 0]) ->
     push 4 7 (create [0; 0; 0; 0]) =
       (true, {| m_head := 0; m_tail := 1 mod 4;
                 m_buffer := <[Z.to_nat 0 := 7]> [0; 0; 0; 0] |}) /\
     m_buffer (snd (push 4 7 (create [0; 0; 0; 0]))) !! Z.to_nat 0 = Some 7).
Proof.
  apply (push_full_iff 4 2); [lia | reflexivity | apply reach_create; reflexivity].
Defined.

(** C1, as the specification lists it, is not what a buffer of capacity 4
    does: one slot always stays empty, so it holds three values and the
    fifth value is refused. *)
Lemma spsc_scenario_as_specified_fails :
  run 4 scenario (create [0; 0; 0; 0]) <> scenario_as_specified.
Proof. vm_compute. discriminate. Qed.

(** C1, amended. On a capacity-4 buffer that starts empty: push 1, 2, 3
    succeed; pop gives 1; push 4 succeeds; push 5 and push 6 are refused
    (full); three pops give 2, 3, 4; push 7, 8, 9 succeed; three pops give
    7, 8, 9; every further pop gives nothing. *)
Theorem spsc_scenario_capacity_4 (a b c d : Z) :
  run 4 scenario (create [a; b; c; d]) = scenario_as_run.
Proof. reflexivity. Qed.

Section Fifo.
Context {T : Type}.
Variable Capacity : Z.
Variable k : Z.
Hypothesis k_range : 0 <= k < 64.
Hypothesis Capacity_pow2 : Capacity = 2 ^ k.

Lemma count_range (q : LockFreeRingBuffer T) : 0 <= count Capacity q < Capacity.
Proof using k_range Capacity_pow2.
  apply Z.mod_pos_bound. exact (Capacity_pos Capacity k k_range Capacity_pow2).
Qed.

Lemma count_zero (q : LockFreeRingBuffer T) :
  in_bounds Capacity q -> (count Capacity q = 0 <-> m_head q = m_tail q).
Proof using k_range Capacity_pow2.
  intros (Hh & Ht & _). unfold count. split.
  - intros E. apply Z.mod_divide in E; [|lia]. destruct E as [c E].
    assert (c = 0) by nia. lia.
  - intros ->. now rewrite Z.sub_diag, Z.mod_0_l by lia.
Qed.

Lemma count_full (q : LockFreeRingBuffer T) :
  in_bounds Capacity q ->
  (count Capacity q = Capacity - 1 <-> (m_tail q + 1) mod Capacity = m_head q).
Proof using k_range Capacity_pow2.
  intros (Hh & Ht & _). unfold count. split.
  - intros E.
    assert (D : (m_tail q + 1 - m_head q) mod Capacity = 0).
    { replace (m_tail q + 1 - m_head q) with ((m_tail q - m_head q) + 1) by lia.
      rewrite Zplus_mod, E.
      destruct (Z.eq_dec Capacity 1) as [->|]; [reflexivity|].
      rewrite (Z.mod_small 1) by lia.
      replace (Capacity - 1 + 1) with (1 * Capacity) by lia. apply Z.mod_mul. lia. }
    apply Z.mod_divide in D; [|lia]. destruct D as [c D].
    assert (Hc : c = 0 \/ c = 1) by nia.
    destruct Hc as [-> | ->].
    + assert (m_tail q + 1 = m_head q) by lia. rewrite Z.mod_small; lia.
    + assert (m_tail q + 1 = m_head q + 1 * Capacity) by lia.
      replace (m_tail q + 1) with (m_head q + 1 * Capacity) by lia.
      rewrite Z.mod_add by lia. apply Z.mod_small. lia.
  - intros E.
    destruct (Z.eq_dec (m_tail q + 1) Capacity) as [Ew|Ew].
    + rewrite Ew, Z.mod_same in E by lia.
      rewrite <- E, Z.sub_0_r. rewrite Z.mod_small; lia.
    + rewrite Z.mod_small in E by lia.
      replace (m_tail q - m_head q) with ((Capacity - 1) + (-1) * Capacity) by lia.
      rewrite Z.mod_add by lia. apply Z.mod_small. lia.
Qed.

(** One step along the ring brings [head] one closer to [tail]. *)
Lemma count_step h t m :
  0 <= t < Capacity -> 0 <= h < Capacity ->
  (t - h) mod Capacity = m -> 1 <= m ->
  (t - (h + 1) mod Capacity) mod Capacity = m - 1 /\ h <> t.
Proof using k_range Capacity_pow2.
  intros Ht Hh E Hm.
  pose proof (Z.mod_pos_bound (t - h) Capacity ltac:(lia)) as Hb.
  split.
  - rewrite Zminus_mod_idemp_r.
    replace (t - (h + 1)) with ((t - h) - 1) by lia.
    rewrite <- Zminus_mod_idemp_l, E. apply Z.mod_small. lia.
  - intros ->. rewrite Z.sub_diag, Z.mod_0_l in E by lia. lia.
Qed.

Lemma next_in_range h : 0 <= (h + 1) mod Capacity < Capacity.
Proof using k_range Capacity_pow2.
  apply Z.mod_pos_bound. exact (Capacity_pos Capacity k k_range Capacity_pow2).
Qed.

(** Storing at [tail] appends to what the buffer holds. *)
Lemma slots_from_store (buffer : list T) t v : forall n h,
  Z.of_nat (length buffer) = Capacity ->
  0 <= t < Capacity -> 0 <= h < Capacity ->
  (t - h) mod Capacity = Z.of_nat n ->
  slots_from Capacity (<[Z.to_nat t := v]> buffer) h (S n) =
  slots_from Capacity buffer h n ++ [Some v].
Proof using k_range Capacity_pow2.
  induction n as [|n IH]; intros h Hl Ht Hh E.
  - assert (h = t).
    { apply Z.mod_divide in E; [|lia]. destruct E as [c E]. assert (c = 0) by nia. lia. }
    subst h. cbn [slots_from app]. f_equal. apply list_lookup_insert_eq. lia.
  - destruct (count_step h t (Z.of_nat (S n)) Ht Hh E ltac:(lia)) as [E' Hne].
    change (slots_from Capacity (<[Z.to_nat t := v]> buffer) h (S (S n)))
      with (<[Z.to_nat t := v]> buffer !! Z.to_nat h ::
            slots_from Capacity (<[Z.to_nat t := v]> buffer) ((h + 1) mod Capacity) (S n)).
    change (slots_from Capacity buffer h (S n))
      with (buffer !! Z.to_nat h :: slots_from Capacity buffer ((h + 1) mod Capacity) n).
    rewrite IH; try assumption; [|apply next_in_range|lia].
    cbn [app]. f_equal. apply list_lookup_insert_ne. lia.
Qed.

(** A [push] with [Capacity - 1] values waiting is refused. *)
Lemma push_refused (q : LockFreeRingBuffer T) (v : T) :
  reachable Capacity q -> count Capacity q = Capacity - 1 ->
  push Capacity v q = (false, q).
Proof using k_range Capacity_pow2.
  intros Hq N. pose proof (reachable_bounds Capacity k k_range Capacity_pow2 q Hq) as Hb.
  apply (count_full q Hb) in N. destruct Hb as (Hh & Ht & Hl).
  unfold push. rewrite (next_index Capacity k k_range Capacity_pow2) by done.
  rewrite N, Z.eqb_refl. reflexivity.
Qed.

(** A [push] with fewer values waiting puts the value behind them. *)
Lemma push_room (q : LockFreeRingBuffer T) (v : T) :
  reachable Capacity q -> count Capacity q <> Capacity - 1 ->
  fst (push Capacity v q) = true /\
  contents Capacity (snd (push Capacity v q)) = contents Capacity q ++ [Some v] /\
  count Capacity (snd (push Capacity v q)) = count Capacity q + 1.
Proof using k_range Capacity_pow2.
  intros Hq N. pose proof (reachable_bounds Capacity k k_range Capacity_pow2 q Hq) as Hb.
  pose proof (count_full q Hb) as Hfull. pose proof (count_range q) as Hc.
  destruct Hb as (Hh & Ht & Hl).
  unfold push. rewrite (next_index Capacity k k_range Capacity_pow2) by done.
  destruct (Z.eqb_spec ((m_tail q + 1) mod Capacity) (m_head q)) as [E|E].
  { apply Hfull in E. contradiction. }
  cbn [fst snd].
  assert (Ec : count Capacity
                 {| m_head := m_head q; m_tail := (m_tail q + 1) mod Capacity;
                    m_buffer := <[Z.to_nat (m_tail q) := v]> (m_buffer q) |}
               = count Capacity q + 1).
  { unfold count at 1. cbn [m_head m_tail].
    rewrite Zminus_mod_idemp_l.
    replace (m_tail q + 1 - m_head q) with ((m_tail q - m_head q) + 1) by lia.
    rewrite <- Zplus_mod_idemp_l. fold (count Capacity q).
    apply Z.mod_small. lia. }
  split; [reflexivity|]. split; [|exact Ec].
  unfold contents. rewrite Ec. cbn [m_head m_buffer].
  replace (Z.to_nat (count Capacity q + 1)) with (S (Z.to_nat (count Capacity q))) by lia.
  apply slots_from_store; try assumption.
  unfold count in *. lia.
Qed.

(** X15. The buffer as a queue, [push]: with [Capacity - 1] values
    waiting the call is refused and changes nothing; with fewer it
    succeeds and the value joins the end of what the buffer holds. *)
Theorem push_appends (q : LockFreeRingBuffer T) (v : T) :
  reachable Capacity q ->
  (count Capacity q = Capacity - 1 -> push Capacity v q = (false, q)) /\
  (count Capacity q <> Capacity - 1 ->
     fst (push Capacity v q) = true /\
     contents Capacity (snd (push Capacity v q)) = contents Capacity q ++ [Some v] /\
     count Capacity (snd (push Capacity v q)) = count Capacity q + 1).
Proof using k_range Capacity_pow2.
  intros Hq. split; intros N.
  - now apply push_refused.
  - now apply push_room.
Qed.
Lemma length_slots_from (buffer : list T) : forall n h,
  length (slots_from Capacity buffer h n) = n.
Proof using Type. induction n as [|n IH]; intros h; cbn [slots_from length]; [|rewrite IH]; reflexivity. Qed.

Lemma length_contents (q : LockFreeRingBuffer T) :
  Z.of_nat (length (contents Capacity q)) = count Capacity q.
Proof using k_range Capacity_pow2.
  unfold contents. rewrite length_slots_from. pose proof (count_range q). lia.
Qed.

(** With nothing waiting, [pop] and [peek] answer nothing. *)
Lemma pop_empty (q : LockFreeRingBuffer T) :
  reachable Capacity q -> count Capacity q = 0 ->
  pop Capacity q = (None, q) /\ peek q = None /\ contents Capacity q = [].
Proof using k_range Capacity_pow2.
  intros Hq Ez. pose proof (reachable_bounds Capacity k k_range Capacity_pow2 q Hq) as Hb.
  pose proof (proj1 (count_zero q Hb) Ez) as E.
  unfold pop, peek, contents. rewrite Ez, E, Z.eqb_refl. auto.
Qed.

(** Otherwise both answer the oldest value, and [pop] leaves the rest. *)
Lemma pop_some (q : LockFreeRingBuffer T) :
  reachable Capacity q -> count Capacity q <> 0 ->
  exists x,
    contents Capacity q = Some x :: contents Capacity (snd (pop Capacity q)) /\
    fst (pop Capacity q) = Some x /\ peek q = Some x /\
    count Capacity (snd (pop Capacity q)) = count Capacity q - 1.
Proof using k_range Capacity_pow2.
  intros Hq Hnz. pose proof (reachable_bounds Capacity k k_range Capacity_pow2 q Hq) as Hb.
  pose proof (count_zero q Hb) as Hzero. pose proof (count_range q) as Hc.
  destruct Hb as (Hh & Ht & Hl).
  unfold pop, peek.
  destruct (Z.eqb_spec (m_head q) (m_tail q)) as [E|E].
  { apply Hzero in E. contradiction. }
  rewrite (next_index Capacity k k_range Capacity_pow2) by done. cbn [fst snd].
  destruct (count_step (m_head q) (m_tail q) (count Capacity q) Ht Hh eq_refl ltac:(lia))
    as [Estep _].
  assert (Hx : is_Some (m_buffer q !! Z.to_nat (m_head q))).
  { apply lookup_lt_is_Some. lia. }
  destruct Hx as [x Hx]. exists x.
  assert (Ec : count Capacity
                 {| m_head := (m_head q + 1) mod Capacity; m_tail := m_tail q;
                    m_buffer := m_buffer q |} = count Capacity q - 1) by exact Estep.
  split; [|auto].
  unfold contents. rewrite Ec. cbn [m_head m_buffer].
  replace (Z.to_nat (count Capacity q)) with (S (Z.to_nat (count Capacity q - 1))) by lia.
  cbn [slots_from]. now rewrite Hx.
Qed.

(** X16. The buffer as a queue, [pop] and [peek]: with nothing waiting
    [pop] answers nothing and changes nothing; otherwise it answers the
    oldest value, which [peek] shows as well, and the buffer holds the
    rest. *)
Theorem pop_takes_oldest (q : LockFreeRingBuffer T) :
  reachable Capacity q ->
  (count Capacity q = 0 ->
     pop Capacity q = (None, q) /\ peek q = None /\ contents Capacity q = []) /\
  (count Capacity q <> 0 ->
     exists x,
       contents Capacity q = Some x :: contents Capacity (snd (pop Capacity q)) /\
       fst (pop Capacity q) = Some x /\ peek q = Some x /\
       count Capacity (snd (pop Capacity q)) = count Capacity q - 1).
Proof using k_range Capacity_pow2.
  intros Hq. split; intros N.
  - now apply pop_empty.
  - now apply pop_some.
Qed.

(** Values pushed while there is room are all accepted and wait in the
    order of the calls. *)
Lemma run_pushes : forall (vs : list T) (q : LockFreeRingBuffer T),
  reachable Capacity q ->
  count Capacity q + Z.of_nat (length vs) <= Capacity - 1 ->
  exists q', reachable Capacity q' /\
    contents Capacity q' = contents Capacity q ++ map Some vs /\
    forall rest, run Capacity (map Push vs ++ rest) q =
                 map (fun _ => Pushed true) vs ++ run Capacity rest q'.
Proof using k_range Capacity_pow2.
  induction vs as [|v vs IH]; intros q Hq Hroom.
  - exists q. split; [assumption|]. split; [now rewrite app_nil_r|reflexivity].
  - cbn [length] in Hroom.
    pose proof (count_range q) as Hc.
    destruct (push_room q v Hq) as (Hok & Hcont & Hcount); [lia|].
    destruct (IH (snd (push Capacity v q)) (reach_push _ _ _ Hq)) as (q' & Hq' & Hc' & Hrun).
    { rewrite Hcount. lia. }
    exists q'. split; [assumption|]. split.
    + rewrite Hc', Hcont, <- app_assoc. reflexivity.
    + intros rest. cbn [map app run].
      destruct (push Capacity v q) as [ok q1]. cbn [fst snd] in *. subst ok.
      now rewrite Hrun.
Qed.

(** The values waiting are popped oldest first. *)
Lemma run_pops : forall (vs : list T) (q : LockFreeRingBuffer T),
  reachable Capacity q -> contents Capacity q = map Some vs ->
  exists q', reachable Capacity q' /\ contents Capacity q' = [] /\
    forall rest, run Capacity (repeat Pop (length vs) ++ rest) q =
                 map (fun v => Popped (Some v)) vs ++ run Capacity rest q'.
Proof using k_range Capacity_pow2.
  induction vs as [|v vs IH]; intros q Hq Hcont.
  - exists q. auto.
  - pose proof (length_contents q) as Hlen. rewrite Hcont in Hlen. cbn [map length] in Hlen.
    destruct (pop_some q Hq) as (x & Hx & Hfst & _ & _); [lia|].
    rewrite Hcont in Hx. cbn [map] in Hx. injection Hx as <- Hrest.
    destruct (IH (snd (pop Capacity q)) (reach_pop _ _ Hq) (eq_sym Hrest))
      as (q' & Hq' & Hc' & Hrun).
    exists q'. split; [assumption|]. split; [assumption|].
    intros rest. cbn [length repeat app run map].
    destruct (pop Capacity q) as [r q1]. cbn [fst snd] in *. subst r.
    now rewrite Hrun.
Qed.

(** X17. First in, first out: on an empty buffer, up to [Capacity - 1]
    values pushed in a row are all accepted, and as many pops then
    answer them in the order they were pushed. *)
Theorem fifo_round_trip (vs : list T) (q : LockFreeRingBuffer T) :
  reachable Capacity q -> count Capacity q = 0 ->
  Z.of_nat (length vs) <= Capacity - 1 ->
  run Capacity (map Push vs ++ repeat Pop (length vs)) q =
    map (fun _ => Pushed true) vs ++ map (fun v => Popped (Some v)) vs.
Proof using k_range Capacity_pow2.
  intros Hq Hz Hlen.
  destruct (run_pushes vs q Hq ltac:(lia)) as (q1 & Hq1 & Hc1 & Hrun1).
  destruct (pop_empty q Hq Hz) as (_ & _ & Hnil). rewrite Hnil in Hc1. cbn [app] in Hc1.
  destruct (run_pops vs q1 Hq1 Hc1) as (q2 & _ & _ & Hrun2).
  rewrite Hrun1. specialize (Hrun2 []). rewrite app_nil_r in Hrun2.
  rewrite Hrun2. cbn [run]. now rewrite app_nil_r.
Qed.
End Fifo.

Lemma push_appends_witness :
  (count 4 (create [0; 0; 0; 0]) = 4 - 1 ->
     push 4 7 (create [0; 0; 0; 0]) = (false, create [0; 0; 0; 0])) /\
  (count 4 (create [0; 0; 0; 0]) <> 4 - 1 ->
     fst (push 4 7 (create [0; 0; 0; 0])) = true /\
     contents 4 (snd (push 4 7 (create [0; 0; 0; 0]))) =
       contents 4 (create [0; 0; 0; 0]) ++ [Some 7] /\
     count 4 (snd (push 4 7 (create [0; 0; 0; 0]))) = count 4 (create [0; 0; 0; 0]) + 1).
Proof.
  apply (push_appends 4 2); [lia | reflexivity | apply reach_create; reflexivity].
Defined.

Lemma pop_takes_oldest_witness :
  (count 4 (snd (push 4 7 (create [0; 0; 0; 0]))) = 0 ->
     pop 4 (snd (push 4 7 (create [0; 0; 0; 0]))) =
       (None, snd (push 4 7 (create [0; 0; 0; 0]))) /\
     peek (snd (push 4 7 (create [0; 0; 0; 0]))) = None /\
     contents 4 (snd (push 4 7 (create [0; 0; 0; 0]))) = []) /\
  (count 4 (snd (push 4 7 (create [0; 0; 0; 0]))) <> 0 ->
     exists x,
       contents 4 (snd (push 4 7 (create [0; 0; 0; 0]))) =
         Some x :: contents 4 (snd (pop 4 (snd (push 4 7 (create [0; 0; 0; 0]))))) /\
       fst (pop 4 (snd (push 4 7 (create [0; 0; 0; 0])))) = Some x /\
       peek (snd (push 4 7 (create [0; 0; 0; 0]))) = Some x /\
       count 4 (snd (pop 4 (snd (push 4 7 (create [0; 0; 0; 0]))))) =
         count 4 (snd (push 4 7 (create [0; 0; 0; 0]))) - 1).
Proof.
  apply (pop_takes_oldest 4 2); [lia | reflexivity |].
  apply reach_push, reach_create. reflexivity.
Defined.

Lemma fifo_round_trip_witness :
  run 4 (map Push [1; 2; 3] ++ repeat Pop (length [1; 2; 3])) (create [0; 0; 0; 0]) =
    map (fun _ => Pushed true) [1; 2; 3] ++ map (fun v => Popped (Some v)) [1; 2; 3].
Proof.
  apply (fifo_round_trip 4 2); [lia | reflexivity | | reflexivity | simpl; lia].
  apply reach_create. reflexivity.
Defined.

End RingBufferSpec.

(** ** The ghost arena *)

Module GhostSpec.
Import Ghost.

(** C10. [get_ghost_ptr] answers [InvalidAccess] exactly for the offsets
    at or beyond the 1 TB arena size; below it, an arena that was never
    reserved (null base) answers [InitializationFailed], not an address. *)
Theorem get_ghost_ptr_errors (st : MemoryManager) (offset : Z) :
  (get_ghost_ptr st offset = Unexpected InvalidAccess <-> GHOST_SPACE_SIZE <= offset) /\
  (offset < GHOST_SPACE_SIZE -> m_base_addr st = 0 ->
     get_ghost_ptr st offset = Unexpected InitializationFailed).
Proof.
  unfold get_ghost_ptr.
  destruct (Z.leb_spec GHOST_SPACE_SIZE offset) as [Hge|Hlt].
  - split; [tauto|]. intros; lia.
  - split.
    + split; [|lia]. destruct (m_base_addr st =? 0); discriminate.
    + intros _ ->. reflexivity.
Qed.

Lemma get_ghost_ptr_errors_witness :
  (get_ghost_ptr fresh 4096 = Unexpected InvalidAccess <-> GHOST_SPACE_SIZE <= 4096) /\
  get_ghost_ptr fresh 4096 = Unexpected InitializationFailed.
Proof.
  destruct (get_ghost_ptr_errors fresh 4096) as [H1 H2].
  split; [exact H1|]. apply H2; [unfold GHOST_SPACE_SIZE; lia | reflexivity].
Defined.

(** Below the arena size and with a reserved base the answer is the
    address [B + offset]. *)
Lemma get_ghost_ptr_address (st : MemoryManager) (offset : Z) :
  0 <= offset < GHOST_SPACE_SIZE -> 0 < m_base_addr st ->
  m_base_addr st + GHOST_SPACE_SIZE < 2 ^ 64 ->
  get_ghost_ptr st offset = Value (m_base_addr st + offset).
Proof.
  intros Ho Hb Hw. unfold get_ghost_ptr.
  destruct (Z.leb_spec GHOST_SPACE_SIZE offset); [lia|].
  destruct (Z.eqb_spec (m_base_addr st) 0); [lia|].
  now rewrite wrap64_small by lia.
Qed.

Section Bootstrap.
Variable os : Platform.
Hypothesis mprotect_succeeds : forall page, mprotect_returns os page = 0.

(** An access inside the reservation goes through, committing the page if
    need be, and leaves the contents alone. *)
Lemma touch_inside (st : MemoryManager) (addr : Z) :
  0 < m_base_addr st -> m_base_addr st + GHOST_SPACE_SIZE < 2 ^ 64 ->
  m_base_addr st <= addr < m_base_addr st + GHOST_SPACE_SIZE ->
  exists st', touch os st addr = Ok st' /\
              ram st' = ram st /\ m_base_addr st' = m_base_addr st.
Proof using mprotect_succeeds.
  intros Hb Hw Ha. unfold touch.
  destruct (decide (page_of os addr ∈ accessible st)) as [Hin|Hout].
  - eauto.
  - unfold ghost_signal_handler, handle_fault.
    rewrite wrap64_small by (unfold GHOST_SPACE_SIZE in *; lia).
    destruct (Z.eqb_spec (m_base_addr st) 0); [lia|].
    destruct (Z.leb_spec (m_base_addr st) addr); [|lia].
    destruct (Z.ltb_spec addr (m_base_addr st + GHOST_SPACE_SIZE)); [|lia].
    simpl. rewrite mprotect_succeeds. simpl.
    destruct (decide _) as [_|Hn]; [eauto|].
    exfalso. apply Hn. apply elem_of_union_l, elem_of_singleton. reflexivity.
Qed.

Lemma load_inside (st : MemoryManager) (addr : Z) :
  0 < m_base_addr st -> m_base_addr st + GHOST_SPACE_SIZE < 2 ^ 64 ->
  m_base_addr st <= addr < m_base_addr st + GHOST_SPACE_SIZE ->
  exists st', load os st addr = Ok (read64 (ram st) addr, st') /\
              ram st' = ram st /\ m_base_addr st' = m_base_addr st.
Proof using mprotect_succeeds.
  intros Hb Hw Ha. destruct (touch_inside st addr Hb Hw Ha) as (st' & Ht & Hr & Hbase).
  exists st'. unfold load. rewrite Ht. simpl. now rewrite Hr.
Qed.

Lemma store_inside (st : MemoryManager) (addr v : Z) :
  0 < m_base_addr st -> m_base_addr st + GHOST_SPACE_SIZE < 2 ^ 64 ->
  m_base_addr st <= addr < m_base_addr st + GHOST_SPACE_SIZE ->
  exists st', store os st addr v = Ok st' /\
              ram st' = write64 (ram st) addr v /\ m_base_addr st' = m_base_addr st.
Proof using mprotect_succeeds.
  intros Hb Hw Ha. destruct (touch_inside st addr Hb Hw Ha) as (st' & Ht & Hr & Hbase).
  unfold store. rewrite Ht. simpl. eexists. split; [reflexivity|]. simpl.
  now rewrite Hr.
Qed.

(** C8. On a reserved arena, [initialize_header] returns. If the magic at
    offset 0 is not [GHOST_MAGIC] (as on the zero-filled page of a fresh
    reservation), the header then reads magic [GHOST_MAGIC], vector count 0
    and head offset 24, the size of the header; if the magic already is
    [GHOST_MAGIC], the contents of the arena are left as they were. *)
Theorem initialize_header_bootstrap (st : MemoryManager) :
  0 < m_base_addr st -> m_base_addr st + GHOST_SPACE_SIZE < 2 ^ 64 ->
  exists st',
    initialize_header os st = Ok st' /\
    m_base_addr st' = m_base_addr st /\
    (read64 (ram st) (m_base_addr st) <> GHOST_MAGIC ->
       header_fields st' = (GHOST_MAGIC, 0, sizeof_MemoryHeader)) /\
    (read64 (ram st) (m_base_addr st) = GHOST_MAGIC -> ram st' = ram st).
Proof using mprotect_succeeds.
  intros Hb Hw. unfold initialize_header.
  rewrite (get_ghost_ptr_address st 0) by (unfold GHOST_SPACE_SIZE in *; lia).
  rewrite Z.add_0_r. unfold magic_at, vector_count_at, head_offset_at.
  assert (HS : GHOST_SPACE_SIZE = 1099511627776) by reflexivity.
  rewrite !wrap64_small by lia.
  destruct (load_inside st (m_base_addr st)) as (st1 & -> & Hr1 & Hb1); [lia..|].
  simpl.
  destruct (Z.eqb_spec (read64 (ram st) (m_base_addr st)) GHOST_MAGIC) as [E|E].
  - exists st1. repeat split; try done.
  - destruct (store_inside st1 (m_base_addr st) GHOST_MAGIC) as (st2 & -> & Hr2 & Hb2);
      [lia..|]. simpl.
    destruct (store_inside st2 (m_base_addr st + 8) 0) as (st3 & -> & Hr3 & Hb3);
      [lia..|]. simpl.
    destruct (store_inside st3 (m_base_addr st + 16) sizeof_MemoryHeader)
      as (st4 & -> & Hr4 & Hb4); [lia..|].
    exists st4. split; [done|]. split; [congruence|]. split; [|done].
    intros _. unfold header_fields, magic_at, vector_count_at, head_offset_at.
    replace (m_base_addr st4) with (m_base_addr st) by congruence.
    rewrite !wrap64_small by lia.
    rewrite Hr4, Hr3, Hr2.
    rewrite read64_write64_same.
    rewrite (read64_write64_other _ _ _ (m_base_addr st + 8)) by lia.
    rewrite read64_write64_same.
    rewrite !(read64_write64_other _ _ _ (m_base_addr st)) by lia.
    rewrite read64_write64_same.
    reflexivity.
Qed.
End Bootstrap.

Lemma initialize_header_bootstrap_witness :
  exists st',
    initialize_header linux_4k reserved_4k = Ok st' /\
    m_base_addr st' = m_base_addr reserved_4k /\
    (read64 (ram reserved_4k) (m_base_addr reserved_4k) <> GHOST_MAGIC ->
       header_fields st' = (GHOST_MAGIC, 0, sizeof_MemoryHeader)) /\
    (read64 (ram reserved_4k) (m_base_addr reserved_4k) = GHOST_MAGIC ->
       ram st' = ram reserved_4k).
Proof.
  apply (initialize_header_bootstrap linux_4k); [reflexivity | reflexivity | reflexivity].
Defined.

(** The whole of [initialize] on that platform: it succeeds, the header is
    bootstrapped, and exactly one page was committed on the way. *)
Example initialize_fresh_4k :
  exists st',
    initialize linux_4k fresh = Ok (Value tt, st') /\
    header_fields st' = (GHOST_MAGIC, 0, 24) /\
    m_fault_count st' = 1 /\ m_resident_pages st' = 1.
Proof. eexists. split; [reflexivity|]. vm_compute. done. Qed.

(** *** Pages *)

Lemma testbit_below_pow2 x n : 0 <= x < 2 ^ 64 -> 64 <= n -> Z.testbit x n = false.
Proof.
  intros Hx Hn. destruct (Z.eq_dec x 0) as [->|Hne]; [apply Z.bits_0|].
  apply Z.bits_above_log2; [lia|].
  assert (Z.log2 x < 64) by (apply Z.log2_lt_pow2; lia). lia.
Qed.

(** Clearing the low [j] bits rounds down to a multiple of [2^j]. *)
Lemma land_high_mask x j :
  0 <= j < 64 -> 0 <= x < 2 ^ 64 ->
  Z.land x (wrap64 (Z.lnot (wrap64 (2 ^ j - 1)))) = x - x mod 2 ^ j.
Proof.
  intros Hj Hx.
  assert (Hp : 0 < 2 ^ j < 2 ^ 64).
  { split; [apply Z.pow_pos_nonneg; lia|apply Z.pow_lt_mono_r; lia]. }
  rewrite (wrap64_small (2 ^ j - 1)) by lia.
  replace (Z.lnot (2 ^ j - 1)) with (- 2 ^ j) by (unfold Z.lnot; lia).
  assert (Ew : wrap64 (- 2 ^ j) = 2 ^ 64 - 2 ^ j).
  { unfold wrap64. replace (- 2 ^ j) with (2 ^ 64 - 2 ^ j + (-1) * 2 ^ 64) by lia.
    rewrite Z.mod_add by lia. apply Z.mod_small. lia. }
  rewrite Ew.
  replace (x - x mod 2 ^ j) with (Z.shiftl (Z.shiftr x j) j).
  2:{ rewrite Z.shiftl_mul_pow2, Z.shiftr_div_pow2 by lia.
      pose proof (Z.div_mod x (2 ^ j) ltac:(lia)). lia. }
  replace (2 ^ 64 - 2 ^ j) with (Z.shiftl (Z.ones (64 - j)) j).
  2:{ rewrite Z.shiftl_mul_pow2, Z.ones_equiv by lia.
      replace (Z.pred (2 ^ (64 - j)) * 2 ^ j) with (2 ^ (64 - j) * 2 ^ j - 2 ^ j) by lia.
      rewrite <- Z.pow_add_r by lia. replace (64 - j + j) with 64 by lia. reflexivity. }
  apply Z.bits_inj'. intros n Hn.
  rewrite Z.land_spec.
  destruct (Z_lt_le_dec n j) as [Hlt|Hge].
  - rewrite !Z.shiftl_spec_low by lia. apply andb_false_r.
  - rewrite !Z.shiftl_spec by lia. rewrite Z.shiftr_spec by lia.
    replace (n - j + j) with n by lia.
    destruct (Z_lt_le_dec n 64) as [Hlt|Hge'].
    + rewrite Z.ones_spec_low by lia. apply andb_true_r.
    + rewrite Z.ones_spec_high by lia. rewrite testbit_below_pow2 by lia. reflexivity.
Qed.

(** X18. The page of an address: with a page size of [2^j] bytes,
    [handle_fault] rounds the address down to a multiple of the page
    size, so the page holds the address. *)
Theorem page_of_rounds_down (os : Platform) (j addr : Z) :
  page_size os = 2 ^ j -> 0 <= j < 64 -> 0 <= addr < 2 ^ 64 ->
  page_of os addr = addr - addr mod page_size os /\
  page_of os addr mod page_size os = 0 /\
  page_of os addr <= addr < page_of os addr + page_size os.
Proof.
  intros Hps Hj Ha. unfold page_of. rewrite Hps.
  rewrite land_high_mask by assumption.
  assert (Hp : 0 < 2 ^ j) by (apply Z.pow_pos_nonneg; lia).
  pose proof (Z.mod_pos_bound addr (2 ^ j) Hp).
  pose proof (Z.div_mod addr (2 ^ j) ltac:(lia)).
  split; [reflexivity|]. split; [|lia].
  replace (addr - addr mod 2 ^ j) with (addr / 2 ^ j * 2 ^ j) by lia.
  apply Z.mod_mul. lia.
Qed.

Lemma page_of_rounds_down_witness :
  page_of linux_4k 0x7f0000001234 = 0x7f0000001234 - 0x7f0000001234 mod page_size linux_4k /\
  page_of linux_4k 0x7f0000001234 mod page_size linux_4k = 0 /\
  page_of linux_4k 0x7f0000001234 <= 0x7f0000001234
    < page_of linux_4k 0x7f0000001234 + page_size linux_4k.
Proof.
  apply (page_of_rounds_down linux_4k 12); [reflexivity|lia|lia].
Defined.

(** *** Accesses *)

(** An access that goes through leaves the contents and the base alone. *)
Lemma touch_keeps (os : Platform) (st st' : MemoryManager) (addr : Z) :
  touch os st addr = Ok st' -> ram st' = ram st /\ m_base_addr st' = m_base_addr st.
Proof.
  unfold touch. destruct (decide (page_of os addr ∈ accessible st)) as [Hin|Hout].
  { now intros [= <-]. }
  unfold ghost_signal_handler, handle_fault.
  destruct (negb (m_base_addr st =? 0) && (m_base_addr st <=? addr) &&
            (addr <? wrap64 (m_base_addr st + GHOST_SPACE_SIZE))); [|discriminate].
  destruct (mprotect_returns os (page_of os addr) =? 0); [|discriminate].
  destruct (decide _); [|discriminate].
  now intros [= <-].
Qed.

(** After an access that went through, the page of the address is
    committed. *)
Lemma touch_committed (os : Platform) (st st' : MemoryManager) (addr : Z) :
  touch os st addr = Ok st' -> page_of os addr ∈ accessible st'.
Proof.
  unfold touch. destruct (decide (page_of os addr ∈ accessible st)) as [Hin|Hout].
  { now intros [= <-]. }
  destruct (ghost_signal_handler os st addr) as [st1|]; [|discriminate].
  destruct (decide _) as [Hin'|]; [|discriminate].
  now intros [= <-].
Qed.

(** X19. An access that goes through found its page committed, or
    committed exactly that page: then the address lies inside the
    reservation, [mprotect] answered 0, and both counters went up by
    one. Either way the contents are untouched. *)
Theorem touch_commits_inside (os : Platform) (st st' : MemoryManager) (addr : Z) :
  touch os st addr = Ok st' ->
  ram st' = ram st /\ m_base_addr st' = m_base_addr st /\
  page_of os addr ∈ accessible st' /\
  (st' = st \/
   (accessible st' = {[ page_of os addr ]} ∪ accessible st /\
    m_base_addr st <> 0 /\
    m_base_addr st <= addr < wrap64 (m_base_addr st + GHOST_SPACE_SIZE) /\
    mprotect_returns os (page_of os addr) = 0 /\
    m_fault_count st' = wrap64 (m_fault_count st + 1) /\
    m_resident_pages st' = wrap64 (m_resident_pages st + 1))).
Proof.
  unfold touch. destruct (decide (page_of os addr ∈ accessible st)) as [Hin|Hout].
  { intros [= <-]. auto. }
  unfold ghost_signal_handler, handle_fault.
  destruct (Z.eqb_spec (m_base_addr st) 0) as [|Hb]; [discriminate|].
  destruct (Z.leb_spec (m_base_addr st) addr) as [Hlo|]; [|discriminate].
  destruct (Z.ltb_spec addr (wrap64 (m_base_addr st + GHOST_SPACE_SIZE))) as [Hhi|];
    [|discriminate].
  cbn [negb andb].
  destruct (Z.eqb_spec (mprotect_returns os (page_of os addr)) 0) as [Hm|]; [|discriminate].
  destruct (decide _) as [Hin'|]; [|discriminate].
  intros [= <-]. cbn. split; [reflexivity|]. split; [reflexivity|].
  split; [exact Hin'|]. right. auto 10.
Qed.

Lemma touch_commits_inside_witness :
  ram (mkMM 0x7f0000000000 true 1 1 ({[ 0x7f0000000000 ]} ∪ ∅) (fun _ => 0))
    = ram reserved_4k /\
  m_base_addr (mkMM 0x7f0000000000 true 1 1 ({[ 0x7f0000000000 ]} ∪ ∅) (fun _ => 0))
    = m_base_addr reserved_4k /\
  page_of linux_4k 0x7f0000000010 ∈
    accessible (mkMM 0x7f0000000000 true 1 1 ({[ 0x7f0000000000 ]} ∪ ∅) (fun _ => 0)) /\
  (mkMM 0x7f0000000000 true 1 1 ({[ 0x7f0000000000 ]} ∪ ∅) (fun _ => 0) = reserved_4k \/
   (accessible (mkMM 0x7f0000000000 true 1 1 ({[ 0x7f0000000000 ]} ∪ ∅) (fun _ => 0))
      = {[ page_of linux_4k 0x7f0000000010 ]} ∪ accessible reserved_4k /\
    m_base_addr reserved_4k <> 0 /\
    m_base_addr reserved_4k <= 0x7f0000000010
      < wrap64 (m_base_addr reserved_4k + GHOST_SPACE_SIZE) /\
    mprotect_returns linux_4k (page_of linux_4k 0x7f0000000010) = 0 /\
    m_fault_count (mkMM 0x7f0000000000 true 1 1 ({[ 0x7f0000000000 ]} ∪ ∅) (fun _ => 0))
      = wrap64 (m_fault_count reserved_4k + 1) /\
    m_resident_pages (mkMM 0x7f0000000000 true 1 1 ({[ 0x7f0000000000 ]} ∪ ∅) (fun _ => 0))
      = wrap64 (m_resident_pages reserved_4k + 1))).
Proof.
  apply (touch_commits_inside linux_4k reserved_4k). reflexivity.
Defined.



(** *** [initialize] *)

(** X21. When [mmap] fails, [initialize] answers
    [MemoryReservationFailed] and is not running, but the base address is
    left at [MAP_FAILED], which is not null: [get_ghost_ptr] then answers
    the address one below the offset instead of an error. When a
    [sigaction] call fails, the answer is [InitializationFailed] with the
    reservation kept. *)
Theorem initialize_failures (os : Platform) (st : MemoryManager) :
  m_running st = false ->
  (mmap_returns os = MAP_FAILED ->
     exists st',
       initialize os st = Ok (Unexpected MemoryReservationFailed, st') /\
       m_running st' = false /\
       forall offset, 0 < offset < GHOST_SPACE_SIZE ->
                      get_ghost_ptr st' offset = Value (offset - 1)) /\
  (mmap_returns os <> MAP_FAILED ->
   sigaction_SIGBUS os = -1 \/ sigaction_SIGSEGV os = -1 ->
     exists st',
       initialize os st = Ok (Unexpected InitializationFailed, st') /\
       m_running st' = false /\ m_base_addr st' = mmap_returns os /\
       accessible st' = ∅).
Proof.
  intros Hr. unfold initialize, reserve_address_space. rewrite Hr. cbn [m_base_addr].
  split.
  - intros Hm. rewrite Hm. cbn. eexists. split; [reflexivity|]. split; [reflexivity|].
    intros offset Ho. unfold get_ghost_ptr. cbn [m_base_addr].
    destruct (Z.leb_spec GHOST_SPACE_SIZE offset); [lia|].
    cbn. f_equal. unfold wrap64, MAP_FAILED.
    replace (2 ^ 64 - 1 + offset) with (offset - 1 + 1 * 2 ^ 64) by lia.
    rewrite Z.mod_add by lia. apply Z.mod_small.
    unfold GHOST_SPACE_SIZE in Ho. lia.
  - intros Hm Hs.
    destruct (Z.eqb_spec (mmap_returns os) MAP_FAILED) as [|_]; [contradiction|].
    unfold install_signal_handlers.
    destruct (Z.eqb_spec (sigaction_SIGBUS os) (-1)) as [_|N1].
    + eexists. split; [reflexivity|]. auto.
    + destruct (Z.eqb_spec (sigaction_SIGSEGV os) (-1)) as [_|N2]; [|lia].
      eexists. split; [reflexivity|]. auto.
Qed.

Lemma initialize_failures_witness :
  (mmap_returns (mkPlatform 4096 MAP_FAILED 0 0 (fun _ => 0)) = MAP_FAILED ->
     exists st',
       initialize (mkPlatform 4096 MAP_FAILED 0 0 (fun _ => 0)) fresh
         = Ok (Unexpected MemoryReservationFailed, st') /\
       m_running st' = false /\
       forall offset, 0 < offset < GHOST_SPACE_SIZE ->
                      get_ghost_ptr st' offset = Value (offset - 1)) /\
  (mmap_returns (mkPlatform 4096 MAP_FAILED 0 0 (fun _ => 0)) <> MAP_FAILED ->
   sigaction_SIGBUS (mkPlatform 4096 MAP_FAILED 0 0 (fun _ => 0)) = -1 \/
   sigaction_SIGSEGV (mkPlatform 4096 MAP_FAILED 0 0 (fun _ => 0)) = -1 ->
     exists st',
       initialize (mkPlatform 4096 MAP_FAILED 0 0 (fun _ => 0)) fresh
         = Ok (Unexpected InitializationFailed, st') /\
       m_running st' = false /\
       m_base_addr st' = mmap_returns (mkPlatform 4096 MAP_FAILED 0 0 (fun _ => 0)) /\
       accessible st' = ∅).
Proof.
  apply (initialize_failures (mkPlatform 4096 MAP_FAILED 0 0 (fun _ => 0)) fresh).
  reflexivity.
Defined.

Section Boot.
Variable os : Platform.
Variable j : Z.
Hypothesis page_pow2 : page_size os = 2 ^ j.
Hypothesis page_room : 5 <= j < 64.
Hypothesis mprotect_succeeds : forall page, mprotect_returns os page = 0.

(** The words of a page-aligned header share a page. *)
Lemma header_page (B d : Z) :
  0 <= B -> B + 32 < 2 ^ 64 -> B mod page_size os = 0 -> 0 <= d < 32 ->
  page_of os (B + d) = B.
Proof using page_pow2 page_room.
  intros HB Hw Hal Hd.
  unfold page_of. rewrite page_pow2 in *. rewrite land_high_mask by lia.
  assert (32 <= 2 ^ j).
  { change 32 with (2 ^ 5). apply Z.pow_le_mono_r; lia. }
  rewrite <- Zplus_mod_idemp_l, Hal. cbn [Z.add]. rewrite Z.mod_small; lia.
Qed.

(** X22. [initialize] on a platform where every call succeeds and
    [mmap] answers a page-aligned address: the arena is running, its
    header reads magic, count 0 and head offset 24, and exactly one
    page, the first of the reservation, was committed by one fault. *)
Theorem initialize_boots (st : MemoryManager) :
  m_running st = false ->
  0 < mmap_returns os -> mmap_returns os + GHOST_SPACE_SIZE < 2 ^ 64 ->
  mmap_returns os mod page_size os = 0 ->
  sigaction_SIGBUS os <> -1 -> sigaction_SIGSEGV os <> -1 ->
  exists st',
    initialize os st = Ok (Value tt, st') /\
    m_running st' = true /\ m_base_addr st' = mmap_returns os /\
    header_fields st' = (GHOST_MAGIC, 0, sizeof_MemoryHeader) /\
    accessible st' = {[ mmap_returns os ]} /\
    m_fault_count st' = wrap64 (m_fault_count st + 1) /\
    m_resident_pages st' = wrap64 (m_resident_pages st + 1).
Proof using page_pow2 page_room mprotect_succeeds.
  intros Hr HB Hw Hal Hs1 Hs2.
  assert (HS : GHOST_SPACE_SIZE = 1099511627776) by reflexivity.
  set (B := mmap_returns os) in *.
  assert (P0 : page_of os B = B).
  { replace B with (B + 0) at 1 by lia. apply header_page; lia. }
  assert (P8 : page_of os (B + 8) = B) by (apply header_page; lia).
  assert (P16 : page_of os (B + 16) = B) by (apply header_page; lia).
  unfold initialize, reserve_address_space, install_signal_handlers. rewrite Hr.
  cbn [m_base_addr m_running m_fault_count m_resident_pages accessible ram].
  fold B.
  destruct (Z.eqb_spec B MAP_FAILED) as [E|_]; [unfold MAP_FAILED in E; lia|].
  destruct (Z.eqb_spec (sigaction_SIGBUS os) (-1)) as [|_]; [contradiction|].
  destruct (Z.eqb_spec (sigaction_SIGSEGV os) (-1)) as [|_]; [contradiction|].
  unfold initialize_header, get_ghost_ptr. cbn [m_base_addr].
  destruct (Z.leb_spec GHOST_SPACE_SIZE 0) as [|_]; [lia|].
  destruct (Z.eqb_spec B 0) as [|_]; [lia|].
  rewrite Z.add_0_r, (wrap64_small B) by lia.
  unfold magic_at, vector_count_at, head_offset_at.
  rewrite !wrap64_small by lia.
  (* the load of the magic faults once *)
  unfold load at 1. unfold touch at 1. cbn [accessible]. rewrite P0.
  destruct (decide (B ∈ (∅ : gset Z))) as [Hin|_]; [set_solver|].
  unfold ghost_signal_handler, handle_fault. cbn [m_base_addr].
  rewrite wrap64_small by lia.
  destruct (Z.eqb_spec B 0) as [|_]; [lia|].
  destruct (Z.leb_spec B B) as [_|]; [|lia].
  destruct (Z.ltb_spec B (B + GHOST_SPACE_SIZE)) as [_|]; [|lia].
  cbn [negb andb]. rewrite P0, mprotect_succeeds. cbn [Z.eqb].
  cbn [accessible m_fault_count m_resident_pages m_running ram m_base_addr].
  destruct (decide (B ∈ {[B]} ∪ (∅ : gset Z))) as [_|N]; [|set_solver].
  cbn [andThen ram].
  assert (Ez : read64 (fun _ : Z => 0) B = 0) by reflexivity.
  rewrite Ez. destruct (Z.eqb_spec 0 GHOST_MAGIC) as [E|_]; [discriminate E|].
  (* the three stores find the page committed *)
  unfold store, touch.
  cbn [accessible m_fault_count m_resident_pages m_running ram m_base_addr].
  rewrite P0. destruct (decide (B ∈ {[B]} ∪ (∅ : gset Z))) as [_|N]; [|set_solver].
  cbn [andThen accessible m_fault_count m_resident_pages m_running ram m_base_addr].
  rewrite P8. destruct (decide (B ∈ {[B]} ∪ (∅ : gset Z))) as [_|N]; [|set_solver].
  cbn [andThen accessible m_fault_count m_resident_pages m_running ram m_base_addr].
  rewrite P16. destruct (decide (B ∈ {[B]} ∪ (∅ : gset Z))) as [_|N]; [|set_solver].
  cbn [andThen accessible m_fault_count m_resident_pages m_running ram m_base_addr].
  eexists. split; [reflexivity|].
  cbn [accessible m_fault_count m_resident_pages m_running ram m_base_addr].
  split; [reflexivity|]. split; [reflexivity|].
  split; [|split; [set_solver|split; reflexivity]].
  unfold header_fields, magic_at, vector_count_at, head_offset_at. cbn [m_base_addr ram].
  rewrite !wrap64_small by lia.
  rewrite read64_write64_same.
  rewrite (read64_write64_other _ _ _ (B + 8)) by lia.
  rewrite read64_write64_same.
  rewrite !(read64_write64_other _ _ _ B) by lia.
  rewrite read64_write64_same.
  reflexivity.
Qed.

End Boot.

Section SelfTest.
Variable os : Platform.
Hypothesis mprotect_succeeds : forall page, mprotect_returns os page = 0.

(** X23. The self test on a reserved arena: the 32-bit value written
    half a terabyte into the arena is read back, so the test passes, and
    the page of that address is committed afterwards. On an arena that
    was never reserved the test ends the program. *)
Theorem run_self_test_passes (st : MemoryManager) :
  (0 < m_base_addr st -> m_base_addr st + GHOST_SPACE_SIZE < 2 ^ 64 ->
   exists st',
     run_self_test os st = Ok (true, st') /\
     page_of os (m_base_addr st + self_test_offset) ∈ accessible st' /\
     read32 (ram st') (m_base_addr st + self_test_offset) = 9999) /\
  (m_base_addr st = 0 -> run_self_test os st = Ok (false, st)).
Proof using mprotect_succeeds.
  split.
  - intros HB Hw.
    assert (HS : GHOST_SPACE_SIZE = 1099511627776) by reflexivity.
    assert (HT : self_test_offset = 549755813888) by reflexivity.
    unfold run_self_test.
    rewrite (get_ghost_ptr_address st self_test_offset) by lia.
    set (p := m_base_addr st + self_test_offset).
    destruct (touch_inside os mprotect_succeeds st p HB Hw ltac:(unfold p; lia))
      as (st1 & Et & Hram & Hbase).
    pose proof (touch_committed _ _ _ _ Et) as Hin.
    unfold store32. rewrite Et. cbn [andThen].
    unfold load32, touch. cbn [accessible].
    destruct (decide (page_of os p ∈ accessible st1)) as [_|N]; [|contradiction].
    cbn [andThen ram].
    assert (Er : read32 (write32 (ram st1) p 9999) p = 9999).
    { unfold read32, write32. replace p with (p + 0) at 2 by lia.
      rewrite read_le_write_le_inside by (simpl; lia). reflexivity. }
    rewrite Er. eexists. split; [reflexivity|]. cbn [accessible ram]. auto.
  - intros E. unfold run_self_test, get_ghost_ptr. rewrite E. reflexivity.
Qed.
End SelfTest.

Lemma initialize_boots_witness :
  exists st',
    initialize linux_4k fresh = Ok (Value tt, st') /\
    m_running st' = true /\ m_base_addr st' = mmap_returns linux_4k /\
    header_fields st' = (GHOST_MAGIC, 0, sizeof_MemoryHeader) /\
    accessible st' = {[ mmap_returns linux_4k ]} /\
    m_fault_count st' = wrap64 (m_fault_count fresh + 1) /\
    m_resident_pages st' = wrap64 (m_resident_pages fresh + 1).
Proof.
  apply (initialize_boots linux_4k 12); try reflexivity; try lia; discriminate.
Defined.

Lemma run_self_test_passes_witness :
  (0 < m_base_addr reserved_4k -> m_base_addr reserved_4k + GHOST_SPACE_SIZE < 2 ^ 64 ->
   exists st',
     run_self_test linux_4k reserved_4k = Ok (true, st') /\
     page_of linux_4k (m_base_addr reserved_4k + self_test_offset) ∈ accessible st' /\
     read32 (ram st') (m_base_addr reserved_4k + self_test_offset) = 9999) /\
  (m_base_addr reserved_4k = 0 -> run_self_test linux_4k reserved_4k = Ok (false, reserved_4k)).
Proof.
  apply (run_self_test_passes linux_4k). reflexivity.
Defined.

End GhostSpec.

(** ** The slab allocator *)

Module SlabSpec.
Import Slab.

Create HintDb slab.

Lemma unlock_lock (st : SlabAllocator) :
  m_lock st = false -> unlock (set_lock st true) = st.
Proof. destruct st; simpl; intros ->; reflexivity. Qed.

(** *** Header words *)

(** Bit patterns of a header word. *)
Lemma land_1 w : Z.land w 1 = w mod 2.
Proof. change 1 with (Z.ones 1) at 1. now rewrite Z.land_ones by lia. Qed.

Lemma land_SIZE_MASK w : 0 <= w < 2 ^ 64 -> Z.land w SIZE_MASK = w - w mod 2.
Proof.
  intros Hw.
  assert (H : Z.land w (Z.ones 64) = Z.land w SIZE_MASK + Z.land w 1).
  { change (Z.ones 64) with (Z.lor SIZE_MASK 1).
    rewrite Z.land_lor_distr_r.
    rewrite <- Z.lxor_lor, <- Z.add_nocarry_lxor; try reflexivity.
    all: rewrite Z.land_assoc, <- (Z.land_assoc w SIZE_MASK), (Z.land_comm SIZE_MASK w),
           Z.land_assoc, Z.land_diag, <- Z.land_assoc;
         change (Z.land SIZE_MASK 1) with 0; apply Z.land_0_r. }
  rewrite Z.land_ones, land_1 in H by lia.
  rewrite Z.mod_small in H by lia. lia.
Qed.

Lemma lor_1 w : Z.lor w 1 = w - w mod 2 + 1.
Proof. pose proof (Z.add_lor_land w 1) as H. rewrite land_1 in H. lia. Qed.

Lemma tag_val s f : 0 <= s < 2 ^ 64 -> tag s f = word (s - s mod 2) f.
Proof.
  intros Hs. unfold tag, word, FREE_MASK. rewrite land_SIZE_MASK by assumption.
  destruct f; simpl.
  - rewrite lor_1.
    assert ((s - s mod 2) mod 2 = 0).
    { rewrite Zminus_mod, Z.mod_mod, Z.sub_diag by lia. reflexivity. }
    lia.
  - rewrite Z.lor_0_r. lia.
Qed.

Lemma word_mod2 s f : s mod 2 = 0 -> word s f mod 2 = Z.b2z f.
Proof.
  intros Hs. unfold word. rewrite Z.add_mod, Hs by lia.
  destruct f; reflexivity.
Qed.

Lemma word_size s f : 0 <= s -> s + 1 < 2 ^ 64 -> s mod 2 = 0 ->
  Z.land (word s f) SIZE_MASK = s.
Proof.
  intros H0 H1 H2. rewrite land_SIZE_MASK by (unfold word; destruct f; simpl; lia).
  rewrite word_mod2 by assumption. unfold word. lia.
Qed.

Lemma word_free s f : s mod 2 = 0 ->
  negb (Z.land (word s f) FREE_MASK =? 0) = f.
Proof.
  intros H. unfold FREE_MASK. rewrite land_1, word_mod2 by assumption.
  destruct f; reflexivity.
Qed.

Lemma word_set_free s f : s mod 2 = 0 -> Z.lor (word s f) FREE_MASK = word s true.
Proof.
  intros H. unfold FREE_MASK. rewrite lor_1, word_mod2 by assumption.
  unfold word. simpl. lia.
Qed.

Lemma tag_even s f : 0 <= s < 2 ^ 64 -> s mod 2 = 0 -> tag s f = word s f.
Proof. intros H0 H1. rewrite tag_val by assumption. rewrite H1. f_equal. lia. Qed.

Lemma land_SIZE_MASK_even s : 0 <= s < 2 ^ 64 -> s mod 2 = 0 -> Z.land s SIZE_MASK = s.
Proof. intros H0 H1. rewrite land_SIZE_MASK by assumption. lia. Qed.

(** *** Accesses by offset *)

(** Projections of updated states. *)
Ltac proj :=
  cbn [m_base m_total_size m_base_offset m_free_list_head_offset
       m_first_block_offset m_lock mem set_mem set_head set_lock set_first
       unlock wr] in *.

Lemma rd_wr_same st o v : rd (wr st o v) o = wrap64 v.
Proof. unfold rd, wr, addr. proj. apply read64_write64_same. Qed.

Lemma rd_wr_other st o v o' :
  o' + 8 <= o \/ o + 8 <= o' -> rd (wr st o v) o' = rd st o'.
Proof. intros H. unfold rd, wr, addr. proj. apply read64_write64_other. lia. Qed.

Lemma rd_set_head st h o : rd (set_head st h) o = rd st o.
Proof. reflexivity. Qed.

Lemma rd_set_lock st b o : rd (set_lock st b) o = rd st o.
Proof. reflexivity. Qed.

Lemma rd_range st o : 0 <= rd st o < 2 ^ 64.
Proof. apply read64_range. Qed.

(** Pointers computed from offsets inside the region. *)
Section Pointers.
Variable st : SlabAllocator.
Hypothesis Hp : params_ok st.

Lemma GetPtr_addr o :
  m_base_offset st <= o <= m_base_offset st + m_total_size st ->
  m_base st + (o - m_base_offset st) < 2 ^ 64 ->
  GetPtr st o = addr st o.
Proof using Hp.
  intros Ho Hlt. destruct Hp as (H1 & H2 & H3 & H4 & H5).
  unfold GetPtr, addr. rewrite (wrap64_small (o - _)) by lia.
  apply wrap64_small. lia.
Qed.

Lemma load_addr o :
  m_base_offset st <= o -> o + 8 <= m_base_offset st + m_total_size st ->
  load st (addr st o) = Done (rd st o).
Proof using Hp.
  intros H1 H2. unfold load, in_region, addr.
  replace (_ && _) with true; [reflexivity|].
  symmetry. apply andb_true_iff. split; [apply Z.leb_le | apply Z.leb_le]; lia.
Qed.

Lemma store_addr o v :
  m_base_offset st <= o -> o + 8 <= m_base_offset st + m_total_size st ->
  store st (addr st o) v = Done (wr st o v).
Proof using Hp.
  intros H1 H2. unfold store, in_region, addr.
  replace (_ && _) with true; [reflexivity|].
  symmetry. apply andb_true_iff. split; [apply Z.leb_le | apply Z.leb_le]; lia.
Qed.

Lemma load_outside o :
  m_base_offset st + m_total_size st < o + 8 ->
  load st (addr st o) = OutOfBounds.
Proof using Hp.
  intros H1. unfold load, in_region, addr.
  replace (_ && _) with false; [reflexivity|].
  symmetry. apply andb_false_iff. right. apply Z.leb_gt. lia.
Qed.
End Pointers.

Lemma params_ok_wr st o v : params_ok st -> params_ok (wr st o v).
Proof. intros H; exact H. Qed.
Lemma params_ok_set_head st h : params_ok st -> params_ok (set_head st h).
Proof. intros H; exact H. Qed.
Lemma params_ok_set_lock st b : params_ok st -> params_ok (set_lock st b).
Proof. intros H; exact H. Qed.

(** Accesses of a later state [st'] through pointers computed from [st]. *)
Section Access.
Variables st st' : SlabAllocator.
Hypothesis Hp : params_ok st.
Hypothesis Hs : same_params st st'.

Local Abbreviation O := (m_base_offset st).
Local Abbreviation T := (m_total_size st).

Lemma addr_same o : addr st' o = addr st o.
Proof using Hs. unfold addr. destruct Hs as (-> & _ & -> & _). reflexivity. Qed.

Lemma params_ok_same : params_ok st'.
Proof using Hp Hs.
  destruct Hs as (H1 & H2 & H3 & _). unfold params_ok. rewrite H1, H2, H3. exact Hp.
Qed.

Lemma GetPtr_at o :
  O <= o -> o + 8 <= O + T -> GetPtr st' o = addr st o.
Proof using Hp Hs.
  intros H1 H2. rewrite <- addr_same. pose proof params_ok_same as Hp'.
  destruct Hs as (E1 & E2 & E3 & _). destruct Hp as (P1 & P2 & P3 & P4 & P5).
  apply GetPtr_addr; [exact Hp' | lia | lia].
Qed.

Lemma addr_shift o k :
  O <= o + k -> o + k + 8 <= O + T -> wrap64 (addr st o + k) = addr st (o + k).
Proof using Hp.
  intros H1 H2. destruct Hp as (P1 & P2 & P3 & P4 & P5).
  unfold addr. rewrite wrap64_small by lia. lia.
Qed.

Lemma GetPayload_addr o :
  O <= o + 64 -> o + 72 <= O + T -> GetPayload (addr st o) = addr st (o + 64).
Proof using Hp. intros. unfold GetPayload, sizeof_BlockHeader. apply addr_shift; lia. Qed.

Lemma prev_field_addr o :
  O <= o + 8 -> o + 16 <= O + T -> prev_field (addr st o) = addr st (o + 8).
Proof using Hp. intros. unfold prev_field. apply addr_shift; lia. Qed.

Lemma footer_addr o sz :
  O <= o + sz - 8 -> o + sz <= O + T ->
  wrap64 (wrap64 (addr st o + sz) - sizeof_BlockFooter) = addr st (o + sz - 8).
Proof using Hp.
  intros H1 H2. destruct Hp as (P1 & P2 & P3 & P4 & P5).
  unfold wrap64, sizeof_BlockFooter. rewrite Zminus_mod_idemp_l.
  unfold addr. rewrite Z.mod_small by lia. lia.
Qed.

Lemma before_addr o :
  O <= o - 8 -> o <= O + T ->
  wrap64 (addr st o - sizeof_BlockFooter) = addr st (o - 8).
Proof using Hp.
  intros H1 H2. destruct Hp as (P1 & P2 & P3 & P4 & P5).
  unfold sizeof_BlockFooter, addr. rewrite wrap64_small by lia. lia.
Qed.

Lemma load_at o :
  O <= o -> o + 8 <= O + T -> load st' (addr st o) = Done (rd st' o).
Proof using Hp Hs.
  intros H1 H2. rewrite <- addr_same. destruct Hs as (E1 & E2 & E3 & _).
  apply load_addr; [exact params_ok_same | lia | lia].
Qed.

Lemma store_at o v :
  O <= o -> o + 8 <= O + T -> store st' (addr st o) v = Done (wr st' o v).
Proof using Hp Hs.
  intros H1 H2. rewrite <- addr_same. destruct Hs as (E1 & E2 & E3 & _).
  apply store_addr; [exact params_ok_same | lia | lia].
Qed.

Lemma load_past_end o :
  O + T < o + 8 -> load st' (addr st o) = OutOfBounds.
Proof using Hp Hs.
  intros H1. rewrite <- addr_same. destruct Hs as (E1 & E2 & E3 & _).
  apply load_outside; [exact params_ok_same | lia].
Qed.

Lemma GetSize_at o :
  O <= o -> o + 8 <= O + T ->
  GetSize st' (addr st o) = Done (Z.land (rd st' o) SIZE_MASK).
Proof using Hp Hs. intros. unfold GetSize. now rewrite load_at. Qed.

Lemma IsFree_at o :
  O <= o -> o + 8 <= O + T ->
  IsFree st' (addr st o) = Done (negb (Z.land (rd st' o) FREE_MASK =? 0)).
Proof using Hp Hs. intros. unfold IsFree. now rewrite load_at. Qed.

Lemma Set_at o size f :
  O <= o -> o + 8 <= O + T ->
  Set_ st' (addr st o) size f = Done (wr st' o (tag size f)).
Proof using Hp Hs. intros. unfold Set_. now rewrite store_at. Qed.

Lemma SetFree_at o f :
  O <= o -> o + 8 <= O + T ->
  SetFree st' (addr st o) f =
    Done (wr st' o (if f then Z.lor (rd st' o) FREE_MASK
                    else Z.land (rd st' o) SIZE_MASK)).
Proof using Hp Hs. intros. unfold SetFree. rewrite load_at by assumption. cbn [bind]. now rewrite store_at. Qed.

Lemma SetSize_at o size :
  O <= o -> o + 8 <= O + T ->
  SetSize st' (addr st o) size =
    Done (wr st' o (tag size (negb (Z.land (rd st' o) FREE_MASK =? 0)))).
Proof using Hp Hs. intros. unfold SetSize. rewrite IsFree_at by assumption. cbn [bind]. now rewrite store_at. Qed.

Lemma UpdateFooter_at o sz :
  Z.land (rd st' o) SIZE_MASK = sz ->
  O <= o -> 16 <= sz -> o + sz <= O + T ->
  UpdateFooter st' (addr st o) = Done (wr st' (o + sz - 8) (rd st' o)).
Proof using Hp Hs.
  intros Hsz H1 H2 H3. unfold UpdateFooter, GetFooter.
  rewrite GetSize_at by lia. cbn [bind]. rewrite Hsz.
  rewrite footer_addr by lia. rewrite load_at by lia. cbn [bind].
  now rewrite store_at by lia.
Qed.
End Access.

Lemma same_params_refl st : same_params st st.
Proof. repeat split. Qed.
Lemma same_params_wr st st' o v : same_params st st' -> same_params st (wr st' o v).
Proof. intros H; exact H. Qed.
Lemma same_params_set_head st st' h : same_params st st' -> same_params st (set_head st' h).
Proof. intros H; exact H. Qed.
Lemma same_params_set_lock st st' b : same_params st st' -> same_params st (set_lock st' b).
Proof. intros H; exact H. Qed.
Lemma same_params_trans st1 st2 st3 :
  same_params st1 st2 -> same_params st2 st3 -> same_params st1 st3.
Proof. unfold same_params. intros (?&?&?&?) (?&?&?&?). repeat split; congruence. Qed.
#[local] Hint Resolve same_params_refl same_params_wr same_params_set_head
  same_params_set_lock : slab.

(** *** Runs of blocks and linked nodes *)

(** Runs of blocks. *)
Lemma chain_end o bs : forall e, chain o bs e -> e = o + span bs.
Proof.
  revert o. induction bs as [|b bs IH]; intros o e H; simpl in *.
  - lia.
  - destruct H as (_ & _ & _ & H). apply IH in H. lia.
Qed.

Lemma chain_app o l1 l2 e :
  chain o (l1 ++ l2) e <-> chain o l1 (o + span l1) /\ chain (o + span l1) l2 e.
Proof.
  revert o. induction l1 as [|b l1 IH]; intros o; simpl.
  - rewrite Z.add_0_r. tauto.
  - rewrite IH. replace (o + b_size b + span l1) with (o + (b_size b + span l1)) by lia.
    tauto.
Qed.

Lemma span_nonneg o bs e : chain o bs e -> 0 <= span bs.
Proof.
  revert o. induction bs as [|b bs IH]; intros o H; simpl in *; [lia|].
  destruct H as (_ & Hs & _ & H). apply IH in H. unfold MIN_BLOCK_SIZE in Hs. lia.
Qed.

Lemma chain_In o bs e b :
  chain o bs e -> In b bs ->
  o <= b_off b /\ b_off b + b_size b <= e /\ 128 <= b_size b /\ b_size b mod 2 = 0.
Proof.
  revert o. induction bs as [|b' bs IH]; intros o H Hin; [contradiction|].
  simpl in H. destruct H as (Ho & Hs & Hev & H). unfold MIN_BLOCK_SIZE in Hs.
  pose proof (chain_end _ _ _ H) as He. pose proof (span_nonneg _ _ _ H).
  destruct Hin as [<-|Hin].
  - lia.
  - specialize (IH _ H Hin). lia.
Qed.

Lemma chain_sep o bs e b1 b2 :
  chain o bs e -> In b1 bs -> In b2 bs ->
  b1 = b2 \/ b_off b1 + b_size b1 <= b_off b2 \/ b_off b2 + b_size b2 <= b_off b1.
Proof.
  revert o. induction bs as [|b bs IH]; intros o H H1 H2; [contradiction|].
  simpl in H. destruct H as (Ho & Hs & Hev & H).
  destruct H1 as [<-|H1], H2 as [<-|H2].
  - now left.
  - pose proof (chain_In _ _ _ _ H H2). lia.
  - pose proof (chain_In _ _ _ _ H H1). lia.
  - eauto.
Qed.

Lemma chain_NoDup o bs e : chain o bs e -> NoDup bs.
Proof.
  revert o. induction bs as [|b bs IH]; intros o H; [constructor|].
  simpl in H. destruct H as (Ho & Hs & Hev & H). constructor; [|eauto].
  intros Hin%list_elem_of_In. pose proof (chain_In _ _ _ _ H Hin).
  unfold MIN_BLOCK_SIZE in Hs. lia.
Qed.

(** Linked nodes. *)
Lemma hd_app_hd (l1 l2 : list Z) n : hd n (l1 ++ l2) = hd (hd n l2) l1.
Proof. destruct l1; reflexivity. Qed.

Lemma last_cons_last (l : list Z) : forall x p, List.last (x :: l) p = List.last l x.
Proof.
  induction l as [|y l IH]; intros x p; [reflexivity|].
  change (List.last (x :: y :: l) p) with (List.last (y :: l) p).
  now rewrite (IH y p), (IH y x).
Qed.

Lemma dll_app st l1 : forall p l2 n,
  dll st p (l1 ++ l2) n <-> dll st p l1 (hd n l2) /\ dll st (List.last l1 p) l2 n.
Proof.
  induction l1 as [|x l1 IH]; intros p l2 n.
  - simpl. tauto.
  - cbn [app dll]. rewrite IH, hd_app_hd, last_cons_last. tauto.
Qed.

Lemma dll_frame st st' l : forall p n,
  (forall x, In x l -> rd st' (x + 64) = rd st (x + 64) /\ rd st' (x + 72) = rd st (x + 72)) ->
  dll st p l n -> dll st' p l n.
Proof.
  induction l as [|x l IH]; intros p n Hf H; [exact I|].
  destruct H as (H1 & H2 & H3). destruct (Hf x (or_introl eq_refl)) as [E1 E2].
  cbn [dll]. rewrite E1, E2. repeat split; try assumption.
  apply IH; [|assumption]. intros y Hy. apply Hf. now right.
Qed.

Lemma last_In (l : list Z) d : l <> [] -> In (List.last l d) l.
Proof.
  induction l as [|x l IH]; [congruence|]. intros _.
  destruct l as [|y l]; [now left|].
  right. apply IH. congruence.
Qed.

(** Changing the successor of the last node. *)
Lemma dll_set_last_next st st' l : forall p n n',
  l <> [] -> NoDup l -> dll st p l n ->
  rd st' (List.last l 0 + 64) = n' ->
  (forall x, In x l -> rd st' (x + 72) = rd st (x + 72)) ->
  (forall x, In x l -> x <> List.last l 0 -> rd st' (x + 64) = rd st (x + 64)) ->
  dll st' p l n'.
Proof.
  induction l as [|x l IH]; intros p n n' Hne Hnd H Hl Hp Hn; [congruence|].
  destruct H as (H1 & H2 & H3). apply NoDup_cons in Hnd as [Hx Hnd].
  cbn [dll]. rewrite (Hp x) by now left. split; [|split; [assumption|]].
  - destruct l as [|y l]; [exact Hl|].
    rewrite Hn; [exact H1 | now left |].
    change (List.last (x :: y :: l) 0) with (List.last (y :: l) 0).
    intros E. apply Hx, list_elem_of_In. rewrite E. apply last_In. congruence.
  - destruct l as [|y l]; [exact I|].
    change (List.last (x :: y :: l) 0) with (List.last (y :: l) 0) in *.
    apply (IH x n n'); try assumption; try congruence.
    + intros z Hz. apply Hp. now right.
    + intros z Hz Hzl. apply Hn; [now right|assumption].
Qed.

(** Changing the predecessor of the first node. *)
Lemma dll_set_first_prev st st' x l p p' n :
  dll st p (x :: l) n ->
  rd st' (x + 72) = p' -> rd st' (x + 64) = rd st (x + 64) ->
  (forall y, In y l -> rd st' (y + 64) = rd st (y + 64) /\ rd st' (y + 72) = rd st (y + 72)) ->
  dll st' p' (x :: l) n.
Proof.
  intros (H1 & H2 & H3) E1 E2 Hf. cbn [dll]. rewrite E2.
  repeat split; try assumption. eapply dll_frame; eassumption.
Qed.

Lemma dll_last_prev st l : forall p n x,
  dll st p (l ++ [x]) n -> rd st (x + 72) = List.last l p /\ rd st (x + 64) = n.
Proof.
  intros p n x H. apply dll_app in H as [_ H]. simpl in H. tauto.
Qed.

(** *** The source's operations as state transformers *)

(** Symbolic execution of accesses. *)
Ltac same := solve [split; [|split; [|split]]; reflexivity].
Ltac side := first [assumption | same | lia].

Ltac offs :=
  repeat match goal with
         | |- context [?a + 64 + 8] => replace (a + 64 + 8) with (a + 72) by lia
         end.

Ltac norm st :=
  repeat first
    [ rewrite (GetPtr_at st) by side
    | rewrite (GetPayload_addr st) by side
    | rewrite (prev_field_addr st) by side
    | rewrite (load_at st) by side
    | rewrite (store_at st) by side
    | progress cbn [bind]
    | progress unfold next_field
    | progress offs ].

Ltac rdsimp :=
  repeat first
    [ rewrite rd_wr_same
    | rewrite rd_wr_other by lia
    | rewrite rd_set_head
    | rewrite rd_set_lock ].

(** The source's list surgery as the transformers of the model. *)
Lemma RemoveFromFreeList_eq st x pv nx :
  params_ok st ->
  m_base_offset st <= x -> x + 80 <= m_base_offset st + m_total_size st ->
  rd st (x + 64) = nx -> rd st (x + 72) = pv ->
  (pv <> 0 -> m_base_offset st <= pv /\ pv + 80 <= m_base_offset st + m_total_size st /\
              (pv + 80 <= x \/ x + 80 <= pv)) ->
  (nx <> 0 -> m_base_offset st <= nx /\ nx + 80 <= m_base_offset st + m_total_size st /\
              (nx + 80 <= x \/ x + 80 <= nx)) ->
  RemoveFromFreeList st x = Done (unlink_next (unlink_prev st pv nx) pv nx).
Proof.
  intros Hp X1 X2 Hn Hv Hpv Hnx. unfold RemoveFromFreeList, unlink_next, unlink_prev.
  norm st. rewrite Hv, Hn.
  destruct (Z.eqb_spec pv 0) as [E|E]; norm st.
  - rewrite rd_set_head, Hn.
    destruct (Z.eqb_spec nx 0) as [E'|E']; [reflexivity|].
    destruct (Hnx E') as (? & ? & ?). norm st. now rewrite rd_set_head, Hv.
  - destruct (Hpv E) as (? & ? & ?). norm st.
    rewrite rd_wr_other, Hn by lia.
    destruct (Z.eqb_spec nx 0) as [E'|E']; [reflexivity|].
    destruct (Hnx E') as (? & ? & ?). norm st.
    now rewrite rd_wr_other, Hv by lia.
Qed.

Lemma InsertHead_eq st x :
  params_ok st ->
  m_base_offset st <= x -> x + 80 <= m_base_offset st + m_total_size st ->
  (m_free_list_head_offset st <> 0 ->
     m_base_offset st <= m_free_list_head_offset st /\
     m_free_list_head_offset st + 80 <= m_base_offset st + m_total_size st) ->
  InsertHead st x =
    Done (set_head
            (relink_next (wr (wr st (x + 64) (m_free_list_head_offset st)) (x + 72) 0)
                         (m_free_list_head_offset st) x) x).
Proof.
  intros Hp X1 X2 Hh. unfold InsertHead, relink_next. norm st. proj.
  destruct (Z.eqb_spec (m_free_list_head_offset st) 0) as [E|E]; norm st; [reflexivity|].
  destruct (Hh E) as (? & ?). norm st. reflexivity.
Qed.

Ltac wsimp :=
  repeat first
    [ rewrite word_size by lia
    | rewrite word_free by lia
    | rewrite tag_even by lia
    | rewrite word_set_free by lia ].

Lemma word_range s f : 0 <= s -> s + 1 < 2 ^ 64 -> 0 <= word s f < 2 ^ 64.
Proof. unfold word. destruct f; simpl; lia. Qed.

Lemma wrap64_word s f : 0 <= s -> s + 1 < 2 ^ 64 -> wrap64 (word s f) = word s f.
Proof. intros. apply wrap64_small. now apply word_range. Qed.

(** Splitting the free block at [o] (size [s]) for a request rounded to
    [req]. *)
Lemma take_block_split st o s req pv nx :
  params_ok st ->
  m_base_offset st <= o -> o + s <= m_base_offset st + m_total_size st ->
  0 < o ->
  s mod 2 = 0 -> req mod 2 = 0 -> 128 <= req -> req + 136 <= s ->
  rd st o = word s true ->
  rd st (o + 64) = nx -> rd st (o + 72) = pv ->
  (pv <> 0 -> m_base_offset st <= pv /\ pv + 80 <= m_base_offset st + m_total_size st /\
              (pv + 80 <= o \/ o + s <= pv)) ->
  (nx <> 0 -> m_base_offset st <= nx /\ nx + 80 <= m_base_offset st + m_total_size st /\
              (nx + 80 <= o \/ o + s <= nx)) ->
  take_block st o req =
    Done (o + 64,
          relink_next
            (relink_prev
               (wr (wr (wr (wr (wr (wr st o (word req false))
                                   (o + req - 8) (word req false))
                               (o + req) (word (s - req) true))
                           (o + s - 8) (word (s - req) true))
                       (o + req + 72) pv)
                   (o + req + 64) nx)
               pv (o + req))
            nx (o + req)).
Proof.
  intros Hp X1 X2 X0 Es Er R1 R2 Hw Hn Hv Hpv Hnx.
  destruct Hp as (P1 & P2 & P3 & P4 & P5).
  assert (Hp : params_ok st) by (repeat split; assumption).
  assert (Erem : (s - req) mod 2 = 0).
  { rewrite Zminus_mod, Es, Er. reflexivity. }
  unfold take_block, relink_next, relink_prev.
  rewrite (GetPtr_at st) by side. rewrite (GetPayload_addr st) by side.
  rewrite (GetSize_at st) by side. cbn [bind]. rewrite Hw. wsimp.
  unfold sizeof_BlockHeader, sizeof_BlockFooter.
  rewrite (wrap64_small (s - req)) by lia.
  destruct (Z.leb_spec (64 + 64 + 8) (s - req)); [|lia].
  rewrite (Set_at st) by side. cbn [bind]. wsimp.
  rewrite (UpdateFooter_at st _ Hp (same_params_wr _ _ _ _ (same_params_refl st)) o req);
    [ | rdsimp; rewrite wrap64_word by lia; wsimp; reflexivity | lia | lia | lia ].
  cbn [bind]. rdsimp. rewrite wrap64_word by lia.
  rewrite (wrap64_small (o + req)) by lia.
  rewrite (GetPtr_at st) by side.
  rewrite (Set_at st) by side. cbn [bind]. wsimp.
  erewrite (UpdateFooter_at st _ Hp _ (o + req) (s - req));
    [ | rdsimp; rewrite wrap64_word by lia; wsimp; reflexivity | lia | lia | lia ].
  cbn [bind]. rdsimp. rewrite wrap64_word by lia.
  replace (o + req + (s - req) - 8) with (o + s - 8) by lia.
  norm st. rdsimp. rewrite Hv, Hn.
  norm st. rdsimp.
  rewrite (wrap64_small pv) by (subst pv; apply rd_range).
  rewrite (wrap64_small (o + 64)) by lia.
  destruct (Z.eqb_spec pv 0) as [E|E].
  - norm st. rdsimp.
    rewrite (wrap64_small nx) by (subst nx; apply rd_range).
    destruct (Z.eqb_spec nx 0) as [E'|E']; [reflexivity|].
    destruct (Hnx E') as (? & ? & ?). norm st. reflexivity.
  - destruct (Hpv E) as (? & ? & ?). norm st. rdsimp.
    rewrite (wrap64_small nx) by (subst nx; apply rd_range).
    destruct (Z.eqb_spec nx 0) as [E'|E']; [reflexivity|].
    destruct (Hnx E') as (? & ? & ?). norm st. reflexivity.
  Unshelve. all: same.
Qed.

Lemma word_false s : word s false = s.
Proof. unfold word. simpl. lia. Qed.

(** Using the free block at [o] (size [s]) whole. *)
Lemma take_block_whole st o s req pv nx :
  params_ok st ->
  m_base_offset st <= o -> o + s <= m_base_offset st + m_total_size st ->
  0 < o ->
  s mod 2 = 0 -> 128 <= s -> req <= s < req + 136 ->
  rd st o = word s true ->
  rd st (o + 64) = nx -> rd st (o + 72) = pv ->
  (pv <> 0 -> m_base_offset st <= pv /\ pv + 80 <= m_base_offset st + m_total_size st /\
              (pv + 80 <= o \/ o + s <= pv)) ->
  (nx <> 0 -> m_base_offset st <= nx /\ nx + 80 <= m_base_offset st + m_total_size st /\
              (nx + 80 <= o \/ o + s <= nx)) ->
  take_block st o req =
    Done (o + 64,
          wr (wr (unlink_next (unlink_prev st pv nx) pv nx) o (word s false))
             (o + s - 8) (word s false)).
Proof.
  intros Hp X1 X2 X0 Es R1 R2 Hw Hn Hv Hpv Hnx.
  destruct Hp as (P1 & P2 & P3 & P4 & P5).
  assert (Hp : params_ok st) by (repeat split; assumption).
  unfold take_block, unlink_next, unlink_prev.
  rewrite (GetPtr_at st) by side. rewrite (GetPayload_addr st) by side.
  rewrite (GetSize_at st) by side. cbn [bind]. rewrite Hw. wsimp.
  unfold sizeof_BlockHeader, sizeof_BlockFooter.
  rewrite (wrap64_small (s - req)) by lia.
  destruct (Z.leb_spec (64 + 64 + 8) (s - req)); [lia|].
  rewrite (wrap64_small (o + 64)) by lia.
  norm st. rewrite Hv, Hn.
  destruct (Z.eqb_spec pv 0) as [E|E].
  - norm st. rdsimp. rewrite Hn.
    destruct (Z.eqb_spec nx 0) as [E'|E'].
    + cbn [bind]. rewrite (SetFree_at st) by side. cbn [bind]. rdsimp.
      rewrite Hw. wsimp.
      erewrite (UpdateFooter_at st _ Hp _ o s);
        [ | rdsimp; rewrite wrap64_small by lia; apply land_SIZE_MASK_even; lia | lia | lia | lia].
      rdsimp. rewrite (wrap64_small s) by lia. now rewrite word_false.
    + destruct (Hnx E') as (? & ? & ?). norm st. rdsimp. rewrite Hv.
      norm st. rewrite (SetFree_at st) by side. cbn [bind]. rdsimp.
      rewrite Hw. wsimp.
      erewrite (UpdateFooter_at st _ Hp _ o s);
        [ | rdsimp; rewrite wrap64_small by lia; apply land_SIZE_MASK_even; lia | lia | lia | lia].
      rdsimp. rewrite (wrap64_small s) by lia. now rewrite word_false.
  - destruct (Hpv E) as (? & ? & ?). norm st. rdsimp. rewrite Hn.
    destruct (Z.eqb_spec nx 0) as [E'|E'].
    + cbn [bind]. rewrite (SetFree_at st) by side. cbn [bind]. rdsimp.
      rewrite Hw. wsimp.
      erewrite (UpdateFooter_at st _ Hp _ o s);
        [ | rdsimp; rewrite wrap64_small by lia; apply land_SIZE_MASK_even; lia | lia | lia | lia].
      rdsimp. rewrite (wrap64_small s) by lia. now rewrite word_false.
    + destruct (Hnx E') as (? & ? & ?). norm st. rdsimp. rewrite Hv.
      norm st. rewrite (SetFree_at st) by side. cbn [bind]. rdsimp.
      rewrite Hw. wsimp.
      erewrite (UpdateFooter_at st _ Hp _ o s);
        [ | rdsimp; rewrite wrap64_small by lia; apply land_SIZE_MASK_even; lia | lia | lia | lia].
      rdsimp. rewrite (wrap64_small s) by lia. now rewrite word_false.
  Unshelve. all: same.
Qed.

(** The transformers keep the parameters, the lock and (where they say so)
    the memory outside the touched node fields. *)
Lemma same_params_unlink_prev st st' pv nx :
  same_params st st' -> same_params st (unlink_prev st' pv nx).
Proof. unfold unlink_prev. destruct (pv =? 0); intros H; exact H. Qed.
Lemma same_params_unlink_next st st' pv nx :
  same_params st st' -> same_params st (unlink_next st' pv nx).
Proof. unfold unlink_next. destruct (nx =? 0); intros H; exact H. Qed.
Lemma same_params_relink_prev st st' pv x :
  same_params st st' -> same_params st (relink_prev st' pv x).
Proof. unfold relink_prev. destruct (pv =? 0); intros H; exact H. Qed.
Lemma same_params_relink_next st st' nx x :
  same_params st st' -> same_params st (relink_next st' nx x).
Proof. unfold relink_next. destruct (nx =? 0); intros H; exact H. Qed.
#[local] Hint Resolve same_params_unlink_prev same_params_unlink_next
  same_params_relink_prev same_params_relink_next : slab.

Ltac side ::= first [assumption | same | solve [auto 12 with slab] | lia].

Lemma rd_unlink_prev st pv nx w :
  (pv <> 0 -> w + 8 <= pv + 64 \/ pv + 72 <= w) ->
  rd (unlink_prev st pv nx) w = rd st w.
Proof.
  unfold unlink_prev. destruct (Z.eqb_spec pv 0); intros H; [reflexivity|].
  apply rd_wr_other. specialize (H n). lia.
Qed.

Lemma rd_unlink_next st pv nx w :
  (nx <> 0 -> w + 8 <= nx + 72 \/ nx + 80 <= w) ->
  rd (unlink_next st pv nx) w = rd st w.
Proof.
  unfold unlink_next. destruct (Z.eqb_spec nx 0); intros H; [reflexivity|].
  apply rd_wr_other. specialize (H n). lia.
Qed.

Lemma rd_relink_prev st pv x w :
  (pv <> 0 -> w + 8 <= pv + 64 \/ pv + 72 <= w) ->
  rd (relink_prev st pv x) w = rd st w.
Proof. apply rd_unlink_prev. Qed.

Lemma rd_relink_next st nx x w :
  (nx <> 0 -> w + 8 <= nx + 72 \/ nx + 80 <= w) ->
  rd (relink_next st nx x) w = rd st w.
Proof. apply rd_unlink_next. Qed.

Lemma lock_unlink_prev st pv nx : m_lock (unlink_prev st pv nx) = m_lock st.
Proof. unfold unlink_prev. now destruct (pv =? 0). Qed.
Lemma lock_unlink_next st pv nx : m_lock (unlink_next st pv nx) = m_lock st.
Proof. unfold unlink_next. now destruct (nx =? 0). Qed.
Lemma head_unlink_next st pv nx :
  m_free_list_head_offset (unlink_next st pv nx) = m_free_list_head_offset st.
Proof. unfold unlink_next. now destruct (nx =? 0). Qed.
Lemma head_unlink_prev st pv nx :
  m_free_list_head_offset (unlink_prev st pv nx) =
  if pv =? 0 then nx else m_free_list_head_offset st.
Proof. unfold unlink_prev. now destruct (pv =? 0). Qed.

(** The right-hand step of [Free], for the block at [o] of size [s] that
    was just marked free. *)
Section CoalesceRight.
Variables st0 st : SlabAllocator.
Variables o s : Z.
Hypothesis Hp : params_ok st0.
Hypothesis Hs : same_params st0 st.
Hypothesis X0 : 0 < o.
Hypothesis X1 : m_base_offset st0 <= o.
Hypothesis X2 : o + s <= m_base_offset st0 + m_total_size st0.
Hypothesis Es : s mod 2 = 0.
Hypothesis Rs : 128 <= s.
Hypothesis Hw : rd st o = word s true.

Lemma coalesce_right_at_end :
  m_base_offset st0 + m_total_size st0 <= o + s ->
  coalesce_right st o (addr st0 o) = Done st.
Proof using Hp Hs X0 X1 X2 Es Rs Hw.
  intros He. pose proof Hp as (P1 & P2 & P3 & P4 & P5). pose proof Hs as (E1 & E2 & E3 & E4).
  unfold coalesce_right. rewrite (GetSize_at st0) by side. cbn [bind].
  rewrite Hw. wsimp. rewrite E2, E3.
  rewrite !wrap64_small by lia.
  destruct (Z.ltb_spec (o + s) (m_total_size st0 + m_base_offset st0)); [lia|reflexivity].
Qed.

Lemma coalesce_right_odd_end :
  o + s < m_base_offset st0 + m_total_size st0 < o + s + 8 ->
  coalesce_right st o (addr st0 o) = OutOfBounds.
Proof using Hp Hs X0 X1 X2 Es Rs Hw.
  intros He. pose proof Hp as (P1 & P2 & P3 & P4 & P5). pose proof Hs as (E1 & E2 & E3 & E4).
  unfold coalesce_right. rewrite (GetSize_at st0) by side. cbn [bind].
  rewrite Hw. wsimp. rewrite E2, E3.
  rewrite !wrap64_small by lia.
  destruct (Z.ltb_spec (o + s) (m_total_size st0 + m_base_offset st0)); [|lia].
  assert (Hg : GetPtr st (o + s) = addr st0 (o + s)).
  { rewrite <- (addr_same st0 st Hs). apply GetPtr_addr.
    - apply (params_ok_same st0 st Hp Hs).
    - rewrite E2, E3. lia.
    - rewrite E1, E3. lia. }
  rewrite Hg. unfold addr at 1.
  destruct (Z.eqb_spec (m_base st0 + (o + s - m_base_offset st0)) 0); [lia|].
  unfold IsFree. rewrite (load_past_end st0) by side. reflexivity.
Qed.

Lemma coalesce_right_used s2 :
  o + s + 8 <= m_base_offset st0 + m_total_size st0 ->
  s2 mod 2 = 0 ->
  rd st (o + s) = word s2 false ->
  coalesce_right st o (addr st0 o) = Done st.
Proof using Hp Hs X0 X1 X2 Es Rs Hw.
  intros He E2' Hw2. pose proof Hp as (P1 & P2 & P3 & P4 & P5).
  pose proof Hs as (E1 & E2 & E3 & E4).
  unfold coalesce_right. rewrite (GetSize_at st0) by side. cbn [bind].
  rewrite Hw. wsimp. rewrite E2, E3.
  rewrite !wrap64_small by lia.
  destruct (Z.ltb_spec (o + s) (m_total_size st0 + m_base_offset st0)); [|lia].
  rewrite (GetPtr_at st0) by side. unfold addr at 1.
  destruct (Z.eqb_spec (m_base st0 + (o + s - m_base_offset st0)) 0); [lia|].
  fold (addr st0 (o + s)).
  rewrite (IsFree_at st0) by side. cbn [bind]. rewrite Hw2. wsimp. reflexivity.
Qed.

Lemma coalesce_right_free s2 pv nx :
  o + s + s2 <= m_base_offset st0 + m_total_size st0 ->
  s2 mod 2 = 0 -> 128 <= s2 ->
  rd st (o + s) = word s2 true ->
  rd st (o + s + 64) = nx -> rd st (o + s + 72) = pv ->
  (pv <> 0 -> m_base_offset st0 <= pv /\ pv + 80 <= m_base_offset st0 + m_total_size st0 /\
              (pv + 80 <= o \/ o + s + s2 <= pv)) ->
  (nx <> 0 -> m_base_offset st0 <= nx /\ nx + 80 <= m_base_offset st0 + m_total_size st0 /\
              (nx + 80 <= o \/ o + s + s2 <= nx)) ->
  coalesce_right st o (addr st0 o) =
    Done (wr (wr (unlink_next (unlink_prev st pv nx) pv nx) o (word (s + s2) true))
             (o + s + s2 - 8) (word (s + s2) true)).
Proof using Hp Hs X0 X1 X2 Es Rs Hw.
  intros He E2' R2 Hw2 Hn Hv Hpv Hnx. pose proof Hp as (P1 & P2 & P3 & P4 & P5).
  pose proof Hs as (E1 & E2 & E3 & E4).
  assert (Hp' : params_ok st) by (apply (params_ok_same st0 st Hp Hs)).
  assert (Es2 : (s + s2) mod 2 = 0) by (rewrite Z.add_mod, Es, E2' by lia; reflexivity).
  unfold coalesce_right. rewrite (GetSize_at st0) by side. cbn [bind].
  rewrite Hw. wsimp. rewrite E2, E3.
  rewrite !wrap64_small by lia.
  destruct (Z.ltb_spec (o + s) (m_total_size st0 + m_base_offset st0)); [|lia].
  rewrite (GetPtr_at st0) by side. unfold addr at 1.
  destruct (Z.eqb_spec (m_base st0 + (o + s - m_base_offset st0)) 0); [lia|].
  fold (addr st0 (o + s)).
  rewrite (IsFree_at st0) by side. cbn [bind]. rewrite Hw2. wsimp.
  rewrite (RemoveFromFreeList_eq st (o + s) pv nx)
    by first [assumption | lia
             | intros Hne; first [specialize (Hpv Hne) | specialize (Hnx Hne)]; lia].
  cbn [bind].
  rewrite !(GetSize_at st0) by side. cbn [bind].
  rewrite !rd_unlink_next, !rd_unlink_prev, Hw, Hw2;
    try (intros Hne; first [specialize (Hpv Hne) | specialize (Hnx Hne)]; lia).
  wsimp. rewrite (wrap64_small (s + s2)) by lia.
  rewrite (SetSize_at st0) by side. cbn [bind].
  rewrite !rd_unlink_next, !rd_unlink_prev, Hw;
    try (intros Hne; first [specialize (Hpv Hne) | specialize (Hnx Hne)]; lia).
  wsimp.
  erewrite (UpdateFooter_at st0 _ Hp _ o (s + s2));
    [ | rdsimp; rewrite wrap64_word by lia; wsimp; reflexivity | lia | lia | lia].
  rdsimp. rewrite wrap64_word by lia.
  replace (o + (s + s2) - 8) with (o + s + s2 - 8) by lia. reflexivity.
  Unshelve. side.
Qed.
End CoalesceRight.

(** The left-hand step of [Free], for the free block at [o] of size [S]. *)
Section CoalesceLeft.
Variables st0 st : SlabAllocator.
Variables o S f : Z.
Hypothesis Hp : params_ok st0.
Hypothesis Hs : same_params st0 st.
Hypothesis Hf : m_first_block_offset st0 = Some f.
Hypothesis X0 : 0 < o.
Hypothesis X1 : m_base_offset st0 <= o.
Hypothesis X2 : o + S <= m_base_offset st0 + m_total_size st0.
Hypothesis Es : S mod 2 = 0.
Hypothesis Rs : 128 <= S.
Hypothesis Hw : rd st o = word S true.

Lemma coalesce_left_first :
  o <= f -> coalesce_left st o (addr st0 o) = InsertHead st o.
Proof using Hp Hs Hf.
  intros Hle. destruct Hs as (_ & _ & _ & E4).
  unfold coalesce_left. rewrite E4, Hf. cbn [bind].
  destruct (Z.ltb_spec f o); [lia|reflexivity].
Qed.

Lemma coalesce_left_used s0 :
  f < o -> m_base_offset st0 <= o - 8 ->
  s0 mod 2 = 0 ->
  rd st (o - 8) = word s0 false ->
  coalesce_left st o (addr st0 o) = InsertHead st o.
Proof using Hp Hs Hf X0 X1 X2 Es Rs Hw.
  intros Hlt Hb E0 Hw0. pose proof Hs as (_ & _ & _ & E4).
  pose proof Hp as (P1 & P2 & P3 & P4 & P5).
  unfold coalesce_left. rewrite E4, Hf. cbn [bind].
  destruct (Z.ltb_spec f o); [|lia].
  rewrite (before_addr st0) by side.
  rewrite (load_at st0) by side. cbn [bind]. rewrite Hw0. wsimp. reflexivity.
Qed.

Lemma coalesce_left_free s0 :
  f < o -> m_base_offset st0 <= o - s0 -> 0 < o - s0 -> 128 <= s0 ->
  s0 mod 2 = 0 ->
  rd st (o - 8) = word s0 true ->
  rd st (o - s0) = word s0 true ->
  coalesce_left st o (addr st0 o) =
    Done (wr (wr st (o - s0) (word (s0 + S) true)) (o + S - 8) (word (s0 + S) true)).
Proof using Hp Hs Hf X0 X1 X2 Es Rs Hw.
  intros Hlt Hb Hb0 R0 E0 Hw0 Hh0. pose proof Hs as (_ & _ & _ & E4).
  pose proof Hp as (P1 & P2 & P3 & P4 & P5).
  assert (Es2 : (s0 + S) mod 2 = 0) by (rewrite Z.add_mod, Es, E0 by lia; reflexivity).
  unfold coalesce_left. rewrite E4, Hf. cbn [bind].
  destruct (Z.ltb_spec f o); [|lia].
  rewrite (before_addr st0) by side.
  rewrite (load_at st0) by side. cbn [bind]. rewrite Hw0. wsimp.
  rewrite (wrap64_small (o - s0)) by lia.
  rewrite (GetPtr_at st0) by side.
  rewrite !(GetSize_at st0) by side. cbn [bind]. rewrite Hh0, Hw. wsimp.
  rewrite (wrap64_small (s0 + S)) by lia.
  rewrite (SetSize_at st0) by side. cbn [bind]. rewrite Hh0. wsimp.
  erewrite (UpdateFooter_at st0 _ Hp _ (o - s0) (s0 + S));
    [ | rdsimp; rewrite wrap64_word by lia; wsimp; reflexivity | lia | lia | lia].
  rdsimp. rewrite wrap64_word by lia.
  replace (o - s0 + (s0 + S) - 8) with (o + S - 8) by lia. reflexivity.
  Unshelve. side.
Qed.
End CoalesceLeft.

(** [Free] of a block in use: mark it, then the two steps. *)
Lemma Free_locked_eq st o s :
  params_ok st ->
  0 < o -> m_base_offset st <= o -> o + s <= m_base_offset st + m_total_size st ->
  s mod 2 = 0 -> 128 <= s ->
  rd st o = word s false ->
  rd st (o + s - 8) = word s false ->
  Free_locked (o + 64) st =
    (st3 <- coalesce_right (wr (wr st o (word s true)) (o + s - 8) (word s true))
                           o (addr st o) ;;
     coalesce_left st3 o (addr st o)).
Proof.
  intros Hp X0 X1 X2 Es Rs Hw Hft. pose proof Hp as (P1 & P2 & P3 & P4 & P5).
  unfold Free_locked, sizeof_BlockHeader.
  replace (o + 64 - 64) with o by lia. rewrite (wrap64_small o) by lia.
  rewrite (GetPtr_at st) by side.
  rewrite (IsFree_at st) by side. cbn [bind]. rewrite Hw. wsimp.
  rewrite (SetFree_at st) by side. cbn [bind]. rewrite Hw. wsimp.
  erewrite (UpdateFooter_at st _ Hp _ o s);
    [ | rdsimp; rewrite wrap64_word by lia; wsimp; reflexivity | lia | lia | lia].
  cbn [bind]. rdsimp. rewrite wrap64_word by lia. reflexivity.
  Unshelve. side.
Qed.

(** *** Lists of blocks *)

Lemma free_offsets_app l1 l2 :
  free_offsets (l1 ++ l2) = free_offsets l1 ++ free_offsets l2.
Proof.
  induction l1 as [|b l1 IH]; [reflexivity|]. simpl.
  destruct (b_free b); simpl; now rewrite IH.
Qed.

Lemma used_payloads_app l1 l2 :
  used_payloads (l1 ++ l2) = used_payloads l1 ++ used_payloads l2.
Proof.
  induction l1 as [|b l1 IH]; [reflexivity|]. simpl.
  destruct (b_free b); simpl; now rewrite IH.
Qed.

Lemma In_free_offsets bs x :
  In x (free_offsets bs) <-> exists s, In (x, s, true) bs.
Proof.
  induction bs as [|[[o s] f] bs IH]; simpl.
  - split; [contradiction|]. intros (? & []).
  - unfold b_free, b_off; simpl. destruct f; simpl; rewrite IH; split.
    + intros [<-|(s' & H)]; eauto.
    + intros (s' & [[= -> ->]|H]); eauto.
    + intros (s' & H); eauto.
    + intros (s' & [[=]|H]); eauto.
Qed.

Lemma In_used_payloads bs p :
  In p (used_payloads bs) <-> exists s, In (p - 64, s, false) bs.
Proof.
  induction bs as [|[[o s] f] bs IH]; simpl.
  - split; [contradiction|]. intros (? & []).
  - unfold b_free, b_off; simpl. destruct f; simpl; rewrite IH; split.
    + intros (s' & H); eauto.
    + intros (s' & [[=]|H]); eauto.
    + intros [<-|(s' & H)]; [|eauto]. exists s. left. repeat f_equal. lia.
    + intros (s' & [[= -> ->]|H]); [left; lia | eauto].
Qed.

Lemma NoDup_free_offsets o bs e : chain o bs e -> NoDup (free_offsets bs).
Proof.
  revert o. induction bs as [|b bs IH]; intros o H; [constructor|].
  simpl in H. destruct H as (Ho & Hs & Hev & H). simpl.
  destruct (b_free b); [|eauto]. constructor; [|eauto].
  intros Hin%list_elem_of_In%In_free_offsets. destruct Hin as (s' & Hin).
  pose proof (chain_In _ _ _ _ H Hin) as Hc. unfold b_off, MIN_BLOCK_SIZE in *.
  simpl in Hc. lia.
Qed.

(** No two neighbours free, across list surgery. *)
Lemma nadj_cons b l :
  no_adjacent_free (b :: l) = negb (b_free b && hd_free l) && no_adjacent_free l.
Proof.
  destruct b as [[o s] f]. destruct l as [|[[o' s'] f'] l]; simpl.
  - unfold b_free; simpl. now rewrite andb_false_r.
  - reflexivity.
Qed.

Lemma last_free_snoc l b : last_free (l ++ [b]) = b_free b.
Proof. unfold last_free. now rewrite last_snoc. Qed.

Lemma last_free_cons b l : l <> [] -> last_free (b :: l) = last_free l.
Proof. unfold last_free. destruct l; [congruence|]. reflexivity. Qed.

Lemma last_free_app l b l' : last_free (l ++ b :: l') = last_free (b :: l').
Proof.
  unfold last_free. induction l as [|a l IH]; [reflexivity|].
  rewrite <- IH. simpl. destruct (l ++ b :: l') eqn:E; [|reflexivity].
  destruct l; discriminate.
Qed.

Lemma nadj_mid l1 b l2 :
  no_adjacent_free (l1 ++ b :: l2) =
    no_adjacent_free l1 && no_adjacent_free l2 &&
    negb (b_free b && (last_free l1 || hd_free l2)).
Proof.
  induction l1 as [|a l1 IH].
  - cbn [app]. rewrite nadj_cons. unfold last_free. simpl.
    destruct (b_free b), (hd_free l2), (no_adjacent_free l2); reflexivity.
  - cbn [app]. rewrite !nadj_cons, IH.
    destruct l1 as [|a' l1].
    + cbn [app hd_free]. unfold last_free at 2. simpl.
      unfold last_free. simpl.
      destruct (b_free a), (b_free b), (hd_free l2), (no_adjacent_free l2); reflexivity.
    + rewrite (last_free_cons a) by discriminate.
      cbn [app hd_free].
      destruct (b_free a), (b_free a'), (b_free b), (hd_free l2),
        (no_adjacent_free l2), (no_adjacent_free (a' :: l1)), (last_free (a' :: l1));
        reflexivity.
Qed.

Lemma span_app l1 l2 : span (l1 ++ l2) = span l1 + span l2.
Proof. induction l1 as [|b l1 IH]; simpl; [reflexivity|]. rewrite IH. lia. Qed.

(** Words of the tags lie outside every node. *)
Lemma tag_off_node o bs e b y sy fy :
  chain o bs e -> In b bs -> In (y, sy, fy) bs ->
  (b_off b + 8 <= y + 64 \/ y + 80 <= b_off b) /\
  (b_off b + b_size b - 8 + 8 <= y + 64 \/ y + 80 <= b_off b + b_size b - 8).
Proof.
  intros Hc Hb Hy.
  pose proof (chain_In _ _ _ _ Hc Hb). pose proof (chain_In _ _ _ _ Hc Hy) as Hy'.
  destruct (chain_sep _ _ _ _ _ Hc Hb Hy) as [->|Hsep];
    unfold b_off, b_size in *; simpl in *; lia.
Qed.

Lemma tagged_frame st st' b :
  rd st' (b_off b) = rd st (b_off b) ->
  rd st' (b_off b + b_size b - 8) = rd st (b_off b + b_size b - 8) ->
  tagged st b -> tagged st' b.
Proof. unfold tagged. intros -> ->. tauto. Qed.

Lemma Forall_tagged_frame st st' bs :
  (forall b, In b bs ->
     rd st' (b_off b) = rd st (b_off b) /\
     rd st' (b_off b + b_size b - 8) = rd st (b_off b + b_size b - 8)) ->
  Forall (tagged st) bs -> Forall (tagged st') bs.
Proof.
  intros Hf H. apply Forall_forall. intros b Hb%list_elem_of_In.
  rewrite Forall_forall in H. destruct (Hf b Hb).
  apply (tagged_frame st); auto. apply H. now apply list_elem_of_In.
Qed.

(** *** Surgery on the free list *)

(** Facts about the ends of a list of positive offsets. *)
Lemma last_zero_or_in (l : list Z) :
  (l = [] /\ List.last l 0 = 0) \/ (l <> [] /\ In (List.last l 0) l).
Proof.
  destruct l as [|x l]; [left; auto|]. right. split; [discriminate|].
  apply last_In. discriminate.
Qed.

Lemma hd_zero_or_in (l : list Z) :
  (l = [] /\ hd 0 l = 0) \/ (exists l', l = hd 0 l :: l').
Proof. destruct l as [|x l]; [left; auto|]. right. eauto. Qed.

Lemma nodes_ok_app_l st l1 l2 : nodes_ok st (l1 ++ l2) -> nodes_ok st l1.
Proof.
  intros [H1 H2]. split.
  - intros x Hx. apply H1, in_or_app. now left.
  - intros x y Hx Hy. apply H2; apply in_or_app; now left.
Qed.

Lemma nodes_ok_app_r st l1 l2 : nodes_ok st (l1 ++ l2) -> nodes_ok st l2.
Proof.
  intros [H1 H2]. split.
  - intros x Hx. apply H1, in_or_app. now right.
  - intros x y Hx Hy. apply H2; apply in_or_app; now right.
Qed.

Ltac unl :=
  unfold unlink_next, unlink_prev, relink_next, relink_prev;
  repeat match goal with
         | |- context [?a =? 0] => destruct (Z.eqb_spec a 0)
         end;
  rdsimp.

(** Taking [x] out of the list. *)
Lemma dll_unlink st l1 x l2 :
  params_ok st ->
  nodes_ok st (l1 ++ x :: l2) -> NoDup (l1 ++ x :: l2) ->
  dll st 0 (l1 ++ x :: l2) 0 ->
  let pv := List.last l1 0 in
  let nx := hd 0 l2 in
  let st' := unlink_next (unlink_prev st pv nx) pv nx in
  dll st' 0 (l1 ++ l2) 0 /\
  (m_free_list_head_offset st = hd 0 (l1 ++ x :: l2) ->
   m_free_list_head_offset st' = hd 0 (l1 ++ l2)) /\
  (forall w, off_nodes (l1 ++ l2) w -> rd st' w = rd st w).
Proof.
  intros (P1 & P2 & P3 & P4 & P5) [Hb Hap] Hnd Hd pv nx st'.
  apply dll_app in Hd as [Hd1 (Hx64 & Hx72 & Hd2)]. cbn [hd] in Hd1.
  assert (Hin1 : forall y, In y l1 -> In y (l1 ++ x :: l2))
    by (intros; apply in_or_app; now left).
  assert (Hin2 : forall y, In y l2 -> In y (l1 ++ x :: l2))
    by (intros; apply in_or_app; right; now right).
  assert (Hd12 : forall y z, In y l1 -> In z l2 -> y + 80 <= z \/ z + 80 <= y).
  { intros y z Hy Hz. destruct (Hap y z (Hin1 _ Hy) (Hin2 _ Hz)) as [->|?]; [|assumption].
    exfalso. apply NoDup_app in Hnd as (_ & Hnd & _).
    apply (Hnd z); [now apply list_elem_of_In | apply list_elem_of_In; now right]. }
  assert (Hpv : (l1 = [] /\ pv = 0) \/ (l1 <> [] /\ In pv l1)) by apply last_zero_or_in.
  assert (Hnx : (l2 = [] /\ nx = 0) \/ (exists l', l2 = nx :: l')) by apply hd_zero_or_in.
  assert (Hnx' : nx = 0 \/ In nx l2).
  { destruct Hnx as [[_ ?]|(l' & E)]; [now left|right]. rewrite E. now left. }
  assert (Hpv' : pv = 0 \/ In pv l1) by tauto.
  assert (Hnxr : wrap64 nx = nx).
  { apply wrap64_small. destruct Hnx' as [->|Hn]; [lia|].
    destruct (Hb nx (Hin2 _ Hn)). lia. }
  assert (Hpvr : wrap64 pv = pv).
  { apply wrap64_small. destruct Hpv' as [->|Hn]; [lia|].
    destruct (Hb pv (Hin1 _ Hn)). lia. }
  assert (Hpos : forall y, In y (l1 ++ x :: l2) -> y <> 0).
  { intros y Hy. destruct (Hb y Hy). lia. }
  assert (Hpn : pv <> 0 -> nx <> 0 -> pv + 80 <= nx \/ nx + 80 <= pv).
  { intros ? ?. destruct Hpv' as [?|Hpin]; [contradiction|].
    destruct Hnx' as [?|Hnin]; [contradiction|]. auto. }
  assert (Hy1 : forall y, In y l1 -> y <> 0 /\ (nx <> 0 -> y + 80 <= nx \/ nx + 80 <= y) /\
                (pv <> 0 -> y = pv \/ y + 80 <= pv \/ pv + 80 <= y)).
  { intros y Hy. split; [auto|]. split.
    - intros ?. destruct Hnx' as [?|Hnin]; [contradiction|]. auto.
    - intros ?. destruct Hpv' as [?|Hpin]; [contradiction|]. auto. }
  assert (Hy2 : forall y, In y l2 -> y <> 0 /\ (pv <> 0 -> y + 80 <= pv \/ pv + 80 <= y) /\
                (nx <> 0 -> y = nx \/ y + 80 <= nx \/ nx + 80 <= y)).
  { intros y Hy. split; [auto|]. split.
    - intros ?. destruct Hpv' as [?|Hpin]; [contradiction|].
      specialize (Hd12 pv y Hpin Hy). lia.
    - intros ?. destruct Hnx' as [?|Hnin]; [contradiction|]. auto. }
  split; [|split].
  - apply dll_app. split.
    + destruct Hpv as [[-> _]|[Hne Hpin]]; [exact I|].
      apply NoDup_app in Hnd as (Hnd1 & _ & _).
      destruct (Hy1 pv Hpin) as (Hpv0 & ? & _).
      apply (dll_set_last_next st st' l1 0 x nx); try assumption.
      * fold pv. subst st'. unl; try rewrite Hnxr; first [reflexivity | lia].
      * intros y Hy. destruct (Hy1 y Hy) as (? & ? & ?).
        subst st'. unl; first [reflexivity | lia].
      * intros y Hy Hyl. fold pv in Hyl. destruct (Hy1 y Hy) as (? & ? & ?).
        subst st'. unl; first [reflexivity | lia].
    + destruct Hnx as [[-> _]|(l' & E)]; [exact I|].
      rewrite E in *. cbn [hd] in nx.
      assert (Hnin : In nx (nx :: l')) by now left.
      destruct (Hy2 nx Hnin) as (Hnx0 & ? & _).
      eapply (dll_set_first_prev st st' nx l' x); [exact Hd2 | | | ].
      * subst st'. unl; try rewrite Hpvr; first [reflexivity | lia].
      * subst st'. unl; first [reflexivity | lia].
      * intros y Hy. destruct (Hy2 y (or_intror Hy)) as (? & ? & Hyn).
        assert (y <> nx).
        { intros ->. apply NoDup_app in Hnd as (_ & _ & Hnd).
          apply NoDup_cons in Hnd as [_ Hnd]. apply NoDup_cons in Hnd as [Hnd _].
          apply Hnd. now apply list_elem_of_In. }
        subst st'. split; unl; first [reflexivity | lia].
  - intros Hh. subst st'. rewrite head_unlink_next, head_unlink_prev.
    destruct Hpv as [[-> Hz]|[Hne Hpin]].
    + rewrite Hz. reflexivity.
    + destruct (Z.eqb_spec pv 0) as [Ez|_]; [exfalso; apply (Hpos pv); auto|].
      rewrite Hh. destruct l1; [congruence|reflexivity].
  - intros w Hw. subst st'.
    rewrite rd_unlink_next, rd_unlink_prev; [reflexivity | |].
    + intros Hne. destruct Hpv' as [?|Hpin]; [contradiction|].
      specialize (Hw pv (in_or_app _ _ _ (or_introl Hpin))). lia.
    + intros Hne. destruct Hnx' as [?|Hnin]; [contradiction|].
      specialize (Hw nx (in_or_app _ _ _ (or_intror Hnin))). lia.
Qed.

(** Putting [x'] where [x] was. *)
Lemma dll_relink st l1 x' l2 x :
  params_ok st ->
  nodes_ok st (l1 ++ x' :: l2) -> NoDup (l1 ++ x' :: l2) ->
  dll st 0 l1 x -> dll st x l2 0 ->
  rd st (x' + 64) = hd 0 l2 -> rd st (x' + 72) = List.last l1 0 ->
  let pv := List.last l1 0 in
  let nx := hd 0 l2 in
  let st' := relink_next (relink_prev st pv x') nx x' in
  dll st' 0 (l1 ++ x' :: l2) 0 /\
  (m_free_list_head_offset st = hd x l1 ->
   m_free_list_head_offset st' = hd 0 (l1 ++ x' :: l2)) /\
  (forall w, off_nodes (l1 ++ l2) w -> rd st' w = rd st w).
Proof.
  intros (P1 & P2 & P3 & P4 & P5) [Hb Hap] Hnd Hd1 Hd2 Hx64 Hx72 pv nx st'.
  assert (Hin1 : forall y, In y l1 -> In y (l1 ++ x' :: l2))
    by (intros; apply in_or_app; now left).
  assert (Hin2 : forall y, In y l2 -> In y (l1 ++ x' :: l2))
    by (intros; apply in_or_app; right; now right).
  assert (Hinx : In x' (l1 ++ x' :: l2)) by (apply in_or_app; right; now left).
  assert (Hd12 : forall y z, In y l1 -> In z l2 -> y + 80 <= z \/ z + 80 <= y).
  { intros y z Hy Hz. destruct (Hap y z (Hin1 _ Hy) (Hin2 _ Hz)) as [->|?]; [|assumption].
    exfalso. apply NoDup_app in Hnd as (_ & Hnd & _).
    apply (Hnd z); [now apply list_elem_of_In | apply list_elem_of_In; now right]. }
  assert (Hx1 : forall y, In y l1 -> y + 80 <= x' \/ x' + 80 <= y).
  { intros y Hy. destruct (Hap y x' (Hin1 _ Hy) Hinx) as [->|?]; [|assumption].
    exfalso. apply NoDup_app in Hnd as (_ & Hnd & _).
    apply (Hnd x'); [now apply list_elem_of_In | apply list_elem_of_In; now left]. }
  assert (Hx2 : forall y, In y l2 -> y + 80 <= x' \/ x' + 80 <= y).
  { intros y Hy. destruct (Hap y x' (Hin2 _ Hy) Hinx) as [->|?]; [|assumption].
    exfalso. apply NoDup_app in Hnd as (_ & _ & Hnd).
    apply NoDup_cons in Hnd as [Hnd _]. apply Hnd. now apply list_elem_of_In. }
  assert (Hpv : (l1 = [] /\ pv = 0) \/ (l1 <> [] /\ In pv l1)) by apply last_zero_or_in.
  assert (Hnx : (l2 = [] /\ nx = 0) \/ (exists l', l2 = nx :: l')) by apply hd_zero_or_in.
  assert (Hnx' : nx = 0 \/ In nx l2).
  { destruct Hnx as [[_ ?]|(l' & E)]; [now left|right]. rewrite E. now left. }
  assert (Hpv' : pv = 0 \/ In pv l1) by tauto.
  assert (Hxr : wrap64 x' = x').
  { apply wrap64_small. destruct (Hb x' Hinx). lia. }
  assert (Hpos : forall y, In y (l1 ++ x' :: l2) -> y <> 0).
  { intros y Hy. destruct (Hb y Hy). lia. }
  assert (Hpn : pv <> 0 -> nx <> 0 -> pv + 80 <= nx \/ nx + 80 <= pv).
  { intros ? ?. destruct Hpv' as [?|Hpin]; [contradiction|].
    destruct Hnx' as [?|Hnin]; [contradiction|]. auto. }
  assert (Hpx : pv <> 0 -> pv + 80 <= x' \/ x' + 80 <= pv).
  { intros ?. destruct Hpv' as [?|Hpin]; [contradiction|]. auto. }
  assert (Hnxx : nx <> 0 -> nx + 80 <= x' \/ x' + 80 <= nx).
  { intros ?. destruct Hnx' as [?|Hnin]; [contradiction|]. auto. }
  assert (Hy1 : forall y, In y l1 -> y <> 0 /\ (nx <> 0 -> y + 80 <= nx \/ nx + 80 <= y) /\
                (pv <> 0 -> y = pv \/ y + 80 <= pv \/ pv + 80 <= y)).
  { intros y Hy. split; [auto|]. split.
    - intros ?. destruct Hnx' as [?|Hnin]; [contradiction|]. auto.
    - intros ?. destruct Hpv' as [?|Hpin]; [contradiction|]. auto. }
  assert (Hy2 : forall y, In y l2 -> y <> 0 /\ (pv <> 0 -> y + 80 <= pv \/ pv + 80 <= y) /\
                (nx <> 0 -> y = nx \/ y + 80 <= nx \/ nx + 80 <= y)).
  { intros y Hy. split; [auto|]. split.
    - intros ?. destruct Hpv' as [?|Hpin]; [contradiction|].
      specialize (Hd12 pv y Hpin Hy). lia.
    - intros ?. destruct Hnx' as [?|Hnin]; [contradiction|]. auto. }
  split; [|split].
  - apply dll_app. cbn [hd dll]. split; [|split; [|split]].
    + destruct Hpv as [[-> _]|[Hne Hpin]]; [exact I|].
      apply NoDup_app in Hnd as (Hnd1 & _ & _).
      destruct (Hy1 pv Hpin) as (Hpv0 & ? & _).
      apply (dll_set_last_next st st' l1 0 x x'); try assumption.
      * fold pv. subst st'. unl; try rewrite Hxr; first [reflexivity | lia].
      * intros y Hy. destruct (Hy1 y Hy) as (? & ? & ?).
        subst st'. unl; first [reflexivity | lia].
      * intros y Hy Hyl. fold pv in Hyl. destruct (Hy1 y Hy) as (? & ? & ?).
        subst st'. unl; first [reflexivity | lia].
    + rewrite <- Hx64. subst st'. unl; first [reflexivity | lia].
    + fold pv. fold pv in Hx72. rewrite <- Hx72. subst st'. unl; first [reflexivity | lia].
    + destruct Hnx as [[-> _]|(l' & E)]; [exact I|].
      rewrite E in *. cbn [hd] in nx.
      assert (Hnin : In nx (nx :: l')) by now left.
      destruct (Hy2 nx Hnin) as (Hnx0 & ? & _).
      eapply (dll_set_first_prev st st' nx l' x); [exact Hd2 | | | ].
      * subst st'. unl; try rewrite Hxr; first [reflexivity | lia].
      * subst st'. unl; first [reflexivity | lia].
      * intros y Hy. destruct (Hy2 y (or_intror Hy)) as (? & ? & Hyn).
        assert (y <> nx).
        { intros ->. apply NoDup_app in Hnd as (_ & _ & Hnd).
          apply NoDup_cons in Hnd as [_ Hnd]. apply NoDup_cons in Hnd as [Hnd _].
          apply Hnd. now apply list_elem_of_In. }
        subst st'. split; unl; first [reflexivity | lia].
  - intros Hh. subst st'. unfold relink_next, relink_prev.
    destruct Hpv as [[-> Hz]|[Hne Hpin]].
    + rewrite Hz. cbn [Z.eqb]. destruct (nx =? 0); reflexivity.
    + destruct (Z.eqb_spec pv 0) as [Ez|_]; [exfalso; apply (Hpos pv); auto|].
      destruct (nx =? 0); proj; rewrite Hh; destruct l1; congruence || reflexivity.
  - intros w Hw. subst st'.
    rewrite rd_relink_next, rd_relink_prev; [reflexivity | |].
    + intros Hne. destruct Hpv' as [?|Hpin]; [contradiction|].
      specialize (Hw pv (in_or_app _ _ _ (or_introl Hpin))). lia.
    + intros Hne. destruct Hnx' as [?|Hnin]; [contradiction|].
      specialize (Hw nx (in_or_app _ _ _ (or_intror Hnin))). lia.
Qed.

(** Putting [x] at the head. *)
Lemma dll_insert st x fl :
  params_ok st ->
  nodes_ok st (x :: fl) -> NoDup (x :: fl) ->
  dll st 0 fl 0 -> m_free_list_head_offset st = hd 0 fl ->
  let h := m_free_list_head_offset st in
  let st' := set_head (relink_next (wr (wr st (x + 64) h) (x + 72) 0) h x) x in
  dll st' 0 (x :: fl) 0 /\
  m_free_list_head_offset st' = x /\
  (forall w, off_nodes (x :: fl) w -> rd st' w = rd st w).
Proof.
  intros (P1 & P2 & P3 & P4 & P5) [Hb Hap] Hnd Hd Hh h st'.
  assert (Hinx : In x (x :: fl)) by now left.
  assert (Hxr : wrap64 x = x).
  { apply wrap64_small. destruct (Hb x Hinx). lia. }
  assert (Hhd : (fl = [] /\ h = 0) \/ (exists l', fl = h :: l')).
  { subst h. rewrite Hh. apply hd_zero_or_in. }
  assert (Hxy : forall y, In y fl -> y <> 0 /\ (y + 80 <= x \/ x + 80 <= y)).
  { intros y Hy. split; [destruct (Hb y (or_intror Hy)); lia|].
    destruct (Hap y x (or_intror Hy) Hinx) as [->|?]; [|assumption].
    exfalso. apply NoDup_cons in Hnd as [Hnd _]. apply Hnd. now apply list_elem_of_In. }
  assert (Hhr : wrap64 h = h).
  { apply wrap64_small. destruct Hhd as [[_ ->]|(l' & E)]; [lia|].
    destruct (Hb h); [right; rewrite E; now left|]. lia. }
  split; [|split].
  - cbn [dll]. split; [|split].
    + subst st'. rewrite rd_set_head. rewrite <- Hh. fold h.
      destruct Hhd as [[_ E]|(l' & E)].
      * unl; try rewrite Hhr; first [reflexivity | lia].
      * destruct (Hxy h) as [? ?]; [rewrite E; now left|].
        unl; try rewrite Hhr; first [reflexivity | lia].
    + subst st'. rewrite rd_set_head.
      destruct Hhd as [[_ E]|(l' & E)].
      * unl; first [reflexivity | lia].
      * destruct (Hxy h) as [? ?]; [rewrite E; now left|].
        unl; first [reflexivity | lia].
    + destruct Hhd as [[-> _]|(l' & E)]; [exact I|].
      rewrite E in *.
      destruct (Hxy h (or_introl eq_refl)) as [Hh0 Hhx].
      eapply (dll_set_first_prev st st' h l' 0); [exact Hd | | |].
      * subst st'. rewrite rd_set_head. unl; try rewrite Hxr; first [reflexivity | lia].
      * subst st'. rewrite rd_set_head. unl; first [reflexivity | lia].
      * intros y Hy. destruct (Hxy y (or_intror Hy)) as [? ?].
        assert (Hyh : y + 80 <= h \/ h + 80 <= y).
        { destruct (Hap y h) as [->|?]; auto.
          - right. now right.
          - right. now left.
          - exfalso. apply NoDup_cons in Hnd as [_ Hnd].
            apply NoDup_cons in Hnd as [Hnd _]. apply Hnd. now apply list_elem_of_In. }
        subst st'. rewrite !rd_set_head. split; unl; first [reflexivity | lia].
  - reflexivity.
  - intros w Hw. subst st'. rewrite rd_set_head.
    pose proof (Hw x Hinx).
    rewrite rd_relink_next; [rdsimp; reflexivity|].
    intros Hne. destruct Hhd as [[_ ?]|(l' & E)]; [contradiction|].
    specialize (Hw h). rewrite E in Hw. specialize (Hw (or_intror (or_introl eq_refl))). lia.
Qed.

(** *** Geometry of a heap *)

(** Geometry of the blocks of a heap. *)
Lemma Rep_Geo st first bs fl : Rep st first bs fl -> Geo st first bs.
Proof. intros []. unfold Geo. intuition lia. Qed.

Lemma RepX_Geo st first bs1 o S bs2 fl :
  RepX st first bs1 o S bs2 fl -> Geo st first (bs1 ++ (o, S, true) :: bs2).
Proof. intros []. unfold Geo. intuition lia. Qed.

Lemma geo_block st first bs b :
  Geo st first bs -> In b bs ->
  0 < b_off b /\ m_base_offset st <= b_off b /\ first <= b_off b /\
  b_off b + b_size b <= m_base_offset st + m_total_size st /\
  128 <= b_size b /\ b_size b mod 2 = 0.
Proof.
  intros (Hp & H0 & H1 & Hc & He) Hb.
  pose proof (chain_In _ _ _ _ Hc Hb). lia.
Qed.

Lemma geo_sep st first bs b1 b2 :
  Geo st first bs -> In b1 bs -> In b2 bs ->
  b1 = b2 \/ b_off b1 + b_size b1 <= b_off b2 \/ b_off b2 + b_size b2 <= b_off b1.
Proof. intros (_ & _ & _ & Hc & _). now apply (chain_sep _ _ _ _ _ Hc). Qed.

Lemma geo_nodes st first bs l :
  Geo st first bs -> (forall x, In x l -> In x (free_offsets bs)) -> nodes_ok st l.
Proof.
  intros HG Hl. split.
  - intros x Hx. apply Hl, In_free_offsets in Hx as (s & Hx).
    pose proof (geo_block _ _ _ _ HG Hx) as Hb. unfold b_off, b_size in Hb; simpl in Hb. lia.
  - intros x y Hx Hy.
    apply Hl, In_free_offsets in Hx as (sx & Hx).
    apply Hl, In_free_offsets in Hy as (sy & Hy).
    pose proof (geo_block _ _ _ _ HG Hx) as Hbx.
    pose proof (geo_block _ _ _ _ HG Hy) as Hby.
    destruct (geo_sep _ _ _ _ _ HG Hx Hy) as [E|Hs].
    + left. congruence.
    + unfold b_off, b_size in *; simpl in *. lia.
Qed.

(** A block of the heap and the blocks around it. *)
Lemma geo_split st first bs1 b bs2 :
  Geo st first (bs1 ++ b :: bs2) ->
  b_off b = first + span bs1 /\
  chain first bs1 (b_off b) /\
  chain (b_off b + b_size b) bs2 (first + span (bs1 ++ b :: bs2)) /\
  (forall b', In b' bs1 -> b_off b' + b_size b' <= b_off b) /\
  (forall b', In b' bs2 -> b_off b + b_size b <= b_off b').
Proof.
  intros (Hp & H0 & H1 & Hc & He).
  apply chain_app in Hc as [Hc1 Hc2]. simpl in Hc2.
  destruct Hc2 as (Ho & Hs & Hev & Hc2). rewrite <- Ho in *.
  repeat split; try assumption.
  - intros b' Hb'. pose proof (chain_In _ _ _ _ Hc1 Hb'). lia.
  - intros b' Hb'. pose proof (chain_In _ _ _ _ Hc2 Hb'). lia.
Qed.

Lemma In_mid {A} (x : A) l1 l2 : In x (l1 ++ x :: l2).
Proof. apply in_or_app. right. now left. Qed.

Lemma In_around {A} (x y : A) l1 l2 : In y (l1 ++ l2) -> In y (l1 ++ x :: l2).
Proof. intros H. apply in_app_or in H. apply in_or_app. destruct H; [now left|right; now right]. Qed.

(** Replacing one block by a tiling of the same span keeps the chain. *)
Lemma chain_replace first bs1 b bs2 mid :
  chain first (bs1 ++ b :: bs2) (first + span (bs1 ++ b :: bs2)) ->
  chain (first + span bs1) mid (first + span bs1 + b_size b) ->
  chain first (bs1 ++ mid ++ bs2) (first + span (bs1 ++ mid ++ bs2)).
Proof.
  intros Hc Hm. apply chain_app in Hc as [Hc1 Hc2]. simpl in Hc2.
  destruct Hc2 as (Ho & Hs & Hev & Hc2).
  pose proof (chain_end _ _ _ Hm) as Hme.
  pose proof (chain_end _ _ _ Hc2) as Hce.
  apply chain_app. split; [assumption|].
  apply chain_app. split.
  - replace (first + span bs1 + span mid) with (first + span bs1 + b_size b) by lia. assumption.
  - rewrite !span_app in *. simpl in *.
    replace (first + span bs1 + span mid) with (first + span bs1 + b_size b) by lia.
    replace (first + (span bs1 + (span mid + span bs2)))
      with (first + (span bs1 + (b_size b + span bs2))) by lia.
    assumption.
Qed.

Lemma span_replace bs1 b bs2 mid :
  span mid = b_size b -> span (bs1 ++ mid ++ bs2) = span (bs1 ++ b :: bs2).
Proof. intros H. rewrite !span_app. simpl. lia. Qed.

(** What a heap says about the members of its free list. *)
Lemma rep_NoDup st first bs fl : Rep st first bs fl -> NoDup fl.
Proof.
  intros [? ? ? ? Hc ? ? ? ? Hperm ?]. rewrite Hperm.
  eapply NoDup_free_offsets; eassumption.
Qed.

Lemma perm_free st first bs fl y :
  Rep st first bs fl -> In y fl -> exists sy, In (y, sy, true) bs.
Proof.
  intros [? ? ? ? Hc ? ? ? ? Hperm ?] Hy. apply In_free_offsets.
  eapply Permutation_in; eassumption.
Qed.

(** The other members of the list sit in other blocks. *)
Lemma others_apart st first bs1 x s f bs2 l1 l2 y :
  Geo st first (bs1 ++ (x, s, f) :: bs2) ->
  Permutation (l1 ++ l2) (free_offsets (bs1 ++ bs2)) ->
  In y (l1 ++ l2) ->
  exists sy, In (y, sy, true) (bs1 ++ bs2) /\
             (y + sy <= x \/ x + s <= y) /\ 128 <= sy /\
             0 < y /\ m_base_offset st <= y /\
             y + sy <= m_base_offset st + m_total_size st.
Proof.
  intros HG Hperm Hy.
  eapply Permutation_in in Hy; [|eassumption].
  apply In_free_offsets in Hy as (sy & Hy). exists sy.
  pose proof (geo_block _ _ _ _ HG (In_around _ _ _ _ Hy)) as Hb.
  destruct (geo_split _ _ _ _ _ HG) as (_ & _ & _ & Hl & Hr).
  unfold b_off, b_size in *; simpl in *.
  split; [assumption|]. split; [|lia].
  apply in_app_or in Hy as [Hy|Hy]; [left; apply (Hl _ Hy) | right; apply (Hr _ Hy)].
Qed.

Lemma off_nodes_inside st first bs1 x s f bs2 l w :
  Geo st first (bs1 ++ (x, s, f) :: bs2) ->
  (forall y, In y l -> exists sy, In (y, sy, true) (bs1 ++ bs2)) ->
  x <= w -> w + 8 <= x + s ->
  off_nodes l w.
Proof.
  intros HG Hl H1 H2 y Hy. destruct (Hl y Hy) as (sy & Hb).
  pose proof (geo_block _ _ _ _ HG (In_around _ _ _ _ Hb)) as Hg.
  destruct (geo_split _ _ _ _ _ HG) as (_ & _ & _ & Hle & Hri).
  unfold b_off, b_size in *; simpl in *.
  apply in_app_or in Hb as [Hb|Hb]; [specialize (Hle _ Hb) | specialize (Hri _ Hb)];
    simpl in *; lia.
Qed.

Lemma off_nodes_tag st first bs l b :
  Geo st first bs ->
  (forall y, In y l -> exists sy, In (y, sy, true) bs) ->
  In b bs ->
  off_nodes l (b_off b) /\ off_nodes l (b_off b + b_size b - 8).
Proof.
  intros HG Hl Hb. destruct HG as (_ & _ & _ & Hc & _).
  split; intros y Hy; destruct (Hl y Hy) as (sy & Hyb);
    destruct (tag_off_node _ _ _ _ _ _ _ Hc Hb Hyb); lia.
Qed.

(** *** The heap after each step of [Allocate] and [Free] *)

Lemma Rep_same_params st st' first :
  same_params st st' -> params_ok st -> m_first_block_offset st = Some first ->
  m_base_offset st <= first ->
  params_ok st' /\ m_first_block_offset st' = Some first /\ m_base_offset st' <= first /\
  m_base_offset st' + m_total_size st' = m_base_offset st + m_total_size st.
Proof.
  intros Hs Hp Hf Hl. pose proof (params_ok_same _ _ Hp Hs).
  destruct Hs as (E1 & E2 & E3 & E4). rewrite E2, E3, E4. auto.
Qed.

(** A list around one of its members, as a permutation. *)
Lemma perm_drop_mid (l1 : list Z) x l2 F1 F2 :
  Permutation (l1 ++ x :: l2) (F1 ++ x :: F2) -> Permutation (l1 ++ l2) (F1 ++ F2).
Proof. apply Permutation_app_inv. Qed.

(** The heap after a split. *)
Lemma rep_split st first bs1 x s bs2 l1 l2 req :
  Rep st first (bs1 ++ (x, s, true) :: bs2) (l1 ++ x :: l2) ->
  req mod 2 = 0 -> 128 <= req -> req + 136 <= s ->
  let pv := List.last l1 0 in
  let nx := hd 0 l2 in
  let st6 :=
    wr (wr (wr (wr (wr (wr st x (word req false))
                       (x + req - 8) (word req false))
                   (x + req) (word (s - req) true))
               (x + s - 8) (word (s - req) true))
           (x + req + 72) pv)
       (x + req + 64) nx in
  Rep (relink_next (relink_prev st6 pv (x + req)) nx (x + req)) first
      (bs1 ++ (x, req, false) :: (x + req, s - req, true) :: bs2)
      (l1 ++ (x + req) :: l2).
Proof.
  intros HR Er Rr Rs pv nx st6.
  pose proof (Rep_Geo _ _ _ _ HR) as HG.
  pose proof (rep_NoDup _ _ _ _ HR) as Hnd.
  destruct HR as [Hp Hf Hfp Hfl Hc He Ht Hh Hd Hperm Hco].
  pose proof Hp as (P1 & P2 & P3 & P4 & P5).
  pose proof (geo_block _ _ _ _ HG (In_mid _ _ _)) as Hx.
  destruct (geo_split _ _ _ _ _ HG) as (Hxo & Hc1 & Hc2 & Hle & Hri).
  unfold b_off, b_size in Hx, Hxo, Hc1, Hc2, Hle, Hri; simpl in Hx, Hxo, Hc1, Hc2, Hle, Hri.
  assert (Erem : (s - req) mod 2 = 0) by (rewrite Zminus_mod; replace (s mod 2) with 0 by lia;
                                          rewrite Er; reflexivity).
  (* the list without x *)
  rewrite free_offsets_app in Hperm. cbn [free_offsets b_free b_off snd fst] in Hperm.
  pose proof (perm_drop_mid _ _ _ _ _ Hperm) as Hperm'.
  rewrite <- free_offsets_app in Hperm'.
  assert (Hoth : forall y, In y (l1 ++ l2) ->
            exists sy, In (y, sy, true) (bs1 ++ bs2) /\
             (y + sy <= x \/ x + s <= y) /\ 128 <= sy /\
             0 < y /\ m_base_offset st <= y /\
             y + sy <= m_base_offset st + m_total_size st)
    by (intros y Hy; eapply others_apart; eassumption).
  assert (Hoth' : forall y, In y (l1 ++ l2) -> exists sy, In (y, sy, true) (bs1 ++ bs2)).
  { intros y Hy. destruct (Hoth y Hy) as (sy & ? & _). eauto. }
  apply dll_app in Hd as [Hd1 (Hx64 & Hx72 & Hd2)]. cbn [hd] in Hd1.
  fold nx in Hx64. fold pv in Hx72.
  (* the nodes of the new list *)
  assert (Hnodes : nodes_ok st6 (l1 ++ (x + req) :: l2)).
  { split.
    - intros y Hy. apply in_app_or in Hy as [Hy|[<-|Hy]].
      + destruct (Hoth y) as (sy & _ & _ & ? & ? & ? & ?); [apply in_or_app; now left|].
        subst st6; proj; lia.
      + subst st6; proj; lia.
      + destruct (Hoth y) as (sy & _ & _ & ? & ? & ? & ?); [apply in_or_app; now right|].
        subst st6; proj; lia.
    - assert (Hax : forall y, In y (l1 ++ l2) -> y + 80 <= x + req \/ x + req + 80 <= y).
      { intros y Hy. destruct (Hoth y Hy) as (sy & _ & ? & ? & _). lia. }
      assert (Hay : forall y z, In y (l1 ++ l2) -> In z (l1 ++ l2) ->
                y = z \/ y + 80 <= z \/ z + 80 <= y).
      { intros y z Hy Hz.
        assert (Hny : nodes_ok st (l1 ++ l2)).
        { eapply (geo_nodes _ _ _ _ HG). intros w Hw.
          destruct (Hoth' w Hw) as (sw & Hsw). apply In_free_offsets. exists sw.
          now apply In_around. }
        destruct Hny as [_ Hny]. auto. }
      intros y z Hy Hz.
      apply in_app_or in Hy as [Hy|[<-|Hy]]; apply in_app_or in Hz as [Hz|[<-|Hz]].
      all: try (left; reflexivity).
      all: try (apply Hay; apply in_or_app; tauto).
      all: try (right; apply Hax; apply in_or_app; tauto).
      all: right; apply or_comm; apply Hax; apply in_or_app; tauto. }
  assert (Hnd' : NoDup (l1 ++ (x + req) :: l2)).
  { apply NoDup_app in Hnd as (Hn1 & Hn12 & Hn2). apply NoDup_cons in Hn2 as [Hxn Hn2].
    apply NoDup_app. split; [assumption|]. split.
    - intros y Hy1 Hy2. apply elem_of_cons in Hy2 as [->|Hy2].
      + apply list_elem_of_In in Hy1.
        destruct (Hoth (x + req)) as (sy & _ & ? & ? & _); [apply in_or_app; now left|]. lia.
      + apply (Hn12 y Hy1). now right.
    - apply NoDup_cons. split; [|assumption].
      intros Hy%list_elem_of_In.
      destruct (Hoth (x + req)) as (sy & _ & ? & ? & _); [apply in_or_app; now right|]. lia. }
  assert (Hfr6 : forall y, In y (l1 ++ l2) ->
            rd st6 (y + 64) = rd st (y + 64) /\ rd st6 (y + 72) = rd st (y + 72)).
  { intros y Hy. destruct (Hoth y Hy) as (sy & _ & ? & ? & _).
    subst st6. split; rdsimp; reflexivity. }
  assert (Hd1' : dll st6 0 l1 x).
  { eapply dll_frame; [|exact Hd1]. intros y Hy. apply Hfr6, in_or_app. now left. }
  assert (Hd2' : dll st6 x l2 0).
  { eapply dll_frame; [|exact Hd2]. intros y Hy. apply Hfr6, in_or_app. now right. }
  assert (Hpvr : 0 <= pv < 2 ^ 64) by (rewrite <- Hx72; apply rd_range).
  assert (Hnxr : 0 <= nx < 2 ^ 64) by (rewrite <- Hx64; apply rd_range).
  assert (H64 : rd st6 (x + req + 64) = nx).
  { subst st6. rdsimp. now apply wrap64_small. }
  assert (H72 : rd st6 (x + req + 72) = pv).
  { subst st6. rdsimp. now apply wrap64_small. }
  destruct (dll_relink st6 l1 (x + req) l2 x Hp Hnodes Hnd' Hd1' Hd2' H64 H72)
    as (Hdll & Hhead & Hframe).
  fold pv nx in Hdll, Hhead, Hframe.
  set (st' := relink_next (relink_prev st6 pv (x + req)) nx (x + req)) in *.
  assert (Hs' : same_params st st') by (subst st' st6; auto 12 with slab).
  destruct (Rep_same_params _ _ _ Hs' Hp Hf Hfl) as (Hp' & Hf' & Hfl' & Hend').
  (* words of the tags *)
  assert (Hin : forall w, x <= w -> w + 8 <= x + s -> rd st' w = rd st6 w).
  { intros w H1 H2. apply Hframe. eapply off_nodes_inside; eassumption. }
  assert (Hout : forall b, In b (bs1 ++ bs2) ->
            rd st' (b_off b) = rd st (b_off b) /\
            rd st' (b_off b + b_size b - 8) = rd st (b_off b + b_size b - 8)).
  { intros b Hb.
    assert (Hb' : In b (bs1 ++ (x, s, true) :: bs2)) by now apply In_around.
    destruct (off_nodes_tag st first _ (l1 ++ l2) b HG) as [Ho1 Ho2]; [|assumption|].
    { intros y Hy. destruct (Hoth' y Hy) as (sy & ?). exists sy. now apply In_around. }
    pose proof (geo_block _ _ _ _ HG Hb') as Hgb.
    assert (Hsep : b_off b + b_size b <= x \/ x + s <= b_off b).
    { apply in_app_or in Hb as [Hb|Hb]; [left; apply (Hle _ Hb) | right; apply (Hri _ Hb)]. }
    rewrite !Hframe by assumption. subst st6. split; rdsimp; reflexivity. }
  constructor; try assumption.
  - (* chain *)
    apply (chain_replace first bs1 (x, s, true) bs2
             [(x, req, false); (x + req, s - req, true)]); [assumption|].
    cbn [chain]. unfold b_size, b_off, MIN_BLOCK_SIZE; cbn [fst snd]. rewrite <- Hxo.
    repeat split; lia.
  - (* end *)
    rewrite Hend'.
    change (bs1 ++ (x, req, false) :: (x + req, s - req, true) :: bs2)
      with (bs1 ++ [(x, req, false); (x + req, s - req, true)] ++ bs2).
    rewrite (span_replace bs1 (x, s, true) bs2); [assumption|].
    unfold span, b_size; simpl. lia.
  - (* tags *)
    apply Forall_app in Ht as [Ht1 Ht2]. apply Forall_cons in Ht2 as [_ Ht2].
    apply Forall_app. split; [|apply Forall_cons; split; [|apply Forall_cons; split]].
    + eapply Forall_tagged_frame; [|exact Ht1].
      intros b Hb. apply Hout, in_or_app. now left.
    + unfold tagged, b_off, b_size, b_free; simpl.
      rewrite !Hin by lia. subst st6. split; rdsimp; apply wrap64_word; lia.
    + unfold tagged, b_off, b_size, b_free; simpl.
      rewrite !Hin by lia. subst st6.
      replace (x + req + (s - req) - 8) with (x + s - 8) by lia.
      split; rdsimp; apply wrap64_word; lia.
    + eapply Forall_tagged_frame; [|exact Ht2].
      intros b Hb. apply Hout, in_or_app. now right.
  - (* head *)
    apply Hhead. subst st6. proj. rewrite Hh. now rewrite hd_app_hd.
  - (* permutation *)
    rewrite free_offsets_app. cbn [free_offsets b_free b_off snd fst].
    apply Permutation_elt. now rewrite <- free_offsets_app.
  - (* coalesced *)
    rewrite nadj_mid in Hco |- *. rewrite nadj_cons.
    unfold b_free in *; simpl in *.
    destruct (no_adjacent_free bs1), (no_adjacent_free bs2), (last_free bs1), (hd_free bs2);
      simpl in *; congruence.
Qed.

(** The heap after a block is taken whole. *)
Lemma rep_whole st first bs1 x s bs2 l1 l2 :
  Rep st first (bs1 ++ (x, s, true) :: bs2) (l1 ++ x :: l2) ->
  let pv := List.last l1 0 in
  let nx := hd 0 l2 in
  Rep (wr (wr (unlink_next (unlink_prev st pv nx) pv nx) x (word s false))
          (x + s - 8) (word s false))
      first (bs1 ++ (x, s, false) :: bs2) (l1 ++ l2).
Proof.
  intros HR pv nx.
  pose proof (Rep_Geo _ _ _ _ HR) as HG.
  pose proof (rep_NoDup _ _ _ _ HR) as Hnd.
  destruct HR as [Hp Hf Hfp Hfl Hc He Ht Hh Hd Hperm Hco].
  pose proof Hp as (P1 & P2 & P3 & P4 & P5).
  pose proof (geo_block _ _ _ _ HG (In_mid _ _ _)) as Hx.
  destruct (geo_split _ _ _ _ _ HG) as (Hxo & Hc1 & Hc2 & Hle & Hri).
  unfold b_off, b_size in Hx, Hxo, Hc1, Hc2, Hle, Hri; simpl in Hx, Hxo, Hc1, Hc2, Hle, Hri.
  rewrite free_offsets_app in Hperm. cbn [free_offsets b_free b_off snd fst] in Hperm.
  pose proof (perm_drop_mid _ _ _ _ _ Hperm) as Hperm'.
  rewrite <- free_offsets_app in Hperm'.
  assert (Hoth : forall y, In y (l1 ++ l2) ->
            exists sy, In (y, sy, true) (bs1 ++ bs2) /\
             (y + sy <= x \/ x + s <= y) /\ 128 <= sy /\
             0 < y /\ m_base_offset st <= y /\
             y + sy <= m_base_offset st + m_total_size st)
    by (intros y Hy; eapply others_apart; eassumption).
  assert (Hoth' : forall y, In y (l1 ++ l2) -> exists sy, In (y, sy, true) (bs1 ++ bs2)).
  { intros y Hy. destruct (Hoth y Hy) as (sy & ? & _). eauto. }
  assert (Hnodes : nodes_ok st (l1 ++ x :: l2)).
  { eapply (geo_nodes _ _ _ _ HG). intros w Hw.
    eapply Permutation_in; [|exact Hw]. rewrite Hperm, free_offsets_app. reflexivity. }
  destruct (dll_unlink st l1 x l2 Hp Hnodes Hnd Hd) as (Hdll & Hhead & Hframe).
  fold pv nx in Hdll, Hhead, Hframe.
  set (st1 := unlink_next (unlink_prev st pv nx) pv nx) in *.
  set (st' := wr (wr st1 x (word s false)) (x + s - 8) (word s false)).
  assert (Hs' : same_params st st') by (subst st' st1; auto 12 with slab).
  destruct (Rep_same_params _ _ _ Hs' Hp Hf Hfl) as (Hp' & Hf' & Hfl' & Hend').
  assert (Hout : forall b, In b (bs1 ++ bs2) ->
            rd st' (b_off b) = rd st (b_off b) /\
            rd st' (b_off b + b_size b - 8) = rd st (b_off b + b_size b - 8)).
  { intros b Hb.
    assert (Hb' : In b (bs1 ++ (x, s, true) :: bs2)) by now apply In_around.
    destruct (off_nodes_tag st first _ (l1 ++ l2) b HG) as [Ho1 Ho2]; [|assumption|].
    { intros y Hy. destruct (Hoth' y Hy) as (sy & ?). exists sy. now apply In_around. }
    pose proof (geo_block _ _ _ _ HG Hb') as Hgb.
    assert (Hsep : b_off b + b_size b <= x \/ x + s <= b_off b).
    { apply in_app_or in Hb as [Hb|Hb]; [left; apply (Hle _ Hb) | right; apply (Hri _ Hb)]. }
    subst st'. split; rdsimp; apply Hframe; assumption. }
  constructor; try assumption.
  - (* chain *)
    apply (chain_replace first bs1 (x, s, true) bs2 [(x, s, false)]); [assumption|].
    cbn [chain]. unfold b_size, b_off, MIN_BLOCK_SIZE; cbn [fst snd]. rewrite <- Hxo.
    repeat split; lia.
  - (* end *)
    rewrite Hend'.
    change (bs1 ++ (x, s, false) :: bs2) with (bs1 ++ [(x, s, false)] ++ bs2).
    rewrite (span_replace bs1 (x, s, true) bs2); [assumption|].
    unfold span, b_size; simpl. lia.
  - (* tags *)
    apply Forall_app in Ht as [Ht1 Ht2]. apply Forall_cons in Ht2 as [_ Ht2].
    apply Forall_app. split; [|apply Forall_cons; split].
    + eapply Forall_tagged_frame; [|exact Ht1].
      intros b Hb. apply Hout, in_or_app. now left.
    + unfold tagged, b_off, b_size, b_free; simpl.
      subst st'. split; rdsimp; apply wrap64_word; lia.
    + eapply Forall_tagged_frame; [|exact Ht2].
      intros b Hb. apply Hout, in_or_app. now right.
  - (* head *)
    subst st'. proj. now apply Hhead.
  - (* list *)
    eapply dll_frame; [|exact Hdll].
    intros y Hy. destruct (Hoth y Hy) as (sy & _ & ? & ? & _).
    subst st'. split; rdsimp; reflexivity.
  - (* permutation *)
    rewrite free_offsets_app. cbn [free_offsets b_free b_off snd fst].
    now rewrite <- free_offsets_app.
  - (* coalesced *)
    rewrite nadj_mid in Hco |- *.
    unfold b_free in *; simpl in *.
    destruct (no_adjacent_free bs1), (no_adjacent_free bs2), (last_free bs1), (hd_free bs2);
      simpl in *; congruence.
Qed.

(** [Free] has marked the block at [o]. *)
Lemma rep_mark st first bs1 o s bs2 fl :
  Rep st first (bs1 ++ (o, s, false) :: bs2) fl ->
  RepX (wr (wr st o (word s true)) (o + s - 8) (word s true)) first bs1 o s bs2 fl.
Proof.
  intros HR.
  pose proof (Rep_Geo _ _ _ _ HR) as HG.
  destruct HR as [Hp Hf Hfp Hfl Hc He Ht Hh Hd Hperm Hco].
  pose proof Hp as (P1 & P2 & P3 & P4 & P5).
  pose proof (geo_block _ _ _ _ HG (In_mid _ _ _)) as Hx.
  destruct (geo_split _ _ _ _ _ HG) as (Hxo & Hc1 & Hc2 & Hle & Hri).
  unfold b_off, b_size in Hx, Hxo, Hc1, Hc2, Hle, Hri; simpl in Hx, Hxo, Hc1, Hc2, Hle, Hri.
  rewrite free_offsets_app in Hperm. cbn [free_offsets b_free b_off snd fst] in Hperm.
  rewrite <- free_offsets_app in Hperm.
  set (st' := wr (wr st o (word s true)) (o + s - 8) (word s true)).
  assert (Hout : forall b, In b (bs1 ++ bs2) ->
            rd st' (b_off b) = rd st (b_off b) /\
            rd st' (b_off b + b_size b - 8) = rd st (b_off b + b_size b - 8)).
  { intros b Hb.
    assert (Hb' : In b (bs1 ++ (o, s, false) :: bs2)) by now apply In_around.
    pose proof (geo_block _ _ _ _ HG Hb') as Hgb.
    assert (Hsep : b_off b + b_size b <= o \/ o + s <= b_off b).
    { apply in_app_or in Hb as [Hb|Hb]; [left; apply (Hle _ Hb) | right; apply (Hri _ Hb)]. }
    subst st'. split; rdsimp; reflexivity. }
  constructor; try assumption.
  - apply (chain_replace first bs1 (o, s, false) bs2 [(o, s, true)]); [assumption|].
    cbn [chain]. unfold b_size, b_off, MIN_BLOCK_SIZE; cbn [fst snd]. rewrite <- Hxo.
    repeat split; lia.
  - change (bs1 ++ (o, s, true) :: bs2) with (bs1 ++ [(o, s, true)] ++ bs2).
    rewrite (span_replace bs1 (o, s, false) bs2); [assumption|].
    unfold span, b_size; simpl. lia.
  - apply Forall_app in Ht as [Ht1 Ht2]. apply Forall_cons in Ht2 as [_ Ht2].
    apply Forall_app. split; [|apply Forall_cons; split].
    + eapply Forall_tagged_frame; [|exact Ht1].
      intros b Hb. apply Hout, in_or_app. now left.
    + unfold tagged, b_off, b_size, b_free; simpl.
      subst st'. split; rdsimp; apply wrap64_word; lia.
    + eapply Forall_tagged_frame; [|exact Ht2].
      intros b Hb. apply Hout, in_or_app. now right.
  - eapply dll_frame; [|exact Hd].
    intros y Hy.
    assert (Hyb : exists sy, In (y, sy, true) (bs1 ++ bs2)).
    { apply In_free_offsets. eapply Permutation_in; eassumption. }
    destruct Hyb as (sy & Hyb).
    pose proof (geo_block _ _ _ _ HG (In_around _ _ _ _ Hyb)) as Hgb.
    assert (Hsep : y + sy <= o \/ o + s <= y).
    { apply in_app_or in Hyb as [Hb|Hb]; [left; apply (Hle _ Hb) | right; apply (Hri _ Hb)]. }
    unfold b_off, b_size in Hgb; simpl in Hgb.
    subst st'. split; rdsimp; reflexivity.
Qed.

Lemma repx_NoDup st first bs1 o S bs2 fl : RepX st first bs1 o S bs2 fl -> NoDup fl.
Proof.
  intros [? ? ? ? Hc ? ? ? ? Hperm ?]. rewrite Hperm.
  apply chain_app in Hc as [Hc1 (Ho & HS & _ & Hc2)].
  rewrite free_offsets_app. apply NoDup_app. repeat split.
  - eapply NoDup_free_offsets; eassumption.
  - intros x H1 H2. apply list_elem_of_In, In_free_offsets in H1 as (s1 & H1).
    apply list_elem_of_In, In_free_offsets in H2 as (s2 & H2).
    pose proof (chain_In _ _ _ _ Hc1 H1) as G1.
    pose proof (chain_In _ _ _ _ Hc2 H2) as G2.
    unfold b_off, b_size, MIN_BLOCK_SIZE in *; simpl in *. lia.
  - eapply NoDup_free_offsets; eassumption.
Qed.

(** The block being freed grows over its free right neighbour. *)
Lemma repx_merge_right st first bs1 o s s2 bs2 l1 l2 :
  RepX st first bs1 o s ((o + s, s2, true) :: bs2) (l1 ++ (o + s) :: l2) ->
  let pv := List.last l1 0 in
  let nx := hd 0 l2 in
  RepX (wr (wr (unlink_next (unlink_prev st pv nx) pv nx) o (word (s + s2) true))
           (o + s + s2 - 8) (word (s + s2) true))
       first bs1 o (s + s2) bs2 (l1 ++ l2).
Proof.
  intros HR pv nx.
  pose proof (RepX_Geo _ _ _ _ _ _ _ HR) as HG.
  pose proof (repx_NoDup _ _ _ _ _ _ _ HR) as Hnd.
  destruct HR as [Hp Hf Hfp Hfl Hc He Ht Hh Hd Hperm Hco].
  pose proof Hp as (P1 & P2 & P3 & P4 & P5).
  pose proof (geo_block _ _ _ _ HG (In_mid _ _ _)) as Hx.
  assert (Hin2 : In (o + s, s2, true) (bs1 ++ (o, s, true) :: (o + s, s2, true) :: bs2)).
  { apply in_or_app. right. right. now left. }
  pose proof (geo_block _ _ _ _ HG Hin2) as Hx2.
  destruct (geo_split _ _ _ _ _ HG) as (Hxo & Hc1 & Hc2 & Hle & Hri).
  unfold b_off, b_size in Hx, Hx2, Hxo, Hc1, Hc2, Hle, Hri;
    simpl in Hx, Hx2, Hxo, Hc1, Hc2, Hle, Hri.
  destruct Hc2 as (_ & _ & _ & Hc2).
  assert (Hsp : span (bs1 ++ (o, s + s2, true) :: bs2)
                = span (bs1 ++ (o, s, true) :: (o + s, s2, true) :: bs2)).
  { rewrite !span_app. unfold span, b_size; simpl. lia. }
  assert (Ev : (s + s2) mod 2 = 0).
  { rewrite Z.add_mod by lia. replace (s mod 2) with 0 by lia.
    replace (s2 mod 2) with 0 by lia. reflexivity. }
  assert (Hc' : chain first (bs1 ++ (o, s + s2, true) :: bs2)
                      (first + span (bs1 ++ (o, s + s2, true) :: bs2))).
  { rewrite Hsp. apply chain_app. split; [now rewrite <- Hxo|].
    cbn [chain]. unfold b_off, b_size, MIN_BLOCK_SIZE; cbn [fst snd].
    rewrite <- Hxo. repeat split; try lia.
    replace (o + (s + s2)) with (o + s + s2) by lia. assumption. }
  assert (HG' : Geo st first (bs1 ++ (o, s + s2, true) :: bs2)).
  { unfold Geo. split; [assumption|]. split; [assumption|]. split; [assumption|].
    split; [exact Hc'|]. rewrite Hsp. lia. }
  destruct (geo_split _ _ _ _ _ HG') as (_ & _ & _ & Hle' & Hri').
  unfold b_off, b_size in Hle', Hri'; simpl in Hle', Hri'.
  rewrite free_offsets_app in Hperm. cbn [free_offsets b_free b_off snd fst] in Hperm.
  pose proof (perm_drop_mid _ _ _ _ _ Hperm) as Hperm'.
  rewrite <- free_offsets_app in Hperm'.
  assert (Hoth : forall y, In y (l1 ++ l2) ->
            exists sy, In (y, sy, true) (bs1 ++ bs2) /\
             (y + sy <= o \/ o + (s + s2) <= y) /\ 128 <= sy /\
             0 < y /\ m_base_offset st <= y /\
             y + sy <= m_base_offset st + m_total_size st)
    by (intros y Hy; eapply others_apart; eassumption).
  assert (Hoth' : forall y, In y (l1 ++ l2) -> exists sy, In (y, sy, true) (bs1 ++ bs2)).
  { intros y Hy. destruct (Hoth y Hy) as (sy & ? & _). eauto. }
  assert (Hnodes : nodes_ok st (l1 ++ (o + s) :: l2)).
  { eapply (geo_nodes _ _ _ _ HG). intros w Hw.
    eapply Permutation_in in Hw; [|exact Hperm].
    rewrite free_offsets_app. cbn [free_offsets b_free b_off snd fst].
    apply in_or_app. apply in_app_or in Hw as [Hw|Hw]; [now left|right; now right]. }
  destruct (dll_unlink st l1 (o + s) l2 Hp Hnodes Hnd Hd) as (Hdll & Hhead & Hframe).
  fold pv nx in Hdll, Hhead, Hframe.
  set (st1 := unlink_next (unlink_prev st pv nx) pv nx) in *.
  set (st' := wr (wr st1 o (word (s + s2) true)) (o + s + s2 - 8) (word (s + s2) true)).
  assert (Hs' : same_params st st') by (subst st' st1; auto 12 with slab).
  destruct (Rep_same_params _ _ _ Hs' Hp Hf Hfl) as (Hp' & Hf' & Hfl' & Hend').
  assert (Hout : forall b, In b (bs1 ++ bs2) ->
            rd st' (b_off b) = rd st (b_off b) /\
            rd st' (b_off b + b_size b - 8) = rd st (b_off b + b_size b - 8)).
  { intros b Hb.
    assert (Hb' : In b (bs1 ++ (o, s + s2, true) :: bs2)) by now apply In_around.
    destruct (off_nodes_tag st first _ (l1 ++ l2) b HG') as [Ho1 Ho2]; [|assumption|].
    { intros y Hy. destruct (Hoth' y Hy) as (sy & ?). exists sy. now apply In_around. }
    pose proof (geo_block _ _ _ _ HG' Hb') as Hgb.
    assert (Hsep : b_off b + b_size b <= o \/ o + (s + s2) <= b_off b).
    { apply in_app_or in Hb as [Hb|Hb]; [left; apply (Hle' _ Hb) | right; apply (Hri' _ Hb)]. }
    subst st'. split; rdsimp; apply Hframe; assumption. }
  constructor; try assumption.
  - now rewrite Hend', Hsp.
  - apply Forall_app in Ht as [Ht1 Ht2]. apply Forall_cons in Ht2 as [_ Ht2].
    apply Forall_cons in Ht2 as [_ Ht2].
    apply Forall_app. split; [|apply Forall_cons; split].
    + eapply Forall_tagged_frame; [|exact Ht1].
      intros b Hb. apply Hout, in_or_app. now left.
    + unfold tagged, b_off, b_size, b_free; simpl.
      subst st'. split.
      * rdsimp. apply wrap64_word; lia.
      * replace (o + (s + s2) - 8) with (o + s + s2 - 8) by lia.
        rdsimp. apply wrap64_word; lia.
    + eapply Forall_tagged_frame; [|exact Ht2].
      intros b Hb. apply Hout, in_or_app. now right.
  - subst st'. proj. now apply Hhead.
  - eapply dll_frame; [|exact Hdll].
    intros y Hy. destruct (Hoth y Hy) as (sy & _ & ? & ? & _).
    subst st'. split; rdsimp; reflexivity.
  - change ((o, s, false) :: (o + s, s2, true) :: bs2)
      with ([(o, s, false)] ++ (o + s, s2, true) :: bs2) in Hco.
    rewrite app_assoc in Hco.
    rewrite nadj_mid in Hco. rewrite nadj_mid in Hco.
    rewrite nadj_mid.
    unfold b_free in *; simpl in *.
    destruct (no_adjacent_free bs1), (no_adjacent_free bs2), (last_free bs1), (hd_free bs2);
      simpl in *; try reflexivity; try congruence;
      rewrite ?andb_false_r in Hco; simpl in Hco; congruence.
Qed.

(** The free left neighbour grows over the block being freed. *)
Lemma repx_merge_left st first bs1 o0 s0 o S bs2 fl :
  RepX st first (bs1 ++ [(o0, s0, true)]) o S bs2 fl ->
  hd_free bs2 = false ->
  o0 = o - s0 /\
  Rep (wr (wr st o0 (word (s0 + S) true)) (o + S - 8) (word (s0 + S) true))
      first (bs1 ++ (o0, s0 + S, true) :: bs2) fl.
Proof.
  intros HR Hhd2.
  pose proof (RepX_Geo _ _ _ _ _ _ _ HR) as HG.
  destruct HR as [Hp Hf Hfp Hfl Hc He Ht Hh Hd Hperm Hco].
  pose proof Hp as (P1 & P2 & P3 & P4 & P5).
  rewrite <- app_assoc in HG, Hc, He, Ht, Hperm, Hco.
  cbn [app] in HG, Hc, He, Ht, Hperm, Hco.
  pose proof (geo_block _ _ _ _ HG (In_mid _ _ _)) as Hx.
  assert (Hin2 : In (o, S, true) (bs1 ++ (o0, s0, true) :: (o, S, true) :: bs2)).
  { apply in_or_app. right. right. now left. }
  pose proof (geo_block _ _ _ _ HG Hin2) as Hx2.
  destruct (geo_split _ _ _ _ _ HG) as (Hxo & Hc1 & Hc2 & Hle & Hri).
  unfold b_off, b_size in Hx, Hx2, Hxo, Hc1, Hc2, Hle, Hri;
    simpl in Hx, Hx2, Hxo, Hc1, Hc2, Hle, Hri.
  destruct Hc2 as (Ho & _ & _ & Hc2).
  unfold b_off, b_size in Ho, Hc2; simpl in Ho, Hc2.
  split; [lia|].
  assert (Hsp : span (bs1 ++ (o0, s0 + S, true) :: bs2)
                = span (bs1 ++ (o0, s0, true) :: (o, S, true) :: bs2)).
  { rewrite !span_app. unfold span, b_size; simpl. lia. }
  assert (Ev : (s0 + S) mod 2 = 0).
  { rewrite Z.add_mod by lia. replace (s0 mod 2) with 0 by lia.
    replace (S mod 2) with 0 by lia. reflexivity. }
  assert (Hc' : chain first (bs1 ++ (o0, s0 + S, true) :: bs2)
                      (first + span (bs1 ++ (o0, s0 + S, true) :: bs2))).
  { rewrite Hsp. apply chain_app. split; [now rewrite <- Hxo|].
    cbn [chain]. unfold b_off, b_size, MIN_BLOCK_SIZE; cbn [fst snd].
    rewrite <- Hxo. repeat split; try lia.
    replace (o0 + (s0 + S)) with (o0 + s0 + S) by lia. assumption. }
  assert (HG' : Geo st first (bs1 ++ (o0, s0 + S, true) :: bs2)).
  { unfold Geo. split; [assumption|]. split; [assumption|]. split; [assumption|].
    split; [exact Hc'|]. rewrite Hsp. lia. }
  destruct (geo_split _ _ _ _ _ HG') as (_ & _ & _ & Hle' & Hri').
  unfold b_off, b_size in Hle', Hri'; simpl in Hle', Hri'.
  set (st' := wr (wr st o0 (word (s0 + S) true)) (o + S - 8) (word (s0 + S) true)).
  assert (Hs' : same_params st st') by (subst st'; auto 12 with slab).
  destruct (Rep_same_params _ _ _ Hs' Hp Hf Hfl) as (Hp' & Hf' & Hfl' & Hend').
  assert (Hfree : free_offsets (bs1 ++ (o0, s0 + S, true) :: bs2)
                  = free_offsets (bs1 ++ (o0, s0, true) :: bs2)).
  { rewrite !free_offsets_app. reflexivity. }
  assert (Hfl_in : forall y, In y fl ->
            exists sy, In (y, sy, true) (bs1 ++ (o0, s0 + S, true) :: bs2)).
  { intros y Hy. apply In_free_offsets. rewrite Hfree.
    eapply Permutation_in; eassumption. }
  assert (Hout : forall b, In b (bs1 ++ bs2) ->
            rd st' (b_off b) = rd st (b_off b) /\
            rd st' (b_off b + b_size b - 8) = rd st (b_off b + b_size b - 8)).
  { intros b Hb.
    assert (Hb' : In b (bs1 ++ (o0, s0 + S, true) :: bs2)) by now apply In_around.
    pose proof (geo_block _ _ _ _ HG' Hb') as Hgb.
    assert (Hsep : b_off b + b_size b <= o0 \/ o0 + (s0 + S) <= b_off b).
    { apply in_app_or in Hb as [Hb|Hb]; [left; apply (Hle' _ Hb) | right; apply (Hri' _ Hb)]. }
    subst st'. split; rdsimp; reflexivity. }
  constructor; try assumption.
  - now rewrite Hend', Hsp.
  - apply Forall_app in Ht as [Ht1 Ht2]. apply Forall_cons in Ht2 as [_ Ht2].
    apply Forall_cons in Ht2 as [_ Ht2].
    apply Forall_app. split; [|apply Forall_cons; split].
    + eapply Forall_tagged_frame; [|exact Ht1].
      intros b Hb. apply Hout, in_or_app. now left.
    + unfold tagged, b_off, b_size, b_free; simpl.
      subst st'. split.
      * rdsimp. apply wrap64_word; lia.
      * replace (o0 + (s0 + S) - 8) with (o + S - 8) by lia.
        rdsimp. apply wrap64_word; lia.
    + eapply Forall_tagged_frame; [|exact Ht2].
      intros b Hb. apply Hout, in_or_app. now right.
  - eapply dll_frame; [|exact Hd].
    intros y Hy.
    destruct (off_nodes_tag st first _ fl (o0, s0 + S, true) HG' Hfl_in (In_mid _ _ _))
      as [Ho1 Ho2].
    specialize (Ho1 y Hy). specialize (Ho2 y Hy).
    unfold b_off, b_size in Ho1, Ho2; simpl in Ho1, Ho2.
    subst st'. split; rdsimp; reflexivity.
  - now rewrite Hfree.
  - change ((o0, s0, true) :: (o, S, false) :: bs2)
      with ([(o0, s0, true)] ++ (o, S, false) :: bs2) in Hco.
    rewrite app_assoc in Hco.
    rewrite nadj_mid in Hco. rewrite nadj_mid in Hco.
    rewrite nadj_mid. rewrite Hhd2 in *.
    unfold b_free in *; simpl in *.
    destruct (no_adjacent_free bs1), (no_adjacent_free bs2), (last_free bs1);
      simpl in *; try reflexivity; try congruence.
Qed.

(** The block being freed goes to the head of the free list. *)
Lemma repx_insert st first bs1 o S bs2 fl :
  RepX st first bs1 o S bs2 fl ->
  last_free bs1 = false -> hd_free bs2 = false ->
  let h := m_free_list_head_offset st in
  Rep (set_head (relink_next (wr (wr st (o + 64) h) (o + 72) 0) h o) o)
      first (bs1 ++ (o, S, true) :: bs2) (o :: fl).
Proof.
  intros HR Hl1 Hh2 h.
  pose proof (RepX_Geo _ _ _ _ _ _ _ HR) as HG.
  pose proof (repx_NoDup _ _ _ _ _ _ _ HR) as Hnd.
  destruct HR as [Hp Hf Hfp Hfl Hc He Ht Hh Hd Hperm Hco].
  pose proof Hp as (P1 & P2 & P3 & P4 & P5).
  pose proof (geo_block _ _ _ _ HG (In_mid _ _ _)) as Hx.
  destruct (geo_split _ _ _ _ _ HG) as (Hxo & Hc1 & Hc2 & Hle & Hri).
  unfold b_off, b_size in Hx, Hxo, Hc1, Hc2, Hle, Hri; simpl in Hx, Hxo, Hc1, Hc2, Hle, Hri.
  assert (Hoth : forall y, In y fl ->
            exists sy, In (y, sy, true) (bs1 ++ bs2) /\
             (y + sy <= o \/ o + S <= y) /\ 128 <= sy /\
             0 < y /\ m_base_offset st <= y /\
             y + sy <= m_base_offset st + m_total_size st).
  { intros y Hy. eapply (others_apart st first bs1 o S true bs2 [] fl); eassumption. }
  assert (Hfl_in : forall y, In y (o :: fl) ->
            exists sy, In (y, sy, true) (bs1 ++ (o, S, true) :: bs2)).
  { intros y [<-|Hy]; [exists S; apply In_mid|].
    destruct (Hoth y Hy) as (sy & ? & _). exists sy. now apply In_around. }
  assert (Hnot : ~ In o fl).
  { intros Hy. destruct (Hoth o Hy) as (sy & _ & ? & ? & _). lia. }
  assert (Hnodes : nodes_ok st (o :: fl)).
  { eapply (geo_nodes _ _ _ _ HG). intros w Hw. apply In_free_offsets. now apply Hfl_in. }
  assert (Hnd' : NoDup (o :: fl)).
  { apply NoDup_cons. split; [|assumption]. now rewrite list_elem_of_In. }
  destruct (dll_insert st o fl Hp Hnodes Hnd' Hd Hh) as (Hdll & Hhead & Hframe).
  fold h in Hdll, Hhead, Hframe.
  set (st' := set_head (relink_next (wr (wr st (o + 64) h) (o + 72) 0) h o) o) in *.
  assert (Hs' : same_params st st') by (subst st'; auto 12 with slab).
  destruct (Rep_same_params _ _ _ Hs' Hp Hf Hfl) as (Hp' & Hf' & Hfl' & Hend').
  constructor; try assumption.
  - now rewrite Hend'.
  - eapply Forall_tagged_frame; [|exact Ht].
    intros b Hb.
    destruct (off_nodes_tag st first _ (o :: fl) b HG Hfl_in Hb) as [Ho1 Ho2].
    split; apply Hframe; assumption.
  - rewrite free_offsets_app. cbn [free_offsets b_free b_off snd fst].
    rewrite free_offsets_app in Hperm.
    rewrite Hperm. apply Permutation_middle.
  - rewrite nadj_mid in Hco |- *. rewrite Hl1, Hh2.
    unfold b_free in *; simpl in *. rewrite andb_true_r in *. assumption.
Qed.

(** Where the other members of the free list sit. *)
Lemma geo_others st first bs1 x s f bs2 l y :
  Geo st first (bs1 ++ (x, s, f) :: bs2) ->
  Permutation l (free_offsets (bs1 ++ bs2)) -> In y l ->
  0 < y /\ m_base_offset st <= y /\ y + 80 <= m_base_offset st + m_total_size st /\
  (y + 80 <= x \/ x + s <= y).
Proof.
  intros HG Hperm Hy.
  destruct (others_apart st first bs1 x s f bs2 [] l y HG Hperm Hy)
    as (sy & _ & ? & ? & ? & ? & ?).
  lia.
Qed.

Lemma geo_merge st first bs1 o s f1 o' s2 f2 bs2 f :
  Geo st first (bs1 ++ (o, s, f1) :: (o', s2, f2) :: bs2) ->
  o' = o + s /\ 128 <= s /\ 128 <= s2 /\ s mod 2 = 0 /\ s2 mod 2 = 0 /\
  o + s + s2 <= m_base_offset st + m_total_size st /\
  Geo st first (bs1 ++ (o, s + s2, f) :: bs2).
Proof.
  intros HG. pose proof HG as (Hp & Hfp & Hfl & Hc & He).
  destruct (geo_split _ _ _ _ _ HG) as (Hxo & Hc1 & Hc2 & _).
  unfold b_off, b_size in Hxo, Hc1, Hc2; simpl in Hxo, Hc1, Hc2.
  destruct Hc2 as (Ho & Hs2 & Hev2 & Hc2).
  unfold b_off, b_size, MIN_BLOCK_SIZE in Ho, Hs2, Hev2, Hc2; simpl in Ho, Hs2, Hev2, Hc2.
  pose proof (geo_block _ _ _ _ HG (In_mid _ _ _)) as Hx.
  unfold b_off, b_size in Hx; simpl in Hx.
  pose proof (chain_end _ _ _ Hc2) as Hend.
  pose proof (span_nonneg _ _ _ Hc2) as Hnn.
  assert (Hsp : span (bs1 ++ (o, s + s2, f) :: bs2)
                = span (bs1 ++ (o, s, f1) :: (o', s2, f2) :: bs2)).
  { rewrite !span_app. unfold span, b_size; simpl. lia. }
  assert (Hsp2 : span (bs1 ++ (o, s, f1) :: (o', s2, f2) :: bs2)
                 = span bs1 + (s + (s2 + span bs2))).
  { rewrite !span_app. unfold span, b_size; simpl. reflexivity. }
  repeat (split; [lia|]).
  unfold Geo. split; [assumption|]. split; [assumption|]. split; [assumption|].
  split; [|rewrite Hsp; lia].
  rewrite Hsp. apply chain_app. split; [now rewrite <- Hxo|].
  cbn [chain]. unfold b_off, b_size, MIN_BLOCK_SIZE; cbn [fst snd].
  rewrite <- Hxo. repeat split; try lia.
  - rewrite Z.add_mod by lia. replace (s mod 2) with 0 by lia.
    replace (s2 mod 2) with 0 by lia. reflexivity.
  - replace (o + (s + s2)) with (o + s + s2) by lia. assumption.
Qed.

Lemma Rep_set_lock st first bs fl b : Rep st first bs fl -> Rep (set_lock st b) first bs fl.
Proof.
  intros []. constructor; try assumption.
  eapply dll_frame; [|eassumption]. intros; split; reflexivity.
Qed.

Lemma lock_wr st o v : m_lock (wr st o v) = m_lock st.
Proof. reflexivity. Qed.

Lemma lock_set_head st h : m_lock (set_head st h) = m_lock st.
Proof. reflexivity. Qed.

Lemma lock_relink_next st nx x : m_lock (relink_next st nx x) = m_lock st.
Proof. unfold relink_next. destruct (nx =? 0); reflexivity. Qed.

Lemma lock_relink_prev st pv x : m_lock (relink_prev st pv x) = m_lock st.
Proof. unfold relink_prev. destruct (pv =? 0); reflexivity. Qed.

(** Facts about the block being freed. *)
Lemma repx_block st first bs1 o s bs2 fl :
  RepX st first bs1 o s bs2 fl ->
  (0 < o /\ m_base_offset st <= o /\ first <= o /\
   o + s <= m_base_offset st + m_total_size st /\ 128 <= s /\ s mod 2 = 0) /\
  o = first + span bs1 /\ rd st o = word s true.
Proof.
  intros HR. pose proof (RepX_Geo _ _ _ _ _ _ _ HR) as HG.
  destruct HR as [Hp Hf Hfp Hfl Hc He Ht Hh Hd Hperm Hco].
  pose proof (geo_block _ _ _ _ HG (In_mid _ _ _)) as Hx.
  destruct (geo_split _ _ _ _ _ HG) as (Hxo & _).
  unfold b_off, b_size in Hx, Hxo; simpl in Hx, Hxo.
  split; [exact Hx|]. split; [exact Hxo|].
  apply Forall_app in Ht as [_ Ht]. apply Forall_cons in Ht as [[Ht _] _]. exact Ht.
Qed.

(** COALESCE RIGHT leaves the heap alone when the block is the last one of
    a region that ends with it, or its right neighbour is in use. *)
Lemma coalesce_right_keeps st first bs1 o s bs2 fl :
  RepX st first bs1 o s bs2 fl -> hd_free bs2 = false ->
  (bs2 = [] -> o + s = m_base_offset st + m_total_size st) ->
  coalesce_right st o (addr st o) = Done st.
Proof.
  intros HR Hh2 Hlast.
  pose proof (RepX_Geo _ _ _ _ _ _ _ HR) as HG.
  destruct (repx_block _ _ _ _ _ _ _ HR) as (Hx & Hxo & Hto).
  pose proof (repx_params _ _ _ _ _ _ _ HR) as Hp.
  destruct bs2 as [|[[o2 s2] f2] bs2'].
  - apply (coalesce_right_at_end st st o s); try tauto; try lia.
    + apply same_params_refl.
    + specialize (Hlast eq_refl). lia.
  - destruct (geo_merge _ _ _ _ _ _ _ _ _ _ true HG) as (-> & Hs1 & Hs2 & Ev1 & Ev2 & Hb & HG').
    unfold hd_free, b_free in Hh2; simpl in Hh2. subst f2.
    apply (coalesce_right_used st st o s) with (s2 := s2); try tauto; try lia.
    + apply same_params_refl.
    + destruct HR as [_ _ _ _ _ _ Ht _ _ _ _].
      apply Forall_app in Ht as [_ Ht]. apply Forall_cons in Ht as [_ Ht].
      apply Forall_cons in Ht as [[Ht _] _]. exact Ht.
Qed.

(** The COALESCE RIGHT step on a heap in the middle of [Free]. *)
Lemma coalesce_right_RepX st first bs1 o s bs2 fl :
  RepX st first bs1 o s bs2 fl ->
  (exists st' s' bs2' fl',
      coalesce_right st o (addr st o) = Done st' /\
      RepX st' first bs1 o s' bs2' fl' /\ hd_free bs2' = false /\
      used_payloads bs2' = used_payloads bs2 /\ m_lock st' = m_lock st /\
      same_params st st') \/
  (coalesce_right st o (addr st o) = OutOfBounds /\ bs2 = [] /\
   o + s < m_base_offset st + m_total_size st).
Proof.
  intros HR.
  pose proof (RepX_Geo _ _ _ _ _ _ _ HR) as HG.
  pose proof HR as [Hp Hf Hfp Hfl Hc He Ht Hh Hd Hperm Hco].
  pose proof (geo_block _ _ _ _ HG (In_mid _ _ _)) as Hx.
  destruct (geo_split _ _ _ _ _ HG) as (Hxo & _).
  unfold b_off, b_size in Hx, Hxo; simpl in Hx, Hxo.
  assert (Hto : rd st o = word s true).
  { apply Forall_app in Ht as [_ Ht]. apply Forall_cons in Ht as [[Ht _] _]. exact Ht. }
  destruct bs2 as [|[[o2 s2] f2] bs2'].
  - rewrite span_app in He. unfold span at 2 4, b_size in He; simpl in He.
    destruct (Z.eq_dec (o + s) (m_base_offset st + m_total_size st)) as [E|N].
    + left. exists st, s, [], fl. split; [|auto 10 with slab].
      apply (coalesce_right_at_end st st o s); try tauto; try lia.
      apply same_params_refl.
    + right. split; [|split; [reflexivity|lia]].
      apply (coalesce_right_odd_end st st o s); try tauto; try lia.
      apply same_params_refl.
  - destruct (geo_merge _ _ _ _ _ _ _ _ _ _ true HG) as (-> & Hs1 & Hs2 & Ev1 & Ev2 & Hb & HG').
    assert (Ht2 : rd st (o + s) = word s2 f2).
    { apply Forall_app in Ht as [_ Ht]. apply Forall_cons in Ht as [_ Ht].
      apply Forall_cons in Ht as [[Ht _] _]. exact Ht. }
    left. destruct f2.
    + (* the neighbour is free *)
      assert (Hin : In (o + s) fl).
      { eapply Permutation_in; [symmetry; exact Hperm|].
        rewrite free_offsets_app. apply in_or_app. right. now left. }
      apply in_split in Hin as (l1 & l2 & ->).
      pose proof Hd as Hd'. apply dll_app in Hd' as [_ (Hx64 & Hx72 & _)].
      assert (Hperm' : Permutation (l1 ++ l2) (free_offsets (bs1 ++ bs2'))).
      { rewrite free_offsets_app in Hperm. cbn [free_offsets b_free b_off snd fst] in Hperm.
        apply perm_drop_mid in Hperm. now rewrite free_offsets_app. }
      assert (Hnode : forall y, In y (l1 ++ l2) ->
                m_base_offset st <= y /\ y + 80 <= m_base_offset st + m_total_size st /\
                (y + 80 <= o \/ o + s + s2 <= y)).
      { intros y Hy.
        pose proof (geo_others _ _ _ _ _ _ _ _ _ HG' Hperm' Hy). lia. }
      eexists _, (s + s2), bs2', (l1 ++ l2).
      split; [|split; [apply repx_merge_right; exact HR|]].
      * apply (coalesce_right_free st st o s) with (s2 := s2);
          try tauto; try lia; try assumption.
        -- apply same_params_refl.
        -- intros Hne. apply Hnode. apply in_or_app. left.
           destruct (last_zero_or_in l1) as [[_ E]|[_ Hi]]; [congruence|exact Hi].
        -- intros Hne. apply Hnode. apply in_or_app. right.
           destruct (hd_zero_or_in l2) as [[_ E]|[l' E]]; [congruence|].
           rewrite E. now left.
      * split; [|split; [reflexivity|split; [|auto 12 with slab]]].
        -- change ((o, s, false) :: (o + s, s2, true) :: bs2')
             with ([(o, s, false)] ++ (o + s, s2, true) :: bs2') in Hco.
           rewrite app_assoc, nadj_mid in Hco.
           unfold b_free in Hco; simpl in Hco.
           destruct (hd_free bs2'); [|reflexivity].
           rewrite orb_true_r, andb_false_r in Hco. discriminate.
        -- rewrite !lock_wr, lock_unlink_next, lock_unlink_prev. reflexivity.
    + (* the neighbour is in use *)
      exists st, s, ((o + s, s2, false) :: bs2'), fl.
      split; [|auto 10 with slab].
      apply (coalesce_right_used st st o s) with (s2 := s2); try tauto; try lia.
      apply same_params_refl.
Qed.

Lemma repx_head_node st first bs1 o S bs2 fl :
  RepX st first bs1 o S bs2 fl ->
  m_free_list_head_offset st <> 0 ->
  m_base_offset st <= m_free_list_head_offset st /\
  m_free_list_head_offset st + 80 <= m_base_offset st + m_total_size st.
Proof.
  intros HR Hne. pose proof (RepX_Geo _ _ _ _ _ _ _ HR) as HG.
  destruct HR as [Hp Hf Hfp Hfl Hc He Ht Hh Hd Hperm Hco].
  rewrite Hh in *. destruct fl as [|h fl]; [now contradiction Hne|]. simpl.
  pose proof (geo_others _ _ _ _ _ _ _ _ h HG Hperm (or_introl eq_refl)). lia.
Qed.

Lemma InsertHead_RepX st first bs1 o S bs2 fl :
  RepX st first bs1 o S bs2 fl ->
  last_free bs1 = false -> hd_free bs2 = false ->
  exists st', InsertHead st o = Done st' /\
    Rep st' first (bs1 ++ (o, S, true) :: bs2) (o :: fl) /\ m_lock st' = m_lock st.
Proof.
  intros HR H1 H2.
  pose proof (RepX_Geo _ _ _ _ _ _ _ HR) as HG.
  pose proof (geo_block _ _ _ _ HG (In_mid _ _ _)) as Hx.
  unfold b_off, b_size in Hx; simpl in Hx.
  eexists. split; [|split; [apply repx_insert; eassumption|]].
  - apply InsertHead_eq; try lia.
    + now destruct HR.
    + apply (repx_head_node _ _ _ _ _ _ _ HR).
  - now rewrite lock_set_head, lock_relink_next, !lock_wr.
Qed.

(** COALESCE LEFT hands the block to [InsertHead] when it is the first of
    the heap or its left neighbour is in use. *)
Lemma coalesce_left_inserts st first bs1 o S bs2 fl :
  RepX st first bs1 o S bs2 fl -> last_free bs1 = false ->
  coalesce_left st o (addr st o) = InsertHead st o.
Proof.
  intros HR Hl1.
  pose proof (RepX_Geo _ _ _ _ _ _ _ HR) as HG.
  destruct (repx_block _ _ _ _ _ _ _ HR) as (Hx & Hxo & Hto).
  pose proof HR as [Hp Hf Hfp Hfl Hc He Ht Hh Hd Hperm Hco].
  destruct (list_eq_nil_dec bs1) as [->|Hne].
  - apply (coalesce_left_first st st o first); try assumption.
    + apply same_params_refl.
    + unfold span in Hxo; simpl in Hxo. lia.
  - destruct (exists_last Hne) as (bs0 & [[o0 s0] f0] & ->).
    rewrite last_free_snoc in Hl1. unfold b_free in Hl1; simpl in Hl1. subst f0.
    rewrite <- app_assoc in HG, Ht. cbn [app] in HG, Ht.
    destruct (geo_merge _ _ _ _ _ _ _ _ _ _ true HG) as (Eo & Hs1 & Hs2 & Ev1 & Ev2 & Hb & HG').
    pose proof (geo_block _ _ _ _ HG (In_mid _ _ _)) as Hx0.
    unfold b_off, b_size in Hx0; simpl in Hx0.
    apply (coalesce_left_used st st o S first) with (s0 := s0); try assumption; try lia.
    + apply same_params_refl.
    + apply Forall_app in Ht as [_ Ht]. apply Forall_cons in Ht as [[_ Ht] _].
      unfold b_off, b_size, b_free in Ht; simpl in Ht.
      replace (o - 8) with (o0 + s0 - 8) by lia. exact Ht.
Qed.

(** The COALESCE LEFT step and the insertion that may follow it. *)
Lemma coalesce_left_RepX st first bs1 o S bs2 fl :
  RepX st first bs1 o S bs2 fl -> hd_free bs2 = false ->
  exists st' bs' fl',
    coalesce_left st o (addr st o) = Done st' /\ Rep st' first bs' fl' /\
    used_payloads bs' = used_payloads bs1 ++ used_payloads bs2 /\
    m_lock st' = m_lock st.
Proof.
  intros HR Hh2.
  pose proof (RepX_Geo _ _ _ _ _ _ _ HR) as HG.
  pose proof HR as [Hp Hf Hfp Hfl Hc He Ht Hh Hd Hperm Hco].
  pose proof (geo_block _ _ _ _ HG (In_mid _ _ _)) as Hx.
  destruct (geo_split _ _ _ _ _ HG) as (Hxo & _).
  unfold b_off, b_size in Hx, Hxo; simpl in Hx, Hxo.
  assert (Hto : rd st o = word S true).
  { apply Forall_app in Ht as [_ Ht]. apply Forall_cons in Ht as [[Ht _] _]. exact Ht. }
  assert (Hup : used_payloads (bs1 ++ (o, S, true) :: bs2)
                = used_payloads bs1 ++ used_payloads bs2).
  { rewrite used_payloads_app. reflexivity. }
  destruct (list_eq_nil_dec bs1) as [->|Hne].
  - (* the first block of the heap *)
    destruct (InsertHead_RepX _ _ _ _ _ _ _ HR eq_refl Hh2) as (st' & E & HR' & Hl).
    exists st', ([] ++ (o, S, true) :: bs2), (o :: fl).
    split; [|auto].
    rewrite (coalesce_left_first st st o first); try assumption.
    + apply same_params_refl.
    + unfold span in Hxo; simpl in Hxo. lia.
  - destruct (exists_last Hne) as (bs0 & [[o0 s0] f0] & ->).
    rewrite <- app_assoc in HG. cbn [app] in HG.
    destruct (geo_merge _ _ _ _ _ _ _ _ _ _ true HG) as (Eo & Hs1 & Hs2 & Ev1 & Ev2 & Hb & HG').
    pose proof (geo_block _ _ _ _ HG (In_mid _ _ _)) as Hx0.
    unfold b_off, b_size in Hx0; simpl in Hx0.
    assert (Ht0 : rd st o0 = word s0 f0 /\ rd st (o - 8) = word s0 f0).
    { rewrite <- app_assoc in Ht. apply Forall_app in Ht as [_ Ht].
      apply Forall_cons in Ht as [[Ht Ht'] _].
      unfold b_off, b_size, b_free in Ht, Ht'; simpl in Ht, Ht'.
      split; [exact Ht|]. replace (o - 8) with (o0 + s0 - 8) by lia. exact Ht'. }
    destruct Ht0 as [Ht0 Ht0'].
    destruct f0.
    + (* the neighbour is free *)
      destruct (repx_merge_left _ _ _ _ _ _ _ _ _ HR Hh2) as (Eo0 & HR').
      eexists _, _, _. split; [|split; [exact HR'|]].
      * rewrite (coalesce_left_free st st o S first) with (s0 := s0);
          try assumption; try lia.
        -- rewrite <- Eo0. reflexivity.
        -- apply same_params_refl.
        -- rewrite <- Eo0. exact Ht0.
      * split; [|now rewrite !lock_wr].
        rewrite !used_payloads_app. cbn [used_payloads b_free snd].
        now rewrite app_nil_r.
    + (* the neighbour is in use *)
      destruct (InsertHead_RepX _ _ _ _ _ _ _ HR) as (st' & E & HR' & Hl);
        [apply last_free_snoc|assumption|].
      exists st', ((bs0 ++ [(o0, s0, false)]) ++ (o, S, true) :: bs2), (o :: fl).
      split; [|auto].
      rewrite (coalesce_left_used st st o S first) with (s0 := s0);
        try assumption; try lia.
      apply same_params_refl.
Qed.

(** [Free] of a block in use. *)
Lemma Free_Rep st first bs1 o s bs2 fl :
  Rep st first (bs1 ++ (o, s, false) :: bs2) fl -> m_lock st = false ->
  (exists st' bs' fl',
      Free (o + 64) st = Done st' /\ Rep st' first bs' fl' /\ m_lock st' = false /\
      used_payloads bs' = used_payloads bs1 ++ used_payloads bs2) \/
  (Free (o + 64) st = OutOfBounds /\ bs2 = [] /\
   o + s < m_base_offset st + m_total_size st).
Proof.
  intros HR Hlock.
  pose proof (Rep_Geo _ _ _ _ HR) as HG.
  pose proof (geo_block _ _ _ _ HG (In_mid _ _ _)) as Hx.
  unfold b_off, b_size in Hx; simpl in Hx.
  unfold Free. destruct (Z.eqb_spec (o + 64) 0) as [E|_]; [lia|].
  unfold lock. rewrite Hlock. cbn [bind].
  apply (Rep_set_lock _ _ _ _ true) in HR.
  set (st0 := set_lock st true) in *.
  pose proof HR as [Hp Hf Hfp Hfl Hc He Ht Hh Hd Hperm Hco].
  assert (Hto : rd st0 o = word s false /\ rd st0 (o + s - 8) = word s false).
  { apply Forall_app in Ht as [_ Ht]. apply Forall_cons in Ht as [Ht _]. exact Ht. }
  rewrite (Free_locked_eq st0 o s); try tauto; try lia.
  apply rep_mark in HR.
  set (st1 := wr (wr st0 o (word s true)) (o + s - 8) (word s true)) in *.
  change (addr st0 o) with (addr st1 o).
  destruct (coalesce_right_RepX _ _ _ _ _ _ _ HR)
    as [(st2 & s' & bs2' & fl2 & E2 & HR2 & Hh2 & Hup2 & Hl2 & Hsp2)|(E2 & -> & Hlt)].
  - left. rewrite E2. cbn [bind].
    destruct (coalesce_left_RepX _ _ _ _ _ _ _ HR2 Hh2) as (st3 & bs3 & fl3 & E3 & HR3 & Hup3 & Hl3).
    assert (Ea : addr st1 o = addr st2 o).
    { symmetry. apply addr_same. exact Hsp2. }
    rewrite Ea, E3. cbn [bind].
    exists (unlock st3), bs3, fl3. split; [reflexivity|]. split; [|split].
    + now apply Rep_set_lock.
    + reflexivity.
    + now rewrite Hup3, Hup2.
  - right. rewrite E2. cbn [bind]. auto.
Qed.

(** [Free] of a block whose neighbours are both in use: the block goes to
    the head of the free list, nothing is merged. *)
Lemma Free_isolated st first bs1 o s bs2 fl :
  Rep st first (bs1 ++ (o, s, false) :: bs2) fl -> m_lock st = false ->
  last_free bs1 = false -> hd_free bs2 = false ->
  (bs2 = [] -> o + s = m_base_offset st + m_total_size st) ->
  exists st', Free (o + 64) st = Done st' /\ m_lock st' = false /\
    Rep st' first (bs1 ++ (o, s, true) :: bs2) (o :: fl).
Proof.
  intros HR Hlock Hl1 Hh2 Hlast.
  pose proof (Rep_Geo _ _ _ _ HR) as HG.
  pose proof (geo_block _ _ _ _ HG (In_mid _ _ _)) as Hx.
  unfold b_off, b_size in Hx; simpl in Hx.
  unfold Free. destruct (Z.eqb_spec (o + 64) 0) as [E|_]; [lia|].
  unfold lock. rewrite Hlock. cbn [bind].
  apply (Rep_set_lock _ _ _ _ true) in HR.
  set (st0 := set_lock st true) in *.
  pose proof HR as [Hp Hf Hfp Hfl Hc He Ht Hh Hd Hperm Hco].
  assert (Hto : rd st0 o = word s false /\ rd st0 (o + s - 8) = word s false).
  { apply Forall_app in Ht as [_ Ht]. apply Forall_cons in Ht as [Ht _]. exact Ht. }
  rewrite (Free_locked_eq st0 o s); try tauto; try lia.
  apply rep_mark in HR.
  set (st1 := wr (wr st0 o (word s true)) (o + s - 8) (word s true)) in *.
  change (addr st0 o) with (addr st1 o).
  rewrite (coalesce_right_keeps _ _ _ _ _ _ _ HR Hh2 Hlast). cbn [bind].
  rewrite (coalesce_left_inserts _ _ _ _ _ _ _ HR Hl1).
  destruct (InsertHead_RepX _ _ _ _ _ _ _ HR Hl1 Hh2) as (st2 & E2 & HR2 & Hl2).
  rewrite E2. cbn [bind]. exists (unlock st2). split; [reflexivity|].
  split; [reflexivity|]. now apply Rep_set_lock.
Qed.

(** *** [Allocate] *)

Lemma land_ALIGN_MASK x : 0 <= x < 2 ^ 64 -> Z.land x ALIGN_MASK = 64 * (x / 64).
Proof.
  intros Hx.
  assert (H : Z.land x (Z.ones 64) = Z.land x ALIGN_MASK + Z.land x (Z.ones 6)).
  { change (Z.ones 64) with (Z.lor ALIGN_MASK (Z.ones 6)).
    rewrite Z.land_lor_distr_r.
    rewrite <- Z.lxor_lor, <- Z.add_nocarry_lxor; try reflexivity.
    all: rewrite Z.land_assoc, <- (Z.land_assoc x ALIGN_MASK), (Z.land_comm ALIGN_MASK x),
           Z.land_assoc, Z.land_diag, <- Z.land_assoc;
         change (Z.land ALIGN_MASK (Z.ones 6)) with 0; apply Z.land_0_r. }
  rewrite !Z.land_ones in H by lia.
  rewrite Z.mod_small in H by lia.
  change (2 ^ 6) with 64 in H.
  pose proof (Z.div_mod x 64). lia.
Qed.

(** Requests that the arithmetic of [Allocate] rounds without wrapping. *)
Lemma required_total_size_ok n :
  0 < n <= 2 ^ 64 - 192 ->
  required_total_size n = 64 * ((n + 63) / 64) + 128.
Proof.
  intros Hn. unfold required_total_size, sizeof_BlockHeader, sizeof_BlockFooter, ALIGNMENT.
  rewrite (wrap64_small (n + 63)) by lia.
  rewrite (land_ALIGN_MASK (n + 63)) by lia.
  set (q := (n + 63) / 64).
  assert (Hq : 1 <= q /\ 64 * q <= 2 ^ 64 - 192).
  { subst q. pose proof (Z.div_mod (n + 63) 64).
    pose proof (Z.mod_pos_bound (n + 63) 64).
    assert (E : 2 ^ 64 - 192 = 64 * (2 ^ 58 - 3)) by reflexivity.
    assert ((n + 63) / 64 <= (2 ^ 64 - 192 + 63) / 64) by (apply Z.div_le_mono; lia).
    assert ((2 ^ 64 - 192 + 63) / 64 = 2 ^ 58 - 3) by reflexivity.
    assert (1 <= (n + 63) / 64) by (apply Z.div_le_lower_bound; lia).
    lia. }
  rewrite (wrap64_small (64 + 64 * q)) by lia.
  rewrite (wrap64_small (64 + 64 * q + 8)) by lia.
  rewrite (wrap64_small (64 + 64 * q + 8 + 64)) by lia.
  rewrite (wrap64_small (64 + 64 * q + 8 + 64 - 1)) by lia.
  rewrite land_ALIGN_MASK by lia.
  replace (64 + 64 * q + 8 + 64 - 1) with (71 + (q + 1) * 64) by lia.
  rewrite Z.div_add by lia. change (71 / 64) with 1. lia.
Qed.

Lemma required_total_size_even n :
  0 < n <= 2 ^ 64 - 192 ->
  required_total_size n mod 2 = 0 /\ 192 <= required_total_size n.
Proof.
  intros Hn. rewrite required_total_size_ok by assumption.
  assert (1 <= (n + 63) / 64) by (apply Z.div_le_lower_bound; lia).
  split; [|lia].
  replace (64 * ((n + 63) / 64) + 128) with ((32 * ((n + 63) / 64) + 64) * 2) by lia.
  apply Z.mod_mul. lia.
Qed.

(** What a heap says about a member [x] of its free list. *)
Lemma rep_node st first bs1 x s bs2 l0 l :
  Rep st first (bs1 ++ (x, s, true) :: bs2) (l0 ++ x :: l) ->
  (0 < x /\ m_base_offset st <= x /\ x + s <= m_base_offset st + m_total_size st /\
   128 <= s /\ s mod 2 = 0) /\
  rd st x = word s true /\
  rd st (x + 64) = hd 0 l /\ rd st (x + 72) = List.last l0 0 /\
  (List.last l0 0 <> 0 ->
     m_base_offset st <= List.last l0 0 /\
     List.last l0 0 + 80 <= m_base_offset st + m_total_size st /\
     (List.last l0 0 + 80 <= x \/ x + s <= List.last l0 0)) /\
  (hd 0 l <> 0 ->
     m_base_offset st <= hd 0 l /\
     hd 0 l + 80 <= m_base_offset st + m_total_size st /\
     (hd 0 l + 80 <= x \/ x + s <= hd 0 l)).
Proof.
  intros HR.
  pose proof (Rep_Geo _ _ _ _ HR) as HG.
  destruct HR as [Hp Hf Hfp Hfl Hc He Ht Hh Hd Hperm Hco].
  pose proof (geo_block _ _ _ _ HG (In_mid _ _ _)) as Hx.
  unfold b_off, b_size in Hx; simpl in Hx.
  split; [lia|]. split.
  { apply Forall_app in Ht as [_ Ht]. apply Forall_cons in Ht as [[Ht _] _]. exact Ht. }
  apply dll_app in Hd as [_ (Hx64 & Hx72 & _)].
  split; [exact Hx64|]. split; [exact Hx72|].
  assert (Hperm' : Permutation (l0 ++ l) (free_offsets (bs1 ++ bs2))).
  { rewrite free_offsets_app in Hperm. cbn [free_offsets b_free b_off snd fst] in Hperm.
    apply perm_drop_mid in Hperm. now rewrite free_offsets_app. }
  assert (Hnode : forall y, In y (l0 ++ l) ->
            m_base_offset st <= y /\ y + 80 <= m_base_offset st + m_total_size st /\
            (y + 80 <= x \/ x + s <= y)).
  { intros y Hy.
    pose proof (geo_others _ _ _ _ _ _ _ _ _ HG Hperm' Hy). lia. }
  split.
  - intros Hne. apply Hnode. apply in_or_app. left.
    destruct (last_zero_or_in l0) as [[_ E]|[_ Hi]]; [congruence|exact Hi].
  - intros Hne. apply Hnode. apply in_or_app. right.
    destruct (hd_zero_or_in l) as [[_ E]|[l' E]]; [congruence|].
    rewrite E. now left.
Qed.

Lemma take_block_Rep st first bs1 x s bs2 l0 l req :
  Rep st first (bs1 ++ (x, s, true) :: bs2) (l0 ++ x :: l) ->
  req mod 2 = 0 -> 128 <= req -> req <= s ->
  exists st', take_block st x req = Done (x + 64, st') /\ m_lock st' = m_lock st /\
    Rep st' first (fst (taken bs1 x s bs2 l0 l req)) (snd (taken bs1 x s bs2 l0 l req)).
Proof.
  intros HR Ev Hreq Hle.
  destruct (rep_node _ _ _ _ _ _ _ _ HR) as (Hx & Hto & Hx64 & Hx72 & Hpv & Hnx).
  pose proof (rep_params _ _ _ _ HR) as Hp.
  unfold taken. destruct (Z_le_gt_dec (req + 136) s) as [Hsplit|Hwhole]; cbn [fst snd].
  - rewrite (take_block_split st x s req (List.last l0 0) (hd 0 l)) by (assumption || lia).
    eexists. split; [reflexivity|]. split; [|apply rep_split; assumption].
    now rewrite lock_relink_next, lock_relink_prev, !lock_wr.
  - rewrite (take_block_whole st x s req (List.last l0 0) (hd 0 l)) by (assumption || lia).
    eexists. split; [reflexivity|]. split; [|apply rep_whole; assumption].
    now rewrite !lock_wr, lock_unlink_next, lock_unlink_prev.
Qed.

Lemma taken_used bs1 x s bs2 l0 l req :
  Permutation (used_payloads (fst (taken bs1 x s bs2 l0 l req)))
              (x + 64 :: used_payloads (bs1 ++ (x, s, true) :: bs2)).
Proof.
  unfold taken. destruct (Z_le_gt_dec (req + 136) s); cbn [fst];
    rewrite !used_payloads_app; cbn [used_payloads b_free b_off snd fst];
    symmetry; apply Permutation_middle.
Qed.

(** One step of the first-fit scan, at the node [x]. *)
Lemma first_fit_at st first bs1 x s bs2 l0 l req fuel :
  Rep st first (bs1 ++ (x, s, true) :: bs2) (l0 ++ x :: l) ->
  first_fit (S fuel) st x req =
    if req <=? s then take_block st x req else first_fit fuel st (hd 0 l) req.
Proof.
  intros HR.
  destruct (rep_node _ _ _ _ _ _ _ _ HR) as (Hx & Hto & Hx64 & Hx72 & Hpv & Hnx).
  pose proof (rep_params _ _ _ _ HR) as Hp. pose proof Hp as (P1 & P2 & P3 & P4 & P5).
  cbn [first_fit]. destruct (Z.eqb_spec x 0) as [|_]; [lia|].
  rewrite (GetPtr_at st st) by side.
  rewrite (GetSize_at st st) by side.
  rewrite Hto. rewrite word_size by lia. cbn [bind].
  destruct (req <=? s); [reflexivity|].
  rewrite (GetPayload_addr st) by side.
  unfold next_field. rewrite (load_at st st) by side.
  cbn [bind]. now rewrite Hx64.
Qed.

(** The first-fit scan over the rest [l] of the free list. *)
Lemma first_fit_Rep req : req mod 2 = 0 -> 128 <= req ->
  forall l fuel st first bs l0,
  Rep st first bs (l0 ++ l) ->
  (length l <= fuel)%nat \/ (exists r, first_fit fuel st (hd 0 l) req = Done r) ->
  exists p st', first_fit fuel st (hd 0 l) req = Done (p, st') /\
  ((p = 0 /\ st' = st) \/
   (exists bs' fl', Rep st' first bs' fl' /\ m_lock st' = m_lock st /\ 0 < p /\
      Permutation (used_payloads bs') (p :: used_payloads bs))).
Proof.
  intros Ev Hreq. induction l as [|x l IH]; intros fuel st first bs l0 HR Hfuel.
  - exists 0, st. split; [|left; auto]. destruct fuel; reflexivity.
  - assert (Hin : In x (free_offsets bs)).
    { eapply Permutation_in; [exact (rep_perm _ _ _ _ HR)|]. apply In_mid. }
    apply In_free_offsets in Hin as (s & Hin).
    apply in_split in Hin as (bs1 & bs2 & ->).
    destruct (rep_node _ _ _ _ _ _ _ _ HR) as (Hx & _).
    cbn [hd]. destruct fuel as [|fuel].
    { exfalso. destruct Hfuel as [Hfuel|(r & Hr)]; [simpl in Hfuel; lia|].
      simpl in Hr. destruct (Z.eqb_spec x 0); [lia|discriminate]. }
    rewrite (first_fit_at _ _ _ _ _ _ _ _ _ _ HR).
    destruct (Z.leb_spec req s) as [Hle|Hgt].
    + destruct (take_block_Rep _ _ _ _ _ _ _ _ _ HR Ev Hreq Hle) as (st' & E & Hl & HR').
      exists (x + 64), st'. split; [exact E|]. right.
      eexists _, _. split; [exact HR'|]. split; [exact Hl|]. split; [lia|].
      apply taken_used.
    + apply (IH fuel st first _ (l0 ++ [x])).
      * now rewrite <- app_assoc.
      * destruct Hfuel as [Hfuel|(r & Hr)]; [left; simpl in Hfuel; lia|right].
        exists r. rewrite (first_fit_at _ _ _ _ _ _ _ _ _ _ HR) in Hr.
        destruct (Z.leb_spec req s) as [|_]; [lia|]. exact Hr.
Qed.

(** [Allocate] on a heap. *)
Lemma Allocate_Rep fuel n st first bs fl :
  Rep st first bs fl -> m_lock st = false -> 0 <= n <= 2 ^ 64 - 192 ->
  (length fl <= fuel)%nat \/ (exists r, Allocate fuel n st = Done r) ->
  exists p st', Allocate fuel n st = Done (p, st') /\
  ((p = 0 /\ st' = st) \/
   (exists bs' fl', Rep st' first bs' fl' /\ m_lock st' = false /\ 0 < p /\
      Permutation (used_payloads bs') (p :: used_payloads bs))).
Proof.
  intros HR Hlock Hn Hfuel. unfold Allocate in *.
  destruct (Z.eqb_spec n 0) as [->|Hn0].
  { exists 0, st. split; [reflexivity|left; auto]. }
  destruct (required_total_size_even n) as [Ev Hreq]; [lia|].
  unfold lock in *. rewrite Hlock in *. cbn [bind] in *.
  set (st0 := set_lock st true) in *.
  assert (Hhead : m_free_list_head_offset st0 = hd 0 fl) by (now destruct HR).
  rewrite Hhead in *.
  destruct (first_fit_Rep _ Ev ltac:(lia) fl fuel st0 first bs [] (Rep_set_lock _ _ _ _ true HR))
    as (p & st' & E & Hres).
  { destruct Hfuel as [Hfuel|(r & Hr)]; [left; exact Hfuel|right].
    destruct (first_fit fuel st0 (hd 0 fl) (required_total_size n)) as [r'| | |];
      try discriminate. eauto. }
  rewrite E. cbn [bind fst snd].
  exists p, (unlock st'). split; [reflexivity|].
  destruct Hres as [[-> ->]|(bs' & fl' & HR' & Hl' & Hp' & Hperm)].
  - left. split; [reflexivity|]. now apply unlock_lock.
  - right. exists bs', fl'. split; [now apply Rep_set_lock|]. auto.
Qed.

(** [Allocate] when the head of the free list is large enough: the request
    is served from it. *)
Lemma Allocate_head fuel n st first bs1 x s bs2 l :
  Rep st first (bs1 ++ (x, s, true) :: bs2) (x :: l) -> m_lock st = false ->
  0 < n <= 2 ^ 64 - 192 -> required_total_size n <= s ->
  exists st', Allocate (S fuel) n st = Done (x + 64, st') /\ m_lock st' = false /\
    Rep st' first (fst (taken bs1 x s bs2 [] l (required_total_size n)))
                  (snd (taken bs1 x s bs2 [] l (required_total_size n))).
Proof.
  intros HR Hlock Hn Hfit. unfold Allocate.
  destruct (Z.eqb_spec n 0) as [|_]; [lia|].
  destruct (required_total_size_even n Hn) as [Ev Hreq].
  unfold lock. rewrite Hlock. cbn [bind].
  apply (Rep_set_lock _ _ _ _ true) in HR.
  set (st0 := set_lock st true) in *.
  assert (Hhead : m_free_list_head_offset st0 = x) by (now destruct HR).
  rewrite Hhead.
  rewrite (first_fit_at st0 first bs1 x s bs2 [] l _ fuel HR).
  destruct (Z.leb_spec (required_total_size n) s) as [_|]; [|lia].
  destruct (take_block_Rep st0 first bs1 x s bs2 [] l _ HR Ev ltac:(lia) Hfit)
    as (st' & E & Hl & HR').
  rewrite E. cbn [bind fst snd]. exists (unlock st'). split; [reflexivity|].
  split; [reflexivity|]. now apply Rep_set_lock.
Qed.

(** [Allocate] on an empty free list. *)
Lemma Allocate_empty fuel n st :
  m_free_list_head_offset st = 0 -> m_lock st = false ->
  Allocate fuel n st = Done (0, st).
Proof.
  intros Hh Hlock. unfold Allocate. destruct (n =? 0); [reflexivity|].
  unfold lock. rewrite Hlock. cbn [bind].
  change (m_free_list_head_offset (set_lock st true)) with (m_free_list_head_offset st).
  rewrite Hh. destruct fuel; cbn [first_fit Z.eqb bind fst snd]; now rewrite unlock_lock.
Qed.

(** *** Construction *)

Lemma wrap64_sub_period x : 2 ^ 64 <= x < 2 * 2 ^ 64 -> wrap64 x = x - 2 ^ 64.
Proof.
  intros H. unfold wrap64.
  replace x with (x - 2 ^ 64 + 1 * 2 ^ 64) at 1 by lia.
  rewrite Z_mod_plus_full. apply Z.mod_small. lia.
Qed.

Lemma wrap64_neg x : - 2 ^ 64 <= x < 0 -> wrap64 x = x + 2 ^ 64.
Proof.
  intros H. unfold wrap64.
  replace x with (x + 2 ^ 64 + (-1) * 2 ^ 64) at 1 by lia.
  rewrite Z_mod_plus_full. apply Z.mod_small. lia.
Qed.

Lemma adjustment_range B : 0 <= B <= 2 ^ 64 -> 0 <= adjustment B <= 63.
Proof.
  intros HB. unfold adjustment, ALIGNMENT.
  assert (E : wrap64 (wrap64 (B + 64) - 1) = wrap64 (B + 63)).
  { unfold wrap64. rewrite Zminus_mod_idemp_l. f_equal. lia. }
  rewrite E. clear E.
  destruct (Z_lt_le_dec (B + 63) (2 ^ 64)) as [Hlt|Hge].
  - rewrite (wrap64_small (B + 63)) by lia.
    rewrite land_ALIGN_MASK by lia.
    pose proof (Z.div_mod (B + 63) 64). pose proof (Z.mod_pos_bound (B + 63) 64).
    rewrite wrap64_small by lia. lia.
  - rewrite (wrap64_sub_period (B + 63)) by lia.
    rewrite land_ALIGN_MASK by lia.
    rewrite Z.div_small by lia.
    destruct (Z.eq_dec B (2 ^ 64)) as [->|Hne]; [vm_compute; split; discriminate|].
    rewrite wrap64_neg by lia. lia.
Qed.

Lemma wrap64_back O a : 0 <= a < 2 ^ 64 -> wrap64 (wrap64 (O + a) - O) = a.
Proof.
  intros Ha. unfold wrap64. rewrite Zminus_mod_idemp_l.
  replace (O + a - O) with a by lia. apply Z.mod_small. lia.
Qed.

Lemma store_outside st p v :
  p < m_base st \/ m_base st + m_total_size st < p + 8 -> store st p v = OutOfBounds.
Proof.
  intros H. unfold store, in_region.
  replace (_ && _) with false; [reflexivity|].
  symmetry. apply andb_false_iff. destruct H; [left|right]; apply Z.leb_gt; lia.
Qed.

(** Construction on a region with room for a header and a footer after
    the adjustment: it ends beyond the region unless the two links of the
    list node fit as well. *)
Lemma construct_run B T O contents :
  0 <= B -> 0 <= T -> B + T <= 2 ^ 64 -> 0 <= O -> O + T < 2 ^ 64 ->
  adjustment B <= T -> 72 <= T - adjustment B ->
  construct B T O contents =
    if Z_le_gt_dec (adjustment B + 80) T
    then Done (init_state (mkSlab B T O 0 None false contents) (O + adjustment B)
                 (T - adjustment B - (T - adjustment B) mod 2))
    else OutOfBounds.
Proof.
  intros HB HT HBT HO HOT Hge H. unfold construct, Init, lock.
  cbn [m_lock bind m_base m_total_size m_base_offset set_lock].
  change (set_lock (mkSlab B T O 0 None false contents) true)
    with (mkSlab B T O 0 None true contents).
  fold (adjustment B).
  pose proof (adjustment_range B ltac:(lia)) as Hadj.
  set (adj := adjustment B) in *.
  set (st0 := mkSlab B T O 0 None true contents).
  rewrite (wrap64_small (T - adj)) by lia.
  destruct (Z.ltb_spec (T - adj) (sizeof_BlockHeader + sizeof_BlockFooter)) as [H'|_];
    [unfold sizeof_BlockHeader, sizeof_BlockFooter in H'; lia|].
  rewrite (wrap64_small (O + adj)) by lia.
  set (es := O + adj). set (ESZ := T - adj).
  assert (Hes : es = O + adj) by reflexivity.
  assert (HESZ : ESZ = T - adj) by reflexivity.
  clearbody es ESZ.
  set (st1 := set_first st0 es).
  assert (Hp : params_ok st1) by (unfold params_ok; simpl; lia).
  assert (P : m_base_offset st1 = O /\ m_total_size st1 = T /\ m_base st1 = B) by auto.
  destruct P as (PO & PT & PB).
  rewrite (GetPtr_at st1 st1) by (try apply same_params_refl; try assumption; lia).
  rewrite (Set_at st1 st1) by (try apply same_params_refl; try assumption; lia).
  cbn [bind].
  rewrite tag_val by lia.
  set (E := ESZ - ESZ mod 2).
  pose proof (Z.mod_pos_bound ESZ 2 ltac:(lia)) as Hm.
  assert (HE : ESZ - 1 <= E <= ESZ) by (unfold E; lia).
  assert (EvE : E mod 2 = 0).
  { unfold E. rewrite Zminus_mod, Z.mod_mod, Z.sub_diag by lia. reflexivity. }
  assert (EE : E = ESZ - ESZ mod 2) by reflexivity.
  clearbody E.
  assert (HE2 : E + 1 < 2 ^ 64) by (pose proof (Z.div_mod E 2 ltac:(lia)); lia).
  rewrite (UpdateFooter_at st1 (wr st1 es (word E true)) Hp ltac:(auto with slab) es E);
    [|rdsimp; rewrite wrap64_word by lia; apply word_size; lia|lia|lia|lia].
  cbn [bind]. rdsimp. rewrite wrap64_word by lia.
  rewrite (GetPayload_addr st1) by (assumption || lia).
  unfold next_field.
  rewrite (store_at st1) by (try assumption; auto 10 with slab; lia).
  cbn [bind].
  destruct (Z_le_gt_dec (adj + 80) T) as [Hroom|Hnoroom].
  - rewrite (prev_field_addr st1) by (assumption || lia).
    replace (es + 64 + 8) with (es + 72) by lia.
    rewrite (store_at st1) by (try assumption; auto 10 with slab; lia).
    cbn [bind]. subst es E ESZ. reflexivity.
  - rewrite store_outside; [reflexivity|].
    unfold prev_field, addr. rewrite PO. cbn [m_base m_total_size wr set_mem].
    rewrite PB, PT.
    destruct (Z_lt_le_dec (B + (es + 64 - O) + 8) (2 ^ 64)).
    + rewrite wrap64_small by lia. lia.
    + rewrite wrap64_sub_period by lia. lia.
Qed.

(** Construction without room for a header and a footer leaves the
    allocator as the member initialisers made it. *)
Lemma construct_small B T O contents :
  0 <= B -> B + T <= 2 ^ 64 -> 0 <= O -> O + T < 2 ^ 64 ->
  adjustment B <= T -> T - adjustment B < 72 ->
  construct B T O contents = Done (mkSlab B T O 0 None false contents).
Proof.
  intros HB HBT HO HOT Hge H. unfold construct, Init, lock.
  cbn [m_lock bind m_base m_total_size m_base_offset set_lock].
  fold (adjustment B).
  rewrite (wrap64_small (T - adjustment B)) by lia.
  destruct (Z.ltb_spec (T - adjustment B) (sizeof_BlockHeader + sizeof_BlockFooter)) as [_|H'];
    [reflexivity|unfold sizeof_BlockHeader, sizeof_BlockFooter in H'; lia].
Qed.

(** Construction on a region that ends before the 64-byte boundary writes
    the header outside the region. *)
Lemma construct_short B T O contents :
  0 <= B -> 0 <= T -> B + T <= 2 ^ 64 -> 0 <= O -> O + T < 2 ^ 64 ->
  T < adjustment B ->
  construct B T O contents = OutOfBounds.
Proof.
  intros HB HT HBT HO HOT Hlt. unfold construct, Init, lock.
  cbn [m_lock bind m_base m_total_size m_base_offset set_lock].
  change (set_lock (mkSlab B T O 0 None false contents) true)
    with (mkSlab B T O 0 None true contents).
  fold (adjustment B).
  pose proof (adjustment_range B ltac:(lia)) as Hadj.
  set (adj := adjustment B) in *.
  set (st0 := mkSlab B T O 0 None true contents).
  rewrite (wrap64_neg (T - adj)) by lia.
  destruct (Z.ltb_spec (T - adj + 2 ^ 64) (sizeof_BlockHeader + sizeof_BlockFooter)) as [H|_];
    [unfold sizeof_BlockHeader, sizeof_BlockFooter in H; lia|].
  unfold Set_, GetPtr. cbn [m_base m_base_offset set_first].
  rewrite wrap64_back by lia.
  rewrite store_outside; [reflexivity|].
  cbn [m_base m_total_size set_first].
  change (m_base st0) with B. change (m_total_size st0) with T.
  destruct (Z_lt_le_dec (B + adj) (2 ^ 64)).
  - rewrite wrap64_small by lia. lia.
  - rewrite wrap64_sub_period by lia. lia.
Qed.

Lemma construct_cases B T O contents st :
  0 <= B -> 0 <= T -> B + T <= 2 ^ 64 -> 0 <= O -> O + T < 2 ^ 64 ->
  construct B T O contents = Done st ->
  st = mkSlab B T O 0 None false contents \/
  exists adj E, 0 <= adj <= 63 /\ adj + 80 <= T /\ E mod 2 = 0 /\
    T - adj - 1 <= E <= T - adj /\
    st = init_state (mkSlab B T O 0 None false contents) (O + adj) E.
Proof.
  intros HB HT HBT HO HOT.
  pose proof (adjustment_range B ltac:(lia)) as Hadj.
  destruct (Z_lt_le_dec T (adjustment B)) as [Hlt|Hge].
  - now rewrite construct_short.
  - destruct (Z_lt_le_dec (T - adjustment B) 72) as [Hs|Hs].
    + rewrite construct_small by assumption. intros [= <-]. now left.
    + rewrite construct_run by assumption.
      destruct (Z_le_gt_dec (adjustment B + 80) T) as [Hroom|]; [|discriminate].
      intros [= <-]. right. eexists _, _. split; [exact Hadj|]. split; [exact Hroom|].
      pose proof (Z.mod_pos_bound (T - adjustment B) 2 ltac:(lia)).
      split; [|split; [|reflexivity]]; [|lia].
      rewrite Zminus_mod, Z.mod_mod, Z.sub_diag by lia. reflexivity.
Qed.

(** Reading the blocks back off the headers. *)
Lemma walk_chain st : params_ok st -> forall bs o fuel,
  m_base_offset st <= o ->
  chain o bs (o + span bs) -> Forall (tagged st) bs ->
  o + span bs <= m_base_offset st + m_total_size st < o + span bs + 8 ->
  (length bs < fuel)%nat ->
  walk fuel st o = Done bs.
Proof.
  intros Hp. pose proof Hp as (P1 & P2 & P3 & P4 & P5).
  induction bs as [|[[o' s] f] bs IH]; intros o fuel Ho Hc Ht He Hfuel.
  - unfold span in He; simpl in He.
    destruct fuel; [simpl in Hfuel; lia|]. cbn [walk].
    rewrite wrap64_small by lia.
    destruct (Z.ltb_spec (m_total_size st + m_base_offset st) (o + 8)); [reflexivity|lia].
  - destruct Hc as (Eo & Hs & Ev & Hc).
    unfold b_off, b_size, MIN_BLOCK_SIZE in Eo, Hs, Ev, Hc; simpl in Eo, Hs, Ev, Hc. subst o'.
    apply Forall_cons in Ht as [[Ht _] Hts].
    unfold b_off, b_size, b_free in Ht; simpl in Ht.
    pose proof (span_nonneg _ _ _ Hc) as Hnn.
    change (span ((o, s, f) :: bs)) with (s + span bs) in He, Hc.
    destruct fuel as [|fuel]; [simpl in Hfuel; lia|]. cbn [walk].
    rewrite wrap64_small by lia.
    destruct (Z.ltb_spec (m_total_size st + m_base_offset st) (o + 8)); [lia|].
    rewrite (GetPtr_at st st) by side.
    rewrite (GetSize_at st st), (IsFree_at st st) by side.
    assert (s + 1 < 2 ^ 64) by (pose proof (Z.div_mod s 2 ltac:(lia)); lia).
    rewrite Ht. rewrite word_size, word_free by lia. cbn [bind].
    rewrite (IH (o + s) fuel); try assumption; try lia.
    + reflexivity.
    + replace (o + s + span bs) with (o + (s + span bs)) by lia. assumption.
    + simpl in Hfuel. lia.
Qed.

Lemma heap_blocks_Rep st first bs fl fuel :
  Rep st first bs fl -> (length bs < fuel)%nat -> heap_blocks fuel st = Done bs.
Proof.
  intros [Hp Hf Hfp Hfl Hc He Ht Hh Hd Hperm Hco] Hfuel.
  unfold heap_blocks. rewrite Hf. now apply walk_chain.
Qed.

(** The heap right after construction. *)
Section Fresh.
Variables (B T O : Z) (contents : memory) (adj E : Z).
Hypothesis HB : 0 <= B.
Hypothesis HBT : B + T <= 2 ^ 64.
Hypothesis HO : 0 <= O.
Hypothesis HOT : O + T < 2 ^ 64.
Hypothesis Hadj : 0 <= adj <= 63.
Hypothesis Hroom : adj + 80 <= T.
Hypothesis EvE : E mod 2 = 0.
Hypothesis HE : T - adj - 1 <= E <= T - adj.

Local Abbreviation st0 := (mkSlab B T O 0 None false contents).
Local Abbreviation st := (init_state st0 (O + adj) E).

Lemma init_params : params_ok st.
Proof using HB HBT HO HOT Hroom Hadj. unfold params_ok. simpl. lia. Qed.

Lemma init_size : 79 <= E /\ E + 1 < 2 ^ 64.
Proof using HO HOT Hroom Hadj HE EvE. pose proof (Z.div_mod E 2 ltac:(lia)). lia. Qed.

Lemma init_header : rd st (O + adj) = word E true.
Proof using HB HBT HO HOT Hroom Hadj HE EvE.
  pose proof init_size. unfold init_state, unlock. rdsimp. apply wrap64_word; lia.
Qed.

Lemma init_next : rd st (O + adj + 64) = 0.
Proof using HB HBT HO HOT Hroom Hadj HE EvE.
  unfold init_state, unlock. rdsimp. reflexivity.
Qed.

Lemma init_Rep :
  0 < O + adj -> 128 <= E -> Rep st (O + adj) [(O + adj, E, true)] [O + adj].
Proof using HB HBT HO HOT Hroom Hadj HE EvE.
  intros Hpos HE128. pose proof init_size. constructor.
  - exact init_params.
  - reflexivity.
  - assumption.
  - simpl. lia.
  - cbn [chain]. unfold span; cbn [fold_right].
    unfold b_off, b_size, MIN_BLOCK_SIZE; cbn [fst snd].
    repeat split; try assumption; lia.
  - unfold span; cbn [fold_right]. unfold b_size; cbn [fst snd].
    cbn [m_base_offset m_total_size init_state unlock set_lock set_head wr set_mem
         set_first]. lia.
  - constructor; [|constructor]. unfold tagged, b_off, b_size, b_free; simpl.
    split; [apply init_header|].
    unfold init_state, unlock. rdsimp. apply wrap64_word; lia.
  - reflexivity.
  - cbn [dll hd]. split; [apply init_next|]. split; [|exact I].
    unfold init_state, unlock. rdsimp. reflexivity.
  - reflexivity.
  - reflexivity.
Qed.
End Fresh.

(** [Free] of a block whose header carries the free bit changes nothing. *)
Lemma Free_marked_free st p :
  m_lock st = false ->
  IsFree st (GetPtr st (wrap64 (p - sizeof_BlockHeader))) = Done true ->
  Free p st = Done st.
Proof.
  intros Hlock Hfree. unfold Free.
  destruct (p =? 0); [reflexivity|].
  unfold lock. rewrite Hlock. cbn [bind].
  unfold Free_locked.
  change (IsFree (set_lock st true) (GetPtr (set_lock st true) (wrap64 (p - sizeof_BlockHeader))))
    with (IsFree st (GetPtr st (wrap64 (p - sizeof_BlockHeader)))).
  rewrite Hfree. cbn [bind].
  now rewrite unlock_lock.
Qed.

Lemma first_fit_null fuel st req : first_fit fuel st 0 req = Done (0, st).
Proof. destruct fuel; reflexivity. Qed.

(** Heaps from which nothing is ever handed out. *)
Lemma Dead_unassigned B T O contents : Dead (mkSlab B T O 0 None false contents).
Proof.
  split; [reflexivity|]. split.
  - intros fuel n r Hn. unfold Allocate. destruct (n =? 0); [now intros [= <-]|].
    unfold lock. cbn [m_lock bind m_free_list_head_offset set_lock].
    rewrite first_fit_null. now intros [= <-].
  - exists []. repeat split; reflexivity.
Qed.

Section FreshDead.
Variables (B T O : Z) (contents : memory) (adj E : Z).
Hypothesis HB : 0 <= B.
Hypothesis HBT : B + T <= 2 ^ 64.
Hypothesis HO : 0 <= O.
Hypothesis HOT : O + T < 2 ^ 64.
Hypothesis Hadj : 0 <= adj <= 63.
Hypothesis Hroom : adj + 80 <= T.
Hypothesis EvE : E mod 2 = 0.
Hypothesis HE : T - adj - 1 <= E <= T - adj.

Local Abbreviation st0 := (mkSlab B T O 0 None false contents).
Local Abbreviation st := (init_state st0 (O + adj) E).

Lemma Dead_init : O + adj = 0 \/ E < 128 -> Dead st.
Proof using HB HBT HO HOT Hroom Hadj HE EvE.
  intros Hdead.
  pose proof (init_params B T O contents adj E HB HBT HO HOT Hadj Hroom) as Hp.
  pose proof (init_size T O adj E HO HOT Hadj Hroom EvE HE) as [HE79 HE2].
  pose proof (init_header B T O contents adj E HB HBT HO HOT Hadj Hroom EvE HE) as Hh.
  pose proof (init_next B T O contents adj E HB HBT HO HOT Hadj Hroom EvE HE) as Hn.
  assert (PO : m_base_offset st = O) by reflexivity.
  assert (PT : m_total_size st = T) by reflexivity.
  split; [reflexivity|]. split.
  - intros fuel n r Hn0. unfold Allocate.
    destruct (Z.eqb_spec n 0) as [|_]; [lia|].
    destruct (required_total_size_even n Hn0) as [_ Hreq].
    unfold lock. change (m_lock st) with false. cbn [bind].
    change (m_free_list_head_offset (set_lock st true)) with (O + adj).
    assert (Hs : same_params st (set_lock st true)) by auto with slab.
    destruct (Z.eq_dec (O + adj) 0) as [E0|N0].
    + rewrite E0, first_fit_null. cbn [bind fst snd].
      rewrite unlock_lock by reflexivity. now intros [= <-].
    + destruct fuel as [|fuel]; cbn [first_fit];
        destruct (Z.eqb_spec (O + adj) 0) as [|_]; try lia; [discriminate|].
      rewrite (GetPtr_at st _ Hp Hs) by lia.
      rewrite (GetSize_at st _ Hp Hs) by lia.
      rewrite rd_set_lock, Hh, word_size by lia. cbn [bind].
      destruct (Z.leb_spec (required_total_size n) E) as [|_]; [lia|].
      rewrite (GetPayload_addr st Hp) by lia. unfold next_field.
      rewrite (load_at st _ Hp Hs) by lia. cbn [bind].
      rewrite rd_set_lock, Hn, first_fit_null. cbn [bind fst snd].
      rewrite unlock_lock by reflexivity. now intros [= <-].
  - exists [(O + adj, E, true)]. split; [|split; reflexivity].
    intros fuel Hfuel. unfold heap_blocks. change (m_first_block_offset st) with (Some (O + adj)).
    destruct fuel as [|[|fuel]]; try (simpl in Hfuel; lia).
    cbn [walk]. rewrite PO, PT. rewrite wrap64_small by lia.
    destruct (Z.ltb_spec (T + O) (O + adj + 8)) as [|_]; [lia|].
    rewrite (GetPtr_at st st Hp (same_params_refl _)) by lia.
    rewrite (GetSize_at st st Hp (same_params_refl _)) by lia.
    rewrite (IsFree_at st st Hp (same_params_refl _)) by lia.
    rewrite Hh, word_size, word_free by lia. cbn [bind].
    destruct (Z.ltb_spec (T + O) (O + adj + E + 8)) as [_|]; [reflexivity|lia].
Qed.
End FreshDead.

(** *** Reachable states *)

Lemma used_payload_once st first bs1 o s f bs2 :
  Geo st first (bs1 ++ (o, s, f) :: bs2) ->
  ~ In (o + 64) (used_payloads (bs1 ++ bs2)).
Proof.
  intros HG Hin. apply In_used_payloads in Hin as (s' & Hin).
  replace (o + 64 - 64) with o in Hin by lia.
  pose proof (geo_block _ _ _ _ HG (In_mid _ _ _)) as Hx.
  pose proof (geo_block _ _ _ _ HG (In_around _ _ _ _ Hin)) as Hy.
  destruct (geo_split _ _ _ _ _ HG) as (_ & _ & _ & Hle & Hri).
  unfold b_off, b_size in *; simpl in *.
  apply in_app_or in Hin as [Hin|Hin]; [specialize (Hle _ Hin)|specialize (Hri _ Hin)];
    simpl in *; lia.
Qed.

Lemma Inv_construct B T O contents st :
  0 <= B -> 0 <= T -> B + T <= 2 ^ 64 -> 0 <= O -> O + T < 2 ^ 64 ->
  construct B T O contents = Done st -> Inv st [].
Proof.
  intros HB HT HBT HO HOT Hc.
  destruct (construct_cases _ _ _ _ _ HB HT HBT HO HOT Hc)
    as [->|(adj & E & Hadj & Hroom & EvE & HE & ->)].
  - left. split; [apply Dead_unassigned|reflexivity].
  - destruct (Z_lt_le_dec 0 (O + adj)) as [Hpos|Hz];
      [destruct (Z_le_gt_dec 128 E) as [Hbig|Hsmall]|].
    + right. exists (O + adj), [(O + adj, E, true)], [O + adj].
      split; [now apply init_Rep|]. split; [reflexivity|].
      intros p. simpl. tauto.
    + left. split; [|reflexivity]. apply Dead_init; try assumption. right. lia.
    + left. split; [|reflexivity]. apply Dead_init; try assumption. left. lia.
Qed.

Lemma Inv_allocate st L fuel n p st' :
  Inv st L -> 0 <= n <= 2 ^ 64 - 192 ->
  Allocate fuel n st = Done (p, st') ->
  Inv st' (if p =? 0 then L else p :: L).
Proof.
  intros [[HD ->]|(first & bs & fl & HR & Hlock & Hlive)] Hn Ha.
  - left. destruct (Z.eq_dec n 0) as [->|Hn0].
    + injection Ha as <- <-. auto.
    + destruct HD as (Hl & Hall & Hbs).
      pose proof (Hall fuel n _ ltac:(lia) Ha) as [= -> ->].
      split; [|reflexivity]. split; auto.
  - destruct (Allocate_Rep fuel n st first bs fl HR Hlock Hn) as (p' & st'' & E & Hres).
    { right. eauto. }
    rewrite E in Ha. injection Ha as -> ->.
    destruct Hres as [[-> ->]|(bs' & fl' & HR' & Hl' & Hp' & Hperm)].
    + right. exists first, bs, fl. auto.
    + destruct (Z.eqb_spec p 0) as [|_]; [lia|].
      right. exists first, bs', fl'. split; [assumption|]. split; [assumption|].
      intros q. split.
      * intros [<-|Hq].
        -- eapply Permutation_in; [symmetry; exact Hperm|]. now left.
        -- eapply Permutation_in; [symmetry; exact Hperm|]. right. now apply Hlive.
      * intros Hq. eapply Permutation_in in Hq; [|exact Hperm].
        destruct Hq as [<-|Hq]; [now left|right; now apply Hlive].
Qed.

Lemma Inv_free st L p st' :
  Inv st L -> In p L -> Free p st = Done st' -> Inv st' (remove Z.eq_dec p L).
Proof.
  intros [[HD ->]|(first & bs & fl & HR & Hlock & Hlive)] Hin Hf; [contradiction|].
  apply Hlive, In_used_payloads in Hin as (s & Hin).
  apply in_split in Hin as (bs1 & bs2 & ->).
  pose proof (Rep_Geo _ _ _ _ HR) as HG.
  pose proof (used_payload_once _ _ _ _ _ _ _ HG) as Honce.
  replace (p - 64 + 64) with p in Honce by lia.
  destruct (Free_Rep _ _ _ _ _ _ _ HR Hlock)
    as [(st'' & bs' & fl' & E & HR' & Hl' & Hup)|(E & _)];
    replace (p - 64 + 64) with p in E by lia; rewrite E in Hf; [|discriminate].
  injection Hf as ->.
  right. exists first, bs', fl'. split; [assumption|]. split; [assumption|].
  intros q. rewrite Hup, <- used_payloads_app.
  split.
  - intros Hq. apply in_remove in Hq as [Hq Hne].
    apply Hlive in Hq. rewrite used_payloads_app in Hq |- *.
    cbn [used_payloads b_free b_off snd fst] in Hq.
    replace (p - 64 + 64) with p in Hq by lia.
    apply in_app_or in Hq as [Hq|[Hq|Hq]]; [| congruence |]; apply in_or_app; tauto.
  - intros Hq. apply in_in_remove.
    + intros ->. contradiction.
    + apply Hlive. rewrite used_payloads_app in Hq |- *.
      cbn [used_payloads b_free b_off snd fst].
      apply in_app_or in Hq as [Hq|Hq]; apply in_or_app; [left|right; right]; assumption.
Qed.

Lemma Inv_unlocked st L : Inv st L -> m_lock st = false.
Proof. intros [[(H & _) _]|(_ & _ & _ & _ & H & _)]; exact H. Qed.

(** Every reachable state satisfies the invariant. *)
Lemma reachable_Inv st L : reachable st L -> Inv st L.
Proof.
  induction 1 as [B T O contents st HB HT HBT HO HOT Hc
                 |st L fuel n p st' _ IH Hn Ha
                 |st L p st' _ IH Hin Hf
                 |st L st' _ IH Hf
                 |st L p st' _ IH Hfree Hf].
  - exact (Inv_construct _ _ _ _ _ HB HT HBT HO HOT Hc).
  - exact (Inv_allocate _ _ _ _ _ _ IH Hn Ha).
  - exact (Inv_free _ _ _ _ IH Hin Hf).
  - injection Hf as <-. assumption.
  - rewrite (Free_marked_free st p (Inv_unlocked _ _ IH) Hfree) in Hf.
    injection Hf as <-. assumption.
Qed.

(** In every reachable state the blocks read off the headers tile the
    heap, no two neighbours are both free, and the blocks in use are the
    ones handed out and not freed since. *)
Theorem reachable_coalesced st L :
  reachable st L ->
  exists bs,
    (forall fuel, (length bs < fuel)%nat -> heap_blocks fuel st = Done bs) /\
    no_adjacent_free bs = true /\
    (forall p, In p L <-> In p (used_payloads bs)).
Proof.
  intros H. apply reachable_Inv in H as [[(_ & _ & bs & Hw & Hco & Hup) ->]
                                        |(first & bs & fl & HR & _ & Hlive)].
  - exists bs. split; [assumption|]. split; [assumption|]. rewrite Hup. tauto.
  - exists bs. split; [|split; [now destruct HR|exact Hlive]].
    intros fuel Hfuel. eapply heap_blocks_Rep; eassumption.
Qed.

(** *** The claims about the slab allocator *)

(** C9. [Allocate(0)] answers the null offset 0 at once: no lock taken, no
    scan of the free list, the allocator exactly as it was. *)
Theorem allocate_zero (fuel : nat) (st : SlabAllocator) :
  Allocate fuel 0 st = Done (0, st).
Proof. reflexivity. Qed.

(** C7. When the header of the block of payload offset [p] already has its
    free bit set, [Free p] returns and the allocator is exactly as before:
    memory (every header, footer and list node), list head and the rest. *)
Theorem free_of_free_block_is_ignored (st : SlabAllocator) (p : Z) :
  m_lock st = false ->
  IsFree st (GetPtr st (wrap64 (p - sizeof_BlockHeader))) = Done true ->
  Free p st = Done st.
Proof. exact (Free_marked_free st p). Qed.

Lemma free_of_free_block_is_ignored_witness : Free 128 fresh_320 = Done fresh_320.
Proof.
  apply free_of_free_block_is_ignored; vm_compute; reflexivity.
Defined.

(** C5. A slab of 1 MiB at any address [B], with offsets counted from any
    [O], whose first block does not sit at the null offset: with that
    block at [es = O + adjustment B], three requests of 100 bytes answer
    [es + 64], [es + 320] and [es + 576]; after the middle one is freed its
    block heads the free list, and the next request of 100 bytes answers
    [es + 320] again, the freed middle slot. *)
Theorem first_fit_reuses_freed_slot (fuel : nat) (B O : Z) (contents : memory) :
  0 <= B -> B + 1048576 <= 2 ^ 64 -> 0 <= O -> O + 1048576 < 2 ^ 64 ->
  0 < O + adjustment B ->
  reuse_scenario (S fuel) B 1048576 O contents =
    Done (O + adjustment B + 64, O + adjustment B + 320, O + adjustment B + 576,
          O + adjustment B + 320, O + adjustment B + 256).
Proof.
  intros HB HBT HO HOT Hpos.
  pose proof (adjustment_range B ltac:(lia)) as Hadj.
  unfold reuse_scenario.
  rewrite construct_run by lia.
  destruct (Z_le_gt_dec (adjustment B + 80) 1048576) as [Hroom|]; [|lia].
  cbn [bind].
  set (adj := adjustment B) in *. set (es := O + adj) in *.
  set (E := 1048576 - adj - (1048576 - adj) mod 2).
  pose proof (Z.mod_pos_bound (1048576 - adj) 2 ltac:(lia)) as Hm.
  assert (HE : 1048576 - adj - 1 <= E <= 1048576 - adj) by (unfold E; lia).
  assert (EvE : E mod 2 = 0).
  { unfold E. rewrite Zminus_mod, Z.mod_mod, Z.sub_diag by lia. reflexivity. }
  clearbody E.
  pose proof (init_Rep B 1048576 O contents adj E HB HBT HO HOT Hadj Hroom EvE HE Hpos
                ltac:(lia)) as HR0.
  fold es in HR0.
  set (st0 := init_state (mkSlab B 1048576 O 0 None false contents) es E) in *.
  assert (Hreq : required_total_size 100 = 256) by reflexivity.
  (* the three requests *)
  destruct (Allocate_head fuel 100 st0 es [] es E [] [] HR0 eq_refl ltac:(lia))
    as (st1 & E1 & L1 & HR1); [rewrite Hreq; lia|].
  rewrite E1. cbn [bind fst snd]. clear E1.
  unfold taken in HR1. rewrite Hreq in HR1.
  destruct (Z_le_gt_dec (256 + 136) E) as [_|]; [|lia]. cbn [fst snd app] in HR1.
  destruct (Allocate_head fuel 100 st1 es [(es, 256, false)] (es + 256) (E - 256) [] []
              HR1 L1 ltac:(lia)) as (st2 & E2 & L2 & HR2); [rewrite Hreq; lia|].
  rewrite E2. cbn [bind fst snd]. clear E2.
  unfold taken in HR2. rewrite Hreq in HR2.
  destruct (Z_le_gt_dec (256 + 136) (E - 256)) as [_|]; [|lia]. cbn [fst snd app] in HR2.
  destruct (Allocate_head fuel 100 st2 es [(es, 256, false); (es + 256, 256, false)]
              (es + 256 + 256) (E - 256 - 256) [] []
              HR2 L2 ltac:(lia)) as (st3 & E3 & L3 & HR3); [rewrite Hreq; lia|].
  rewrite E3. cbn [bind fst snd]. clear E3.
  unfold taken in HR3. rewrite Hreq in HR3.
  destruct (Z_le_gt_dec (256 + 136) (E - 256 - 256)) as [_|]; [|lia].
  cbn [fst snd app] in HR3.
  (* the middle block is freed *)
  destruct (Free_isolated st3 es [(es, 256, false)] (es + 256) 256
              [(es + 256 + 256, 256, false);
               (es + 256 + 256 + 256, E - 256 - 256 - 256, true)]
              [es + 256 + 256 + 256] HR3 L3 eq_refl eq_refl ltac:(discriminate))
    as (st4 & E4 & L4 & HR4).
  rewrite E4. cbn [bind]. clear E4.
  rewrite (rep_head _ _ _ _ HR4). cbn [hd].
  (* the fourth request *)
  destruct (Allocate_head fuel 100 st4 es [(es, 256, false)] (es + 256) 256
              [(es + 256 + 256, 256, false);
               (es + 256 + 256 + 256, E - 256 - 256 - 256, true)]
              [es + 256 + 256 + 256] HR4 L4 ltac:(lia)) as (st5 & E5 & L5 & HR5);
    [rewrite Hreq; lia|].
  rewrite E5. cbn [bind fst snd].
  replace (es + 256 + 64) with (es + 320) by lia.
  replace (es + 256 + 256 + 64) with (es + 576) by lia.
  reflexivity.
Qed.

Lemma first_fit_reuses_freed_slot_witness :
  reuse_scenario 1 65536 1048576 64 (fun _ => 0) = Done (128, 384, 640, 384, 320).
Proof.
  apply (first_fit_reuses_freed_slot 0 65536 64 (fun _ => 0)); vm_compute; congruence.
Defined.

(** With the first block at the null offset the free list is empty from
    the start, and every request of the scenario answers 0. *)
Lemma reuse_at_null_offset (fuel : nat) (B : Z) (contents : memory) :
  0 <= B -> B + 1048576 <= 2 ^ 64 -> adjustment B = 0 ->
  reuse_scenario fuel B 1048576 0 contents = Done (0, 0, 0, 0, 0).
Proof.
  intros HB HBT Hz. unfold reuse_scenario.
  rewrite construct_run by lia. rewrite Hz.
  destruct (Z_le_gt_dec (0 + 80) 1048576) as [_|]; [|lia].
  cbn [bind].
  set (st0 := init_state _ _ _).
  do 3 (rewrite (Allocate_empty fuel 100 st0) by reflexivity; cbn [bind fst snd]).
  change (Free 0 st0) with (Done st0). cbn [bind].
  rewrite (Allocate_empty fuel 100 st0) by reflexivity. reflexivity.
Qed.

(** C4 at the failing input. On a 320-byte slab, a request of [2^64 - 64]
    bytes is rounded to a block of 64 bytes (answer 128), a request of 100
    bytes takes the rest (answer 192), and freeing 128 leaves the heap as
    two neighbouring blocks that both carry the free bit, the second being
    the block still in use at 192. *)
Theorem wrapped_request_leaves_adjacent_free_blocks (fuel : nat) (contents : memory) :
  wrapped_request_scenario (S fuel) contents =
    Done (128, 192, [(64, 64, true); (128, 256, true)]) /\
  no_adjacent_free [(64, 64, true); (128, 256, true)] = false /\
  required_total_size (2 ^ 64 - 64) = 64.
Proof. vm_compute. done. Qed.


(** *** Bytes the operations leave alone *)

Lemma byte_at_write_le_other m a N v b :
  b < a \/ a + Z.of_nat N <= b -> byte_at (write_le m a N v) b = byte_at m b.
Proof.
  intros H. unfold byte_at, write_le.
  destruct (a <=? b) eqn:E1; destruct (b <? a + Z.of_nat N) eqn:E2; simpl; try reflexivity.
  apply Z.leb_le in E1. apply Z.ltb_lt in E2. lia.
Qed.

Lemma bt_wr_other st o v a : a < o \/ o + 8 <= a -> bt (wr st o v) a = bt st a.
Proof.
  intros H. unfold bt, wr, addr. cbn [mem set_mem m_base m_base_offset].
  apply byte_at_write_le_other. simpl. lia.
Qed.

Lemma bt_set_head st h a : bt (set_head st h) a = bt st a.
Proof. reflexivity. Qed.

Lemma bt_set_lock st b a : bt (set_lock st b) a = bt st a.
Proof. reflexivity. Qed.

Lemma bt_unlink_prev st pv nx a :
  (pv <> 0 -> a < pv + 64 \/ pv + 72 <= a) -> bt (unlink_prev st pv nx) a = bt st a.
Proof.
  unfold unlink_prev. destruct (Z.eqb_spec pv 0); intros H; [reflexivity|].
  apply bt_wr_other. specialize (H n). lia.
Qed.

Lemma bt_unlink_next st pv nx a :
  (nx <> 0 -> a < nx + 72 \/ nx + 80 <= a) -> bt (unlink_next st pv nx) a = bt st a.
Proof.
  unfold unlink_next. destruct (Z.eqb_spec nx 0); intros H; [reflexivity|].
  apply bt_wr_other. specialize (H n). lia.
Qed.

Lemma bt_relink_prev st pv x a :
  (pv <> 0 -> a < pv + 64 \/ pv + 72 <= a) -> bt (relink_prev st pv x) a = bt st a.
Proof. apply bt_unlink_prev. Qed.

Lemma bt_relink_next st nx x a :
  (nx <> 0 -> a < nx + 72 \/ nx + 80 <= a) -> bt (relink_next st nx x) a = bt st a.
Proof. apply bt_unlink_next. Qed.

Ltac bsimp :=
  repeat first
    [ rewrite bt_set_head
    | rewrite bt_set_lock
    | rewrite bt_wr_other by lia
    | rewrite bt_unlink_prev by (intros; lia)
    | rewrite bt_unlink_next by (intros; lia)
    | rewrite bt_relink_prev by (intros; lia)
    | rewrite bt_relink_next by (intros; lia) ].

(** A byte outside the free blocks is outside the nodes of the free list. *)
Lemma outside_free_node st first bs fl a y :
  Rep st first bs fl -> outside_free bs a -> In y fl -> a < y \/ y + 128 <= a.
Proof.
  intros HR Ha Hy.
  destruct (perm_free _ _ _ _ _ HR Hy) as (sy & Hb).
  pose proof (geo_block _ _ _ _ (Rep_Geo _ _ _ _ HR) Hb) as Hg.
  specialize (Ha _ Hb eq_refl). unfold b_off, b_size in *; simpl in *. lia.
Qed.

Lemma outside_free_last st first bs l0 l a :
  Rep st first bs (l0 ++ l) -> outside_free bs a ->
  List.last l0 0 <> 0 -> a < List.last l0 0 \/ List.last l0 0 + 128 <= a.
Proof.
  intros HR Ha Hne. eapply outside_free_node; [exact HR|exact Ha|].
  apply in_or_app. left.
  destruct (last_zero_or_in l0) as [[_ E]|[_ Hi]]; [congruence|exact Hi].
Qed.

Lemma outside_free_hd st first bs l0 l a :
  Rep st first bs (l0 ++ l) -> outside_free bs a ->
  hd 0 l <> 0 -> a < hd 0 l \/ hd 0 l + 128 <= a.
Proof.
  intros HR Ha Hne. eapply outside_free_node; [exact HR|exact Ha|].
  apply in_or_app. right.
  destruct (hd_zero_or_in l) as [[_ E]|[l' E]]; [congruence|].
  rewrite E. now left.
Qed.

(** [take_block] writes inside free blocks only, and keeps the parameters. *)
Lemma take_block_frame st first bs1 x s bs2 l0 l req r :
  Rep st first (bs1 ++ (x, s, true) :: bs2) (l0 ++ x :: l) ->
  req mod 2 = 0 -> 128 <= req -> req <= s ->
  take_block st x req = Done r ->
  same_params st (snd r) /\
  forall a, outside_free (bs1 ++ (x, s, true) :: bs2) a -> bt (snd r) a = bt st a.
Proof.
  intros HR Ev Hreq Hle.
  destruct (rep_node _ _ _ _ _ _ _ _ HR) as (Hx & Hto & Hx64 & Hx72 & Hpv & Hnx).
  pose proof (rep_params _ _ _ _ HR) as Hp.
  assert (Hl0 : forall a, outside_free (bs1 ++ (x, s, true) :: bs2) a ->
            List.last l0 0 <> 0 -> a < List.last l0 0 \/ List.last l0 0 + 128 <= a).
  { intros a Ha. eapply outside_free_last; eassumption. }
  assert (Hl : forall a, outside_free (bs1 ++ (x, s, true) :: bs2) a ->
            hd 0 l <> 0 -> a < hd 0 l \/ hd 0 l + 128 <= a).
  { intros a Ha.
    apply (outside_free_hd st first (bs1 ++ (x, s, true) :: bs2) (l0 ++ [x]) l a);
      [|exact Ha].
    now rewrite <- app_assoc. }
  assert (Hxa : forall a, outside_free (bs1 ++ (x, s, true) :: bs2) a -> a < x \/ x + s <= a).
  { intros a Ha. apply (Ha (x, s, true)); [apply In_mid|reflexivity]. }
  destruct (Z_le_gt_dec (req + 136) s) as [Hsplit|Hwhole].
  - rewrite (take_block_split st x s req (List.last l0 0) (hd 0 l)) by (assumption || lia).
    intros [= <-]. cbn [snd]. split; [auto 20 with slab|].
    intros a Ha. specialize (Hl0 a Ha). specialize (Hl a Ha). specialize (Hxa a Ha).
    bsimp. reflexivity.
  - rewrite (take_block_whole st x s req (List.last l0 0) (hd 0 l)) by (assumption || lia).
    intros [= <-]. cbn [snd]. split; [auto 20 with slab|].
    intros a Ha. specialize (Hl0 a Ha). specialize (Hl a Ha). specialize (Hxa a Ha).
    bsimp. reflexivity.
Qed.

(** *** What [Allocate] does, exactly *)

Ltac conj := repeat match goal with |- _ /\ _ => split end.

(** A block of the heap is known by its offset. *)
Lemma geo_block_unique st first bs o s f s' f' :
  Geo st first bs -> In (o, s, f) bs -> In (o, s', f') bs -> s = s' /\ f = f'.
Proof.
  intros HG H1 H2.
  pose proof (geo_block _ _ _ _ HG H1) as G1.
  pose proof (geo_block _ _ _ _ HG H2) as G2.
  destruct (geo_sep _ _ _ _ _ HG H1 H2) as [E|E].
  - injection E as -> ->. auto.
  - unfold b_off, b_size in *; simpl in *. lia.
Qed.


(** The scan passes the nodes that are too small and serves the request
    from the first one that is not; when there is none it answers 0. *)
Lemma first_fit_precise req : req mod 2 = 0 -> 128 <= req ->
  forall l fuel st first bs l0,
  Rep st first bs (l0 ++ l) ->
  (length l <= fuel)%nat \/ (exists r, first_fit fuel st (hd 0 l) req = Done r) ->
  (Forall (too_small bs req) l /\ first_fit fuel st (hd 0 l) req = Done (0, st)) \/
  (exists l1 x l2 bs1 s bs2 st',
     l = l1 ++ x :: l2 /\ bs = bs1 ++ (x, s, true) :: bs2 /\
     Forall (too_small bs req) l1 /\ req <= s /\
     first_fit fuel st (hd 0 l) req = Done (x + 64, st') /\
     take_block st x req = Done (x + 64, st') /\
     l0 ++ l = (l0 ++ l1) ++ x :: l2 /\
     m_lock st' = m_lock st /\
     Rep st' first (fst (taken bs1 x s bs2 (l0 ++ l1) l2 req))
                   (snd (taken bs1 x s bs2 (l0 ++ l1) l2 req))).
Proof.
  intros Ev Hreq. induction l as [|x l IH]; intros fuel st first bs l0 HR Hfuel.
  - left. split; [constructor|]. destruct fuel; reflexivity.
  - assert (Hin : In x (free_offsets bs)).
    { eapply Permutation_in; [exact (rep_perm _ _ _ _ HR)|]. apply In_mid. }
    apply In_free_offsets in Hin as (s & Hin).
    pose proof Hin as Hin'.
    apply in_split in Hin as (bs1 & bs2 & ->).
    destruct (rep_node _ _ _ _ _ _ _ _ HR) as (Hx & _).
    cbn [hd]. destruct fuel as [|fuel].
    { exfalso. destruct Hfuel as [Hfuel|(r & Hr)]; [simpl in Hfuel; lia|].
      simpl in Hr. destruct (Z.eqb_spec x 0); [lia|discriminate]. }
    rewrite (first_fit_at _ _ _ _ _ _ _ _ _ _ HR).
    destruct (Z.leb_spec req s) as [Hle|Hgt].
    + right.
      destruct (take_block_Rep _ _ _ _ _ _ _ _ _ HR Ev Hreq Hle) as (st' & E & Hl & HR').
      exists [], x, l, bs1, s, bs2, st'. rewrite app_nil_r.
      conj; try assumption; try reflexivity. constructor.
    + assert (Hsmall : too_small (bs1 ++ (x, s, true) :: bs2) req x).
      { intros s' Hs'.
        destruct (geo_block_unique _ _ _ _ _ _ _ _ (Rep_Geo _ _ _ _ HR) Hin' Hs') as [<- _].
        exact Hgt. }
      assert (HR2 : Rep st first (bs1 ++ (x, s, true) :: bs2) ((l0 ++ [x]) ++ l))
        by now rewrite <- app_assoc.
      destruct (IH fuel st first _ (l0 ++ [x]) HR2) as [[Hall E]|H].
      * destruct Hfuel as [Hfuel|(r & Hr)]; [left; simpl in Hfuel; lia|right].
        exists r. rewrite (first_fit_at _ _ _ _ _ _ _ _ _ _ HR) in Hr.
        destruct (Z.leb_spec req s) as [|_]; [lia|]. exact Hr.
      * left. split; [constructor; assumption|exact E].
      * right. destruct H as (l1 & y & l2 & c1 & sy & c2 & st' & -> & Ebs & Hall & Hle
                              & E & Et & Eapp & Hl & HR').
        exists (x :: l1), y, l2, c1, sy, c2, st'.
        replace (l0 ++ x :: l1) with ((l0 ++ [x]) ++ l1) by now rewrite <- app_assoc.
        conj; try assumption; try reflexivity.
        -- constructor; assumption.
        -- now rewrite <- !app_assoc.
Qed.

(** [Allocate] on a heap: the null offset and no change when every free
    block is too small, the first fitting block of the free list
    otherwise; bytes outside the free blocks stay as they are. *)
Lemma Allocate_precise fuel n st first bs fl :
  Rep st first bs fl -> m_lock st = false -> 0 < n <= 2 ^ 64 - 192 ->
  (length fl <= fuel)%nat \/ (exists r, Allocate fuel n st = Done r) ->
  (Forall (too_small bs (required_total_size n)) fl /\
   Allocate fuel n st = Done (0, st)) \/
  (exists l1 x l2 bs1 s bs2 st',
     fl = l1 ++ x :: l2 /\ bs = bs1 ++ (x, s, true) :: bs2 /\
     Forall (too_small bs (required_total_size n)) l1 /\
     required_total_size n <= s /\
     Allocate fuel n st = Done (x + 64, st') /\
     m_lock st' = false /\ same_params st st' /\
     Rep st' first (fst (taken bs1 x s bs2 l1 l2 (required_total_size n)))
                   (snd (taken bs1 x s bs2 l1 l2 (required_total_size n))) /\
     forall a, outside_free bs a -> bt st' a = bt st a).
Proof.
  intros HR Hlock Hn Hfuel. unfold Allocate in *.
  destruct (Z.eqb_spec n 0) as [|_]; [lia|].
  destruct (required_total_size_even n Hn) as [Ev Hreq].
  unfold lock in *. rewrite Hlock in *. cbn [bind] in *.
  set (st0 := set_lock st true) in *.
  assert (Hhead : m_free_list_head_offset st0 = hd 0 fl) by (now destruct HR).
  rewrite Hhead in *.
  pose proof (Rep_set_lock _ _ _ _ true HR) as HR0. fold st0 in HR0.
  destruct (first_fit_precise _ Ev ltac:(lia) fl fuel st0 first bs [] HR0)
    as [[Hall E]|(l1 & x & l2 & bs1 & s & bs2 & st' & -> & -> & Hall & Hle & E & Et & Eapp
                  & Hl & HR')].
  { destruct Hfuel as [Hfuel|(r & Hr)]; [left; exact Hfuel|right].
    destruct (first_fit fuel st0 (hd 0 fl) (required_total_size n)) as [r'| | |];
      try discriminate. eauto. }
  - left. split; [exact Hall|]. rewrite E. cbn [bind fst snd].
    unfold st0. now rewrite unlock_lock.
  - right. exists l1, x, l2, bs1, s, bs2, (unlock st').
    rewrite E. cbn [bind fst snd].
    cbn [app] in Eapp, HR'.
    destruct (take_block_frame st0 first bs1 x s bs2 l1 l2 _ _ HR0 Ev ltac:(lia) Hle Et)
      as [Hsp Hfr].
    cbn [snd] in Hsp, Hfr.
    conj; try assumption; try reflexivity.
    now apply Rep_set_lock.
Qed.

(** *** What [Free] does, exactly *)

Lemma remove_mid (l1 : list Z) x l2 :
  NoDup (l1 ++ x :: l2) -> remove Z.eq_dec x (l1 ++ x :: l2) = l1 ++ l2.
Proof.
  intros Hnd. apply NoDup_app in Hnd as (H1 & H12 & H2).
  apply NoDup_cons in H2 as [Hx2 H2].
  rewrite remove_app. cbn [remove].
  destruct (Z.eq_dec x x) as [_|N]; [|contradiction].
  rewrite !notin_remove; [reflexivity| |].
  - intros Hin. apply Hx2. now apply list_elem_of_In.
  - intros Hin. apply (H12 x); [now apply list_elem_of_In|]. now left.
Qed.

Lemma repx_free st first bs1 o S bs2 fl y :
  RepX st first bs1 o S bs2 fl -> In y fl -> exists sy, In (y, sy, true) (bs1 ++ bs2).
Proof.
  intros [? ? ? ? ? ? ? ? ? Hperm ?] Hy. apply In_free_offsets.
  eapply Permutation_in; eassumption.
Qed.

(** A byte outside the free blocks and outside the block being freed is
    outside the nodes of the free list. *)
Lemma repx_outside_node st first bs1 o S bs2 fl a y :
  RepX st first bs1 o S bs2 fl -> outside_free (bs1 ++ bs2) a -> In y fl ->
  a < y \/ y + 128 <= a.
Proof.
  intros HR Ha Hy.
  destruct (repx_free _ _ _ _ _ _ _ _ HR Hy) as (sy & Hb).
  pose proof (geo_block _ _ _ _ (RepX_Geo _ _ _ _ _ _ _ HR) (In_around _ _ _ _ Hb)) as Hg.
  specialize (Ha _ Hb eq_refl). unfold b_off, b_size in *; simpl in *. lia.
Qed.

(** COALESCE RIGHT, exactly. *)
Lemma coalesce_right_precise st first bs1 o s bs2 fl :
  RepX st first bs1 o s bs2 fl ->
  (bs2 = [] -> o + s = m_base_offset st + m_total_size st) ->
  exists st',
    coalesce_right st o (addr st o) = Done st' /\
    same_params st st' /\ m_lock st' = m_lock st /\
    RepX st' first bs1 o (fst (fst (right_merged s bs2 fl)))
         (snd (fst (right_merged s bs2 fl))) (snd (right_merged s bs2 fl)) /\
    hd_free (snd (fst (right_merged s bs2 fl))) = false /\
    (forall a, outside_free (bs1 ++ bs2) a -> a < o \/ o + s <= a -> bt st' a = bt st a).
Proof.
  intros HR Hlast.
  pose proof (RepX_Geo _ _ _ _ _ _ _ HR) as HG.
  pose proof (repx_NoDup _ _ _ _ _ _ _ HR) as Hnd.
  destruct (repx_block _ _ _ _ _ _ _ HR) as (Hx & Hxo & Hto).
  pose proof HR as [Hp Hf Hfp Hfl Hc He Ht Hh Hd Hperm Hco].
  assert (Hkeep : hd_free bs2 = false ->
            exists st', coalesce_right st o (addr st o) = Done st' /\
              same_params st st' /\ m_lock st' = m_lock st /\
              RepX st' first bs1 o s bs2 fl /\ hd_free bs2 = false /\
              (forall a, outside_free (bs1 ++ bs2) a -> a < o \/ o + s <= a ->
                 bt st' a = bt st a)).
  { intros Hh2. exists st. rewrite (coalesce_right_keeps _ _ _ _ _ _ _ HR Hh2 Hlast).
    conj; auto with slab. }
  destruct bs2 as [|[[o2 s2] f2] bs2']; [now apply Hkeep|].
  destruct f2; [|now apply Hkeep]. clear Hkeep. cbn [right_merged fst snd].
  destruct (geo_merge _ _ _ _ _ _ _ _ _ _ true HG) as (-> & Hs1 & Hs2 & Ev1 & Ev2 & Hb & HG').
  assert (Ht2 : rd st (o + s) = word s2 true).
  { apply Forall_app in Ht as [_ Ht]. apply Forall_cons in Ht as [_ Ht].
    apply Forall_cons in Ht as [[Ht _] _]. exact Ht. }
  assert (Hin : In (o + s) fl).
  { eapply Permutation_in; [symmetry; exact Hperm|].
    rewrite free_offsets_app. apply in_or_app. right. now left. }
  apply in_split in Hin as (l1 & l2 & ->).
  rewrite (remove_mid _ _ _ Hnd).
  pose proof Hd as Hd'. apply dll_app in Hd' as [_ (Hx64 & Hx72 & _)].
  assert (Hperm' : Permutation (l1 ++ l2) (free_offsets (bs1 ++ bs2'))).
  { rewrite free_offsets_app in Hperm. cbn [free_offsets b_free b_off snd fst] in Hperm.
    apply perm_drop_mid in Hperm. now rewrite free_offsets_app. }
  assert (Hnode : forall y, In y (l1 ++ l2) ->
            m_base_offset st <= y /\ y + 80 <= m_base_offset st + m_total_size st /\
            (y + 80 <= o \/ o + s + s2 <= y)).
  { intros y Hy.
    pose proof (geo_others _ _ _ _ _ _ _ _ _ HG' Hperm' Hy). lia. }
  assert (Hpv : In (List.last l1 0) (l1 ++ (o + s) :: l2) \/ List.last l1 0 = 0).
  { destruct (last_zero_or_in l1) as [[_ E]|[_ Hi]]; [now right|left].
    apply in_or_app. now left. }
  assert (Hnx : In (hd 0 l2) (l1 ++ (o + s) :: l2) \/ hd 0 l2 = 0).
  { destruct (hd_zero_or_in l2) as [[_ E]|[l' E]]; [now right|left].
    apply in_or_app. right. right. rewrite E. now left. }
  eexists. split.
  { apply (coalesce_right_free st st o s) with (s2 := s2) (pv := List.last l1 0) (nx := hd 0 l2);
      try tauto; try lia; try assumption.
    - apply same_params_refl.
    - intros Hne. apply Hnode. apply in_or_app. left.
      destruct (last_zero_or_in l1) as [[_ E]|[_ Hi]]; [congruence|exact Hi].
    - intros Hne. apply Hnode. apply in_or_app. right.
      destruct (hd_zero_or_in l2) as [[_ E]|[l' E]]; [congruence|].
      rewrite E. now left. }
  conj.
  - auto 12 with slab.
  - rewrite !lock_wr, lock_unlink_next, lock_unlink_prev. reflexivity.
  - apply repx_merge_right. exact HR.
  - change ((o, s, false) :: (o + s, s2, true) :: bs2')
      with ([(o, s, false)] ++ (o + s, s2, true) :: bs2') in Hco.
    rewrite app_assoc, nadj_mid in Hco.
    unfold b_free in Hco; simpl in Hco.
    destruct (hd_free bs2'); [|reflexivity].
    rewrite orb_true_r, andb_false_r in Hco. discriminate.
  - intros a Ha Hao.
    assert (Har : a < o + s \/ o + s + s2 <= a).
    { specialize (Ha (o + s, s2, true)). unfold b_off, b_size in Ha; simpl in Ha.
      replace (o + s + s2) with (o + s + s2) by lia.
      apply Ha; [|reflexivity]. apply in_or_app. right. now left. }
    assert (Hapv : List.last l1 0 <> 0 -> a < List.last l1 0 \/ List.last l1 0 + 128 <= a).
    { intros Hne. destruct Hpv as [Hpv|]; [|contradiction].
      exact (repx_outside_node _ _ _ _ _ _ _ _ _ HR Ha Hpv). }
    assert (Hanx : hd 0 l2 <> 0 -> a < hd 0 l2 \/ hd 0 l2 + 128 <= a).
    { intros Hne. destruct Hnx as [Hnx|]; [|contradiction].
      exact (repx_outside_node _ _ _ _ _ _ _ _ _ HR Ha Hnx). }
    bsimp. reflexivity.
Qed.

(** [InsertHead] writes the links of the block and of the old head. *)
Lemma InsertHead_precise st first bs1 o S bs2 fl :
  RepX st first bs1 o S bs2 fl ->
  last_free bs1 = false -> hd_free bs2 = false ->
  exists st', InsertHead st o = Done st' /\
    same_params st st' /\ m_lock st' = m_lock st /\
    Rep st' first (bs1 ++ (o, S, true) :: bs2) (o :: fl) /\
    rd st' o = word S true /\
    (forall a, outside_free (bs1 ++ bs2) a -> a < o \/ o + S <= a -> bt st' a = bt st a).
Proof.
  intros HR H1 H2.
  destruct (repx_block _ _ _ _ _ _ _ HR) as (Hx & Hxo & Hto).
  eexists. split.
  { apply InsertHead_eq; try lia.
    - now destruct HR.
    - apply (repx_head_node _ _ _ _ _ _ _ HR). }
  conj.
  - auto 12 with slab.
  - now rewrite lock_set_head, lock_relink_next, !lock_wr.
  - apply repx_insert; assumption.
  - pose proof (repx_insert _ _ _ _ _ _ _ HR H1 H2) as [_ _ _ _ _ _ Ht _ _ _ _].
    apply Forall_app in Ht as [_ Ht]. apply Forall_cons in Ht as [[Ht _] _]. exact Ht.
  - intros a Ha Hao.
    assert (Hah : m_free_list_head_offset st <> 0 ->
              a < m_free_list_head_offset st \/ m_free_list_head_offset st + 128 <= a).
    { intros Hne. rewrite (repx_head _ _ _ _ _ _ _ HR) in *.
      destruct fl as [|h fl']; [now contradiction Hne|]. cbn [hd] in *.
      exact (repx_outside_node _ _ _ _ _ _ _ _ _ HR Ha (or_introl eq_refl)). }
    bsimp. reflexivity.
Qed.

(** COALESCE LEFT and the insertion, exactly. *)
Lemma coalesce_left_precise st first bs1 o S bs2 fl :
  RepX st first bs1 o S bs2 fl -> hd_free bs2 = false ->
  exists st',
    coalesce_left st o (addr st o) = Done st' /\
    same_params st st' /\ m_lock st' = m_lock st /\
    Rep st' first (fst (left_merged bs1 o S bs2 fl)) (snd (left_merged bs1 o S bs2 fl)) /\
    rd st' o = word S true /\
    (forall a, outside_free (bs1 ++ bs2) a -> a < o \/ o + S <= a -> bt st' a = bt st a).
Proof.
  intros HR Hh2.
  pose proof (RepX_Geo _ _ _ _ _ _ _ HR) as HG.
  destruct (repx_block _ _ _ _ _ _ _ HR) as (Hx & Hxo & Hto).
  pose proof HR as [Hp Hf Hfp Hfl Hc He Ht Hh Hd Hperm Hco].
  assert (Hins : last_free bs1 = false ->
            left_merged bs1 o S bs2 fl = (bs1 ++ (o, S, true) :: bs2, o :: fl) ->
            exists st',
              coalesce_left st o (addr st o) = Done st' /\
              same_params st st' /\ m_lock st' = m_lock st /\
              Rep st' first (fst (left_merged bs1 o S bs2 fl))
                  (snd (left_merged bs1 o S bs2 fl)) /\
              rd st' o = word S true /\
              (forall a, outside_free (bs1 ++ bs2) a -> a < o \/ o + S <= a ->
                 bt st' a = bt st a)).
  { intros Hl1 ->. rewrite (coalesce_left_inserts _ _ _ _ _ _ _ HR Hl1).
    now apply InsertHead_precise. }
  destruct (list_eq_nil_dec bs1) as [->|Hne]; [now apply Hins|].
  destruct (exists_last Hne) as (bs0 & [[o0 s0] f0] & ->).
  destruct f0;
    [|apply Hins; [apply last_free_snoc|unfold left_merged; now rewrite last_snoc]].
  clear Hins.
  unfold left_merged. rewrite last_snoc, removelast_last. cbn [fst snd].
  destruct (repx_merge_left _ _ _ _ _ _ _ _ _ HR Hh2) as (Eo0 & HR').
  rewrite <- app_assoc in HG, Ht. cbn [app] in HG, Ht.
  destruct (geo_merge _ _ _ _ _ _ _ _ _ _ true HG) as (Eo & Hs1 & Hs2 & Ev1 & Ev2 & Hb & HG').
  pose proof (geo_block _ _ _ _ HG (In_mid _ _ _)) as Hx0.
  unfold b_off, b_size in Hx0; simpl in Hx0.
  assert (Ht0 : rd st o0 = word s0 true /\ rd st (o - 8) = word s0 true).
  { apply Forall_app in Ht as [_ Ht].
    apply Forall_cons in Ht as [[Ht Ht'] _].
    unfold b_off, b_size, b_free in Ht, Ht'; simpl in Ht, Ht'.
    split; [exact Ht|]. replace (o - 8) with (o0 + s0 - 8) by lia. exact Ht'. }
  destruct Ht0 as [Ht0 Ht0'].
  eexists. split.
  { rewrite (coalesce_left_free st st o S first) with (s0 := s0);
      try assumption; try lia.
    - rewrite <- Eo0. reflexivity.
    - apply same_params_refl.
    - rewrite <- Eo0. exact Ht0. }
  conj.
  - auto 12 with slab.
  - now rewrite !lock_wr.
  - exact HR'.
  - rewrite !rd_wr_other by lia. exact Hto.
  - intros a Ha Hao.
    assert (Ha0 : a < o0 \/ o0 + s0 <= a).
    { specialize (Ha (o0, s0, true)). unfold b_off, b_size in Ha; simpl in Ha.
      apply Ha; [|reflexivity]. apply in_or_app. left. apply in_or_app. right. now left. }
    bsimp. reflexivity.
Qed.

Lemma outside_free_around bs1 (b : block) bs2 a :
  b_free b = false -> outside_free (bs1 ++ b :: bs2) a <-> outside_free (bs1 ++ bs2) a.
Proof.
  intros Hb. split; intros H c Hc Hf.
  - apply H; [now apply In_around|assumption].
  - apply in_app_or in Hc as [Hc|[<-|Hc]]; [| congruence |];
      (apply H; [apply in_or_app; tauto|assumption]).
Qed.

(** [Free] of a block in use, exactly. The last block of a heap is freed
    this way only when the region ends with it. *)
Lemma Free_precise st first bs1 o s bs2 fl :
  Rep st first (bs1 ++ (o, s, false) :: bs2) fl -> m_lock st = false ->
  (bs2 = [] -> o + s = m_base_offset st + m_total_size st) ->
  exists st',
    Free (o + 64) st = Done st' /\
    same_params st st' /\ m_lock st' = false /\
    Rep st' first (fst (freed bs1 o s bs2 fl)) (snd (freed bs1 o s bs2 fl)) /\
    rd st' o = word (fst (fst (right_merged s bs2 fl))) true /\
    (forall a, outside_free (bs1 ++ bs2) a -> a < o \/ o + s <= a -> bt st' a = bt st a).
Proof.
  intros HR Hlock Hlast.
  pose proof (Rep_Geo _ _ _ _ HR) as HG.
  pose proof (geo_block _ _ _ _ HG (In_mid _ _ _)) as Hx.
  unfold b_off, b_size in Hx; simpl in Hx.
  unfold Free. destruct (Z.eqb_spec (o + 64) 0) as [E|_]; [lia|].
  unfold lock. rewrite Hlock. cbn [bind].
  apply (Rep_set_lock _ _ _ _ true) in HR.
  set (st0 := set_lock st true) in *.
  pose proof HR as [Hp Hf Hfp Hfl Hc He Ht Hh Hd Hperm Hco].
  assert (Hto : rd st0 o = word s false /\ rd st0 (o + s - 8) = word s false).
  { apply Forall_app in Ht as [_ Ht]. apply Forall_cons in Ht as [Ht _]. exact Ht. }
  rewrite (Free_locked_eq st0 o s); try tauto; try lia.
  apply rep_mark in HR.
  set (st1 := wr (wr st0 o (word s true)) (o + s - 8) (word s true)) in *.
  change (addr st0 o) with (addr st1 o).
  destruct (coalesce_right_precise _ _ _ _ _ _ _ HR Hlast)
    as (st2 & E2 & Hsp2 & Hl2 & HR2 & Hh2 & Hfr2).
  rewrite E2. cbn [bind].
  destruct (coalesce_left_precise _ _ _ _ _ _ _ HR2 Hh2) as (st3 & E3 & Hsp3 & Hl3 & HR3 & Hrd3 & Hfr3).
  assert (Ea : addr st1 o = addr st2 o) by (symmetry; apply addr_same; exact Hsp2).
  rewrite Ea, E3. cbn [bind].
  exists (unlock st3). split; [reflexivity|].
  assert (Hsp : same_params st st3).
  { apply (same_params_trans _ st2); [|exact Hsp3].
    apply (same_params_trans _ st1); [|exact Hsp2]. subst st1 st0. auto 12 with slab. }
  conj.
  - exact Hsp.
  - reflexivity.
  - unfold freed. destruct (right_merged s bs2 fl) as [[s' bs2'] fl'].
    cbn [fst snd] in *. now apply Rep_set_lock.
  - exact Hrd3.
  - intros a Ha Hao. unfold unlock. rewrite bt_set_lock.
    assert (Hm : outside_free (bs1 ++ snd (fst (right_merged s bs2 fl))) a /\
                 (a < o \/ o + fst (fst (right_merged s bs2 fl)) <= a)).
    { destruct bs2 as [|[[o2 s2] [|]] bs2']; cbn [right_merged fst snd]; try tauto.
      destruct (geo_merge _ _ _ _ _ _ _ _ _ _ true HG) as (-> & _).
      split.
      - intros c Hin Hf'. apply Ha; [|assumption].
        apply in_app_or in Hin as [Hin|Hin]; apply in_or_app; [tauto|right; now right].
      - specialize (Ha (o + s, s2, true)). unfold b_off, b_size in Ha; simpl in Ha.
        assert (a < o + s \/ o + s + s2 <= a).
        { apply Ha; [|reflexivity]. apply in_or_app. right. now left. }
        lia. }
    destruct Hm as [Hm1 Hm2].
    rewrite (Hfr3 a Hm1 Hm2), (Hfr2 a Ha Hao).
    subst st1 st0. bsimp. reflexivity.
Qed.

(** *** The block lists after [Allocate] and [Free] *)

Lemma span_taken bs1 x s bs2 l0 l req :
  span (fst (taken bs1 x s bs2 l0 l req)) = span (bs1 ++ (x, s, true) :: bs2).
Proof.
  unfold taken. destruct (Z_le_gt_dec (req + 136) s); cbn [fst];
    rewrite !span_app; unfold span, b_size; simpl; lia.
Qed.

Lemma used_taken bs1 x s bs2 l0 l req :
  used_payloads (fst (taken bs1 x s bs2 l0 l req)) =
  used_payloads bs1 ++ (x + 64) :: used_payloads bs2.
Proof.
  unfold taken. destruct (Z_le_gt_dec (req + 136) s); cbn [fst];
    rewrite !used_payloads_app; reflexivity.
Qed.

Lemma grid_taken first bs1 x s bs2 l0 l req :
  req mod 64 = 0 ->
  Forall (on_grid first) (bs1 ++ (x, s, true) :: bs2) ->
  Forall (on_grid first) (fst (taken bs1 x s bs2 l0 l req)).
Proof.
  intros Hreq H. apply Forall_app in H as [H1 H2].
  apply Forall_cons in H2 as [Hx H2].
  unfold taken. destruct (Z_le_gt_dec (req + 136) s); cbn [fst];
    apply Forall_app; (split; [assumption|]); repeat (apply Forall_cons; split);
    try assumption.
  unfold on_grid, b_off in *; simpl in *.
  replace (x + req - first) with ((x - first) + req) by lia.
  rewrite Z.add_mod, Hx, Hreq by lia. reflexivity.
Qed.

Lemma used_removelast bs b :
  b_free b = true -> used_payloads (bs ++ [b]) = used_payloads bs.
Proof.
  intros Hb. rewrite used_payloads_app. cbn [used_payloads]. rewrite Hb.
  apply app_nil_r.
Qed.

Lemma left_merged_cases bs1 o S bs2 fl :
  (last_free bs1 = false /\
   left_merged bs1 o S bs2 fl = (bs1 ++ (o, S, true) :: bs2, o :: fl)) \/
  (exists bs0 o0 s0, bs1 = bs0 ++ [(o0, s0, true)] /\
     left_merged bs1 o S bs2 fl = (bs0 ++ (o0, s0 + S, true) :: bs2, fl)).
Proof.
  unfold left_merged, last_free.
  destruct (list_eq_nil_dec bs1) as [->|Hne]; [left; split; reflexivity|].
  destruct (exists_last Hne) as (bs0 & [[o0 s0] f0] & ->).
  rewrite last_snoc, removelast_last. destruct f0.
  - right. exists bs0, o0, s0. split; reflexivity.
  - left. split; reflexivity.
Qed.

Lemma right_merged_cases s bs2 fl :
  (hd_free bs2 = false /\ right_merged s bs2 fl = (s, bs2, fl)) \/
  (exists o2 s2 bs2', bs2 = (o2, s2, true) :: bs2' /\
     right_merged s bs2 fl = (s + s2, bs2', remove Z.eq_dec o2 fl)).
Proof.
  destruct bs2 as [|[[o2 s2] [|]] bs2']; cbn; eauto 10.
Qed.

Lemma span_freed bs1 o s bs2 fl :
  span (fst (freed bs1 o s bs2 fl)) = span (bs1 ++ (o, s, false) :: bs2).
Proof.
  unfold freed.
  destruct (right_merged_cases s bs2 fl) as [[_ ->]|(o2 & s2 & bs2' & -> & ->)];
    match goal with |- context [left_merged ?a ?b ?c ?d ?e] =>
      destruct (left_merged_cases a b c d e) as [[_ ->]|(bs0 & o0 & s0 & -> & ->)] end;
    cbn [fst]; rewrite !span_app; unfold span, b_size; simpl;
    try rewrite !span_app; unfold span, b_size; simpl;
    repeat match goal with |- context [fold_right ?f 0 (?a ++ ?b)] =>
      change (fold_right f 0 (a ++ b)) with (span (a ++ b)); rewrite span_app end;
    unfold span, b_size; simpl; lia.
Qed.

Lemma used_freed bs1 o s bs2 fl :
  used_payloads (fst (freed bs1 o s bs2 fl)) = used_payloads bs1 ++ used_payloads bs2.
Proof.
  unfold freed.
  destruct (right_merged_cases s bs2 fl) as [[_ ->]|(o2 & s2 & bs2' & -> & ->)];
    match goal with |- context [left_merged ?a ?b ?c ?d ?e] =>
      destruct (left_merged_cases a b c d e) as [[_ ->]|(bs0 & o0 & s0 & -> & ->)] end;
    cbn [fst]; rewrite ?used_payloads_app; cbn [used_payloads b_free snd];
    rewrite ?used_payloads_app; cbn [used_payloads b_free snd];
    rewrite ?app_nil_r; reflexivity.
Qed.

Lemma grid_freed first bs1 o s bs2 fl :
  Forall (on_grid first) (bs1 ++ (o, s, false) :: bs2) ->
  Forall (on_grid first) (fst (freed bs1 o s bs2 fl)).
Proof.
  intros H. apply Forall_app in H as [H1 H2]. apply Forall_cons in H2 as [Hx H2].
  unfold freed.
  destruct (right_merged_cases s bs2 fl) as [[_ ->]|(o2 & s2 & bs2' & -> & ->)];
    match goal with |- context [left_merged ?a ?b ?c ?d ?e] =>
      destruct (left_merged_cases a b c d e) as [[_ ->]|(bs0 & o0 & s0 & -> & ->)] end;
    cbn [fst];
    try (apply Forall_cons in H2 as [_ H2]);
    try (apply Forall_app in H1 as [H1 H0]; apply Forall_cons in H0 as [H0 _]);
    apply Forall_app; (split; [assumption|]); apply Forall_cons; (split; [|assumption]);
    assumption.
Qed.

(** The last block of a heap that stops short of the end of the region
    cannot be freed: COALESCE RIGHT reads a header that does not fit. *)
Lemma Free_odd_end st first bs1 o s fl :
  Rep st first (bs1 ++ [(o, s, false)]) fl -> m_lock st = false ->
  o + s < m_base_offset st + m_total_size st ->
  Free (o + 64) st = OutOfBounds.
Proof.
  intros HR Hlock Hlt.
  pose proof (Rep_Geo _ _ _ _ HR) as HG.
  pose proof (geo_block _ _ _ _ HG (In_mid _ _ _)) as Hx.
  unfold b_off, b_size in Hx; simpl in Hx.
  unfold Free. destruct (Z.eqb_spec (o + 64) 0) as [E|_]; [lia|].
  unfold lock. rewrite Hlock. cbn [bind].
  apply (Rep_set_lock _ _ _ _ true) in HR.
  set (st0 := set_lock st true) in *.
  pose proof HR as [Hp Hf Hfp Hfl Hc He Ht Hh Hd Hperm Hco].
  assert (Hto : rd st0 o = word s false /\ rd st0 (o + s - 8) = word s false).
  { apply Forall_app in Ht as [_ Ht]. apply Forall_cons in Ht as [Ht _]. exact Ht. }
  rewrite (Free_locked_eq st0 o s); try tauto; try lia.
  apply rep_mark in HR.
  set (st1 := wr (wr st0 o (word s true)) (o + s - 8) (word s true)) in *.
  change (addr st0 o) with (addr st1 o).
  destruct (geo_split _ _ _ _ _ HG) as (Hxo & _).
  unfold b_off in Hxo; simpl in Hxo.
  rewrite span_app in He. unfold span at 2 4, b_size in He; simpl in He.
  destruct HR as [Hp1 _ _ _ _ _ Ht1 _ _ _ _].
  assert (Hw : rd st1 o = word s true).
  { apply Forall_app in Ht1 as [_ Ht1]. apply Forall_cons in Ht1 as [[Ht1 _] _]. exact Ht1. }
  rewrite (coalesce_right_odd_end st1 st1 o s); try tauto; try lia.
  all: try apply same_params_refl.
  change (m_base_offset st1) with (m_base_offset st).
  change (m_total_size st1) with (m_total_size st). lia.
Qed.

(** *** The heap of a usable region *)

Lemma adjustment_aligned B : 0 <= B <= 2 ^ 64 -> (B + adjustment B) mod 64 = 0.
Proof.
  intros HB. unfold adjustment, ALIGNMENT.
  assert (E : wrap64 (wrap64 (B + 64) - 1) = wrap64 (B + 63)).
  { unfold wrap64. rewrite Zminus_mod_idemp_l. f_equal. lia. }
  rewrite E. clear E.
  destruct (Z_lt_le_dec (B + 63) (2 ^ 64)) as [Hlt|Hge].
  - rewrite (wrap64_small (B + 63)) by lia.
    rewrite land_ALIGN_MASK by lia.
    pose proof (Z.div_mod (B + 63) 64). pose proof (Z.mod_pos_bound (B + 63) 64).
    rewrite wrap64_small by lia.
    replace (B + (64 * ((B + 63) / 64) - B)) with ((B + 63) / 64 * 64) by lia.
    apply Z.mod_mul. lia.
  - rewrite (wrap64_sub_period (B + 63)) by lia.
    rewrite land_ALIGN_MASK by lia.
    rewrite Z.div_small by lia.
    destruct (Z.eq_dec B (2 ^ 64)) as [->|Hne]; [reflexivity|].
    rewrite wrap64_neg by lia.
    replace (B + (64 * 0 - B + 2 ^ 64)) with (2 ^ 64) by lia. reflexivity.
Qed.

Lemma required_total_size_grid n :
  0 < n <= 2 ^ 64 - 192 -> required_total_size n mod 64 = 0.
Proof.
  intros Hn. rewrite required_total_size_ok by assumption.
  replace (64 * ((n + 63) / 64) + 128) with (((n + 63) / 64 + 2) * 64) by lia.
  apply Z.mod_mul. lia.
Qed.

Lemma first_offset_same st st' : same_params st st' -> first_offset st' = first_offset st.
Proof. intros (E1 & E2 & E3 & _). unfold first_offset. now rewrite E1, E3. Qed.

Lemma usable_size_same st st' : same_params st st' -> usable_size st' = usable_size st.
Proof. intros (E1 & E2 & E3 & _). unfold usable_size. now rewrite E1, E2. Qed.

Lemma usable_same st st' : same_params st st' -> usable st -> usable st'.
Proof.
  intros Hs. unfold usable.
  now rewrite (first_offset_same _ _ Hs), (usable_size_same _ _ Hs).
Qed.

Lemma Heap_Inv st L bs fl : Heap st L bs fl -> Inv st L.
Proof. intros [HR Hl Hlive _ _ _]. right. exists (first_offset st), bs, fl. auto. Qed.

Lemma Inv'_Inv st L : Inv' st L -> Inv st L.
Proof.
  intros [(HD & -> & _)|(_ & bs & fl & H)]; [left; auto|]. eapply Heap_Inv; eassumption.
Qed.

(** The constructor. *)
Lemma Inv'_construct B T O contents st :
  0 <= B -> 0 <= T -> B + T <= 2 ^ 64 -> 0 <= O -> O + T < 2 ^ 64 ->
  construct B T O contents = Done st -> Inv' st [].
Proof.
  intros HB HT HBT HO HOT Hc.
  pose proof (adjustment_range B ltac:(lia)) as Hadj.
  destruct (Z_lt_le_dec T (adjustment B)) as [Hshort|Hge].
  { rewrite construct_short in Hc by assumption. discriminate. }
  destruct (Z_lt_le_dec (T - adjustment B) 72) as [Hsmall|Hbig].
  { rewrite construct_small in Hc by assumption. injection Hc as <-.
    left. split; [apply Dead_unassigned|]. split; [reflexivity|].
    intros [_ H]. unfold usable_size in H. cbn [m_total_size m_base] in H.
    pose proof (Z.mod_pos_bound (T - adjustment B) 2 ltac:(lia)). lia. }
  rewrite construct_run in Hc by assumption.
  destruct (Z_le_gt_dec (adjustment B + 80) T) as [Hroom|]; [|discriminate].
  injection Hc as <-.
  set (adj := adjustment B) in *.
  set (E := T - adj - (T - adj) mod 2).
  pose proof (Z.mod_pos_bound (T - adj) 2 ltac:(lia)) as Hm.
  assert (HE : T - adj - 1 <= E <= T - adj) by (unfold E; lia).
  assert (EvE : E mod 2 = 0).
  { unfold E. rewrite Zminus_mod, Z.mod_mod, Z.sub_diag by lia. reflexivity. }
  assert (EE : E = T - adj - (T - adj) mod 2) by reflexivity.
  clearbody E.
  set (st := init_state (mkSlab B T O 0 None false contents) (O + adj) E).
  assert (Hfo : first_offset st = O + adj) by reflexivity.
  assert (Hus : usable_size st = E) by (rewrite EE; reflexivity).
  destruct (Z_lt_le_dec 0 (O + adj)) as [Hpos|Hz];
    [destruct (Z_le_gt_dec 128 E) as [Hbig'|Hsmall']|].
  - right. split; [unfold usable; rewrite Hfo, Hus; lia|].
    exists [(O + adj, E, true)], [O + adj]. constructor.
    + rewrite Hfo. now apply init_Rep.
    + reflexivity.
    + intros p. simpl. tauto.
    + constructor.
    + rewrite Hus. unfold span, b_size. simpl. lia.
    + constructor; [|constructor]. unfold on_grid, b_off. simpl.
      rewrite Hfo, Z.sub_diag. reflexivity.
  - left. split; [|split; [reflexivity|]].
    + apply Dead_init; try assumption. right. lia.
    + unfold usable. rewrite Hus. lia.
  - left. split; [|split; [reflexivity|]].
    + apply Dead_init; try assumption. left. lia.
    + unfold usable. rewrite Hfo. lia.
Qed.

(** What a request makes of a heap. *)
Lemma Heap_allocate st L bs fl fuel n p st' :
  Heap st L bs fl -> 0 < n <= 2 ^ 64 - 192 ->
  Allocate fuel n st = Done (p, st') ->
  (p = 0 /\ st' = st /\ Forall (too_small bs (required_total_size n)) fl) \/
  (exists l1 x l2 bs1 s bs2,
     p = x + 64 /\ fl = l1 ++ x :: l2 /\ bs = bs1 ++ (x, s, true) :: bs2 /\
     Forall (too_small bs (required_total_size n)) l1 /\ required_total_size n <= s /\
     same_params st st' /\
     Heap st' (p :: L) (fst (taken bs1 x s bs2 l1 l2 (required_total_size n)))
          (snd (taken bs1 x s bs2 l1 l2 (required_total_size n))) /\
     forall a, outside_free bs a -> bt st' a = bt st a).
Proof.
  intros [HR Hlock Hlive Hnd Hspan Hgrid] Hn Ha.
  destruct (Allocate_precise fuel n st _ bs fl HR Hlock Hn)
    as [[Hsm E]|(l1 & x & l2 & bs1 & s & bs2 & st'' & -> & -> & Hsm & Hs & E & Hl' & Hsp & HR' & Hfr)].
  { right. eauto. }
  - rewrite E in Ha. injection Ha as <- <-. left. auto.
  - rewrite E in Ha. injection Ha as <- <-. right.
    exists l1, x, l2, bs1, s, bs2. conj; try reflexivity; try assumption.
    pose proof (used_payload_once _ _ _ _ _ _ _ (Rep_Geo _ _ _ _ HR)) as Honce.
    constructor.
    + rewrite (first_offset_same _ _ Hsp). exact HR'.
    + exact Hl'.
    + intros q. rewrite used_taken. split.
      * intros [<-|Hq]; [apply in_or_app; right; now left|].
        apply Hlive in Hq. rewrite used_payloads_app in Hq. cbn in Hq.
        apply in_app_or in Hq as [Hq|Hq]; apply in_or_app; [left|right; right]; assumption.
      * intros Hq. apply in_app_or in Hq as [Hq|[Hq|Hq]]; [right|now left|right];
          apply Hlive; rewrite used_payloads_app; cbn; apply in_or_app; tauto.
    + constructor; [|assumption]. intros Hin. apply list_elem_of_In in Hin.
      apply Hlive in Hin. rewrite used_payloads_app in Hin. cbn in Hin.
      rewrite <- used_payloads_app in Hin. contradiction.
    + rewrite span_taken, (usable_size_same _ _ Hsp). exact Hspan.
    + rewrite (first_offset_same _ _ Hsp).
      apply grid_taken; [now apply required_total_size_grid|assumption].
Qed.

Lemma Inv'_allocate st L fuel n p st' :
  Inv' st L -> 0 <= n <= 2 ^ 64 - 192 ->
  Allocate fuel n st = Done (p, st') ->
  Inv' st' (if p =? 0 then L else p :: L).
Proof.
  intros [(HD & -> & Hnu)|(Hu & bs & fl & H)] Hn Ha.
  - left. destruct (Z.eq_dec n 0) as [->|Hn0].
    + injection Ha as <- <-. auto.
    + destruct HD as (Hl & Hall & Hbs).
      pose proof (Hall fuel n _ ltac:(lia) Ha) as [= -> ->].
      split; [|split; [reflexivity|assumption]]. split; auto.
  - destruct (Z.eq_dec n 0) as [->|Hn0].
    { injection Ha as <- <-. right. eauto. }
    assert (Hn' : 0 < n <= 2 ^ 64 - 192) by lia.
    destruct (Heap_allocate _ _ _ _ _ _ _ _ H Hn' Ha)
      as [(-> & -> & _)|(l1 & x & l2 & bs1 & s & bs2 & -> & _ & -> & _ & _ & Hsp & H' & _)].
    + right. eauto.
    + pose proof (geo_block _ _ _ _ (Rep_Geo _ _ _ _ (heap_rep _ _ _ _ H)) (In_mid _ _ _)) as Hx.
      unfold b_off in Hx; simpl in Hx.
      destruct (Z.eqb_spec (x + 64) 0) as [|_]; [lia|].
      right. split; [eapply usable_same; eassumption|]. eauto.
Qed.

Lemma NoDup_remove_Z (l : list Z) x : NoDup l -> NoDup (remove Z.eq_dec x l).
Proof.
  induction 1 as [|y l Hy Hl IH]; cbn [remove]; [constructor|].
  destruct (Z.eq_dec x y); [assumption|]. constructor; [|assumption].
  intros Hin. apply Hy. apply list_elem_of_In in Hin. apply in_remove in Hin as [Hin _].
  now apply list_elem_of_In.
Qed.

(** What [Free] of a live offset makes of a heap. *)
Lemma Heap_free st L bs fl p :
  Heap st L bs fl -> In p L ->
  exists bs1 s bs2, bs = bs1 ++ (p - 64, s, false) :: bs2 /\
  ((bs2 = [] /\ (m_total_size st - adjustment (m_base st)) mod 2 = 1 /\
    Free p st = OutOfBounds) \/
   (exists st', Free p st = Done st' /\ same_params st st' /\
      Heap st' (remove Z.eq_dec p L) (fst (freed bs1 (p - 64) s bs2 fl))
           (snd (freed bs1 (p - 64) s bs2 fl)) /\
      rd st' (p - 64) = word (fst (fst (right_merged s bs2 fl))) true /\
      forall a, outside_free (bs1 ++ bs2) a -> a < p - 64 \/ p - 64 + s <= a ->
                bt st' a = bt st a)).
Proof.
  intros [HR Hlock Hlive Hnd Hspan Hgrid] Hin.
  apply Hlive, In_used_payloads in Hin as (s & Hin).
  apply in_split in Hin as (bs1 & bs2 & ->).
  exists bs1, s, bs2. split; [reflexivity|].
  pose proof (Rep_Geo _ _ _ _ HR) as HG.
  pose proof (used_payload_once _ _ _ _ _ _ _ HG) as Honce.
  replace (p - 64 + 64) with p in Honce by lia.
  destruct (geo_split _ _ _ _ _ HG) as (Hxo & _).
  unfold b_off in Hxo; simpl in Hxo.
  pose proof HR as [Hp _ _ _ _ He _ _ _ _ _].
  pose proof (Z.mod_pos_bound (m_total_size st - adjustment (m_base st)) 2 ltac:(lia)) as Hm.
  assert (Hend : bs2 = [] ->
            p - 64 + s = m_base_offset st + m_total_size st -
                         (m_total_size st - adjustment (m_base st)) mod 2).
  { intros ->. rewrite span_app in Hspan. unfold span at 2, b_size in Hspan; simpl in Hspan.
    unfold usable_size in Hspan. cbn zeta in Hspan. unfold first_offset in Hxo. lia. }
  destruct (list_eq_nil_dec bs2) as [Hnil|Hne];
    [destruct (Z.eq_dec ((m_total_size st - adjustment (m_base st)) mod 2) 0) as [Ev|Od]|].
  2:{ left. split; [assumption|]. split; [lia|]. subst bs2.
      replace p with (p - 64 + 64) at 1 by lia.
      eapply Free_odd_end; [exact HR|assumption|]. specialize (Hend eq_refl). lia. }
  all: right;
    destruct (Free_precise _ _ _ _ _ _ _ HR Hlock) as (st' & E & Hsp & Hl' & HR' & Hrd & Hfr);
    [intros; try contradiction; specialize (Hend ltac:(assumption)); lia|];
    replace (p - 64 + 64) with p in E by lia;
    exists st'; conj; try assumption;
    constructor;
    [ rewrite (first_offset_same _ _ Hsp); exact HR'
    | exact Hl'
    | intros q; rewrite used_freed, <- used_payloads_app; split;
      [ intros Hq; apply in_remove in Hq as [Hq Hneq];
        apply Hlive in Hq; rewrite used_payloads_app in Hq |- *;
        cbn [used_payloads b_free b_off snd fst] in Hq;
        replace (p - 64 + 64) with p in Hq by lia;
        apply in_app_or in Hq as [Hq|[Hq|Hq]]; [| congruence |]; apply in_or_app; tauto
      | intros Hq; apply in_in_remove;
        [ intros ->; contradiction
        | apply Hlive; rewrite used_payloads_app in Hq |- *;
          cbn [used_payloads b_free b_off snd fst];
          apply in_app_or in Hq as [Hq|Hq]; apply in_or_app; [left|right; right]; assumption ] ]
    | now apply NoDup_remove_Z
    | rewrite span_freed, (usable_size_same _ _ Hsp); exact Hspan
    | rewrite (first_offset_same _ _ Hsp); now apply grid_freed ].
Qed.

Lemma Inv'_free st L p st' :
  Inv' st L -> In p L -> Free p st = Done st' -> Inv' st' (remove Z.eq_dec p L).
Proof.
  intros [(HD & -> & _)|(Hu & bs & fl & H)] Hin Hf; [contradiction|].
  destruct (Heap_free _ _ _ _ _ H Hin)
    as (bs1 & s & bs2 & -> & [(_ & _ & E)|(st'' & E & Hsp & H' & _)]);
    rewrite E in Hf; [discriminate|]. injection Hf as <-.
  right. split; [eapply usable_same; eassumption|]. eauto.
Qed.

Lemma Inv'_unlocked st L : Inv' st L -> m_lock st = false.
Proof. intros H. eapply Inv_unlocked, Inv'_Inv, H. Qed.

(** Every reachable state is a dead one or the heap of a usable region. *)
Lemma reachable_Inv' st L : reachable st L -> Inv' st L.
Proof.
  induction 1 as [B T O contents st HB HT HBT HO HOT Hc
                 |st L fuel n p st' _ IH Hn Ha
                 |st L p st' _ IH Hin Hf
                 |st L st' _ IH Hf
                 |st L p st' _ IH Hfree Hf].
  - exact (Inv'_construct _ _ _ _ _ HB HT HBT HO HOT Hc).
  - exact (Inv'_allocate _ _ _ _ _ _ IH Hn Ha).
  - exact (Inv'_free _ _ _ _ IH Hin Hf).
  - injection Hf as <-. assumption.
  - rewrite (Free_marked_free st p (Inv'_unlocked _ _ IH) Hfree) in Hf.
    injection Hf as <-. assumption.
Qed.

Lemma reachable_Heap st L :
  reachable st L -> usable st \/ L <> [] -> exists bs fl, Heap st L bs fl.
Proof.
  intros H Hu. apply reachable_Inv' in H as [(_ & -> & Hnu)|(_ & H)]; [|exact H].
  destruct Hu; contradiction.
Qed.

(** A block of the heap, as the source reads it. *)
Lemma Heap_block st L bs fl o s f :
  Heap st L bs fl -> In (o, s, f) bs ->
  GetPtr st o = addr st o /\
  GetSize st (GetPtr st o) = Done s /\
  IsFree st (GetPtr st o) = Done f /\
  first_offset st <= o /\ m_base_offset st <= o /\
  o + s <= first_offset st + usable_size st /\
  o + s <= m_base_offset st + m_total_size st /\
  128 <= s /\ s mod 2 = 0 /\ (o - first_offset st) mod 64 = 0.
Proof.
  intros [HR Hlock Hlive Hnd Hspan Hgrid] Hin.
  pose proof (Rep_Geo _ _ _ _ HR) as HG.
  pose proof (geo_block _ _ _ _ HG Hin) as Hx.
  unfold b_off, b_size in Hx; simpl in Hx.
  pose proof HR as [Hp _ _ _ _ He Ht _ _ _ _].
  pose proof Hp as (P1 & P2 & P3 & P4 & P5).
  assert (Hw : rd st o = word s f).
  { rewrite List.Forall_forall in Ht. apply (Ht _ Hin). }
  assert (Ea : GetPtr st o = addr st o).
  { apply (GetPtr_at st st Hp (same_params_refl _)); lia. }
  rewrite Ea.
  rewrite (GetSize_at st st Hp (same_params_refl _)) by lia.
  rewrite (IsFree_at st st Hp (same_params_refl _)) by lia.
  rewrite Hw, word_size, word_free by lia.
  conj; try reflexivity; try lia.
  - apply in_split in Hin as (bs1 & bs2 & ->).
    destruct (geo_split _ _ _ _ _ HG) as (Hxo & _ & Hc2 & _).
    unfold b_off, b_size in Hxo, Hc2; simpl in Hxo, Hc2.
    rewrite <- Hspan, span_app.
    change (span ((o, s, f) :: bs2)) with (s + span bs2).
    pose proof (span_nonneg _ _ _ Hc2). lia.
  - rewrite List.Forall_forall in Hgrid. apply (Hgrid _ Hin).
Qed.

Lemma live_block st L bs fl p :
  Heap st L bs fl -> In p L -> exists s, In (p - 64, s, false) bs.
Proof. intros H Hin. apply (heap_live _ _ _ _ H), In_used_payloads in Hin. exact Hin. Qed.

(** The bytes of a block in use lie in no free block. *)
Lemma used_outside_free st first bs o s a :
  Geo st first bs -> In (o, s, false) bs -> o <= a < o + s -> outside_free bs a.
Proof.
  intros HG Hin Ha b Hb Hf.
  destruct (geo_sep _ _ _ _ _ HG Hin Hb) as [<-|Hsep]; [discriminate|].
  unfold b_off, b_size in *; simpl in *. lia.
Qed.

Lemma GetSize_live st L bs fl p s :
  Heap st L bs fl -> In p L -> GetSize st (GetPtr st (p - 64)) = Done s ->
  In (p - 64, s, false) bs.
Proof.
  intros H Hin Hs. destruct (live_block _ _ _ _ _ H Hin) as (s' & Hb).
  destruct (Heap_block _ _ _ _ _ _ _ H Hb) as (_ & E & _).
  rewrite E in Hs. now injection Hs as <-.
Qed.

(** *** Concrete heaps *)

Lemma finished_result {A : Type} (c : outcome A) (d : A) :
  finished c = true -> c = Done (result c d).
Proof. destruct c; simpl; congruence. Qed.

Lemma finished_pair {A B : Type} (c : outcome (A * B)) (d : A * B) (a : A) :
  finished c = true -> fst (result c d) = a -> c = Done (a, snd (result c d)).
Proof. destruct c as [[x y]| | |]; simpl; congruence. Qed.

Lemma reachable_fresh_1024 : reachable fresh_1024 [].
Proof.
  apply (reach_construct 65536 1024 64 (fun _ => 0)); try lia.
  apply finished_result. vm_compute. reflexivity.
Qed.

Lemma Allocate_fresh_1024 : Allocate 1 100 fresh_1024 = Done (128, served_1024).
Proof. apply finished_pair; vm_compute; reflexivity. Qed.

Lemma reachable_served_1024 : reachable served_1024 [128].
Proof.
  apply (reach_allocate fresh_1024 [] 1 100 128 served_1024).
  - exact reachable_fresh_1024.
  - lia.
  - exact Allocate_fresh_1024.
Qed.

Lemma Allocate_served_1024 : Allocate 1 100 served_1024 = Done (384, served_twice_1024).
Proof. apply finished_pair; vm_compute; reflexivity. Qed.

Lemma reachable_served_twice_1024 : reachable served_twice_1024 [384; 128].
Proof.
  apply (reach_allocate served_1024 [128] 1 100 384 served_twice_1024).
  - exact reachable_served_1024.
  - lia.
  - exact Allocate_served_1024.
Qed.

Lemma reachable_fresh_321 : reachable fresh_321 [].
Proof.
  apply (reach_construct 65536 321 64 (fun _ => 0)); try lia.
  apply finished_result. vm_compute. reflexivity.
Qed.

Lemma Allocate_fresh_321 : Allocate 1 100 fresh_321 = Done (128, served_321).
Proof. apply finished_pair; vm_compute; reflexivity. Qed.

Lemma reachable_served_321 : reachable served_321 [128].
Proof.
  apply (reach_allocate fresh_321 [] 1 100 128 served_321).
  - exact reachable_fresh_321.
  - lia.
  - exact Allocate_fresh_321.
Qed.

Lemma Free_served_twice_1024 : Free 128 served_twice_1024 = Done released_1024.
Proof. apply finished_result. vm_compute. reflexivity. Qed.

(** *** What the allocator guarantees in every reachable state *)

(** X3. Every offset handed out denotes an address that is a multiple
    of 64, whatever the alignment of the region. *)
Theorem live_offsets_aligned st L p :
  reachable st L -> In p L -> GetPtr st p mod 64 = 0.
Proof.
  intros Hr Hin.
  destruct (reachable_Heap _ _ Hr) as (bs & fl & H).
  { right. intros ->. contradiction. }
  destruct (live_block _ _ _ _ _ H Hin) as (s & Hb).
  destruct (Heap_block _ _ _ _ _ _ _ H Hb) as (_ & _ & _ & Hf & Ho & _ & He & Hs & _ & Hg).
  pose proof (heap_rep _ _ _ _ H) as [Hp _ _ _ _ _ _ _ _ _ _].
  pose proof Hp as (P1 & P2 & P3 & P4 & P5).
  rewrite (GetPtr_at st st Hp (same_params_refl _)) by lia.
  unfold addr, first_offset in *.
  replace (m_base st + (p - m_base_offset st))
    with ((m_base st + adjustment (m_base st)) +
          ((p - 64 - (m_base_offset st + adjustment (m_base st))) + 1 * 64)) by lia.
  rewrite Z.add_mod, adjustment_aligned, Z.mod_add, Hg by lia. reflexivity.
Qed.

Lemma live_offsets_aligned_witness : GetPtr served_1024 128 mod 64 = 0.
Proof.
  apply (live_offsets_aligned served_1024 [128] 128).
  - exact reachable_served_1024.
  - simpl. auto.
Defined.

(** X4. A request that is served gets a block of its own: the offset was
    not live, its header says in use, and the block is at least 128 bytes
    larger than the request, less than 136 bytes larger than the rounded
    size, and inside the region. *)
Theorem Allocate_serves_fresh_block st L fuel n p st' :
  reachable st L -> 0 < n <= 2 ^ 64 - 192 ->
  Allocate fuel n st = Done (p, st') -> p <> 0 ->
  ~ In p L /\
  exists s,
    GetSize st' (GetPtr st' (p - 64)) = Done s /\
    IsFree st' (GetPtr st' (p - 64)) = Done false /\
    n + 128 <= s /\
    required_total_size n <= s < required_total_size n + 136 /\
    m_base_offset st + 64 <= p /\ p - 64 + s <= m_base_offset st + m_total_size st.
Proof.
  intros Hr Hn Ha Hp0.
  apply reachable_Inv' in Hr as [((_ & Hall & _) & _ & _)|(_ & bs & fl & H)].
  { pose proof (Hall _ _ _ Hn Ha) as [= -> _]. contradiction. }
  destruct (Heap_allocate _ _ _ _ _ _ _ _ H Hn Ha)
    as [(-> & _)|(l1 & x & l2 & bs1 & s & bs2 & -> & _ & -> & _ & Hs & Hsp & H' & _)];
    [contradiction|].
  pose proof (heap_nodup _ _ _ _ H') as Hnd. apply NoDup_cons in Hnd as [Hfresh _].
  split; [intros Hin; apply Hfresh; now apply list_elem_of_In|].
  pose proof (required_total_size_ok n Hn) as Hreq.
  assert (Hn128 : n + 128 <= required_total_size n).
  { rewrite Hreq. pose proof (Z.div_mod (n + 63) 64 ltac:(lia)).
    pose proof (Z.mod_pos_bound (n + 63) 64 ltac:(lia)). lia. }
  destruct Hsp as (E1 & E2 & E3 & _).
  replace (x + 64 - 64) with x by lia.
  unfold taken in H'.
  destruct (Z_le_gt_dec (required_total_size n + 136) s) as [Hsplit|Hwhole];
    cbn [fst snd] in H'.
  - destruct (Heap_block _ _ _ _ x (required_total_size n) false H' (In_mid _ _ _))
      as (_ & Es & Ef & _ & Ho & _ & He & _).
    exists (required_total_size n). rewrite Es, Ef. conj; try reflexivity; lia.
  - destruct (Heap_block _ _ _ _ x s false H' (In_mid _ _ _))
      as (_ & Es & Ef & _ & Ho & _ & He & _).
    exists s. rewrite Es, Ef. conj; try reflexivity; lia.
Qed.

Lemma Allocate_serves_fresh_block_witness :
  ~ In 384 [128] /\
  exists s,
    GetSize served_twice_1024 (GetPtr served_twice_1024 (384 - 64)) = Done s /\
    IsFree served_twice_1024 (GetPtr served_twice_1024 (384 - 64)) = Done false /\
    100 + 128 <= s /\
    required_total_size 100 <= s < required_total_size 100 + 136 /\
    m_base_offset served_1024 + 64 <= 384 /\
    384 - 64 + s <= m_base_offset served_1024 + m_total_size served_1024.
Proof.
  apply (Allocate_serves_fresh_block served_1024 [128] 1 100 384 served_twice_1024).
  - exact reachable_served_1024.
  - lia.
  - exact Allocate_served_1024.
  - lia.
Defined.

(** X5. [Allocate] changes no byte of a block that is in use: header,
    payload and footer of every live offset read as before. *)
Theorem Allocate_preserves_live_blocks st L fuel n r q s a :
  reachable st L -> 0 <= n <= 2 ^ 64 - 192 ->
  Allocate fuel n st = Done r ->
  In q L -> GetSize st (GetPtr st (q - 64)) = Done s ->
  q - 64 <= a < q - 64 + s ->
  bt (snd r) a = bt st a.
Proof.
  intros Hr Hn Ha Hq Hs Hqa.
  destruct (reachable_Heap _ _ Hr) as (bs & fl & H).
  { right. intros ->. contradiction. }
  destruct (Z.eq_dec n 0) as [->|Hn0]; [now injection Ha as <-|].
  destruct r as [p st'].
  pose proof (GetSize_live _ _ _ _ _ _ H Hq Hs) as Hb.
  assert (Hn' : 0 < n <= 2 ^ 64 - 192) by lia.
  destruct (Heap_allocate _ _ _ _ _ _ _ _ H Hn' Ha)
    as [(_ & -> & _)|(l1 & x & l2 & bs1 & sx & bs2 & _ & _ & Ebs & _ & _ & _ & _ & Hfr)];
    [reflexivity|].
  apply Hfr.
  eapply used_outside_free; [exact (Rep_Geo _ _ _ _ (heap_rep _ _ _ _ H))|exact Hb|exact Hqa].
Qed.

Lemma Allocate_preserves_live_blocks_witness :
  bt (snd (384, served_twice_1024)) 200 = bt served_1024 200.
Proof.
  apply (Allocate_preserves_live_blocks served_1024 [128] 1 100 (384, served_twice_1024)
           128 256 200).
  - exact reachable_served_1024.
  - lia.
  - exact Allocate_served_1024.
  - simpl. auto.
  - vm_compute. reflexivity.
  - lia.
Defined.

(** X6. [Free] of a live offset changes no byte of the other blocks in
    use. *)
Theorem Free_preserves_other_blocks st L p st' q s a :
  reachable st L -> In p L -> Free p st = Done st' ->
  In q L -> q <> p -> GetSize st (GetPtr st (q - 64)) = Done s ->
  q - 64 <= a < q - 64 + s ->
  bt st' a = bt st a.
Proof.
  intros Hr Hp Hf Hq Hne Hs Hqa.
  destruct (reachable_Heap _ _ Hr) as (bs & fl & H).
  { right. intros ->. contradiction. }
  pose proof (GetSize_live _ _ _ _ _ _ H Hq Hs) as Hb.
  pose proof (Rep_Geo _ _ _ _ (heap_rep _ _ _ _ H)) as HG.
  destruct (Heap_free _ _ _ _ _ H Hp)
    as (bs1 & sp & bs2 & -> & [(_ & _ & E)|(st'' & E & _ & _ & _ & Hfr)]);
    rewrite E in Hf; [discriminate|]. injection Hf as <-.
  pose proof (used_outside_free _ _ _ _ _ _ HG Hb Hqa) as Hout.
  apply Hfr.
  - intros b Hin. apply Hout. now apply In_around.
  - destruct (geo_sep _ _ _ _ _ HG Hb (In_mid _ _ _)) as [[= E' _]|Hsep]; [lia|].
    unfold b_off, b_size in Hsep; simpl in Hsep. lia.
Qed.

Lemma Free_preserves_other_blocks_witness :
  bt released_1024 400 = bt served_twice_1024 400.
Proof.
  apply (Free_preserves_other_blocks served_twice_1024 [384; 128] 128 released_1024
           384 256 400).
  - exact reachable_served_twice_1024.
  - simpl. auto.
  - exact Free_served_twice_1024.
  - simpl. auto.
  - lia.
  - vm_compute. reflexivity.
  - lia.
Defined.

(** X7. When what is left of the region after the alignment adjustment
    is even, [Free] of a live offset returns: every access stays inside
    the region. *)
Theorem Free_live_returns st L p :
  reachable st L -> In p L ->
  (m_total_size st - adjustment (m_base st)) mod 2 = 0 ->
  exists st', Free p st = Done st' /\ m_lock st' = false.
Proof.
  intros Hr Hp Hev.
  destruct (reachable_Heap _ _ Hr) as (bs & fl & H).
  { right. intros ->. contradiction. }
  destruct (Heap_free _ _ _ _ _ H Hp)
    as (bs1 & sp & bs2 & -> & [(_ & Hodd & _)|(st' & E & _ & H' & _)]); [lia|].
  exists st'. split; [exact E|exact (heap_lock _ _ _ _ H')].
Qed.

Lemma Free_live_returns_witness :
  exists st', Free 128 served_twice_1024 = Done st' /\ m_lock st' = false.
Proof.
  apply (Free_live_returns served_twice_1024 [384; 128] 128).
  - exact reachable_served_twice_1024.
  - simpl. auto.
  - vm_compute. reflexivity.
Defined.

(** X8. When a block in use ends one byte before the end of the region
    (the rest after the adjustment was odd), [Free] of it leaves the
    region: COALESCE RIGHT reads a header where only one byte is left. *)
Theorem Free_last_block_of_odd_region st L p s :
  reachable st L -> In p L ->
  GetSize st (GetPtr st (p - 64)) = Done s ->
  p - 64 + s + 1 = m_base_offset st + m_total_size st ->
  Free p st = OutOfBounds.
Proof.
  intros Hr Hp Hs Hend.
  destruct (reachable_Heap _ _ Hr) as (bs & fl & H).
  { right. intros ->. contradiction. }
  pose proof (GetSize_live _ _ _ _ _ _ H Hp Hs) as Hb.
  pose proof (heap_rep _ _ _ _ H) as HR.
  pose proof (Rep_Geo _ _ _ _ HR) as HG.
  apply in_split in Hb as (bs1 & bs2 & ->).
  destruct bs2 as [|b2 bs2].
  - replace p with (p - 64 + 64) at 1 by lia.
    eapply Free_odd_end; [exact HR|exact (heap_lock _ _ _ _ H)|lia].
  - exfalso.
    destruct (geo_split _ _ _ _ _ HG) as (_ & _ & _ & _ & Hri).
    specialize (Hri b2 (or_introl eq_refl)).
    assert (Hin2 : In b2 (bs1 ++ (p - 64, s, false) :: b2 :: bs2)).
    { apply in_or_app. right. right. now left. }
    pose proof (geo_block _ _ _ _ HG Hin2) as Hx.
    unfold b_off, b_size in *; simpl in *. lia.
Qed.

Lemma Free_last_block_of_odd_region_witness : Free 128 served_321 = OutOfBounds.
Proof.
  apply (Free_last_block_of_odd_region served_321 [128] 128 320).
  - exact reachable_served_321.
  - simpl. auto.
  - vm_compute. reflexivity.
  - vm_compute. reflexivity.
Defined.

(** X9. Right after [Free] of a live offset, a second [Free] of the same
    offset finds the free bit in its header and changes nothing. *)
Theorem Free_twice_is_ignored st L p st' :
  reachable st L -> In p L -> Free p st = Done st' -> Free p st' = Done st'.
Proof.
  intros Hr Hp Hf.
  destruct (reachable_Heap _ _ Hr) as (bs & fl & H).
  { right. intros ->. contradiction. }
  destruct (Heap_free _ _ _ _ _ H Hp)
    as (bs1 & s & bs2 & -> & [(_ & _ & E)|(st'' & E & Hsp & H' & Hrd & _)]);
    rewrite E in Hf; [discriminate|]. injection Hf as <-.
  destruct (Heap_block _ _ _ _ _ _ _ H (In_mid _ _ _))
    as (_ & _ & _ & _ & Ho & _ & He & Hs & Ev & _).
  pose proof (heap_rep _ _ _ _ H) as [Hpar _ _ _ _ _ _ _ _ _ _].
  pose proof Hpar as (P1 & P2 & P3 & P4 & P5).
  assert (Ev' : fst (fst (right_merged s bs2 fl)) mod 2 = 0).
  { destruct (right_merged_cases s bs2 fl) as [[_ ->]|(o2 & s2 & bs2' & -> & ->)];
      cbn [fst]; [exact Ev|].
    assert (Hin2 : In (o2, s2, true) (bs1 ++ (p - 64, s, false) :: (o2, s2, true) :: bs2')).
    { apply in_or_app. right. right. now left. }
    destruct (Heap_block _ _ _ _ _ _ _ H Hin2) as (_ & _ & _ & _ & _ & _ & _ & _ & Ev2 & _).
    rewrite Z.add_mod, Ev, Ev2 by lia. reflexivity. }
  apply Free_marked_free; [exact (heap_lock _ _ _ _ H')|].
  unfold sizeof_BlockHeader. rewrite wrap64_small by lia.
  rewrite (GetPtr_at st st'' Hpar Hsp) by lia.
  rewrite (IsFree_at st st'' Hpar Hsp) by lia.
  rewrite Hrd, word_free by exact Ev'. reflexivity.
Qed.

Lemma Free_twice_is_ignored_witness : Free 128 released_1024 = Done released_1024.
Proof.
  apply (Free_twice_is_ignored served_twice_1024 [384; 128] 128 released_1024).
  - exact reachable_served_twice_1024.
  - simpl. auto.
  - exact Free_served_twice_1024.
Defined.

(** X10. In every reachable state of a usable region the blocks read off
    the headers tile the heap from the first block on: each starts where
    the one before ends, a multiple of 64 bytes from the first, none is
    smaller than 128 bytes, and header and footer of each hold its size
    and state. *)
Theorem reachable_heap_is_tiled st L :
  reachable st L -> usable st ->
  exists bs,
    (forall fuel, (length bs < fuel)%nat -> heap_blocks fuel st = Done bs) /\
    chain (first_offset st) bs (first_offset st + usable_size st) /\
    Forall (on_grid (first_offset st)) bs /\
    Forall (tagged st) bs.
Proof.
  intros Hr Hu. destruct (reachable_Heap _ _ Hr (or_introl Hu)) as (bs & fl & H).
  destruct H as [HR Hl Hlive Hnd Hspan Hgrid].
  exists bs. conj.
  - intros fuel Hfuel. eapply heap_blocks_Rep; eassumption.
  - rewrite <- Hspan. now destruct HR.
  - exact Hgrid.
  - now destruct HR.
Qed.

Lemma reachable_heap_is_tiled_witness :
  exists bs,
    (forall fuel, (length bs < fuel)%nat -> heap_blocks fuel served_twice_1024 = Done bs) /\
    chain (first_offset served_twice_1024) bs
          (first_offset served_twice_1024 + usable_size served_twice_1024) /\
    Forall (on_grid (first_offset served_twice_1024)) bs /\
    Forall (tagged served_twice_1024) bs.
Proof.
  apply (reachable_heap_is_tiled served_twice_1024 [384; 128]).
  - exact reachable_served_twice_1024.
  - split; vm_compute; [reflexivity|discriminate].
Defined.

(** *** Walks *)

Lemma walk_more st : forall k o bs, walk k st o = Done bs -> walk (S k) st o = Done bs.
Proof.
  induction k as [|k IH]; intros o bs H.
  - cbn [walk] in *.
    destruct (wrap64 (m_total_size st + m_base_offset st) <? o + 8); [exact H|discriminate].
  - remember (S k) as k' eqn:Ek. cbn [walk]. rewrite Ek in H. cbn [walk] in H.
    destruct (wrap64 (m_total_size st + m_base_offset st) <? o + 8); [exact H|].
    destruct (GetSize st (GetPtr st o)) as [sz| | |]; try discriminate. cbn [bind] in *.
    destruct (IsFree st (GetPtr st o)) as [fr| | |]; try discriminate. cbn [bind] in *.
    destruct (walk k st (o + sz)) as [rest| | |] eqn:E; try discriminate.
    rewrite (IH _ _ E). exact H.
Qed.

Lemma walk_le st k k' o bs : (k <= k')%nat -> walk k st o = Done bs -> walk k' st o = Done bs.
Proof. induction 1 as [|m Hle IH]; [tauto|]. intros Hw. now apply walk_more, IH. Qed.

Lemma heap_blocks_unique st first bs fl k bs' :
  Rep st first bs fl -> heap_blocks k st = Done bs' -> bs' = bs.
Proof.
  intros HR H.
  pose proof (heap_blocks_Rep _ _ _ _ (S (length bs) + k) HR ltac:(lia)) as H1.
  unfold heap_blocks in *. rewrite (rep_first _ _ _ _ HR) in *.
  apply (walk_le _ _ (S (length bs) + k)) in H; [|lia]. congruence.
Qed.

Lemma free_length st first bs fl : Rep st first bs fl -> (length fl <= length bs)%nat.
Proof.
  intros HR. rewrite (Permutation_length (rep_perm _ _ _ _ HR)).
  clear. induction bs as [|b bs IH]; cbn [free_offsets length]; [lia|].
  destruct (b_free b); cbn [length]; lia.
Qed.

(** X11. A request fails exactly when no free block is large enough for
    its rounded size. *)
Theorem Allocate_fails_iff_no_block_fits st L fuel n k bs :
  reachable st L -> usable st -> 0 < n <= 2 ^ 64 - 192 ->
  heap_blocks k st = Done bs -> (length bs <= fuel)%nat ->
  exists p st',
    Allocate fuel n st = Done (p, st') /\
    (p = 0 <-> forall o s, In (o, s, true) bs -> s < required_total_size n).
Proof.
  intros Hr Hu Hn Hw Hfuel.
  destruct (reachable_Heap _ _ Hr (or_introl Hu)) as (bs0 & fl & H).
  pose proof (heap_rep _ _ _ _ H) as HR.
  rewrite (heap_blocks_unique _ _ _ _ _ _ HR Hw) in *. clear Hw.
  pose proof (free_length _ _ _ _ HR) as Hlen.
  destruct (Allocate_precise fuel n st _ bs0 fl HR (heap_lock _ _ _ _ H) Hn)
    as [[Hsm E]|(l1 & x & l2 & bs1 & s & bs2 & st' & -> & -> & Hsm & Hs & E & _)].
  { left. lia. }
  - exists 0, st. split; [exact E|]. split; [|reflexivity]. intros _ o s Hin.
    rewrite List.Forall_forall in Hsm. apply (Hsm o); [|exact Hin].
    eapply Permutation_in; [symmetry; exact (rep_perm _ _ _ _ HR)|].
    apply In_free_offsets. eauto.
  - exists (x + 64), st'. split; [exact E|].
    pose proof (geo_block _ _ _ _ (Rep_Geo _ _ _ _ HR) (In_mid _ _ _)) as Hx.
    unfold b_off in Hx; simpl in Hx.
    split; [lia|]. intros Hall. specialize (Hall x s (In_mid _ _ _)). lia.
Qed.

Lemma Allocate_fails_iff_no_block_fits_witness :
  exists p st',
    Allocate 4 100 served_twice_1024 = Done (p, st') /\
    (p = 0 <-> forall o s, In (o, s, true) [(64, 256, false); (320, 256, false); (576, 512, true)] ->
                           s < required_total_size 100).
Proof.
  apply (Allocate_fails_iff_no_block_fits served_twice_1024 [384; 128] 4 100 4).
  - exact reachable_served_twice_1024.
  - split; vm_compute; [reflexivity|discriminate].
  - lia.
  - vm_compute. reflexivity.
  - simpl. lia.
Defined.

(** *** Allocating and freeing again *)

Lemma freed_taken bs1 x s bs2 l1 l2 req :
  no_adjacent_free (bs1 ++ (x, s, true) :: bs2) = true ->
  NoDup (snd (taken bs1 x s bs2 l1 l2 req)) ->
  exists c1 sx c2,
    fst (taken bs1 x s bs2 l1 l2 req) = c1 ++ (x, sx, false) :: c2 /\
    (c2 = [] -> bs2 = [] /\ sx = s) /\
    freed c1 x sx c2 (snd (taken bs1 x s bs2 l1 l2 req)) =
      (bs1 ++ (x, s, true) :: bs2, x :: l1 ++ l2).
Proof.
  intros Hco Hnd.
  rewrite nadj_mid in Hco. cbn [b_free snd] in Hco.
  apply andb_true_iff in Hco as [_ Hco]. apply negb_true_iff in Hco.
  cbn [andb] in Hco. apply orb_false_iff in Hco as [Hl Hh].
  assert (Hleft : forall S fl, left_merged bs1 x S bs2 fl = (bs1 ++ (x, S, true) :: bs2, x :: fl)).
  { intros S fl. destruct (left_merged_cases bs1 x S bs2 fl) as [[_ E]|(bs0 & o0 & s0 & -> & _)];
      [exact E|]. rewrite last_free_snoc in Hl. discriminate. }
  unfold taken in *. destruct (Z_le_gt_dec (req + 136) s) as [Hsplit|Hwhole]; cbn [fst snd] in *.
  - exists bs1, req, ((x + req, s - req, true) :: bs2). conj; [reflexivity|discriminate|].
    unfold freed. cbn [right_merged]. rewrite (remove_mid _ _ _ Hnd), Hleft.
    replace (req + (s - req)) with s by lia. reflexivity.
  - exists bs1, s, bs2. conj; [reflexivity|tauto|].
    unfold freed.
    destruct (right_merged_cases s bs2 (l1 ++ l2)) as [[_ ->]|(o2 & s2 & bs2' & -> & _)];
      [apply Hleft|discriminate].
Qed.

(** X12. A request served and freed again leaves the blocks of the heap
    as they were, with the block at the head of the free list, so that
    the same request is served from the same offset again. *)
Theorem Allocate_Free_round_trip st L fuel n p st1 st2 :
  reachable st L -> 0 < n <= 2 ^ 64 - 192 ->
  Allocate fuel n st = Done (p, st1) -> p <> 0 ->
  Free p st1 = Done st2 ->
  (exists bs, forall k, (length bs < k)%nat ->
     heap_blocks k st = Done bs /\ heap_blocks k st2 = Done bs) /\
  m_free_list_head_offset st2 = p - 64 /\
  forall k, exists st3, Allocate (S k) n st2 = Done (p, st3).
Proof.
  intros Hr Hn Ha Hp0 Hf.
  apply reachable_Inv' in Hr as [((_ & Hall & _) & _ & _)|(_ & bs & fl & H)].
  { pose proof (Hall _ _ _ Hn Ha) as [= -> _]. contradiction. }
  pose proof (heap_rep _ _ _ _ H) as HR.
  destruct (Heap_allocate _ _ _ _ _ _ _ _ H Hn Ha)
    as [(-> & _)|(l1 & x & l2 & bs1 & s & bs2 & -> & -> & -> & _ & Hs & Hsp & H' & _)];
    [contradiction|].
  pose proof (heap_rep _ _ _ _ H') as HR'.
  pose proof (heap_lock _ _ _ _ H') as Hl'.
  destruct (freed_taken bs1 x s bs2 l1 l2 (required_total_size n)
              (rep_coalesced _ _ _ _ HR) (rep_NoDup _ _ _ _ HR'))
    as (c1 & sx & c2 & Et & Hlast & Efr).
  rewrite Et in HR'.
  assert (Hend : c2 = [] -> x + sx = m_base_offset st1 + m_total_size st1).
  { intros ->. destruct (Z.eq_dec (x + sx) (m_base_offset st1 + m_total_size st1)) as [|Hne];
      [assumption|exfalso].
    pose proof (Rep_Geo _ _ _ _ HR') as HG.
    pose proof (geo_block _ _ _ _ HG (In_mid _ _ _)) as Hx.
    unfold b_off, b_size in Hx; simpl in Hx.
    rewrite (Free_odd_end _ _ _ _ _ _ HR' Hl') in Hf by lia. discriminate. }
  destruct (Free_precise _ _ _ _ _ _ _ HR' Hl' Hend) as (st2' & E & Hsp2 & Hl2 & HR2 & _).
  rewrite E in Hf. injection Hf as <-. rewrite Efr in HR2. cbn [fst snd] in HR2.
  conj.
  - exists (bs1 ++ (x, s, true) :: bs2). intros k Hk. split.
    + eapply heap_blocks_Rep; eassumption.
    + eapply heap_blocks_Rep; eassumption.
  - rewrite (rep_head _ _ _ _ HR2). cbn [hd]. lia.
  - intros k.
    destruct (Allocate_head k n st2' _ bs1 x s bs2 (l1 ++ l2) HR2 Hl2 Hn Hs)
      as (st3 & E3 & _).
    eauto.
Qed.

Lemma Allocate_Free_round_trip_witness :
  (exists bs, forall k, (length bs < k)%nat ->
     heap_blocks k fresh_1024 = Done bs /\
     heap_blocks k (result (Free 128 served_1024) served_1024) = Done bs) /\
  m_free_list_head_offset (result (Free 128 served_1024) served_1024) = 128 - 64 /\
  forall k, exists st3,
    Allocate (S k) 100 (result (Free 128 served_1024) served_1024) = Done (128, st3).
Proof.
  apply (Allocate_Free_round_trip fresh_1024 [] 1 100 128 served_1024).
  - exact reachable_fresh_1024.
  - lia.
  - exact Allocate_fresh_1024.
  - lia.
  - apply finished_result. vm_compute. reflexivity.
Defined.

(** *** First fit *)

Lemma free_nodes_Rep st first bs : forall l l0 k nodes,
  Rep st first bs (l0 ++ l) ->
  free_nodes k st (hd 0 l) = Done nodes ->
  map fst nodes = l /\ Forall (fun x => In (fst x, snd x, true) bs) nodes.
Proof.
  induction l as [|x l IH]; intros l0 k nodes HR Hw.
  - cbn [hd] in Hw. destruct k; cbn in Hw; injection Hw as <-; split; constructor.
  - cbn [hd] in Hw.
    assert (Hin : In x (l0 ++ x :: l)) by (apply in_or_app; right; now left).
    destruct (perm_free _ _ _ _ _ HR Hin) as (s & Hb).
    apply in_split in Hb as (bs1 & bs2 & ->).
    destruct (rep_node _ _ _ _ _ _ _ _ HR) as (Hx & Hto & Hx64 & _).
    pose proof (rep_params _ _ _ _ HR) as Hp. pose proof Hp as (P1 & P2 & P3 & P4 & P5).
    destruct k as [|k]; cbn [free_nodes] in Hw;
      destruct (Z.eqb_spec x 0) as [|_]; try lia; [discriminate|].
    rewrite (GetPtr_at st st Hp (same_params_refl _)) in Hw by lia.
    rewrite (GetSize_at st st Hp (same_params_refl _)) in Hw by lia.
    rewrite Hto, word_size in Hw by lia. cbn [bind] in Hw.
    rewrite (GetPayload_addr st Hp) in Hw by lia.
    unfold next_field in Hw.
    rewrite (load_at st st Hp (same_params_refl _)) in Hw by lia.
    cbn [bind] in Hw. rewrite Hx64 in Hw.
    destruct (free_nodes k st (hd 0 l)) as [rest| | |] eqn:E; try discriminate.
    cbn [bind] in Hw. injection Hw as <-.
    assert (HR2 : Rep st first (bs1 ++ (x, s, true) :: bs2) ((l0 ++ [x]) ++ l))
      by now rewrite <- app_assoc.
    destruct (IH _ _ _ HR2 E) as [Em Hall].
    split; [cbn [map fst]; now rewrite Em|].
    constructor; [apply In_mid|exact Hall].
Qed.

Lemma find_passes (req : Z) (n1 : list (Z * Z)) x n2 :
  Forall (fun y => snd y < req) n1 -> req <= snd x ->
  find (fun y => req <=? snd y) (n1 ++ x :: n2) = Some x.
Proof.
  intros H Hx. induction H as [|y n1 Hy _ IH]; cbn [app find].
  - destruct (Z.leb_spec req (snd x)); [reflexivity|lia].
  - destruct (Z.leb_spec req (snd y)); [lia|exact IH].
Qed.

Lemma find_fails (req : Z) (n1 : list (Z * Z)) :
  Forall (fun y => snd y < req) n1 -> find (fun y => req <=? snd y) n1 = None.
Proof.
  induction 1 as [|y n1 Hy _ IH]; cbn [find]; [reflexivity|].
  destruct (Z.leb_spec req (snd y)); [lia|exact IH].
Qed.

Lemma nodes_too_small (bs : list block) (nodes : list (Z * Z)) req :
  Forall (too_small bs req) (map fst nodes) ->
  Forall (fun x => In (fst x, snd x, true) bs) nodes ->
  Forall (fun y => snd y < req) nodes.
Proof.
  intros H1 H2. rewrite List.Forall_forall in *. intros y Hy.
  apply (H1 (fst y)); [now apply in_map|]. now apply H2.
Qed.

(** X13. [Allocate] is first fit: it answers the first block, in the
    order of the free list, that is large enough for the rounded
    request, and the null offset when the list has none. *)
Theorem Allocate_is_first_fit st L n k nodes :
  reachable st L -> usable st -> 0 < n <= 2 ^ 64 - 192 ->
  free_list k st = Done nodes ->
  exists st',
    Allocate (length nodes) n st =
      Done (first_fit_answer (required_total_size n) nodes, st').
Proof.
  intros Hr Hu Hn Hw.
  destruct (reachable_Heap _ _ Hr (or_introl Hu)) as (bs & fl & H).
  pose proof (heap_rep _ _ _ _ H) as HR.
  pose proof (Rep_Geo _ _ _ _ HR) as HG.
  unfold free_list in Hw. rewrite (rep_head _ _ _ _ HR) in Hw.
  destruct (free_nodes_Rep st _ bs fl [] k nodes HR Hw) as [Em Hall].
  assert (Hlen : length nodes = length fl) by (rewrite <- Em; now rewrite length_map).
  unfold first_fit_answer, sizeof_BlockHeader.
  destruct (Allocate_precise (length nodes) n st _ bs fl HR (heap_lock _ _ _ _ H) Hn)
    as [[Hsm E]|(l1 & x & l2 & bs1 & s & bs2 & st' & Efl & -> & Hsm & Hs & E & _)].
  { left. lia. }
  - exists st. rewrite E, find_fails; [reflexivity|].
    rewrite <- Em in Hsm. eapply nodes_too_small; eassumption.
  - exists st'. rewrite E. rewrite Efl in Em.
    apply map_eq_app in Em as (n1 & n2' & -> & E1 & E2).
    apply map_eq_cons in E2 as (y & n2 & -> & Ey & E2).
    apply Forall_app in Hall as [Hall1 Hall2]. apply Forall_cons in Hall2 as [Hy _].
    rewrite Ey in Hy.
    destruct (geo_block_unique _ _ _ _ _ _ _ _ HG Hy (In_mid _ _ _)) as [Es _].
    rewrite find_passes; [now rewrite Ey| |lia].
    rewrite <- E1 in Hsm. eapply nodes_too_small; eassumption.
Qed.

Lemma Allocate_is_first_fit_witness :
  exists st',
    Allocate (length [(576, 512)]) 100 served_twice_1024 =
      Done (first_fit_answer (required_total_size 100) [(576, 512)], st').
Proof.
  apply (Allocate_is_first_fit served_twice_1024 [384; 128] 100 1).
  - exact reachable_served_twice_1024.
  - split; vm_compute; [reflexivity|discriminate].
  - lia.
  - vm_compute. reflexivity.
Defined.

(** *** Rounding and construction *)

(** X1. For a request of at most [2^64 - 192] bytes nothing wraps: the
    rounded size is the payload rounded up to a multiple of 64, plus 128;
    it is a multiple of 64 and exceeds the request by 128 to 191 bytes. *)
Theorem required_total_size_bounds n :
  0 < n <= 2 ^ 64 - 192 ->
  required_total_size n = 64 * ((n + 63) / 64) + 128 /\
  required_total_size n mod 64 = 0 /\
  n + 128 <= required_total_size n <= n + 191.
Proof.
  intros Hn. split; [now apply required_total_size_ok|].
  split; [now apply required_total_size_grid|].
  rewrite required_total_size_ok by assumption.
  pose proof (Z.div_mod (n + 63) 64 ltac:(lia)).
  pose proof (Z.mod_pos_bound (n + 63) 64 ltac:(lia)). lia.
Qed.

Lemma required_total_size_bounds_witness :
  required_total_size 100 = 64 * ((100 + 63) / 64) + 128 /\
  required_total_size 100 mod 64 = 0 /\
  100 + 128 <= required_total_size 100 <= 100 + 191.
Proof. apply (required_total_size_bounds 100). lia. Defined.

(** X2. What the constructor does with a region of [T] bytes at address
    [B]: with fewer bytes than the alignment adjustment, or with 72 to 79
    bytes after it, it writes outside the region; with fewer than 72 after
    it, it leaves the allocator without a first block; otherwise the
    rest, less one byte when odd, becomes one free block. *)
Theorem construct_outcome B T O contents :
  0 <= B -> 0 <= T -> B + T <= 2 ^ 64 -> 0 <= O -> O + T < 2 ^ 64 ->
  construct B T O contents =
    if T <? adjustment B then OutOfBounds
    else if T - adjustment B <? 72 then Done (mkSlab B T O 0 None false contents)
    else if T - adjustment B <? 80 then OutOfBounds
    else Done (init_state (mkSlab B T O 0 None false contents) (O + adjustment B)
                 (T - adjustment B - (T - adjustment B) mod 2)).
Proof.
  intros HB HT HBT HO HOT.
  destruct (Z.ltb_spec T (adjustment B)) as [Hshort|Hge].
  { now apply construct_short. }
  destruct (Z.ltb_spec (T - adjustment B) 72) as [Hsmall|Hbig].
  { now apply construct_small. }
  rewrite construct_run by assumption.
  destruct (Z_le_gt_dec (adjustment B + 80) T), (Z.ltb_spec (T - adjustment B) 80);
    try reflexivity; lia.
Qed.

Lemma construct_outcome_witness :
  construct 65537 142 64 (fun _ => 0) =
    if 142 <? adjustment 65537 then OutOfBounds
    else if 142 - adjustment 65537 <? 72
         then Done (mkSlab 65537 142 64 0 None false (fun _ => 0))
    else if 142 - adjustment 65537 <? 80 then OutOfBounds
    else Done (init_state (mkSlab 65537 142 64 0 None false (fun _ => 0))
                 (64 + adjustment 65537)
                 (142 - adjustment 65537 - (142 - adjustment 65537) mod 2)).
Proof. apply (construct_outcome 65537 142 64 (fun _ => 0)); lia. Defined.

(** *** The free list *)

(** The walk over a free list of [n] nodes ends within [n] rounds. *)
Lemma free_nodes_total st first bs : forall l l0 k,
  Rep st first bs (l0 ++ l) -> (length l <= k)%nat ->
  exists nodes, free_nodes k st (hd 0 l) = Done nodes.
Proof.
  induction l as [|x l IH]; intros l0 k HR Hk.
  - cbn [hd]. exists []. destruct k; reflexivity.
  - cbn [hd length] in *.
    assert (Hin : In x (l0 ++ x :: l)) by (apply in_or_app; right; now left).
    destruct (perm_free _ _ _ _ _ HR Hin) as (s & Hb).
    apply in_split in Hb as (bs1 & bs2 & ->).
    destruct (rep_node _ _ _ _ _ _ _ _ HR) as (Hx & Hto & Hx64 & _).
    pose proof (rep_params _ _ _ _ HR) as Hp. pose proof Hp as (P1 & P2 & P3 & P4 & P5).
    destruct k as [|k]; [lia|]. cbn [free_nodes].
    destruct (Z.eqb_spec x 0) as [|_]; [lia|].
    rewrite (GetPtr_at st st Hp (same_params_refl _)) by lia.
    rewrite (GetSize_at st st Hp (same_params_refl _)) by lia.
    rewrite Hto, word_size by lia. cbn [bind].
    rewrite (GetPayload_addr st Hp) by lia.
    unfold next_field.
    rewrite (load_at st st Hp (same_params_refl _)) by lia.
    cbn [bind]. rewrite Hx64.
    assert (HR2 : Rep st first (bs1 ++ (x, s, true) :: bs2) ((l0 ++ [x]) ++ l))
      by now rewrite <- app_assoc.
    destruct (IH _ k HR2 ltac:(lia)) as (rest & E).
    rewrite E. cbn [bind]. eauto.
Qed.

(** X14. The free list holds the free blocks and nothing else: in
    every reachable state of a usable region the walk along the next
    links ends, it meets no block twice, and the blocks it meets, with
    the sizes their headers give, are exactly the free blocks of the
    heap. *)
Theorem free_list_holds_the_free_blocks st L :
  reachable st L -> usable st ->
  exists bs nodes,
    (forall k, (length bs < k)%nat -> heap_blocks k st = Done bs) /\
    (forall k, (length nodes <= k)%nat -> free_list k st = Done nodes) /\
    (length nodes <= length bs)%nat /\
    NoDup (map fst nodes) /\
    (forall o s, In (o, s) nodes <-> In (o, s, true) bs).
Proof.
  intros Hr Hu.
  destruct (reachable_Heap _ _ Hr (or_introl Hu)) as (bs & fl & H).
  pose proof (heap_rep _ _ _ _ H) as HR.
  pose proof (Rep_Geo _ _ _ _ HR) as HG.
  destruct (free_nodes_total st _ bs fl [] (length fl) HR (le_n _)) as (nodes & Hw).
  destruct (free_nodes_Rep st _ bs fl [] _ nodes HR Hw) as [Em Hall].
  assert (Hlen : length nodes = length fl) by (rewrite <- Em; now rewrite length_map).
  exists bs, nodes. conj.
  - intros k Hk. eapply heap_blocks_Rep; eassumption.
  - intros k Hk. unfold free_list. rewrite (rep_head _ _ _ _ HR).
    destruct (free_nodes_total st _ bs fl [] k HR ltac:(lia)) as (nodes' & Hw').
    rewrite Hw'. f_equal.
    destruct (free_nodes_Rep st _ bs fl [] _ nodes' HR Hw') as [Em' Hall'].
    clear - Em Em' Hall Hall' HG.
    rewrite <- Em in Em'. clear Em.
    revert nodes' Em' Hall'. induction nodes as [|[o s] nodes IH]; intros [|[o' s'] nodes'] E A';
      cbn [map fst] in E; try discriminate; [reflexivity|].
    injection E as -> E.
    apply Forall_cons in Hall as [Hy Hall]. apply Forall_cons in A' as [Hy' A'].
    cbn [fst snd] in Hy, Hy'.
    destruct (geo_block_unique _ _ _ _ _ _ _ _ HG Hy Hy') as [-> _].
    f_equal. now apply IH.
  - rewrite Hlen. eapply free_length; eassumption.
  - rewrite Em. eapply rep_NoDup; eassumption.
  - intros o s. split.
    + intros Hin. rewrite List.Forall_forall in Hall. exact (Hall _ Hin).
    + intros Hin.
      assert (Ho : In o (map fst nodes)).
      { rewrite Em. apply (Permutation_in _ (Permutation_sym (rep_perm _ _ _ _ HR))).
        apply In_free_offsets. eauto. }
      apply in_map_iff in Ho as ([o' s'] & Eo & Hin'). cbn [fst] in Eo. subst o'.
      rewrite List.Forall_forall in Hall. pose proof (Hall _ Hin') as Hb. cbn [fst snd] in Hb.
      destruct (geo_block_unique _ _ _ _ _ _ _ _ HG Hin Hb) as [-> _]. exact Hin'.
Qed.

Lemma free_list_holds_the_free_blocks_witness :
  exists bs nodes,
    (forall k, (length bs < k)%nat -> heap_blocks k served_twice_1024 = Done bs) /\
    (forall k, (length nodes <= k)%nat -> free_list k served_twice_1024 = Done nodes) /\
    (length nodes <= length bs)%nat /\
    NoDup (map fst nodes) /\
    (forall o s, In (o, s) nodes <-> In (o, s, true) bs).
Proof.
  apply (free_list_holds_the_free_blocks served_twice_1024 [384; 128]).
  - exact reachable_served_twice_1024.
  - split; vm_compute; [reflexivity|discriminate].
Defined.

(** *** Requests on a region too small to be used *)

Section FreshSmall.
Variables (B T O : Z) (contents : memory) (adj E : Z).
Hypothesis HB : 0 <= B.
Hypothesis HBT : B + T <= 2 ^ 64.
Hypothesis HO : 0 <= O.
Hypothesis HOT : O + T < 2 ^ 64.
Hypothesis Hadj : 0 <= adj <= 63.
Hypothesis Hroom : adj + 80 <= T.
Hypothesis EvE : E mod 2 = 0.
Hypothesis HE : T - adj - 1 <= E <= T - adj.

Local Abbreviation st0 := (mkSlab B T O 0 None false contents).
Local Abbreviation st := (init_state st0 (O + adj) E).

(** With its first block at the null offset, or smaller than 128 bytes,
    a request is answered with the null offset after one look at most. *)
Lemma Allocate_init_small :
  O + adj = 0 \/ E < 128 ->
  forall fuel n, 0 < n <= 2 ^ 64 - 192 -> Allocate (S fuel) n st = Done (0, st).
Proof using HB HBT HO HOT Hroom Hadj HE EvE.
  intros Hdead fuel n Hn0.
  pose proof (init_params B T O contents adj E HB HBT HO HOT Hadj Hroom) as Hp.
  pose proof (init_size T O adj E HO HOT Hadj Hroom EvE HE) as [HE79 HE2].
  pose proof (init_header B T O contents adj E HB HBT HO HOT Hadj Hroom EvE HE) as Hh.
  pose proof (init_next B T O contents adj E HB HBT HO HOT Hadj Hroom EvE HE) as Hn.
  assert (PO : m_base_offset st = O) by reflexivity.
  assert (PT : m_total_size st = T) by reflexivity.
  unfold Allocate.
  destruct (Z.eqb_spec n 0) as [|_]; [lia|].
  destruct (required_total_size_even n Hn0) as [_ Hreq].
  unfold lock. change (m_lock st) with false. cbn [bind].
  change (m_free_list_head_offset (set_lock st true)) with (O + adj).
  assert (Hs : same_params st (set_lock st true)) by apply same_params_set_lock, same_params_refl.
  destruct (Z.eq_dec (O + adj) 0) as [E0|N0].
  - rewrite E0, first_fit_null. cbn [bind fst snd].
    now rewrite unlock_lock by reflexivity.
  - cbn [first_fit]. destruct (Z.eqb_spec (O + adj) 0) as [|_]; [lia|].
    rewrite (GetPtr_at st _ Hp Hs) by lia.
    rewrite (GetSize_at st _ Hp Hs) by lia.
    rewrite rd_set_lock, Hh, word_size by lia. cbn [bind].
    destruct (Z.leb_spec (required_total_size n) E) as [|_]; [lia|].
    rewrite (GetPayload_addr st Hp) by lia. unfold next_field.
    rewrite (load_at st _ Hp Hs) by lia. cbn [bind].
    rewrite rd_set_lock, Hn, first_fit_null. cbn [bind fst snd].
    now rewrite unlock_lock by reflexivity.
Qed.
End FreshSmall.

(** In a reachable state of a region that is not usable, every request
    is answered with the null offset, and nothing changes. *)
Lemma reachable_dead_Allocate st L :
  reachable st L -> ~ usable st ->
  forall fuel n, 0 < n <= 2 ^ 64 - 192 -> Allocate (S fuel) n st = Done (0, st).
Proof.
  induction 1 as [B T O contents st HB HT HBT HO HOT Hc
                 |st L fuel0 n0 p st' Hr IH Hn Ha
                 |st L p st' Hr IH Hin Hf
                 |st L st' Hr IH Hf
                 |st L p st' Hr IH Hfree Hf]; intros Hnu.
  - pose proof (adjustment_range B ltac:(lia)) as Hadj.
    destruct (Z_lt_le_dec T (adjustment B)) as [Hshort|Hge].
    { rewrite construct_short in Hc by assumption. discriminate. }
    destruct (Z_lt_le_dec (T - adjustment B) 72) as [Hsmall|Hbig].
    { rewrite construct_small in Hc by assumption. injection Hc as <-.
      intros fuel n Hn. now apply Allocate_empty. }
    rewrite construct_run in Hc by assumption.
    destruct (Z_le_gt_dec (adjustment B + 80) T) as [Hroom|]; [|discriminate].
    injection Hc as <-.
    set (adj := adjustment B) in *.
    set (E := T - adj - (T - adj) mod 2) in *.
    pose proof (Z.mod_pos_bound (T - adj) 2 ltac:(lia)) as Hm.
    assert (HE : T - adj - 1 <= E <= T - adj) by (unfold E; lia).
    assert (EvE : E mod 2 = 0).
    { unfold E. rewrite Zminus_mod, Z.mod_mod, Z.sub_diag by lia. reflexivity. }
    assert (EE : E = T - adj - (T - adj) mod 2) by reflexivity.
    clearbody E.
    set (st := init_state (mkSlab B T O 0 None false contents) (O + adj) E) in *.
    assert (Hfo : first_offset st = O + adj) by reflexivity.
    assert (Hus : usable_size st = E) by (rewrite EE; reflexivity).
    apply Allocate_init_small; try assumption.
    destruct (Z_lt_le_dec 0 (O + adj)) as [Hpos|Hz]; [|left; lia].
    destruct (Z_le_gt_dec 128 E) as [Hbig'|Hsmall']; [|right; lia].
    exfalso. apply Hnu. unfold usable. rewrite Hfo, Hus. lia.
  - destruct (reachable_Inv' _ _ Hr) as [(HD & -> & Hnu0)|(Hu & bs & fl & H)].
    + assert (E : st' = st).
      { destruct (Z.eq_dec n0 0) as [->|Hn0]; [now injection Ha as _ <-|].
        destruct HD as (_ & Hall & _).
        assert (Hn' : 0 < n0 <= 2 ^ 64 - 192) by lia.
        now pose proof (Hall _ _ _ Hn' Ha) as [= _ ->]. }
      subst st'. now apply IH.
    + exfalso. apply Hnu.
      destruct (Z.eq_dec n0 0) as [->|Hn0]; [now injection Ha as _ <-|].
      assert (Hn' : 0 < n0 <= 2 ^ 64 - 192) by lia.
      destruct (Heap_allocate _ _ _ _ _ _ _ _ H Hn' Ha)
        as [(_ & -> & _)|(l1 & x & l2 & bs1 & s & bs2 & _ & _ & _ & _ & _ & Hsp & _)];
        [exact Hu|eapply usable_same; eassumption].
  - destruct (reachable_Inv' _ _ Hr) as [(HD & -> & Hnu0)|(Hu & bs & fl & H)];
      [contradiction|].
    exfalso. apply Hnu.
    destruct (Heap_free _ _ _ _ _ H Hin)
      as (bs1 & s & bs2 & _ & [(_ & _ & E)|(st'' & E & Hsp & _)]);
      rewrite E in Hf; [discriminate|]. injection Hf as <-.
    eapply usable_same; eassumption.
  - injection Hf as <-. now apply IH.
  - rewrite (Free_marked_free st p (Inv'_unlocked _ _ (reachable_Inv' _ _ Hr)) Hfree) in Hf.
    injection Hf as <-. now apply IH.
Qed.

(** With more rounds than the heap has blocks, a request returns. *)
Lemma Allocate_returns st L fuel n k bs :
  reachable st L -> 0 < n <= 2 ^ 64 - 192 ->
  heap_blocks k st = Done bs -> (length bs < fuel)%nat ->
  exists p st1, Allocate fuel n st = Done (p, st1).
Proof.
  intros Hr Hn Hw Hfuel.
  destruct (reachable_Inv' _ _ Hr) as [(HD & -> & Hnu)|(Hu & bs0 & fl & H)].
  - destruct fuel as [|fuel]; [lia|]. exists 0, st.
    now apply (reachable_dead_Allocate _ _ Hr Hnu).
  - pose proof (heap_rep _ _ _ _ H) as HR.
    rewrite (heap_blocks_unique _ _ _ _ _ _ HR Hw) in *.
    pose proof (free_length _ _ _ _ HR) as Hlen.
    destruct (Allocate_precise fuel n st _ bs0 fl HR (heap_lock _ _ _ _ H) Hn)
      as [[_ E]|(l1 & x & l2 & bs1 & s & bs2 & st' & _ & _ & _ & _ & E & _)];
      [left; lia|eauto..].
Qed.

End SlabSpec.

(** ** The record append *)

Module PipelineSpec.
Import Pipeline.

(** With all lanes equal the quotient is 0/0 (or worse), not a number, and
    its conversion to [int] is undefined. *)
Lemma quantize_lane_flat (v : spec_float) : quantize_lane v v v = None.
Proof.
  unfold quantize_lane, fsub, fdiv.
  assert (H : SFsub prec emax v v = S754_zero false \/ SFsub prec emax v v = S754_nan).
  { destruct v as [[]|[]| |s m e]; simpl; auto.
    left. rewrite Z.min_id, Z.sub_diag. reflexivity. }
  destruct H as [-> | ->]; reflexivity.
Qed.

(** A lane that is defined is the clamped, shifted, rounded quotient. *)
Lemma quantize_lane_formula (v min_val max_val : spec_float) (q : Z) :
  quantize_lane v min_val max_val = Some q ->
  exists r,
    to_int (fround (fmul (fdiv (fsub v min_val) (fsub max_val min_val)) f255)) = Some r /\
    q = clamp (-128) 127 (r - 128).
Proof.
  unfold quantize_lane, clamp.
  destruct (to_int _) as [r|]; [|discriminate].
  destruct (Z.ltb_spec (r - 128) (- 2 ^ 31)); [discriminate|].
  intros [= <-]. exists r. split; [reflexivity|].
  destruct (Z.ltb_spec (r - 128) (-128));
    [destruct (Z.ltb_spec 127 (-128)) | destruct (Z.ltb_spec 127 (r - 128))]; lia.
Qed.

Lemma quantize_lane_range (v min_val max_val : spec_float) (q : Z) :
  quantize_lane v min_val max_val = Some q -> -128 <= q <= 127.
Proof.
  intros H. apply quantize_lane_formula in H as (r & _ & ->). unfold clamp. lia.
Qed.

(** The dense vector has [VECTOR_DIM] lanes. *)
Lemma length_vectorize (term_counts : list (Z * Z)) :
  length (vectorize term_counts) = 256%nat.
Proof.
  unfold vectorize.
  assert (H : forall tcs (d : list spec_float),
            length (fold_left
              (fun dense_vec tc =>
                 alter (fun x => fadd x (of_int (snd tc)))
                       (Z.to_nat (fst tc mod VECTOR_DIM)) dense_vec) tcs d) = length d).
  { induction tcs as [|tc tcs IH]; intros d; [reflexivity|].
    cbn [fold_left]. rewrite IH. apply length_alter. }
  rewrite H. apply length_replicate.
Qed.

(** Where the store to [head_offset] sits in an append. *)
Lemma record_append_head_store (mo : memory_order) (B h : Z)
    (scale bias : spec_float) (lanes : list Z) :
  length lanes = 256%nat ->
  record_append mo B h scale bias lanes !! 260%nat = Some (Store64 (B + 16) (h + 264) mo).
Proof.
  intros Hlen. unfold record_append.
  rewrite lookup_app_r by (simpl; lia).
  rewrite lookup_app_r by (rewrite length_imap; simpl; lia).
  rewrite length_imap, Hlen. reflexivity.
Qed.

(** *** Runs inside the arena *)

Section Arena.
Variable os : Ghost.Platform.
Variable nan_bits : Z.
Variable B : Z.
Hypothesis mprotect_succeeds : forall page, Ghost.mprotect_returns os page = 0.
Hypothesis B_pos : 0 < B.
Hypothesis B_room : B + Ghost.GHOST_SPACE_SIZE < 2 ^ 64.

(** An access inside the reservation goes through and leaves the
    contents alone. *)
Lemma access_inside (w : world) (addr n : Z) :
  Ghost.m_base_addr (arena w) = B -> 1 <= n ->
  B <= addr -> addr + n <= B + Ghost.GHOST_SPACE_SIZE ->
  exists st1,
    access os addr n w = Go tt (mkWorld st1 (effects w)) /\
    Ghost.ram st1 = Ghost.ram (arena w) /\ Ghost.m_base_addr st1 = B.
Proof using mprotect_succeeds B_pos B_room.
  intros Hb Hn Hlo Hhi. unfold access.
  destruct (GhostSpec.touch_inside os mprotect_succeeds (arena w) addr)
    as (st1 & E1 & R1 & B1); [lia..|].
  rewrite E1. cbn [Ghost.andThen].
  assert (HS : 0 < Ghost.GHOST_SPACE_SIZE) by reflexivity.
  rewrite wrap64_small by lia.
  destruct (GhostSpec.touch_inside os mprotect_succeeds st1 (addr + (n - 1)))
    as (st2 & E2 & R2 & B2); [lia..|].
  rewrite E2. exists st2. split; [reflexivity|]. split; congruence.
Qed.

(** A store inside the reservation. *)
Lemma poke_inside (w : world) (addr : Z) (n : nat) (v : Z) (e : event) :
  Ghost.m_base_addr (arena w) = B -> (1 <= n)%nat ->
  B <= addr -> addr + Z.of_nat n <= B + Ghost.GHOST_SPACE_SIZE ->
  exists st1,
    (u <== access os addr (Z.of_nat n) ;; poke addr n v e) w =
      Go tt (mkWorld st1 (effects w ++ [e])) /\
    Ghost.ram st1 = write_le (Ghost.ram (arena w)) addr n v /\
    Ghost.m_base_addr st1 = B.
Proof using mprotect_succeeds B_pos B_room.
  intros Hb Hn Hlo Hhi. unfold next.
  destruct (access_inside w addr (Z.of_nat n)) as (st1 & E & R & B1); [assumption|lia..|].
  rewrite E. unfold poke. cbn [arena effects]. eexists. split; [reflexivity|].
  cbn [set_ram Ghost.ram Ghost.m_base_addr]. now rewrite R.
Qed.

Lemma load_u64_inside (w : world) (addr : Z) (mo : memory_order) :
  Ghost.m_base_addr (arena w) = B ->
  B <= addr -> addr + 8 <= B + Ghost.GHOST_SPACE_SIZE ->
  exists st1,
    load_u64 os addr mo w =
      Go (read64 (Ghost.ram (arena w)) addr) (mkWorld st1 (effects w ++ [Load64 addr mo])) /\
    Ghost.ram st1 = Ghost.ram (arena w) /\ Ghost.m_base_addr st1 = B.
Proof using mprotect_succeeds B_pos B_room.
  intros Hb Hlo Hhi. unfold load_u64, next.
  destruct (access_inside w addr 8) as (st1 & E & R & B1); [assumption|lia..|].
  rewrite E. cbn [arena effects]. exists st1. now rewrite R.
Qed.

(** The lane loop, when every lane left is defined: one byte per lane,
    in order, and no other byte changed. *)
Lemma quantize_loop_runs (dense_vec : list spec_float) (q_dest : Z)
    (min_val max_val : spec_float) (n : nat) :
  forall (i : Z) (w : world),
    Ghost.m_base_addr (arena w) = B -> 0 <= i ->
    B <= q_dest -> q_dest + i + Z.of_nat n <= B + Ghost.GHOST_SPACE_SIZE ->
    (Z.to_nat i + n = length dense_vec)%nat ->
    (forall v, In v dense_vec -> quantize_lane v min_val max_val <> None) ->
    exists st1 lanes,
      quantize_loop os n i dense_vec q_dest min_val max_val w =
        Go tt (mkWorld st1
                 (effects w ++ imap (fun j q => StoreI8 (q_dest + i + Z.of_nat j) q) lanes)) /\
      Ghost.m_base_addr st1 = B /\
      Forall2 (fun v q => quantize_lane v min_val max_val = Some q)
              (drop (Z.to_nat i) dense_vec) lanes /\
      (forall a, a < q_dest + i \/ q_dest + i + Z.of_nat n <= a ->
                 byte_at (Ghost.ram st1) a = byte_at (Ghost.ram (arena w)) a) /\
      (forall j q, lanes !! j = Some q ->
                   byte_at (Ghost.ram st1) (q_dest + i + Z.of_nat j) = q mod 256).
Proof using mprotect_succeeds B_pos B_room.
  induction n as [|n IH]; intros i w Hb Hi Hlo Hhi Hlen Hdef.
  - exists (arena w), []. cbn [quantize_loop imap]. rewrite app_nil_r.
    destruct w; cbn [arena effects]. split; [reflexivity|]. split; [assumption|].
    split; [|split; [reflexivity|intros j q H; discriminate H]].
    rewrite drop_ge by lia. constructor.
  - cbn [quantize_loop].
    destruct (Z.ltb_spec i (Z.of_nat (length dense_vec))) as [_|]; [|lia].
    assert (Hx : is_Some (dense_vec !! Z.to_nat i)) by (apply lookup_lt_is_Some; lia).
    destruct Hx as [v Hv]. rewrite Hv. change (default f0 (Some v)) with v.
    destruct (quantize_lane v min_val max_val) as [q|] eqn:Eq.
    2:{ exfalso. apply (Hdef v); [|exact Eq].
        apply list_elem_of_In, (list_elem_of_lookup_2 _ _ _ Hv). }
    unfold next at 1. unfold store_i8.
    rewrite wrap64_small by (unfold Ghost.GHOST_SPACE_SIZE in *; lia).
    destruct (poke_inside w (q_dest + i) 1 (q mod 256) (StoreI8 (q_dest + i) q))
      as (st1 & E & R & B1); [assumption|lia..|].
    change (Z.of_nat 1) with 1 in E. rewrite E.
    destruct (IH (i + 1) (mkWorld st1 (effects w ++ [StoreI8 (q_dest + i) q])))
      as (st2 & lanes & E2 & B2 & F2 & O2 & L2);
      [cbn [arena]; assumption|lia|assumption|lia|lia|assumption|].
    cbn [arena effects] in E2, O2.
    exists st2, (q :: lanes). rewrite E2. cbn [effects imap]. split.
    { rewrite <- app_assoc. cbn [app]. do 3 f_equal.
      change (Z.of_nat 0) with 0. rewrite Z.add_0_r. f_equal.
      apply imap_ext. intros j x _. cbn. f_equal. lia. }
    split; [assumption|]. split; [|split].
    + rewrite (drop_S _ _ _ Hv). constructor; [exact Eq|].
      replace (S (Z.to_nat i)) with (Z.to_nat (i + 1)) by lia. exact F2.
    + intros a Ha. rewrite O2 by lia. rewrite R.
      apply SlabSpec.byte_at_write_le_other. lia.
    + intros [|j] x Hx; cbn [lookup] in Hx.
      * injection Hx as ->. rewrite Z.add_0_r. rewrite O2 by lia. rewrite R.
        unfold byte_at, write_le.
        destruct (Z.leb_spec (q_dest + i) (q_dest + i)); [|lia].
        destruct (Z.ltb_spec (q_dest + i) (q_dest + i + Z.of_nat 1)); [|lia].
        cbn [andb]. rewrite Z.sub_diag. change (256 ^ 0) with 1.
        rewrite Z.div_1_r. now rewrite !Z.mod_mod by lia.
      * replace (q_dest + i + Z.of_nat (S j)) with (q_dest + (i + 1) + Z.of_nat j) by lia.
        now apply L2.
Qed.

(** Reads of the header fields and of the record after writes elsewhere. *)
Lemma read_le_two_writes (m : memory) (a1 a2 : Z) (n1 n2 : nat) (v1 v2 : Z) (b : Z) (n : nat) :
  b + Z.of_nat n <= a1 \/ a1 + Z.of_nat n1 <= b ->
  b + Z.of_nat n <= a2 \/ a2 + Z.of_nat n2 <= b ->
  read_le (write_le (write_le m a1 n1 v1) a2 n2 v2) b n = read_le m b n.
Proof using Type. intros H1 H2. now rewrite !read_le_write_le_outside. Qed.

(** C3, amended. On a reservation at [B] where committing a page
    succeeds, for a non-empty tokenization whose lanes all have a defined
    quantization, with the header saying [head_offset = h] for an [h]
    that leaves the header alone and the record inside the arena
    ([24 <= h], [h + 264 <= GHOST_SPACE_SIZE]): [ProcessDocument] returns;
    it writes the record (scale, bias, the 256 quantized lanes; 264
    bytes) from [B + h] on, then stores [head_offset = h + 264] with a
    plain, non-atomic store, and last adds 1 to [vector_count] with an
    atomic release [fetch_add]; the arena then holds the record at
    [B + h], the new head offset and the new count. *)
Theorem process_document_appends_record (term_counts : list (Z * Z))
    (st : Ghost.MemoryManager) (h : Z) :
  term_counts <> [] ->
  Ghost.m_base_addr st = B ->
  read64 (Ghost.ram st) (B + 16) = h ->
  24 <= h -> h + 264 <= Ghost.GHOST_SPACE_SIZE ->
  lanes_defined (vectorize term_counts) = true ->
  exists lanes w',
    ProcessDocument os nan_bits term_counts st = (Returned, w') /\
    length lanes = 256%nat /\
    Forall (fun q => -128 <= q <= 127) lanes /\
    Forall2 (fun v q => quantize_lane v (fst (min_max (vectorize term_counts)))
                                      (snd (min_max (vectorize term_counts))) = Some q)
            (vectorize term_counts) lanes /\
    effects w' =
      record_append NonAtomic B h
        (scale_of (fst (min_max (vectorize term_counts)))
                  (snd (min_max (vectorize term_counts))))
        (fst (min_max (vectorize term_counts))) lanes /\
    record_at nan_bits (Ghost.ram (arena w')) (B + h)
        (scale_of (fst (min_max (vectorize term_counts)))
                  (snd (min_max (vectorize term_counts))))
        (fst (min_max (vectorize term_counts))) lanes /\
    read64 (Ghost.ram (arena w')) (B + 16) = h + 264 /\
    read64 (Ghost.ram (arena w')) (B + 8) = wrap64 (read64 (Ghost.ram st) (B + 8) + 1).
Proof using mprotect_succeeds B_pos B_room.
  intros Hne Hb Hh Hh24 Hfit Hdef.
  assert (HS : Ghost.GHOST_SPACE_SIZE = 1099511627776) by reflexivity.
  pose proof (length_vectorize term_counts) as Hlen.
  unfold lanes_defined in Hdef. rewrite forallb_forall in Hdef.
  unfold ProcessDocument.
  destruct term_counts as [|tc rest]; [contradiction|].
  set (dv := vectorize (tc :: rest)) in *.
  rewrite Hb. destruct (Z.eqb_spec B 0) as [|_]; [lia|].
  destruct (min_max dv) as [mn mx]. cbn [fst snd] in *.
  assert (Hdef' : forall v, In v dv -> quantize_lane v mn mx <> None).
  { intros v Hv E. specialize (Hdef v Hv). rewrite E in Hdef. discriminate. }
  unfold Ghost.head_offset_at, Ghost.vector_count_at.
  rewrite !(wrap64_small (B + 16)), !(wrap64_small (B + 8)) by lia.
  set (sb := float_bits nan_bits (scale_of mn mx)).
  set (bb := float_bits nan_bits mn).
  (* the first read of the head offset *)
  destruct (load_u64_inside (mkWorld st []) (B + 16) NonAtomic) as (s1 & E1 & R1 & B1);
    [assumption|lia..|].
  cbn [arena effects app] in E1, R1.
  unfold next at 1. rewrite E1, Hh.
  rewrite (wrap64_small (B + h)) by lia.
  rewrite (wrap64_small (B + h + 4)) by lia.
  rewrite (wrap64_small (B + h + 4 + 4)) by lia.
  (* scale and bias *)
  destruct (poke_inside (mkWorld s1 [Load64 (B + 16) NonAtomic]) (B + h) 4 sb
              (StoreF32 (B + h) (scale_of mn mx))) as (s2 & E2 & R2 & B2);
    [assumption|lia..|].
  cbn [arena effects app] in E2, R2. change (Z.of_nat 4) with 4 in E2.
  unfold next at 1. unfold store_f32 at 1. fold sb. rewrite E2.
  destruct (poke_inside (mkWorld s2 [Load64 (B + 16) NonAtomic; StoreF32 (B + h) (scale_of mn mx)])
              (B + h + 4) 4 bb (StoreF32 (B + h + 4) mn)) as (s3 & E3 & R3 & B3);
    [assumption|lia..|].
  cbn [arena effects app] in E3, R3. change (Z.of_nat 4) with 4 in E3.
  unfold next at 1. unfold store_f32 at 1. fold bb. rewrite E3.
  (* the lanes *)
  destruct (quantize_loop_runs dv (B + h + 4 + 4) mn mx 256 0
              (mkWorld s3 [Load64 (B + 16) NonAtomic; StoreF32 (B + h) (scale_of mn mx);
                           StoreF32 (B + h + 4) mn]))
    as (s4 & lanes & E4 & B4 & F4 & O4 & L4);
    [assumption|lia|lia|change (Z.of_nat 256) with 256; lia|rewrite Hlen; reflexivity|assumption|].
  cbn [arena effects] in E4, O4. change (drop (Z.to_nat 0) dv) with dv in F4.
  change (Z.to_nat VECTOR_DIM) with 256%nat.
  unfold next at 1. rewrite E4.
  assert (Hll : length lanes = 256%nat).
  { apply Forall2_length in F4. congruence. }
  (* the second read of the head offset *)
  set (tr4 := [Load64 (B + 16) NonAtomic; StoreF32 (B + h) (scale_of mn mx);
               StoreF32 (B + h + 4) mn] ++
              imap (fun j q => StoreI8 (B + h + 4 + 4 + 0 + Z.of_nat j) q) lanes) in *.
  destruct (load_u64_inside (mkWorld s4 tr4) (B + 16) NonAtomic) as (s5 & E5 & R5 & B5);
    [assumption|lia..|].
  cbn [arena effects] in E5, R5.
  assert (Hout : forall b n, b + Z.of_nat n <= B + h ->
            read_le (Ghost.ram s4) b n = read_le (Ghost.ram st) b n).
  { intros b n Hbn. rewrite (read_le_ext (Ghost.ram s3)).
    - rewrite R3, R2, R1. apply read_le_two_writes; lia.
    - intros i Hi. apply O4. lia. }
  assert (Hh' : read64 (Ghost.ram s4) (B + 16) = h).
  { unfold read64. rewrite Hout by (simpl; lia). exact Hh. }
  unfold next at 1. rewrite E5, Hh'.
  change (4 + 4 + VECTOR_DIM) with 264.
  assert (Hh264 : wrap64 (h + 264) = h + 264) by (apply wrap64_small; lia).
  rewrite Hh264.
  (* the store to the head offset *)
  destruct (poke_inside (mkWorld s5 (tr4 ++ [Load64 (B + 16) NonAtomic])) (B + 16) 8 (h + 264)
              (Store64 (B + 16) (h + 264) NonAtomic)) as (s6 & E6 & R6 & B6);
    [assumption|lia..|].
  cbn [arena effects] in E6, R6. change (Z.of_nat 8) with 8 in E6.
  unfold next at 1. unfold store_u64 at 1. rewrite E6.
  (* the counter *)
  destruct (access_inside
              (mkWorld s6 ((tr4 ++ [Load64 (B + 16) NonAtomic]) ++
                           [Store64 (B + 16) (h + 264) NonAtomic])) (B + 8) 8)
    as (s7 & E7 & R7 & B7); [assumption|lia..|].
  cbn [arena effects] in E7, R7.
  unfold next at 1. unfold fetch_add_u64, next. rewrite E7. cbn [arena effects].
  assert (Hc : read64 (Ghost.ram s7) (B + 8) = read64 (Ghost.ram st) (B + 8)).
  { rewrite R7, R6, R5. unfold read64.
    rewrite read_le_write_le_outside by (simpl; lia). apply Hout. simpl. lia. }
  rewrite Hc.
  exists lanes. eexists. split; [reflexivity|]. cbn [arena effects set_ram Ghost.ram].
  split; [exact Hll|]. split.
  { clear - F4. induction F4 as [|v q vs qs Hq _ IH]; constructor;
      [eapply quantize_lane_range; eassumption|assumption]. }
  split; [exact F4|]. split.
  { unfold record_append, tr4. rewrite <- !app_assoc. cbn [app]. do 3 f_equal.
    f_equal. apply imap_ext. intros j q _. cbn. f_equal. lia. }
  rewrite R7, R6, R5. split; [|split].
  - unfold record_at, write64. split; [|split].
    + rewrite read_le_two_writes by (simpl; lia).
      rewrite (read_le_ext (Ghost.ram s3)) by (intros i Hi; apply O4; simpl in Hi; lia).
      rewrite R3, read_le_write_le_outside by (simpl; lia).
      rewrite R2, R1. replace (B + h) with (B + h + 0) at 2 by lia.
      rewrite read_le_write_le_inside by (simpl; lia).
      rewrite Z.div_1_r. reflexivity.
    + rewrite read_le_two_writes by (simpl; lia).
      rewrite (read_le_ext (Ghost.ram s3)) by (intros i Hi; apply O4; simpl in Hi; lia).
      rewrite R3. replace (B + h + 4) with (B + h + 4 + 0) at 2 by lia.
      rewrite read_le_write_le_inside by (simpl; lia).
      rewrite Z.div_1_r. reflexivity.
    + intros i q Hi. apply lookup_lt_Some in Hi as Hlt.
      rewrite !SlabSpec.byte_at_write_le_other by (simpl; lia).
      replace (B + h + 8 + Z.of_nat i) with (B + h + 4 + 4 + 0 + Z.of_nat i) by lia.
      now apply L4.
  - rewrite read64_write64_other by lia.
    change (write_le (Ghost.ram s4) (B + 16) 8 (h + 264))
      with (write64 (Ghost.ram s4) (B + 16) (h + 264)).
    rewrite read64_write64_same. exact Hh264.
  - rewrite read64_write64_same. unfold wrap64. apply Z.mod_mod. lia.
Qed.

End Arena.

Lemma process_document_appends_record_witness :
  exists lanes w',
    ProcessDocument Ghost.linux_4k nan_bits_aarch64 one_term_document Ghost.booted_4k
      = (Returned, w') /\
    length lanes = 256%nat /\
    Forall (fun q => -128 <= q <= 127) lanes /\
    Forall2 (fun v q => quantize_lane v (fst (min_max (vectorize one_term_document)))
                                      (snd (min_max (vectorize one_term_document))) = Some q)
            (vectorize one_term_document) lanes /\
    effects w' =
      record_append NonAtomic 0x7f0000000000 24
        (scale_of (fst (min_max (vectorize one_term_document)))
                  (snd (min_max (vectorize one_term_document))))
        (fst (min_max (vectorize one_term_document))) lanes /\
    record_at nan_bits_aarch64 (Ghost.ram (arena w')) (0x7f0000000000 + 24)
        (scale_of (fst (min_max (vectorize one_term_document)))
                  (snd (min_max (vectorize one_term_document))))
        (fst (min_max (vectorize one_term_document))) lanes /\
    read64 (Ghost.ram (arena w')) (0x7f0000000000 + 16) = 24 + 264 /\
    read64 (Ghost.ram (arena w')) (0x7f0000000000 + 8) =
      wrap64 (read64 (Ghost.ram Ghost.booted_4k) (0x7f0000000000 + 8) + 1).
Proof.
  apply (process_document_appends_record Ghost.linux_4k nan_bits_aarch64 0x7f0000000000).
  - intros page. reflexivity.
  - lia.
  - vm_compute. reflexivity.
  - discriminate.
  - vm_compute. reflexivity.
  - vm_compute. reflexivity.
  - lia.
  - vm_compute. discriminate.
  - vm_compute. reflexivity.
Defined.

(** C3, as stated, fails on the store to [head_offset]: the source writes
    it with a plain [+=], not with a release store. Shown on a document
    with a single term, appended at offset 24 of the arena that
    [initialize] leaves on a platform with 4 KiB pages. *)
Lemma head_offset_store_is_not_release :
  ~ appends_record Release 0x7f0000000000 24
      (effects (snd (ProcessDocument Ghost.linux_4k nan_bits_aarch64 one_term_document
                                     Ghost.booted_4k))).
Proof.
  intros (scale & bias & lanes & Hlen & _ & Htr).
  apply (f_equal (fun tr : list event => tr !! 260%nat)) in Htr.
  rewrite record_append_head_store in Htr by assumption.
  vm_compute in Htr. discriminate.
Qed.

(** An access either ends the run or leaves the contents alone. *)
Lemma access_cases (os : Ghost.Platform) (addr n : Z) (w : world) :
  access os addr n w = Stop Killed w \/
  exists st1, access os addr n w = Go tt (mkWorld st1 (effects w)) /\
              Ghost.ram st1 = Ghost.ram (arena w).
Proof.
  unfold access.
  destruct (Ghost.touch os (arena w) addr) as [s1|] eqn:T1; [|now left].
  cbn [Ghost.andThen].
  destruct (Ghost.touch os s1 (wrap64 (addr + (n - 1)))) as [s2|] eqn:T2; [|now left].
  right. exists s2. split; [reflexivity|].
  apply GhostSpec.touch_keeps in T1 as [R1 _]. apply GhostSpec.touch_keeps in T2 as [R2 _]. congruence.
Qed.

(** On equal lanes the lane loop is over at the first conversion. *)
Lemma flat_loop_undefined (os : Ghost.Platform) (q_dest : Z) (w : world) :
  quantize_loop os (Z.to_nat VECTOR_DIM) 0 (replicate 256 f1) q_dest f1 f1 w =
  Stop Undefined w.
Proof.
  change (Z.to_nat VECTOR_DIM) with (S 255). cbn [quantize_loop].
  replace (if 0 <? Z.of_nat (length (replicate 256 f1))
           then default f0 (replicate 256 f1 !! Z.to_nat 0) else f0) with f1
    by (vm_compute; reflexivity).
  now rewrite quantize_lane_flat.
Qed.

(** C6 at the failing input. The 256 terms of [flat_document] put 1.0 in
    every lane. The stored scale is 1.0, as claimed; but every lane is the
    conversion of 0/0 to [int], which is undefined, so no lane is stored
    as -128. The run never returns: where it is not ended by a fault, it
    is over after the scale and the bias, at the first lane; and it is
    not ended by a fault when these eight bytes lie inside an arena
    whose pages can be committed. *)
Theorem flatline_lanes_are_undefined (os : Ghost.Platform) (nan_bits : Z)
    (st : Ghost.MemoryManager) :
  vectorize flat_document = replicate 256 f1 /\
  min_max (vectorize flat_document) = (f1, f1) /\
  scale_of f1 f1 = f1 /\
  quantize_lane f1 f1 f1 = None /\
  (Ghost.m_base_addr st <> 0 ->
   fst (ProcessDocument os nan_bits flat_document st) <> Returned /\
   (fst (ProcessDocument os nan_bits flat_document st) = Undefined ->
    effects (snd (ProcessDocument os nan_bits flat_document st)) =
      [ Load64 (Ghost.head_offset_at (Ghost.m_base_addr st)) NonAtomic;
        StoreF32 (wrap64 (Ghost.m_base_addr st +
                          read64 (Ghost.ram st)
                                 (Ghost.head_offset_at (Ghost.m_base_addr st)))) f1;
        StoreF32 (wrap64 (wrap64 (Ghost.m_base_addr st +
                                  read64 (Ghost.ram st)
                                         (Ghost.head_offset_at (Ghost.m_base_addr st)))
                          + 4)) f1 ])) /\
  ((forall page, Ghost.mprotect_returns os page = 0) ->
   0 < Ghost.m_base_addr st ->
   Ghost.m_base_addr st + Ghost.GHOST_SPACE_SIZE < 2 ^ 64 ->
   read64 (Ghost.ram st) (Ghost.m_base_addr st + 16) + 8 <= Ghost.GHOST_SPACE_SIZE ->
   fst (ProcessDocument os nan_bits flat_document st) = Undefined).
Proof.
  assert (Hv : vectorize flat_document = replicate 256 f1) by (vm_compute; reflexivity).
  assert (Hm : min_max (replicate 256 f1) = (f1, f1)) by (vm_compute; reflexivity).
  assert (Hs : scale_of f1 f1 = f1) by (vm_compute; reflexivity).
  split; [exact Hv|]. split; [rewrite Hv; exact Hm|].
  split; [exact Hs|]. split; [apply quantize_lane_flat|].
  assert (Hrun : forall w0 : world,
    arena w0 = st -> effects w0 = [] ->
    Ghost.m_base_addr st <> 0 ->
    ProcessDocument os nan_bits flat_document st =
      match
        (current_offset <== load_u64 os (Ghost.head_offset_at (Ghost.m_base_addr st)) NonAtomic ;;
         u <== store_f32 os nan_bits (wrap64 (Ghost.m_base_addr st + current_offset)) f1 ;;
         u <== store_f32 os nan_bits
                 (wrap64 (wrap64 (Ghost.m_base_addr st + current_offset) + 4)) f1 ;;
         Stop (A := unit) Undefined) w0
      with
      | Go _ w => (Returned, w)
      | Stop e w => (e, w)
      end).
  { intros [a0 e0] Ha He HB. cbn [arena effects] in Ha, He. subst a0 e0.
    unfold ProcessDocument.
    change flat_document with ((1, 1) :: tl flat_document) at 1.
    cbv iota. change ((1, 1) :: tl flat_document) with flat_document.
    rewrite Hv, Hm. destruct (Z.eqb_spec (Ghost.m_base_addr st) 0); [contradiction|].
    rewrite Hs. unfold next.
    destruct (load_u64 _ _ _ _) as [h w1|]; [|reflexivity].
    destruct (store_f32 _ _ _ _ _) as [u2 w2|]; [|reflexivity].
    destruct (store_f32 _ _ _ _ _) as [u3 w3|]; [|reflexivity].
    now rewrite flat_loop_undefined. }
  split.
  - intros HB. rewrite (Hrun (mkWorld st []) eq_refl eq_refl HB).
    unfold next, load_u64, store_f32, next, poke.
    destruct (access_cases os (Ghost.head_offset_at (Ghost.m_base_addr st)) 8 (mkWorld st []))
      as [E1|(s1 & E1 & R1)]; rewrite E1; cbn [fst snd arena effects app];
      [split; discriminate|].
    rewrite R1. cbn [Ghost.ram arena].
    match goal with |- context [access os ?a 4 ?w] =>
      destruct (access_cases os a 4 w) as [E2|(s2 & E2 & R2)]; rewrite E2 end;
      cbn [fst snd arena effects app]; [split; discriminate|].
    match goal with |- context [access os ?a 4 ?w] =>
      destruct (access_cases os a 4 w) as [E3|(s3 & E3 & R3)]; rewrite E3 end;
      cbn [fst snd arena effects app]; [split; discriminate|].
    split; [discriminate|]. intros _. reflexivity.
  - intros Hmp HB HW Hh.
    assert (HS : Ghost.GHOST_SPACE_SIZE = 1099511627776) by reflexivity.
    pose proof (read64_range (Ghost.ram st) (Ghost.m_base_addr st + 16)) as Hr.
    rewrite (Hrun (mkWorld st []) eq_refl eq_refl) by lia.
    unfold Ghost.head_offset_at. rewrite wrap64_small by lia.
    set (B := Ghost.m_base_addr st) in *.
    set (h := read64 (Ghost.ram st) (B + 16)) in *.
    destruct (load_u64_inside os B Hmp HB HW (mkWorld st []) (B + 16) NonAtomic)
      as (s1 & E1 & R1 & B1); [reflexivity|lia..|].
    cbn [arena effects app] in E1, R1. fold h in E1.
    unfold next at 1. rewrite E1.
    rewrite (wrap64_small (B + h)) by lia. rewrite (wrap64_small (B + h + 4)) by lia.
    destruct (poke_inside os B Hmp HB HW (mkWorld s1 [Load64 (B + 16) NonAtomic]) (B + h) 4
                (float_bits nan_bits f1) (StoreF32 (B + h) f1)) as (s2 & E2 & R2 & B2);
      [assumption|lia..|].
    change (Z.of_nat 4) with 4 in E2.
    unfold next at 1. unfold store_f32 at 1. rewrite E2.
    destruct (poke_inside os B Hmp HB HW
                (mkWorld s2 (effects (mkWorld s1 [Load64 (B + 16) NonAtomic]) ++
                             [StoreF32 (B + h) f1])) (B + h + 4) 4
                (float_bits nan_bits f1) (StoreF32 (B + h + 4) f1)) as (s3 & E3 & R3 & B3);
      [assumption|lia..|].
    change (Z.of_nat 4) with 4 in E3.
    unfold next at 1. unfold store_f32 at 1. rewrite E3. reflexivity.
Qed.

(** X28. [Ingest] of a text that is not empty sets the cooldown to 20
    and queues the text behind the ones waiting; with 63 texts waiting
    the queue is full, the answer of [push] is not looked at, and the
    text is lost. A text ingested into an empty queue is the next the
    worker takes. *)
Theorem Ingest_queues_or_drops (text : string) (u : ProcessingUnit) :
  RingBuffer.reachable QUEUE_CAPACITY (m_input_queue u) -> text <> ""%string ->
  m_processing_cooldown (Ingest text u) = 20 /\
  (RingBuffer.count QUEUE_CAPACITY (m_input_queue u) = 63 ->
     m_input_queue (Ingest text u) = m_input_queue u) /\
  (RingBuffer.count QUEUE_CAPACITY (m_input_queue u) <> 63 ->
     RingBuffer.contents QUEUE_CAPACITY (m_input_queue (Ingest text u)) =
     RingBuffer.contents QUEUE_CAPACITY (m_input_queue u) ++ [Some text]) /\
  (RingBuffer.count QUEUE_CAPACITY (m_input_queue u) = 0 ->
     fst (AnalysisWorker_poll (Ingest text u)) = Some text).
Proof.
  intros Hq Hne. unfold Ingest.
  destruct (String.eqb_spec text "") as [|_]; [contradiction|].
  cbn [m_processing_cooldown m_input_queue].
  assert (Hk : 0 <= 6 < 64) by lia.
  assert (Hc : QUEUE_CAPACITY = 2 ^ 6) by reflexivity.
  pose proof (RingBufferSpec.count_range QUEUE_CAPACITY 6 Hk Hc (m_input_queue u)) as Hcr.
  change QUEUE_CAPACITY with 64 in Hcr at 2.
  split; [reflexivity|]. split; [|split].
  - intros E.
    now rewrite (RingBufferSpec.push_refused QUEUE_CAPACITY 6 Hk Hc _ text Hq E).
  - intros N.
    now destruct (RingBufferSpec.push_room QUEUE_CAPACITY 6 Hk Hc _ text Hq N) as (_ & E & _).
  - intros E.
    destruct (RingBufferSpec.push_room QUEUE_CAPACITY 6 Hk Hc _ text Hq)
      as (_ & Econt & Ecount); [change (QUEUE_CAPACITY - 1) with 63; lia|].
    unfold AnalysisWorker_poll. cbn [m_input_queue m_processing_cooldown].
    set (q1 := snd (RingBuffer.push QUEUE_CAPACITY text (m_input_queue u))) in *.
    assert (Hq1 : RingBuffer.reachable QUEUE_CAPACITY q1) by now apply RingBuffer.reach_push.
    destruct (RingBufferSpec.pop_empty QUEUE_CAPACITY 6 Hk Hc (m_input_queue u) Hq E)
      as (_ & _ & Hnil).
    destruct (RingBufferSpec.pop_some QUEUE_CAPACITY 6 Hk Hc q1 Hq1) as (x & Hx & Hfst & _);
      [lia|].
    rewrite Econt, Hnil in Hx. cbn [app] in Hx. injection Hx as <- _.
    destruct (RingBuffer.pop QUEUE_CAPACITY q1) as [r q2]. exact Hfst.
Qed.

Lemma Ingest_queues_or_drops_witness :
  m_processing_cooldown
    (Ingest "ghost" (mkPU 0 (RingBuffer.create (replicate 64 ""%string)))) = 20 /\
  (RingBuffer.count QUEUE_CAPACITY
     (m_input_queue (mkPU 0 (RingBuffer.create (replicate 64 ""%string)))) = 63 ->
     m_input_queue (Ingest "ghost" (mkPU 0 (RingBuffer.create (replicate 64 ""%string)))) =
     m_input_queue (mkPU 0 (RingBuffer.create (replicate 64 ""%string)))) /\
  (RingBuffer.count QUEUE_CAPACITY
     (m_input_queue (mkPU 0 (RingBuffer.create (replicate 64 ""%string)))) <> 63 ->
     RingBuffer.contents QUEUE_CAPACITY
       (m_input_queue (Ingest "ghost" (mkPU 0 (RingBuffer.create (replicate 64 ""%string))))) =
     RingBuffer.contents QUEUE_CAPACITY
       (m_input_queue (mkPU 0 (RingBuffer.create (replicate 64 ""%string)))) ++
     [Some "ghost"%string]) /\
  (RingBuffer.count QUEUE_CAPACITY
     (m_input_queue (mkPU 0 (RingBuffer.create (replicate 64 ""%string)))) = 0 ->
     fst (AnalysisWorker_poll
            (Ingest "ghost" (mkPU 0 (RingBuffer.create (replicate 64 ""%string))))) =
     Some "ghost"%string).
Proof.
  apply (Ingest_queues_or_drops "ghost"
           (mkPU 0 (RingBuffer.create (replicate 64 ""%string)))).
  - apply RingBuffer.reach_create. reflexivity.
  - discriminate.
Defined.

End PipelineSpec.

(** ** The tokenizer *)

Module TokenizerSpec.
Import Tokenizer.

Lemma wrap32_small x : 0 <= x < 2 ^ 32 -> wrap32 x = x.
Proof. intros. unfold wrap32. apply Z.mod_small. lia. Qed.

Lemma wrap32_range x : 0 <= wrap32 x < 2 ^ 32.
Proof. unfold wrap32. apply Z.mod_pos_bound. lia. Qed.

Lemma consistent_create : consistent create.
Proof.
  constructor; cbn.
  - lia.
  - lia.
  - reflexivity.
  - intros s id H. rewrite lookup_empty in H. discriminate.
  - intros i s H. destruct i; discriminate.
  - intros id H. lia.
Qed.

(** A token the vocabulary knows keeps its id, and nothing changes. *)
Lemma GetTermID_known token id t :
  m_vocab t !! token = Some id -> GetTermID token t = Some (id, t).
Proof. intros H. unfold GetTermID. now rewrite H. Qed.

(** A new token gets the next id. *)
Lemma GetTermID_new token t id t' :
  consistent t -> m_vocab t !! token = None ->
  GetTermID token t = Some (id, t') ->
  id = m_next_term_id t /\ m_next_term_id t' = id + 1 /\
  m_stopwords t' = m_stopwords t /\
  m_vocab t' = <[token := id]> (m_vocab t) /\
  m_inverse_vocab t' !! Z.to_nat id = Some token /\
  Z.of_nat (length (m_inverse_vocab t')) < 2 ^ 32 /\
  id < Z.of_nat (length (m_inverse_vocab t')) /\
  (forall i, i <> Z.to_nat id ->
     m_inverse_vocab t' !! i = m_inverse_vocab t !! i \/
     (m_inverse_vocab t' !! i = Some ""%string /\ m_inverse_vocab t !! i = None) \/
     (m_inverse_vocab t' !! i = None /\ (Z.to_nat id < i)%nat)).
Proof.
  intros [Hn Hl Hsz Hv Hi Hd] Hnew. unfold GetTermID. rewrite Hnew.
  set (inv := if Z.of_nat (length (m_inverse_vocab t)) <=? m_next_term_id t
              then resize (Z.to_nat (wrap32 (m_next_term_id t + 100))) ""%string
                          (m_inverse_vocab t)
              else m_inverse_vocab t).
  assert (Hlen : Z.of_nat (length inv) < 2 ^ 32).
  { unfold inv. destruct (_ <=? _); [|exact Hl].
    rewrite length_resize. pose proof (wrap32_range (m_next_term_id t + 100)). lia. }
  destruct (Z.ltb_spec (m_next_term_id t) (Z.of_nat (length inv))) as [Hlt|]; [|discriminate].
  intros [= <- <-]. cbn [m_next_term_id m_stopwords m_vocab m_inverse_vocab].
  split; [reflexivity|]. split; [apply wrap32_small; lia|].
  split; [reflexivity|]. split; [reflexivity|].
  split; [apply list_lookup_insert_eq; lia|].
  rewrite length_insert. split; [exact Hlen|]. split; [exact Hlt|].
  intros i Hne. rewrite list_lookup_insert_ne by lia.
  unfold inv in *. destruct (Z.leb_spec (Z.of_nat (length (m_inverse_vocab t)))
                                        (m_next_term_id t)) as [Hres|]; [|now left].
  rewrite length_resize in Hlt.
  destruct (Nat.lt_ge_cases i (Z.to_nat (wrap32 (m_next_term_id t + 100)))) as [Hin|Hout].
  - destruct (Nat.lt_ge_cases i (length (m_inverse_vocab t))) as [Hold|Hpad].
    + left. now apply lookup_resize.
    + right. left. split; [now apply lookup_resize_new|now apply lookup_ge_None].
  - right. right. split; [now apply lookup_resize_old|lia].
Qed.

Lemma consistent_GetTermID token t id t' :
  consistent t -> GetTermID token t = Some (id, t') -> consistent t'.
Proof.
  intros Hc Hg. destruct (m_vocab t !! token) as [id0|] eqn:Hk.
  { rewrite (GetTermID_known _ _ _ Hk) in Hg. now injection Hg as <- <-. }
  destruct (GetTermID_new _ _ _ _ Hc Hk Hg) as (-> & Hn' & Hs' & Hv' & Hi' & Hl' & Hlt & Hrest).
  destruct Hc as [Hn Hl Hsz Hv Hi Hd].
  constructor.
  - lia.
  - exact Hl'.
  - rewrite Hv', map_size_insert_None by exact Hk. lia.
  - intros s i. rewrite Hv'. intros H.
    destruct (decide (s = token)) as [->|Hne].
    + rewrite lookup_insert_eq in H. injection H as <-. split; [lia|exact Hi'].
    + rewrite lookup_insert_ne in H by congruence.
      destruct (Hv _ _ H) as [Hr Hinv]. split; [lia|].
      destruct (Hrest (Z.to_nat i) ltac:(lia)) as [E|[[_ E]|[_ E]]];
        [now rewrite E|congruence|lia].
  - intros i s H Hne. rewrite Hv'.
    destruct (decide (i = Z.to_nat (m_next_term_id t))) as [->|Hi0].
    + rewrite Hi' in H. injection H as <-.
      rewrite lookup_insert_eq. f_equal. lia.
    + destruct (Hrest i Hi0) as [E|[[E _]|[E _]]]; rewrite E in H; try congruence.
      pose proof (Hi _ _ H Hne) as Hold.
      rewrite lookup_insert_ne; [exact Hold|]. intros ->. congruence.
  - intros id Hid. rewrite Hv'.
    destruct (Z.eq_dec id (m_next_term_id t)) as [->|Hne].
    + exists token. apply lookup_insert_eq.
    + destruct (Hd id ltac:(lia)) as (s & Hs). exists s.
      rewrite lookup_insert_ne; [exact Hs|]. intros ->. congruence.
Qed.

Lemma reachable_consistent t : reachable t -> consistent t.
Proof.
  induction 1 as [|t token id t' _ IH Hg]; [exact consistent_create|].
  eapply consistent_GetTermID; eassumption.
Qed.

(** X24. An id obtained from [GetTermID] leads back to its token through
    [GetTermString], and asking again for the token answers the same id
    and changes nothing. *)
Theorem GetTermID_round_trip t token id t' :
  reachable t -> GetTermID token t = Some (id, t') ->
  GetTermString id t' = token /\ GetTermID token t' = Some (id, t').
Proof.
  intros Hr Hg. pose proof (reachable_consistent _ Hr) as Hc.
  pose proof (consistent_GetTermID _ _ _ _ Hc Hg) as Hc'.
  assert (Hk : m_vocab t' !! token = Some id).
  { destruct (m_vocab t !! token) as [id0|] eqn:Hk.
    - rewrite (GetTermID_known _ _ _ Hk) in Hg. now injection Hg as <- <-.
    - destruct (GetTermID_new _ _ _ _ Hc Hk Hg) as (_ & _ & _ & -> & _).
      apply lookup_insert_eq. }
  split; [|now apply GetTermID_known].
  destruct (c_vocab _ Hc' _ _ Hk) as [Hid Hinv].
  unfold GetTermString.
  pose proof (lookup_lt_Some _ _ _ Hinv) as Hlt.
  destruct (Z.ltb_spec id (Z.of_nat (length (m_inverse_vocab t')))) as [_|]; [|lia].
  now rewrite Hinv.
Qed.

Lemma GetTermID_round_trip_witness :
  GetTermString 1 (mkTok (list_to_set stops) (<[ "ghost"%string := 1 ]> ∅)
                         (<[ Z.to_nat 1 := "ghost"%string ]>
                            (resize (Z.to_nat (wrap32 (1 + 100))) ""%string []))
                         (wrap32 (1 + 1))) = "ghost"%string /\
  GetTermID "ghost"
    (mkTok (list_to_set stops) (<[ "ghost"%string := 1 ]> ∅)
           (<[ Z.to_nat 1 := "ghost"%string ]>
              (resize (Z.to_nat (wrap32 (1 + 100))) ""%string []))
           (wrap32 (1 + 1))) =
  Some (1, mkTok (list_to_set stops) (<[ "ghost"%string := 1 ]> ∅)
                 (<[ Z.to_nat 1 := "ghost"%string ]>
                    (resize (Z.to_nat (wrap32 (1 + 100))) ""%string []))
                 (wrap32 (1 + 1))).
Proof.
  apply (GetTermID_round_trip create "ghost").
  - exact reach_create.
  - reflexivity.
Defined.

(** X25. Ids are handed out from 1 on without gaps and never twice: the
    next id is one more than the size of the vocabulary, every id in use
    lies below it, and two tokens with the same id are the same token. *)
Theorem term_ids_are_distinct t :
  reachable t ->
  m_next_term_id t = VocabularySize t + 1 /\
  (forall s id, m_vocab t !! s = Some id -> 1 <= id < m_next_term_id t) /\
  (forall s1 s2 id, m_vocab t !! s1 = Some id -> m_vocab t !! s2 = Some id -> s1 = s2).
Proof.
  intros Hr. destruct (reachable_consistent _ Hr) as [Hn Hl Hsz Hv Hi Hd].
  split; [unfold VocabularySize; lia|]. split.
  - intros s id H. apply (Hv _ _ H).
  - intros s1 s2 id H1 H2.
    destruct (Hv _ _ H1) as [_ E1]. destruct (Hv _ _ H2) as [_ E2]. congruence.
Qed.

Lemma term_ids_are_distinct_witness :
  m_next_term_id seen_ghost = VocabularySize seen_ghost + 1 /\
  (forall s id, m_vocab seen_ghost !! s = Some id -> 1 <= id < m_next_term_id seen_ghost) /\
  (forall s1 s2 id, m_vocab seen_ghost !! s1 = Some id ->
                    m_vocab seen_ghost !! s2 = Some id -> s1 = s2).
Proof.
  apply (term_ids_are_distinct seen_ghost).
  apply (reach_GetTermID create "ghost" 1); [exact reach_create | reflexivity].
Defined.

(** *** [Tokenize] *)

Lemma GetTermID_grows token t id t' :
  reachable t -> GetTermID token t = Some (id, t') ->
  m_stopwords t' = m_stopwords t /\
  m_vocab t' !! token = Some id /\
  (forall s, s <> token -> m_vocab t' !! s = m_vocab t !! s).
Proof.
  intros Hr Hg. pose proof (reachable_consistent _ Hr) as Hc.
  destruct (m_vocab t !! token) as [id0|] eqn:Hk.
  - rewrite (GetTermID_known _ _ _ Hk) in Hg. injection Hg as <- <-. auto.
  - destruct (GetTermID_new _ _ _ _ Hc Hk Hg) as (_ & _ & Hs & -> & _).
    split; [exact Hs|]. split; [apply lookup_insert_eq|].
    intros s Hne. apply lookup_insert_ne. congruence.
Qed.

Lemma counted_count_token S token s s' :
  counted S s -> count_token token s = Some s' -> counted S s'.
Proof.
  intros (Hr & HS & Hstop & Hcnt). unfold count_token, IsStopWord.
  destruct s as [t counts]. cbn [fst snd] in *.
  destruct (bool_decide_reflect (token ∈ m_stopwords t)) as [Hin|Hout].
  { intros [= <-]. unfold counted. cbn [fst snd]. auto. }
  destruct (GetTermID token t) as [[id t1]|] eqn:Hg; [|discriminate].
  unfold count_up.
  destruct (Z.ltb_spec (default 0 (counts !! id)) (2 ^ 31 - 1)) as [Hc|]; [|discriminate].
  intros [= <-]. unfold counted. cbn [fst snd].
  destruct (GetTermID_grows _ _ _ _ Hr Hg) as (Hs1 & Hk1 & Hrest).
  assert (Hmono : forall w i, m_vocab t !! w = Some i -> m_vocab t1 !! w = Some i).
  { intros w i Hw. destruct (decide (w = token)) as [->|Hne].
    - rewrite (GetTermID_known _ _ _ Hw) in Hg. now injection Hg as <- <-.
    - now rewrite Hrest. }
  split; [eapply reach_GetTermID; eassumption|].
  split; [congruence|]. split.
  - intros w Hw. rewrite Hrest; [now apply Hstop|]. intros ->. apply Hout. now rewrite HS.
  - intros i c. destruct (Z.eq_dec i id) as [->|Hne].
    + rewrite lookup_insert_eq. intros [= <-]. split.
      * destruct (counts !! id) as [c0|] eqn:E; simpl; [|lia].
        destruct (Hcnt _ _ E). lia.
      * exists token. split; [exact Hk1|]. now rewrite <- HS.
    + rewrite lookup_insert_ne by congruence. intros E.
      destruct (Hcnt _ _ E) as (Hc1 & w & Hw & Hnw). split; [exact Hc1|].
      exists w. auto.
Qed.

Section Locale.
Variable isalnum : Ascii.ascii -> bool.
Variable tolower : Ascii.ascii -> Ascii.ascii.

Lemma counted_scan S : forall text current_token s s',
  counted S s -> scan isalnum tolower text current_token s = Some s' -> counted S s'.
Proof using Type.
  induction text as [|c rest IH]; intros current_token s s' Hs; cbn [scan].
  - destruct (negb (String.eqb current_token "")).
    + now apply counted_count_token.
    + now intros [= <-].
  - destruct (isalnum c); [now apply IH|].
    destruct (negb (String.eqb current_token "")); [|now apply IH].
    destruct (count_token current_token s) as [s1|] eqn:E; [|discriminate].
    apply IH. eapply counted_count_token; eassumption.
Qed.

(** X26. [Tokenize] never counts a stop word and never gives one an id:
    every id it counts, at least once, belongs to a token of the
    vocabulary that is no stop word. The tokenizer it leaves is one that
    [GetTermID] calls lead to. *)
Theorem Tokenize_counts_no_stop_word text t counts t' :
  reachable t -> (forall w, w ∈ m_stopwords t -> m_vocab t !! w = None) ->
  Tokenize isalnum tolower text t = Some (counts, t') ->
  reachable t' /\ m_stopwords t' = m_stopwords t /\
  (forall w, w ∈ m_stopwords t' -> m_vocab t' !! w = None) /\
  (forall id c, counts !! id = Some c ->
     1 <= c /\ exists w, m_vocab t' !! w = Some id /\ w ∉ m_stopwords t').
Proof using Type.
  intros Hr Hstop. unfold Tokenize.
  destruct (scan isalnum tolower text "" (t, ∅)) as [[t1 c1]|] eqn:E; [|discriminate].
  intros [= <- <-].
  assert (H0 : counted (m_stopwords t) (t, ∅)).
  { unfold counted. cbn [fst snd]. split; [assumption|]. split; [reflexivity|].
    split; [assumption|]. intros id c H. rewrite lookup_empty in H. discriminate. }
  destruct (counted_scan _ _ _ _ _ H0 E) as (Hr1 & Hs1 & Hstop1 & Hcnt1).
  cbn [fst snd] in *. rewrite Hs1. auto.
Qed.
End Locale.

Lemma Tokenize_counts_no_stop_word_witness :
  reachable (mkTok (list_to_set stops) (<[ "ghost"%string := 1 ]> ∅)
                   (<[ Z.to_nat 1 := "ghost"%string ]>
                      (resize (Z.to_nat (wrap32 (1 + 100))) ""%string []))
                   (wrap32 (1 + 1))) /\
  m_stopwords (mkTok (list_to_set stops) (<[ "ghost"%string := 1 ]> ∅)
                     (<[ Z.to_nat 1 := "ghost"%string ]>
                        (resize (Z.to_nat (wrap32 (1 + 100))) ""%string []))
                     (wrap32 (1 + 1))) = m_stopwords create /\
  (forall w,
     w ∈ m_stopwords (mkTok (list_to_set stops) (<[ "ghost"%string := 1 ]> ∅)
                            (<[ Z.to_nat 1 := "ghost"%string ]>
                               (resize (Z.to_nat (wrap32 (1 + 100))) ""%string []))
                            (wrap32 (1 + 1))) ->
     m_vocab (mkTok (list_to_set stops) (<[ "ghost"%string := 1 ]> ∅)
                    (<[ Z.to_nat 1 := "ghost"%string ]>
                       (resize (Z.to_nat (wrap32 (1 + 100))) ""%string []))
                    (wrap32 (1 + 1))) !! w = None) /\
  (forall id c, (<[ 1 := 0 + 1 ]> (∅ : gmap Z Z)) !! id = Some c ->
     1 <= c /\
     exists w,
       m_vocab (mkTok (list_to_set stops) (<[ "ghost"%string := 1 ]> ∅)
                      (<[ Z.to_nat 1 := "ghost"%string ]>
                         (resize (Z.to_nat (wrap32 (1 + 100))) ""%string []))
                      (wrap32 (1 + 1))) !! w = Some id /\
       w ∉ m_stopwords (mkTok (list_to_set stops) (<[ "ghost"%string := 1 ]> ∅)
                              (<[ Z.to_nat 1 := "ghost"%string ]>
                                 (resize (Z.to_nat (wrap32 (1 + 100))) ""%string []))
                              (wrap32 (1 + 1)))).
Proof.
  apply (Tokenize_counts_no_stop_word isalnum_C tolower_C "The Ghost" create).
  - exact reach_create.
  - intros w _. apply lookup_empty.
  - vm_compute. reflexivity.
Defined.

(** *** [SetVocab] *)





End TokenizerSpec.

(** ** The graph index *)

Module HNSWSpec.
Import Slab. Import SlabSpec. Import HNSW.

(** *** Accesses by offset *)

Lemma rd_wr32_other st o v o' :
  o' + 8 <= o \/ o + 4 <= o' -> rd (wr32 st o v) o' = rd st o'.
Proof.
  intros H. unfold rd, wr32, read64.
  change (mem (set_mem st (write_le (mem st) (addr st o) 4 v)))
    with (write_le (mem st) (addr st o) 4 v).
  change (addr (set_mem st (write_le (mem st) (addr st o) 4 v)) o') with (addr st o').
  apply read_le_write_le_outside. unfold addr. simpl. lia.
Qed.

Lemma rd32_wr32_other st o v o' :
  o' + 4 <= o \/ o + 4 <= o' -> rd32 (wr32 st o v) o' = rd32 st o'.
Proof.
  intros H. unfold rd32, wr32.
  change (mem (set_mem st (write_le (mem st) (addr st o) 4 v)))
    with (write_le (mem st) (addr st o) 4 v).
  change (addr (set_mem st (write_le (mem st) (addr st o) 4 v)) o') with (addr st o').
  apply read_le_write_le_outside. unfold addr. simpl. lia.
Qed.

Lemma rd32_wr_other st o v o' :
  o' + 4 <= o \/ o + 8 <= o' -> rd32 (wr st o v) o' = rd32 st o'.
Proof.
  intros H. unfold rd32, wr, write64.
  change (mem (set_mem st (write_le (mem st) (addr st o) 8 v)))
    with (write_le (mem st) (addr st o) 8 v).
  change (addr (set_mem st (write_le (mem st) (addr st o) 8 v)) o') with (addr st o').
  apply read_le_write_le_outside. unfold addr. simpl. lia.
Qed.

Lemma rd32_wr32_same st o v : 0 <= v < 2 ^ 32 -> rd32 (wr32 st o v) o = v.
Proof.
  intros Hv. unfold rd32, wr32. cbn [mem set_mem].
  change (addr (set_mem st (write_le (mem st) (addr st o) 4 v)) o) with (addr st o).
  replace (addr st o) with (addr st o + 0) at 2 by lia.
  rewrite read_le_write_le_inside by (simpl; lia).
  rewrite Z.pow_0_r, Z.div_1_r. apply Z.mod_small. simpl. lia.
Qed.

Lemma bt_wr32_other st o v a :
  a < o \/ o + 4 <= a -> bt (wr32 st o v) a = bt st a.
Proof.
  intros H. unfold bt, wr32, addr. cbn [mem set_mem m_base m_base_offset].
  apply byte_at_write_le_other. simpl. lia.
Qed.


Lemma rd_bt st st' o :
  same_params st st' -> (forall a, o <= a < o + 8 -> bt st' a = bt st a) ->
  rd st' o = rd st o.
Proof.
  intros Hs H. unfold rd, read64. rewrite (addr_same st st' Hs).
  apply read_le_ext. intros i Hi. specialize (H (o + i) ltac:(simpl in Hi; lia)).
  unfold bt in H. rewrite (addr_same st st' Hs) in H.
  unfold addr in *. replace (m_base st + (o - m_base_offset st) + i)
    with (m_base st + (o + i - m_base_offset st)) by lia. exact H.
Qed.

Lemma rd32_bt st st' o :
  same_params st st' -> (forall a, o <= a < o + 4 -> bt st' a = bt st a) ->
  rd32 st' o = rd32 st o.
Proof.
  intros Hs H. unfold rd32. rewrite (addr_same st st' Hs).
  apply read_le_ext. intros i Hi. specialize (H (o + i) ltac:(simpl in Hi; lia)).
  unfold bt in H. rewrite (addr_same st st' Hs) in H.
  unfold addr in *. replace (m_base st + (o - m_base_offset st) + i)
    with (m_base st + (o + i - m_base_offset st)) by lia. exact H.
Qed.

Section Access32.
Variables st st' : SlabAllocator.
Hypothesis Hp : params_ok st.
Hypothesis Hs : same_params st st'.

Lemma load32_at o :
  m_base_offset st <= o -> o + 4 <= m_base_offset st + m_total_size st ->
  load32 st' (addr st o) = Done (rd32 st' o).
Proof using Hp Hs.
  intros H1 H2. unfold load32, in_region32, rd32. rewrite (addr_same st st' Hs).
  destruct Hs as (E1 & E2 & E3 & _). unfold addr. rewrite E1, E2.
  destruct (Z.leb_spec (m_base st) (m_base st + (o - m_base_offset st))); [|lia].
  destruct (Z.leb_spec (m_base st + (o - m_base_offset st) + 4)
                       (m_base st + m_total_size st)); [|lia].
  reflexivity.
Qed.

Lemma store32_at o v :
  m_base_offset st <= o -> o + 4 <= m_base_offset st + m_total_size st ->
  store32 st' (addr st o) v = Done (wr32 st' o v).
Proof using Hp Hs.
  intros H1 H2. unfold store32, in_region32, wr32. rewrite (addr_same st st' Hs).
  destruct Hs as (E1 & E2 & E3 & _). unfold addr. rewrite E1, E2.
  destruct (Z.leb_spec (m_base st) (m_base st + (o - m_base_offset st))); [|lia].
  destruct (Z.leb_spec (m_base st + (o - m_base_offset st) + 4)
                       (m_base st + m_total_size st)); [|lia].
  reflexivity.
Qed.
End Access32.

Lemma same_params_wr32 st st' o v : same_params st st' -> same_params st (wr32 st' o v).
Proof. intros H. exact H. Qed.

(** *** Stores into payloads *)

(** Stores into the payload of a block in use leave the heap as it is. *)
Lemma Rep_payload_frame st st' first bs fl :
  Rep st first bs fl -> same_params st st' ->
  m_free_list_head_offset st' = m_free_list_head_offset st ->
  (forall o, (forall b, In b bs -> b_free b = false ->
                o + 8 <= b_off b + 64 \/ b_off b + b_size b - 8 <= o) ->
             rd st' o = rd st o) ->
  Rep st' first bs fl.
Proof.
  intros HR Hsp Hh Hfr.
  pose proof (Rep_Geo _ _ _ _ HR) as HG.
  destruct HR as [Hp Hf Hfp Hfl Hc He Ht Hhd Hd Hperm Hco].
  destruct (Rep_same_params _ _ _ Hsp Hp Hf Hfl) as (Hp' & Hf' & Hfl' & Hend).
  constructor; try assumption.
  - rewrite Hend. exact He.
  - eapply Forall_tagged_frame; [|exact Ht]. intros b Hb.
    pose proof (geo_block _ _ _ _ HG Hb) as Hgb.
    split; apply Hfr; intros u Hu _;
      pose proof (geo_block _ _ _ _ HG Hu) as Hgu;
      destruct (geo_sep _ _ _ _ _ HG Hb Hu) as [<-|Hsep]; lia.
  - congruence.
  - eapply dll_frame; [|exact Hd]. intros y Hy.
    assert (Hyb : exists sy, In (y, sy, true) bs).
    { apply In_free_offsets. eapply Permutation_in; eassumption. }
    destruct Hyb as (sy & Hyb).
    pose proof (geo_block _ _ _ _ HG Hyb) as Hgy.
    unfold b_off, b_size in Hgy; simpl in Hgy.
    split; apply Hfr; intros u Hu Hfree;
      pose proof (geo_block _ _ _ _ HG Hu) as Hgu;
      (destruct (geo_sep _ _ _ _ _ HG Hyb Hu) as [<-|Hsep]; [discriminate|]);
      unfold b_off, b_size in *; simpl in *; lia.
Qed.

Lemma Heap_payload_frame st st' L bs fl :
  Heap st L bs fl -> same_params st st' ->
  m_free_list_head_offset st' = m_free_list_head_offset st ->
  m_lock st' = m_lock st ->
  (forall o, (forall b, In b bs -> b_free b = false ->
                o + 8 <= b_off b + 64 \/ b_off b + b_size b - 8 <= o) ->
             rd st' o = rd st o) ->
  Heap st' L bs fl.
Proof.
  intros [HR Hl Hlive Hnd Hspan Hgrid] Hsp Hh Hlk Hfr.
  constructor; try assumption.
  - rewrite (first_offset_same _ _ Hsp). eapply Rep_payload_frame; eassumption.
  - congruence.
  - now rewrite (usable_size_same _ _ Hsp).
  - now rewrite (first_offset_same _ _ Hsp).
Qed.

(** A store of [n <= 8] bytes at [w] inside the payload of the node at
    [p] misses every word the allocator reads. *)
Lemma payload_word (bs : list block) p sx w n o :
  In (p - 64, sx, false) bs -> p <= w -> w + n <= p + sx - 72 ->
  (forall b, In b bs -> b_free b = false ->
     o + 8 <= b_off b + 64 \/ b_off b + b_size b - 8 <= o) ->
  o + 8 <= w \/ w + n <= o.
Proof.
  intros Hin H1 H2 Ho. specialize (Ho _ Hin eq_refl).
  unfold b_off, b_size in Ho; simpl in Ho. lia.
Qed.

(** What a request for a node makes of a heap. *)
Lemma Heap_allocate_node st L bs fl fuel p st1 :
  Heap st L bs fl -> Allocate fuel sizeof_HNSWNode st = Done (p, st1) -> p <> 0 ->
  exists bs' fl' sx,
    Heap st1 (p :: L) bs' fl' /\ In (p - 64, sx, false) bs' /\ 320 <= sx /\
    same_params st st1 /\
    (forall b, In b bs -> b_free b = false -> In b bs') /\
    (forall a, outside_free bs a -> bt st1 a = bt st a).
Proof.
  intros H Ha Hp0.
  assert (Hn : 0 < sizeof_HNSWNode <= 2 ^ 64 - 192) by (unfold sizeof_HNSWNode; lia).
  destruct (Heap_allocate _ _ _ _ _ _ _ _ H Hn Ha)
    as [(-> & _)|(l1 & x & l2 & bs1 & s & bs2 & -> & _ & -> & _ & Hs & Hsp & H' & Hfr)];
    [contradiction|].
  change (required_total_size sizeof_HNSWNode) with 320 in *.
  replace (x + 64 - 64) with x by lia.
  unfold taken in *. destruct (Z_le_gt_dec (320 + 136) s); cbn [fst snd] in *.
  - eexists _, _, 320. split; [exact H'|]. split; [apply In_mid|]. split; [lia|].
    split; [exact Hsp|]. split; [|exact Hfr].
    intros b Hb Hf. apply in_app_or in Hb as [Hb|[<-|Hb]]; [| discriminate |];
      apply in_or_app; [left|right; right; right]; assumption.
  - eexists _, _, s. split; [exact H'|]. split; [apply In_mid|]. split; [lia|].
    split; [exact Hsp|]. split; [|exact Hfr].
    intros b Hb Hf. apply in_app_or in Hb as [Hb|[<-|Hb]]; [| discriminate |];
      apply in_or_app; [left|right; right]; assumption.
Qed.

(** The three stores of [Insert] into a fresh node. *)
Lemma write_node st L bs fl p sx id vo :
  Heap st L bs fl -> In (p - 64, sx, false) bs -> 320 <= sx ->
  0 <= id < 2 ^ 32 -> 0 <= vo < 2 ^ 64 ->
  exists st',
    (st1 <- store32 st (id_field (GetPtr st p)) id ;;
     st2 <- store st1 (vector_offset_field (GetPtr st p)) vo ;;
     store32 st2 (neighbor_count_field (GetPtr st p)) 0) = Done st' /\
    Heap st' L bs fl /\ same_params st st' /\
    m_lock st' = m_lock st /\
    node_is st' p id vo 0 /\
    (forall a, a < p \/ p + 24 <= a -> bt st' a = bt st a).
Proof.
  intros H Hin Hsx Hid Hvo.
  destruct (Heap_block _ _ _ _ _ _ _ H Hin) as (_ & _ & _ & _ & Ho & _ & He & _).
  pose proof (rep_params _ _ _ _ (heap_rep _ _ _ _ H)) as Hp.
  pose proof Hp as (P1 & P2 & P3 & P4 & P5).
  rewrite (GetPtr_at st st Hp (same_params_refl _)) by lia.
  unfold id_field, vector_offset_field, neighbor_count_field.
  rewrite (store32_at st st Hp (same_params_refl _)) by lia. cbn [bind].
  rewrite (addr_shift st Hp p 8) by lia.
  rewrite (store_at st (wr32 st p id) Hp
             (same_params_refl st : same_params st (wr32 st p id))) by lia.
  cbn [bind].
  rewrite (addr_shift st Hp p 16) by lia.
  rewrite (store32_at st (wr (wr32 st p id) (p + 8) vo) Hp
             (same_params_refl st : same_params st (wr (wr32 st p id) (p + 8) vo))) by lia.
  set (st' := wr32 (wr (wr32 st p id) (p + 8) vo) (p + 16) 0).
  exists st'. split; [reflexivity|].
  assert (Hsp : same_params st st') by exact (same_params_refl st).
  split; [|split; [exact Hsp|split; [reflexivity|split]]].
  - apply (Heap_payload_frame st); [exact H|exact Hsp|reflexivity|reflexivity|].
    intros o Hall. unfold st'.
    pose proof (payload_word bs p sx p 4 o Hin ltac:(lia) ltac:(lia) Hall).
    pose proof (payload_word bs p sx (p + 8) 8 o Hin ltac:(lia) ltac:(lia) Hall).
    pose proof (payload_word bs p sx (p + 16) 4 o Hin ltac:(lia) ltac:(lia) Hall).
    rewrite rd_wr32_other by lia. rewrite rd_wr_other by lia.
    rewrite rd_wr32_other by lia. reflexivity.
  - unfold node_is, st'. split; [|split].
    + rewrite rd32_wr32_other by lia. rewrite rd32_wr_other by lia.
      now apply rd32_wr32_same.
    + rewrite rd_wr32_other by lia. rewrite rd_wr_same. now apply wrap64_small.
    + apply rd32_wr32_same. lia.
  - intros a Ha. unfold st'.
    rewrite bt_wr32_other by lia. rewrite bt_wr_other by lia.
    rewrite bt_wr32_other by lia. reflexivity.
Qed.

(** Reading the fields back. *)
Lemma node_fields_at st L bs fl p sx id vo c :
  Heap st L bs fl -> In (p - 64, sx, false) bs -> 320 <= sx ->
  node_is st p id vo c -> node_fields st p = Done (id, vo, c).
Proof.
  intros H Hin Hsx (E1 & E2 & E3).
  destruct (Heap_block _ _ _ _ _ _ _ H Hin) as (_ & _ & _ & _ & Ho & _ & He & _).
  pose proof (rep_params _ _ _ _ (heap_rep _ _ _ _ H)) as Hp.
  pose proof Hp as (P1 & P2 & P3 & P4 & P5).
  unfold node_fields, id_field, vector_offset_field, neighbor_count_field.
  rewrite (GetPtr_at st st Hp (same_params_refl _)) by lia.
  rewrite (load32_at st st Hp (same_params_refl _)) by lia. cbn [bind].
  rewrite (addr_shift st Hp p 8) by lia.
  rewrite (load_at st st Hp (same_params_refl _)) by lia. cbn [bind].
  rewrite (addr_shift st Hp p 16) by lia.
  rewrite (load32_at st st Hp (same_params_refl _)) by lia. cbn [bind].
  now rewrite E1, E2, E3.
Qed.


(** [link] from the node at [q] to offset [to]. *)
Lemma link_at st L bs fl q sq to :
  Heap st L bs fl -> In (q - 64, sq, false) bs -> 320 <= sq -> 0 <= to < 2 ^ 64 ->
  exists st',
    link st (GetPtr st q) to = Done st' /\
    Heap st' L bs fl /\ same_params st st' /\ m_lock st' = m_lock st /\
    rd32 st' q = rd32 st q /\ rd st' (q + 8) = rd st (q + 8) /\
    (rd32 st (q + 16) < 16 ->
       rd32 st' (q + 16) = rd32 st (q + 16) + 1 /\
       rd st' (q + 24 + 8 * rd32 st (q + 16)) = to) /\
    (16 <= rd32 st (q + 16) -> st' = st) /\
    (forall a, a < q + 16 \/ q + 152 <= a -> bt st' a = bt st a).
Proof.
  intros H Hin Hsq Hto.
  destruct (Heap_block _ _ _ _ _ _ _ H Hin) as (_ & _ & _ & _ & Ho & _ & He & _).
  pose proof (rep_params _ _ _ _ (heap_rep _ _ _ _ H)) as Hp.
  pose proof Hp as (P1 & P2 & P3 & P4 & P5).
  assert (Hc0 : 0 <= rd32 st (q + 16) < 2 ^ 32) by apply (read_le_range _ 4).
  unfold link, neighbor_count_field, neighbor_field.
  rewrite (GetPtr_at st st Hp (same_params_refl _)) by lia.
  rewrite (addr_shift st Hp q 16) by lia.
  rewrite (load32_at st st Hp (same_params_refl _)) by lia. cbn [bind].
  set (c := rd32 st (q + 16)) in *.
  destruct (Z.ltb_spec c 16) as [Hc|Hc].
  - rewrite (store32_at st st Hp (same_params_refl _)) by lia. cbn [bind].
    rewrite (wrap64_small (24 + 8 * c)) by lia.
    rewrite (addr_shift st Hp q (24 + 8 * c)) by lia.
    rewrite (store_at st (wr32 st (q + 16) (c + 1)) Hp
               (same_params_refl st : same_params st (wr32 st (q + 16) (c + 1)))) by lia.
    set (st' := wr (wr32 st (q + 16) (c + 1)) (q + (24 + 8 * c)) to).
    exists st'. split; [reflexivity|].
    assert (Hsp : same_params st st') by exact (same_params_refl st).
    split; [|split; [exact Hsp|split; [reflexivity|]]].
    + apply (Heap_payload_frame st); [exact H|exact Hsp|reflexivity|reflexivity|].
      intros o Hall. unfold st'.
      pose proof (payload_word bs q sq (q + 16) 4 o Hin ltac:(lia) ltac:(lia) Hall).
      pose proof (payload_word bs q sq (q + (24 + 8 * c)) 8 o Hin ltac:(lia) ltac:(lia) Hall).
      rewrite rd_wr_other by lia. rewrite rd_wr32_other by lia. reflexivity.
    + unfold st'. split; [|split; [|split; [|split]]].
      * rewrite rd32_wr_other by lia. apply rd32_wr32_other. lia.
      * rewrite rd_wr_other by lia. apply rd_wr32_other. lia.
      * intros _. split.
        -- rewrite rd32_wr_other by lia. apply rd32_wr32_same. lia.
        -- replace (q + 24 + 8 * c) with (q + (24 + 8 * c)) by lia.
           rewrite rd_wr_same. now apply wrap64_small.
      * intros Hge. lia.
      * intros a Ha. rewrite bt_wr_other by lia. apply bt_wr32_other. lia.
  - exists st. split; [reflexivity|]. split; [exact H|]. split; [apply same_params_refl|].
    split; [reflexivity|]. split; [reflexivity|]. split; [reflexivity|].
    split; [intros; lia|]. split; reflexivity.
Qed.


Lemma GetPtr_same st st' o : same_params st st' -> GetPtr st' o = GetPtr st o.
Proof. intros (E1 & _ & E3 & _). unfold GetPtr. now rewrite E1, E3. Qed.

Lemma neighbor_at st L bs fl q sq i :
  Heap st L bs fl -> In (q - 64, sq, false) bs -> 320 <= sq -> 0 <= i < 16 ->
  neighbor st q i = Done (rd st (q + 24 + 8 * i)).
Proof.
  intros H Hin Hsq Hi.
  destruct (Heap_block _ _ _ _ _ _ _ H Hin) as (_ & _ & _ & _ & Ho & _ & He & _).
  pose proof (rep_params _ _ _ _ (heap_rep _ _ _ _ H)) as Hp.
  pose proof Hp as (P1 & P2 & P3 & P4 & P5).
  unfold neighbor, neighbor_field.
  rewrite (GetPtr_at st st Hp (same_params_refl _)) by lia.
  rewrite (wrap64_small (24 + 8 * i)) by lia.
  rewrite (addr_shift st Hp q (24 + 8 * i)) by lia.
  rewrite (load_at st st Hp (same_params_refl _)) by lia.
  f_equal. f_equal. lia.
Qed.

Lemma node_fields_inv st L bs fl q sq id vo c :
  Heap st L bs fl -> In (q - 64, sq, false) bs -> 320 <= sq ->
  node_fields st q = Done (id, vo, c) -> node_is st q id vo c.
Proof.
  intros H Hin Hsq Hf.
  rewrite (node_fields_at st L bs fl q sq (rd32 st q) (rd st (q + 8)) (rd32 st (q + 16)))
    in Hf; try assumption; [|repeat split].
  injection Hf as <- <- <-. repeat split.
Qed.

(** Bytes of a node survive what happens outside its block. *)
Lemma node_is_frame st st' q id vo c :
  same_params st st' ->
  (forall a, q <= a < q + 24 -> bt st' a = bt st a) ->
  node_is st q id vo c -> node_is st' q id vo c.
Proof.
  intros Hs Hfr (E1 & E2 & E3). unfold node_is.
  rewrite (rd32_bt st st' q Hs), (rd_bt st st' (q + 8) Hs), (rd32_bt st st' (q + 16) Hs);
    try (intros a Ha; apply Hfr; lia). auto.
Qed.

(** [Insert] when the allocator serves the node. *)
Lemma Insert_served ix L bs fl fuel id vo p st1 :
  Heap (m_allocator ix) L bs fl ->
  (m_entry_point_offset ix = 0 \/
   exists se, In (m_entry_point_offset ix - 64, se, false) bs /\ 320 <= se) ->
  0 <= id < 2 ^ 32 -> 0 <= vo < 2 ^ 64 ->
  Allocate fuel sizeof_HNSWNode (m_allocator ix) = Done (p, st1) -> p <> 0 ->
  exists ix' bs' fl' sx,
    Insert fuel id vo ix = Done ix' /\
    Heap st1 (p :: L) bs' fl' /\
    Heap (m_allocator ix') (p :: L) bs' fl' /\
    same_params (m_allocator ix) (m_allocator ix') /\
    In (p - 64, sx, false) bs' /\ 320 <= sx /\
    (forall b, In b bs -> b_free b = false -> In b bs') /\
    (m_entry_point_offset ix = 0 ->
       m_entry_point_offset ix' = p /\
       node_is (m_allocator ix') p id vo 0 /\
       (forall a, a < p \/ p + 24 <= a -> bt (m_allocator ix') a = bt st1 a)) /\
    (m_entry_point_offset ix <> 0 ->
       m_entry_point_offset ix' = m_entry_point_offset ix /\
       node_is (m_allocator ix') p id vo 1 /\
       rd (m_allocator ix') (p + 24) = m_entry_point_offset ix /\
       forall ide voe c,
         node_is (m_allocator ix) (m_entry_point_offset ix) ide voe c ->
         (c < 16 ->
            node_is (m_allocator ix') (m_entry_point_offset ix) ide voe (c + 1) /\
            rd (m_allocator ix') (m_entry_point_offset ix + 24 + 8 * c) = p) /\
         (16 <= c -> node_is (m_allocator ix') (m_entry_point_offset ix) ide voe c)).
Proof.
  intros H He Hid Hvo Ha Hp0. destruct ix as [st e]. cbn [m_allocator m_entry_point_offset] in *.
  destruct (Heap_allocate_node _ _ _ _ _ _ _ H Ha Hp0)
    as (bs1 & fl1 & sx & H1 & Hin & Hsx & Hsp1 & Hkeep & Hfr1).
  destruct (write_node _ _ _ _ _ _ id vo H1 Hin Hsx Hid Hvo)
    as (st2 & E2 & H2 & Hsp2 & Hl2 & Hn2 & Hfr2).
  unfold Insert. cbn [m_allocator m_entry_point_offset].
  rewrite Ha. cbn [bind fst snd].
  destruct (Z.eqb_spec p 0) as [|_]; [contradiction|].
  destruct (store32 st1 (id_field (GetPtr st1 p)) id) as [sa| | |]; try discriminate.
  cbn [bind] in E2 |- *.
  destruct (store sa (vector_offset_field (GetPtr st1 p)) vo) as [sb| | |]; try discriminate.
  cbn [bind] in E2 |- *. rewrite E2. cbn [bind]. clear sa sb E2.
  destruct (Z.eqb_spec e 0) as [->|He0]; cbn [negb].
  { exists (mkIndex st2 p), bs1, fl1, sx. cbn [m_allocator m_entry_point_offset].
    split; [reflexivity|]. split; [exact H1|]. split; [exact H2|].
    split; [eapply same_params_trans; eassumption|].
    split; [exact Hin|]. split; [exact Hsx|]. split; [exact Hkeep|].
    split; [auto|]. intros N. contradiction. }
  destruct He as [|(se & Hine & Hse)]; [contradiction|].
  pose proof (Hkeep _ Hine eq_refl) as Hine1.
  (* the two nodes lie in different blocks *)
  pose proof (Rep_Geo _ _ _ _ (heap_rep _ _ _ _ H1)) as HG1.
  assert (Hpe : e <> p).
  { intros ->. pose proof (heap_nodup _ _ _ _ H1) as Hnd.
    apply NoDup_cons in Hnd as [Hnp _]. apply Hnp, list_elem_of_In.
    apply (heap_live _ _ _ _ H), In_used_payloads. eauto. }
  assert (Hsep : e - 64 + se <= p - 64 \/ p - 64 + sx <= e - 64).
  { destruct (geo_sep _ _ _ _ _ HG1 Hine1 Hin) as [[= E _]|Hs]; [lia|].
    unfold b_off, b_size in Hs; simpl in Hs. lia. }
  pose proof (geo_block _ _ _ _ HG1 Hine1) as Hge.
  unfold b_off, b_size in Hge; simpl in Hge.
  (* entry -> node *)
  destruct (link_at _ _ _ _ e se p H2 Hine1 Hse) as
    (st3 & E3 & H3 & Hsp3 & Hl3 & Ke1 & Ke2 & Klt & Kge & Hfr3).
  { pose proof (geo_block _ _ _ _ HG1 Hin) as Hgp.
    unfold b_off, b_size in Hgp; simpl in Hgp.
    pose proof (rep_params _ _ _ _ (heap_rep _ _ _ _ H1)) as (P1 & P2 & P3 & P4 & P5). lia. }
  rewrite E3. cbn [bind].
  (* node -> entry *)
  destruct (link_at _ _ _ _ p sx e H3 Hin Hsx) as
    (st4 & E4 & H4 & Hsp4 & Hl4 & Kp1 & Kp2 & Kplt & _ & Hfr4).
  { pose proof (rep_params _ _ _ _ (heap_rep _ _ _ _ H1)) as (P1 & P2 & P3 & P4 & P5). lia. }
  assert (Eptr : GetPtr st1 p = GetPtr st3 p).
  { symmetry. apply GetPtr_same. eapply same_params_trans; eassumption. }
  rewrite Eptr, E4. cbn [bind].
  exists (mkIndex st4 e), bs1, fl1, sx. cbn [m_allocator m_entry_point_offset].
  split; [reflexivity|]. split; [exact H1|]. split; [exact H4|].
  split.
  { apply (same_params_trans st st1); [exact Hsp1|].
    apply (same_params_trans st1 st2); [exact Hsp2|].
    apply (same_params_trans st2 st3); [exact Hsp3|exact Hsp4]. }
  split; [exact Hin|]. split; [exact Hsx|]. split; [exact Hkeep|].
  split; [intros N; contradiction|]. intros _. split; [reflexivity|].
  (* the new node before the second link *)
  assert (Hn3 : node_is st3 p id vo 0).
  { apply (node_is_frame st2); [exact Hsp3| |exact Hn2]. intros a Ha'. apply Hfr3. lia. }
  destruct Hn3 as (N1 & N2 & N3).
  destruct (Kplt ltac:(lia)) as [Kc Kn]. rewrite N3 in Kc, Kn.
  split; [|split].
  - unfold node_is. rewrite Kp1, Kp2, Kc. auto.
  - replace (p + 24) with (p + 24 + 8 * 0) by lia. exact Kn.
  - intros ide voe c Hne.
    (* the entry node before the first link *)
    assert (Hne2 : node_is st2 e ide voe c).
    { apply (node_is_frame st1); [exact Hsp2| |].
      - intros a Ha'. apply Hfr2. lia.
      - apply (node_is_frame st); [exact Hsp1| |exact Hne].
        intros a Ha'. apply Hfr1.
        apply (used_outside_free _ _ _ _ _ _ (Rep_Geo _ _ _ _ (heap_rep _ _ _ _ H)) Hine).
        lia. }
    destruct Hne2 as (M1 & M2 & M3).
    assert (Hc0 : 0 <= c) by (rewrite <- M3; apply (read_le_range _ 4)).
    assert (Hfr : forall o, e <= o -> o + 8 <= e + 152 -> rd st4 o = rd st3 o).
    { intros o Ho1 Ho2. apply rd_bt; [exact Hsp4|]. intros a Ha'. apply Hfr4. lia. }
    assert (Hfr32 : forall o, e <= o -> o + 4 <= e + 152 -> rd32 st4 o = rd32 st3 o).
    { intros o Ho1 Ho2. apply rd32_bt; [exact Hsp4|]. intros a Ha'. apply Hfr4. lia. }
    split.
    + intros Hc. destruct (Klt ltac:(lia)) as [Kc' Kn']. rewrite M3 in Kc', Kn'.
      split.
      * unfold node_is. rewrite (Hfr32 e), (Hfr (e + 8)), (Hfr32 (e + 16)) by lia.
        rewrite Ke1, Ke2, Kc'. auto.
      * rewrite Hfr by lia. exact Kn'.
    + intros Hc. rewrite (Kge ltac:(lia)) in *.
      unfold node_is. rewrite (Hfr32 e), (Hfr (e + 8)), (Hfr32 (e + 16)) by lia. auto.
Qed.


(** [Insert] when the allocator has no room: nothing changes. *)
Lemma Insert_exhausted ix L fuel id vo st1 :
  indexed ix L ->
  Allocate fuel sizeof_HNSWNode (m_allocator ix) = Done (0, st1) ->
  st1 = m_allocator ix /\ Insert fuel id vo ix = Done ix.
Proof.
  intros Hix Ha.
  assert (Hn : 0 < sizeof_HNSWNode <= 2 ^ 64 - 192) by (unfold sizeof_HNSWNode; lia).
  assert (E : st1 = m_allocator ix).
  { destruct Hix as [((_ & Hall & _) & _)|(_ & bs & fl & H & _)].
    - now pose proof (Hall _ _ _ Hn Ha) as [= ->].
    - destruct (Heap_allocate _ _ _ _ _ _ _ _ H Hn Ha)
        as [(_ & -> & _)|(l1 & x & l2 & bs1 & s & bs2 & Ep & _ & Ebs & _)]; [reflexivity|].
      exfalso. subst bs.
      pose proof (geo_block _ _ _ _ (Rep_Geo _ _ _ _ (heap_rep _ _ _ _ H)) (In_mid _ _ _))
        as Hg.
      unfold b_off in Hg; simpl in Hg. lia. }
  split; [exact E|]. unfold Insert. rewrite Ha. cbn [bind fst snd Z.eqb].
  rewrite E. now destruct ix.
Qed.

Lemma reachable_indexed st L : reachable st L -> indexed (mkIndex st 0) L.
Proof.
  intros Hr. apply reachable_Inv' in Hr as [(HD & -> & Hnu)|(Hu & bs & fl & H)].
  - left. auto.
  - right. split; [exact Hu|]. exists bs, fl. auto.
Qed.

Lemma built_indexed ix L : built ix L -> indexed ix L.
Proof.
  induction 1 as [st L Hr|ix L fuel id vo p st1 ix' _ IH Hid Hvo Ha Hi].
  - now apply reachable_indexed.
  - destruct (Z.eqb_spec p 0) as [->|Hp0].
    { destruct (Insert_exhausted _ _ _ id vo _ IH Ha) as [_ E].
      rewrite E in Hi. now injection Hi as <-. }
    destruct IH as [((_ & Hall & _) & _)|(Hu & bs & fl & H & He)].
    { assert (Hn : 0 < sizeof_HNSWNode <= 2 ^ 64 - 192) by (unfold sizeof_HNSWNode; lia).
      pose proof (Hall _ _ _ Hn Ha) as [= -> _]. contradiction. }
    destruct (Insert_served _ _ _ _ _ _ _ _ _ H He Hid Hvo Ha Hp0)
      as (ix2 & bs' & fl' & sx & E & _ & H' & Hsp & Hin & Hsx & Hkeep & Hz & Hnz).
    rewrite E in Hi. injection Hi as <-.
    right. split; [eapply usable_same; eassumption|]. exists bs', fl'.
    split; [exact H'|]. right.
    destruct (Z.eq_dec (m_entry_point_offset ix) 0) as [E0|N0].
    + destruct (Hz E0) as (-> & _). eauto.
    + destruct (Hnz N0) as (-> & _).
      destruct He as [|(se & Hine & Hse)]; [contradiction|].
      exists se. split; [now apply Hkeep|exact Hse].
Qed.

(** The first [Insert], once the allocator has answered. *)
Lemma Insert_first_served st L fuel id vo p st1 :
  reachable st L -> 0 <= id < 2 ^ 32 -> 0 <= vo < 2 ^ 64 ->
  Allocate fuel sizeof_HNSWNode st = Done (p, st1) ->
  exists ix',
    Insert fuel id vo (mkIndex st 0) = Done ix' /\
    m_entry_point_offset ix' = p /\
    (p = 0 -> m_allocator ix' = st) /\
    (p <> 0 ->
       node_fields (m_allocator ix') p = Done (id, vo, 0) /\
       (forall a, a < p \/ p + 24 <= a -> bt (m_allocator ix') a = bt st1 a) /\
       exists bs, forall k, (length bs < k)%nat ->
         heap_blocks k st1 = Done bs /\ heap_blocks k (m_allocator ix') = Done bs).
Proof.
  intros Hr Hid Hvo Ha. pose proof (reachable_indexed _ _ Hr) as Hix.
  destruct (Z.eqb_spec p 0) as [->|Hp0].
  { destruct (Insert_exhausted _ _ _ id vo _ Hix Ha) as [_ E].
    exists (mkIndex st 0). split; [exact E|]. split; [reflexivity|].
    split; [reflexivity|]. intros N. contradiction. }
  destruct Hix as [((_ & Hall & _) & _)|(Hu & bs & fl & H & He)].
  { assert (Hn : 0 < sizeof_HNSWNode <= 2 ^ 64 - 192) by (unfold sizeof_HNSWNode; lia).
    pose proof (Hall _ _ _ Hn Ha) as [= -> _]. contradiction. }
  destruct (Insert_served _ _ _ _ _ _ _ _ _ H He Hid Hvo Ha Hp0)
    as (ix2 & bs' & fl' & sx & E & H1 & H' & Hsp & Hin & Hsx & Hkeep & Hz & _).
  destruct (Hz eq_refl) as (Ee & Hn & Hfr).
  exists ix2. split; [exact E|]. split; [exact Ee|]. split; [intros N; contradiction|].
  intros _. split; [|split; [exact Hfr|]].
  - eapply node_fields_at; eassumption.
  - exists bs'. intros k Hk. split; eapply heap_blocks_Rep; try eassumption.
    + exact (heap_rep _ _ _ _ H1).
    + exact (heap_rep _ _ _ _ H').
Qed.

(** X29. The first [Insert] into an index over a reachable allocator,
    run with more loop rounds than the heap has blocks, returns. When
    the allocator has no room it changes nothing; otherwise the node
    becomes the entry point, its fields read back as written with no
    neighbours, only the first 24 bytes of its payload are written, and
    the blocks of the heap are as [Allocate] left them. *)
Theorem Insert_first_node st L fuel id vo k bs :
  reachable st L -> 0 <= id < 2 ^ 32 -> 0 <= vo < 2 ^ 64 ->
  heap_blocks k st = Done bs -> (length bs < fuel)%nat ->
  exists p st1 ix',
    Allocate fuel sizeof_HNSWNode st = Done (p, st1) /\
    Insert fuel id vo (mkIndex st 0) = Done ix' /\
    m_entry_point_offset ix' = p /\
    (p = 0 -> m_allocator ix' = st) /\
    (p <> 0 ->
       node_fields (m_allocator ix') p = Done (id, vo, 0) /\
       (forall a, a < p \/ p + 24 <= a -> bt (m_allocator ix') a = bt st1 a) /\
       exists bs', forall k', (length bs' < k')%nat ->
         heap_blocks k' st1 = Done bs' /\ heap_blocks k' (m_allocator ix') = Done bs').
Proof.
  intros Hr Hid Hvo Hw Hfuel.
  assert (Hn : 0 < sizeof_HNSWNode <= 2 ^ 64 - 192) by (unfold sizeof_HNSWNode; lia).
  destruct (Allocate_returns _ _ _ _ _ _ Hr Hn Hw Hfuel) as (p & st1 & Ha).
  destruct (Insert_first_served _ _ _ _ _ _ _ Hr Hid Hvo Ha) as (ix' & H).
  exists p, st1, ix'. split; [exact Ha|exact H].
Qed.

Lemma Insert_first_node_witness :
  exists p st1 ix',
    Allocate 2 sizeof_HNSWNode fresh_1024 = Done (p, st1) /\
    Insert 2 7 4096 (mkIndex fresh_1024 0) = Done ix' /\
    m_entry_point_offset ix' = p /\
    (p = 0 -> m_allocator ix' = fresh_1024) /\
    (p <> 0 ->
       node_fields (m_allocator ix') p = Done (7, 4096, 0) /\
       (forall a, a < p \/ p + 24 <= a -> bt (m_allocator ix') a = bt st1 a) /\
       exists bs', forall k', (length bs' < k')%nat ->
         heap_blocks k' st1 = Done bs' /\ heap_blocks k' (m_allocator ix') = Done bs').
Proof.
  apply (Insert_first_node fresh_1024 [] 2 7 4096 2 [(64, 1024, true)]).
  - exact reachable_fresh_1024.
  - lia.
  - lia.
  - vm_compute. reflexivity.
  - simpl. lia.
Defined.

(** X30. [Insert] into an index that has an entry point, when the
    allocator serves the node: the entry point stays, the new node reads
    back with the entry point as its one neighbour, and the entry point
    gets the new node as its next neighbour while it has fewer than 16;
    once it has 16 it is left as it is, so the link is one way. *)
Theorem Insert_links_to_entry ix L fuel id vo p st1 ide voe c :
  built ix L -> 0 <= id < 2 ^ 32 -> 0 <= vo < 2 ^ 64 ->
  m_entry_point_offset ix <> 0 ->
  node_fields (m_allocator ix) (m_entry_point_offset ix) = Done (ide, voe, c) ->
  Allocate fuel sizeof_HNSWNode (m_allocator ix) = Done (p, st1) -> p <> 0 ->
  exists ix',
    Insert fuel id vo ix = Done ix' /\
    m_entry_point_offset ix' = m_entry_point_offset ix /\
    node_fields (m_allocator ix') p = Done (id, vo, 1) /\
    neighbor (m_allocator ix') p 0 = Done (m_entry_point_offset ix) /\
    (c < 16 ->
       node_fields (m_allocator ix') (m_entry_point_offset ix) = Done (ide, voe, c + 1) /\
       neighbor (m_allocator ix') (m_entry_point_offset ix) c = Done p) /\
    (16 <= c ->
       node_fields (m_allocator ix') (m_entry_point_offset ix) = Done (ide, voe, c)).
Proof.
  intros Hb Hid Hvo He0 Hf Ha Hp0.
  destruct (built_indexed _ _ Hb) as [(_ & _ & _ & E0)|(Hu & bs & fl & H & He)];
    [contradiction|].
  pose proof He as [|(se & Hine & Hse)]; [contradiction|].
  pose proof (node_fields_inv _ _ _ _ _ _ _ _ _ H Hine Hse Hf) as Hne.
  assert (Hc0 : 0 <= c).
  { destruct Hne as (_ & _ & <-). apply (read_le_range _ 4). }
  destruct (Insert_served _ _ _ _ _ _ _ _ _ H He Hid Hvo Ha Hp0)
    as (ix2 & bs' & fl' & sx & E & _ & H' & Hsp & Hin & Hsx & Hkeep & _ & Hnz).
  destruct (Hnz He0) as (Ee & Hn & Hnb & Hentry).
  destruct (Hentry _ _ _ Hne) as [Hlt Hge].
  pose proof (Hkeep _ Hine eq_refl) as Hine'.
  exists ix2. split; [exact E|]. split; [exact Ee|].
  split; [eapply node_fields_at; eassumption|]. split; [|split].
  - rewrite (neighbor_at _ _ _ _ _ _ 0 H' Hin Hsx) by lia.
    f_equal. rewrite <- Hnb. f_equal. lia.
  - intros Hc. destruct (Hlt Hc) as [Hn' Hnb']. split.
    + eapply node_fields_at; eassumption.
    + rewrite (neighbor_at _ _ _ _ _ _ c H' Hine' Hse) by lia. now f_equal.
  - intros Hc. eapply node_fields_at; try eassumption. now apply Hge.
Qed.


Lemma built_index_one : built index_one [128].
Proof.
  apply (built_insert (mkIndex fresh_1024 0) [] 1 7 4096 128
           (snd (result (Allocate 1 sizeof_HNSWNode fresh_1024) (0, fresh_1024)))).
  - apply built_empty. exact reachable_fresh_1024.
  - lia.
  - lia.
  - apply finished_pair; vm_compute; reflexivity.
  - apply finished_result. vm_compute. reflexivity.
Qed.

Lemma Insert_links_to_entry_witness :
  exists ix',
    Insert 1 8 8192 index_one = Done ix' /\
    m_entry_point_offset ix' = m_entry_point_offset index_one /\
    node_fields (m_allocator ix') 448 = Done (8, 8192, 1) /\
    neighbor (m_allocator ix') 448 0 = Done (m_entry_point_offset index_one) /\
    (0 < 16 ->
       node_fields (m_allocator ix') (m_entry_point_offset index_one) = Done (7, 4096, 0 + 1) /\
       neighbor (m_allocator ix') (m_entry_point_offset index_one) 0 = Done 448) /\
    (16 <= 0 ->
       node_fields (m_allocator ix') (m_entry_point_offset index_one) = Done (7, 4096, 0)).
Proof.
  apply (Insert_links_to_entry index_one [128] 1 8 8192 448
           (snd (result (Allocate 1 sizeof_HNSWNode (m_allocator index_one))
                        (0, m_allocator index_one)))).
  - exact built_index_one.
  - lia.
  - lia.
  - vm_compute. discriminate.
  - vm_compute. reflexivity.
  - apply finished_pair; vm_compute; reflexivity.
  - lia.
Defined.

End HNSWSpec.
